(** * Valorant patch-notes knowledge graph: ingestion and retrieval

    A shallow embedding of the ingestion pipeline ([ingest/simple_html.py],
    [ingest/parse_patch.py], [ingest/fetch_current_patch.py],
    [ingest/fetch_agents.py], [ingest/load_neo4j.py]) and of the retriever
    and its answers ([rag/retriever.py], [rag/answer.py], [rag/cli.py]),
    followed by the properties proved about them.

    Conventions.
    - A Python [str] is a [string]; its characters are read as the code
      points 0..255, and the character classes below ([isspace], [lower],
      the regular-expression classes) are those of Python on that range.
    - A Python [list] is a [list] whose last element is the most recently
      appended one; a [dict] with string keys is an association list kept
      in insertion order; a [set] is used through membership only.
    - The HTML tokenizer of the standard library, [urljoin] and the
      full-text index of the graph store are not part of the program: they
      are parameters of the definitions that call them.
    - The graph store is a labelled multigraph on which the Cypher
      statements issued by the program are interpreted clause by clause. *)

From Stdlib Require Import List Bool Arith Lia ZArith Ascii String.
From Stdlib Require Import QArith DecimalString DecimalNat Sorted Permutation.
From Stdlib Require Import OrderedTypeEx.
Import ListNotations.
Open Scope string_scope.
Open Scope nat_scope.
Open Scope list_scope.

(** ** Python string primitives *)

Module PyStr.

Definition code (c : ascii) : nat := nat_of_ascii c.

Definition in_range (lo hi : nat) (c : ascii) : bool :=
  (lo <=? code c) && (code c <=? hi).

(** [str.isspace] on one character: TAB..CR, FS..US, space, NEL, NBSP. *)
Definition isspace (c : ascii) : bool :=
  in_range 9 13 c || in_range 28 32 c || (code c =? 133) || (code c =? 160).

(** The class [\d] of [re] on text patterns. *)
Definition isdigit (c : ascii) : bool := in_range 48 57 c.

(** The class [\w] of [re] on text patterns: [str.isalnum] or underscore. *)
Definition isword (c : ascii) : bool :=
  isdigit c || in_range 65 90 c || in_range 97 122 c || (code c =? 95)
  || (code c =? 170) || (code c =? 178) || (code c =? 179) || (code c =? 181)
  || (code c =? 185) || (code c =? 186) || in_range 188 190 c
  || in_range 192 214 c || in_range 216 246 c || in_range 248 255 c.

Definition isupper (c : ascii) : bool :=
  in_range 65 90 c || (in_range 192 222 c && negb (code c =? 215)).

Definition lower_char (c : ascii) : ascii :=
  if isupper c then ascii_of_nat (code c + 32) else c.

(** [s.lower()] *)
Fixpoint lower (s : string) : string :=
  match s with
  | EmptyString => EmptyString
  | String c s' => String (lower_char c) (lower s')
  end.

Fixpoint lstrip (s : string) : string :=
  match s with
  | EmptyString => EmptyString
  | String c s' => if isspace c then lstrip s' else s
  end.

Fixpoint rstrip (s : string) : string :=
  match s with
  | EmptyString => EmptyString
  | String c s' =>
      match rstrip s' with
      | EmptyString => if isspace c then EmptyString else String c EmptyString
      | r => String c r
      end
  end.

(** [s.strip()] *)
Definition strip (s : string) : string := lstrip (rstrip s).

(** [s.split()]: the maximal runs of non-whitespace characters. *)
Fixpoint split (s : string) : list string :=
  match s with
  | EmptyString => []
  | String c s' =>
      if isspace c then split s'
      else match s' with
           | EmptyString => [String c EmptyString]
           | String c' _ =>
               if isspace c' then String c EmptyString :: split s'
               else match split s' with
                    | w :: ws => String c w :: ws
                    | [] => [String c EmptyString]
                    end
           end
  end.

(** [sep.join(parts)] *)
Definition join (sep : string) (parts : list string) : string :=
  String.concat sep parts.

(** [s.startswith(p)] *)
Fixpoint startswith (p s : string) : bool :=
  match p, s with
  | EmptyString, _ => true
  | String a p', String b s' => Ascii.eqb a b && startswith p' s'
  | String _ _, EmptyString => false
  end.

(** [sub in s] *)
Fixpoint contains (sub s : string) : bool :=
  startswith sub s
  || match s with
     | EmptyString => false
     | String _ s' => contains sub s'
     end.

(** [x in xs] for a list, tuple or set of strings. *)
Definition mem (x : string) (xs : list string) : bool :=
  existsb (String.eqb x) xs.

Definition is_empty (s : string) : bool :=
  match s with EmptyString => true | _ => false end.

(** [str(n)] and [f"{n}"] for a non-negative integer. *)
Definition str_of_nat (n : nat) : string :=
  NilZero.string_of_uint (Nat.to_uint n).

(** [f"{n:02d}"] *)
Definition str_of_nat_02d (n : nat) : string :=
  if n <? 10 then ("0" ++ str_of_nat n)%string else str_of_nat n.

Definition digit_value (c : ascii) : nat := code c - 48.

(** [int(s)] for a string of decimal digits. *)
Definition int_of_digits (s : string) : nat :=
  fold_left (fun acc c => 10 * acc + digit_value c) (list_ascii_of_string s) 0.

(** *** The regular expressions of the program *)

(** One to two digits, greedy: the candidates in the order the backtracking
    matcher tries them, each with the rest of the subject. *)
Definition digits_1_2 (s : string) : list (string * string) :=
  match s with
  | String a (String b r) =>
      if isdigit a then
        if isdigit b then [(String a (String b ""), r); (String a "", String b r)]
        else [(String a "", String b r)]
      else []
  | String a r => if isdigit a then [(String a "", r)] else []
  | EmptyString => []
  end.

Definition is_sep (c : ascii) : bool := (code c =? 45) || (code c =? 46).

Definition next_is_word (s : string) : bool :=
  match s with
  | String c _ => isword c
  | EmptyString => false
  end.

(** The first element of a list of attempts that succeeds. *)
Fixpoint first_some {A B : Type} (f : A -> option B) (l : list A) : option B :=
  match l with
  | [] => None
  | x :: l' => match f x with Some y => Some y | None => first_some f l' end
  end.

(** [(\d{1,2})[.-](\d{1,2})] matched at the start of [s]; with [wb] the
    pattern is enclosed in [\b ... \b] and [prev_word] tells whether the
    character before [s] is a word character. *)
Definition match_patch_id_at (wb prev_word : bool) (s : string)
  : option (nat * nat) :=
  if wb && prev_word then None
  else
    first_some
      (fun '(g1, r1) =>
         match r1 with
         | String c r2 =>
             if is_sep c then
               first_some
                 (fun '(g2, r3) =>
                    if wb && next_is_word r3 then None
                    else Some (int_of_digits g1, int_of_digits g2))
                 (digits_1_2 r2)
             else None
         | EmptyString => None
         end)
      (digits_1_2 s).

(** [re.search]: the match at the leftmost position that has one. *)
Fixpoint search_patch_id_from (wb prev_word : bool) (s : string)
  : option (nat * nat) :=
  match match_patch_id_at wb prev_word s with
  | Some m => Some m
  | None =>
      match s with
      | EmptyString => None
      | String c s' => search_patch_id_from wb (isword c) s'
      end
  end.

Definition search_patch_id (wb : bool) (s : string) : option (nat * nat) :=
  search_patch_id_from wb false s.

(** A pattern of fixed length: one character class per position. *)
Fixpoint match_classes (pat : list (ascii -> bool)) (s : string) : bool :=
  match pat, s with
  | [], _ => true
  | p :: pat', String c s' => p c && match_classes pat' s'
  | _ :: _, EmptyString => false
  end.

Fixpoint search_classes (pat : list (ascii -> bool)) (s : string) : bool :=
  match_classes pat s
  || match s with
     | EmptyString => false
     | String _ s' => search_classes pat s'
     end.

Definition lit (a : ascii) : ascii -> bool := Ascii.eqb a.

(** [\d{4}-\d{2}-\d{2}t\d{2}:\d{2}] *)
Definition ISO_DATETIME : list (ascii -> bool) :=
  [isdigit; isdigit; isdigit; isdigit; lit "-"; isdigit; isdigit; lit "-";
   isdigit; isdigit; lit "t"; isdigit; isdigit; lit ":"; isdigit; isdigit].

Definition is_lower_alnum (c : ascii) : bool :=
  in_range 97 122 c || isdigit c.

(** [re.sub(r"[^a-z0-9]+", " ", s)]: [in_run] holds while the characters
    just read belong to a run that has already been replaced. *)
Fixpoint sub_non_alnum (in_run : bool) (s : string) : string :=
  match s with
  | EmptyString => EmptyString
  | String c s' =>
      if is_lower_alnum c then String c (sub_non_alnum false s')
      else if in_run then sub_non_alnum true s'
      else String " " (sub_non_alnum true s')
  end.

End PyStr.

(** [normalize_space], defined identically in [simple_html.py],
    [fetch_current_patch.py] and [fetch_agents.py]. *)
Definition normalize_space (value : string) : string :=
  PyStr.join " " (PyStr.split value).

(** ** [ingest/simple_html.py]: the event tokenizer *)

Module SimpleHtml.

(** A [dict] from strings to strings, in insertion order. *)
Definition Dict := list (string * string).

Fixpoint dict_get (d : Dict) (key : string) : option string :=
  match d with
  | [] => None
  | (k, v) :: d' => if String.eqb k key then Some v else dict_get d' key
  end.

Fixpoint dict_set (d : Dict) (key value : string) : Dict :=
  match d with
  | [] => [(key, value)]
  | (k, v) :: d' =>
      if String.eqb k key then (k, value) :: d' else (k, v) :: dict_set d' key value
  end.

(** [d.get(key, default)] *)
Definition dict_get_default (d : Dict) (key default : string) : string :=
  match dict_get d key with
  | Some v => v
  | None => default
  end.

Record ElementEvent := {
  tag : string;
  attrs : Dict;
  text : string;
  parents : list string
}.

Record ParsedHTML := {
  title : option string;
  metas : list Dict;
  events : list ElementEvent
}.

(** The callbacks [HTMLParser.feed] and [close] make on a [_Collector], in
    order ([handle_startendtag] is a start tag followed by an end tag). *)
Inductive Token :=
| StartTag (tag : string) (attrs : list (string * option string))
| EndTag (tag : string)
| Data (data : string).

Definition INTERESTING_TAGS : list string :=
  ["a"; "h1"; "h2"; "h3"; "p"; "li"; "time"; "title"].

Record Capture := {
  cap_tag : string;
  cap_attrs : Dict;
  cap_parents : list string;
  cap_text_parts : list string
}.

Record Collector := {
  _stack : list string;
  _capture_stack : list Capture;
  col_events : list ElementEvent;
  col_metas : list Dict
}.

Definition new_collector : Collector :=
  {| _stack := []; _capture_stack := []; col_events := []; col_metas := [] |}.

(** [{key: (value or "") for key, value in attrs}] *)
Definition attrs_dict_of (attrs : list (string * option string)) : Dict :=
  fold_left
    (fun d kv =>
       dict_set d (fst kv)
         (match snd kv with Some v => v | None => "" end))
    attrs [].

Definition handle_starttag (self : Collector) (tag : string)
    (attrs : list (string * option string)) : Collector :=
  let attrs_dict := attrs_dict_of attrs in
  let stack := _stack self ++ [tag] in
  let metas :=
    if String.eqb tag "meta" then col_metas self ++ [attrs_dict]
    else col_metas self in
  let captures :=
    if PyStr.mem tag INTERESTING_TAGS then
      _capture_stack self
        ++ [{| cap_tag := tag; cap_attrs := attrs_dict;
               cap_parents := removelast stack; cap_text_parts := [] |}]
    else _capture_stack self in
  {| _stack := stack; _capture_stack := captures;
     col_events := col_events self; col_metas := metas |}.

(** Delete the first occurrence of [x]. *)
Fixpoint remove_first (x : string) (l : list string) : list string :=
  match l with
  | [] => []
  | y :: l' => if String.eqb y x then l' else y :: remove_first x l'
  end.

(** The downward scan of [handle_endtag]: delete the occurrence of [x]
    nearest to the top of the stack. *)
Definition remove_last_occurrence (x : string) (l : list string) : list string :=
  rev (remove_first x (rev l)).

Definition top_capture_is (tag : string) (captures : list Capture) : bool :=
  match rev captures with
  | [] => false
  | c :: _ => String.eqb (cap_tag c) tag
  end.

Definition handle_endtag (self : Collector) (tag : string) : Collector :=
  let '(captures, events) :=
    if top_capture_is tag (_capture_stack self) then
      match rev (_capture_stack self) with
      | capture :: _ =>
          let text := normalize_space (PyStr.join "" (cap_text_parts capture)) in
          (removelast (_capture_stack self),
           col_events self
             ++ [{| tag := cap_tag capture; attrs := cap_attrs capture;
                    text := text; parents := cap_parents capture |}])
      | [] => (_capture_stack self, col_events self)
      end
    else (_capture_stack self, col_events self) in
  {| _stack := remove_last_occurrence tag (_stack self);
     _capture_stack := captures;
     col_events := events; col_metas := col_metas self |}.

Definition handle_data (self : Collector) (data : string) : Collector :=
  if PyStr.is_empty data then self
  else
    match _capture_stack self with
    | [] => self
    | captures =>
        {| _stack := _stack self;
           _capture_stack :=
             map (fun capture =>
                    {| cap_tag := cap_tag capture; cap_attrs := cap_attrs capture;
                       cap_parents := cap_parents capture;
                       cap_text_parts :=
                         cap_text_parts capture ++ [(" " ++ data ++ " ")%string] |})
                 captures;
           col_events := col_events self; col_metas := col_metas self |}
    end.

Definition handle (self : Collector) (t : Token) : Collector :=
  match t with
  | StartTag tag attrs => handle_starttag self tag attrs
  | EndTag tag => handle_endtag self tag
  | Data data => handle_data self data
  end.

(** [parse_html] on the callback sequence of the markup. *)
Definition parse_tokens (tokens : list Token) : ParsedHTML :=
  let collector := fold_left handle tokens new_collector in
  let title :=
    match
      find (fun event =>
              String.eqb (tag event) "title" && negb (PyStr.is_empty (text event)))
           (col_events collector)
    with
    | Some event => Some (text event)
    | None => None
    end in
  {| title := title; metas := col_metas collector;
     events := col_events collector |}.

Section WithTokenizer.

(** [HTMLParser(convert_charrefs=True)] as the map from a markup string to
    the callbacks it triggers. *)
Variable tokenize : string -> list Token.

Definition parse_html (html : string) : ParsedHTML :=
  parse_tokens (tokenize html).

End WithTokenizer.

End SimpleHtml.

(** ** [ingest/parse_patch.py]: the content segmenter *)

Module ParsePatch.
Import SimpleHtml.

Definition NOISE_HEADINGS : list string :=
  ["share"; "copy link"; "riot games"; "news"; "play now"; "related articles"].

Definition NOISE_CHANGES : list string :=
  ["share"; "copy link"; "read more"; "learn more"].

(** [f"{major}.{minor:02d}"] *)
Definition format_version (major minor : nat) : string :=
  (PyStr.str_of_nat major ++ "." ++ PyStr.str_of_nat_02d minor)%string.

(** [PATCH_ID_RE] of this module is [\b(\d{1,2})[.-](\d{1,2})\b]. *)
Fixpoint find_patch_id (values : list string) : option string :=
  match values with
  | [] => None
  | value :: rest =>
      match PyStr.search_patch_id true value with
      | Some (major, minor) => Some (format_version major minor)
      | None => find_patch_id rest
      end
  end.

Definition has_parent (name : string) (event : ElementEvent) : bool :=
  PyStr.mem name (parents event).

Definition scoped_events (parsed : ParsedHTML) : list ElementEvent :=
  if existsb (has_parent "article") (events parsed) then
    filter (has_parent "article") (events parsed)
  else if existsb (has_parent "main") (events parsed) then
    filter (has_parent "main") (events parsed)
  else events parsed.

Fixpoint extract_meta_from (metas : list Dict) (key value : string)
  : option string :=
  match metas with
  | [] => None
  | meta :: rest =>
      match dict_get meta key with
      | Some v =>
          if String.eqb v value then
            let content := normalize_space (dict_get_default meta "content" "") in
            if PyStr.is_empty content then extract_meta_from rest key value
            else Some content
          else extract_meta_from rest key value
      | None => extract_meta_from rest key value
      end
  end.

Definition extract_meta (parsed : ParsedHTML) (key value : string)
  : option string :=
  extract_meta_from (metas parsed) key value.

Definition extract_title (parsed : ParsedHTML) (events : list ElementEvent)
  : string :=
  match extract_meta parsed "property" "og:title" with
  | Some og_title => og_title
  | None =>
      match
        find (fun event =>
                String.eqb (tag event) "h1" && negb (PyStr.is_empty (text event)))
             events
      with
      | Some event => text event
      | None =>
          match title parsed with
          | Some t => if PyStr.is_empty t then "Valorant Patch Notes" else t
          | None => "Valorant Patch Notes"
          end
      end
  end.

Fixpoint first_time (events : list ElementEvent) : option string :=
  match events with
  | [] => None
  | event :: rest =>
      if negb (String.eqb (tag event) "time") then first_time rest
      else
        match dict_get (attrs event) "datetime" with
        | Some d =>
            if negb (PyStr.is_empty d) then Some (normalize_space d)
            else if negb (PyStr.is_empty (text event)) then Some (text event)
            else first_time rest
        | None =>
            if negb (PyStr.is_empty (text event)) then Some (text event)
            else first_time rest
        end
  end.

Definition extract_published_at (parsed : ParsedHTML)
    (events : list ElementEvent) : option string :=
  match extract_meta parsed "property" "article:published_time" with
  | Some published => Some published
  | None => first_time events
  end.

Definition should_keep_heading (text : string) : bool :=
  let normalized := PyStr.strip (PyStr.lower text) in
  if PyStr.is_empty normalized then false
  else negb (PyStr.mem normalized NOISE_HEADINGS).

Definition should_keep_change (text : string) : bool :=
  let normalized := PyStr.strip (PyStr.lower text) in
  if PyStr.is_empty normalized then false
  else if PyStr.mem normalized NOISE_CHANGES then false
  else if PyStr.startswith "related articles" normalized then false
  else if PyStr.contains "game updates" normalized
          && PyStr.contains "patch notes" normalized then false
  else if PyStr.search_classes PyStr.ISO_DATETIME normalized then false
  else if String.length normalized <? 12 then false
  else if 500 <? String.length normalized then false
  else true.

(** An entry of [raw_sections]: [{"name": ..., "changes": [...]}]. *)
Record RawSection := {
  raw_name : string;
  raw_changes : list string
}.

(** The state of the segmentation loop.  [current_section] is a reference
    to one of the dictionaries held by [raw_sections]: it is kept as the
    position of that dictionary in the list. *)
Record WalkState := {
  raw_sections : list RawSection;
  current_section : nat;
  seen_changes : list (string * string)
}.

Definition initial_state : WalkState :=
  {| raw_sections := [{| raw_name := "General"; raw_changes := [] |}];
     current_section := 0;
     seen_changes := [] |}.

Definition current_name (st : WalkState) : string :=
  match nth_error (raw_sections st) (current_section st) with
  | Some section => raw_name section
  | None => ""
  end.

Definition pair_eqb (a b : string * string) : bool :=
  String.eqb (fst a) (fst b) && String.eqb (snd a) (snd b).

Definition seen (key : string * string) (st : WalkState) : bool :=
  existsb (pair_eqb key) (seen_changes st).

(** [section["changes"].append(text)] on the dictionary at position [i]. *)
Fixpoint append_change_at (i : nat) (text : string) (l : list RawSection)
  : list RawSection :=
  match l, i with
  | [], _ => []
  | section :: rest, 0 =>
      {| raw_name := raw_name section;
         raw_changes := raw_changes section ++ [text] |} :: rest
  | section :: rest, S j => section :: append_change_at j text rest
  end.

Inductive Outcome :=
| Continue (st : WalkState)
| Break.

(** One iteration of the loop over the scoped events. *)
Definition step (event : ElementEvent) (st : WalkState) : Outcome :=
  if negb (PyStr.mem (tag event) ["h2"; "h3"; "li"; "p"]) then Continue st
  else
    let text := normalize_space (text event) in
    if PyStr.is_empty text then Continue st
    else if PyStr.mem (tag event) ["h2"; "h3"] then
      let heading_normalized := PyStr.strip (PyStr.lower text) in
      if String.eqb heading_normalized "related articles" then Break
      else if should_keep_heading text then
        Continue
          {| raw_sections :=
               raw_sections st ++ [{| raw_name := text; raw_changes := [] |}];
             current_section := List.length (raw_sections st);
             seen_changes := seen_changes st |}
      else Continue st
    else if String.eqb (tag event) "p" && has_parent "li" event then Continue st
    else if should_keep_change text then
      let dedupe_key := (current_name st, text) in
      if negb (seen dedupe_key st) then
        Continue
          {| raw_sections :=
               append_change_at (current_section st) text (raw_sections st);
             current_section := current_section st;
             seen_changes := dedupe_key :: seen_changes st |}
      else Continue st
    else Continue st.

Fixpoint walk (events : list ElementEvent) (st : WalkState) : WalkState :=
  match events with
  | [] => st
  | event :: rest =>
      match step event st with
      | Continue st' => walk rest st'
      | Break => st
      end
  end.

Record Change := {
  change_id : string;
  change_text : string;
  section_name : string;
  source_url : string;
  change_order : nat
}.

Record Section := {
  section_id : string;
  name : string;
  order : nat;
  changes : list Change
}.

Record Patch := {
  patch_id : string;
  patch_title : string;
  url : string;
  published_at : option string
}.

Record PatchDocument := {
  patch : Patch;
  sections : list Section
}.

(** [enumerate(xs)] *)
Definition enumerate {A : Type} (xs : list A) : list (nat * A) :=
  combine (seq 0 (List.length xs)) xs.

Definition build_changes (section_id section_name source_url : string)
    (texts : list string) : list Change :=
  map (fun '(change_index, change_text) =>
         {| change_id :=
              (section_id ++ "-c" ++ PyStr.str_of_nat change_index)%string;
            change_text := change_text;
            section_name := section_name;
            source_url := source_url;
            change_order := change_index |})
      (enumerate texts).

(** The loop that turns [raw_sections] into [sections]; [sections] is the
    list built so far. *)
Fixpoint build_sections (patch_id source_url : string)
    (raws : list (nat * RawSection)) (sections : list Section) : list Section :=
  match raws with
  | [] => sections
  | (section_index, raw_section) :: rest =>
      match raw_changes raw_section with
      | [] => build_sections patch_id source_url rest sections
      | _ :: _ =>
          let section_id :=
            (patch_id ++ "-s" ++ PyStr.str_of_nat (List.length sections))%string in
          let section_name := raw_name raw_section in
          let changes :=
            build_changes section_id section_name source_url
              (raw_changes raw_section) in
          build_sections patch_id source_url rest
            (sections
               ++ [{| section_id := section_id; name := section_name;
                      order := section_index; changes := changes |}])
      end
  end.

(** [raw_sections] when the segmentation loop ends. *)
Definition segment (parsed : ParsedHTML) : list RawSection :=
  raw_sections (walk (scoped_events parsed) initial_state).

(** [parse_patch_notes_html] after the call to [parse_html]. *)
Definition parse_patch_notes_parsed (parsed : ParsedHTML) (source_url : string)
  : PatchDocument :=
  let events := scoped_events parsed in
  let title := extract_title parsed events in
  let patch_id :=
    match find_patch_id [title; source_url] with
    | Some v => v
    | None => "latest"
    end in
  let published_at := extract_published_at parsed events in
  {| patch := {| patch_id := patch_id; patch_title := title;
                 url := source_url; published_at := published_at |};
     sections :=
       build_sections patch_id source_url (enumerate (segment parsed)) [] |}.

Section WithTokenizer.

Variable tokenize : string -> list Token.

Definition parse_patch_notes_html (html source_url : string) : PatchDocument :=
  parse_patch_notes_parsed (parse_html tokenize html) source_url.

End WithTokenizer.

End ParsePatch.

(** ** [ingest/fetch_current_patch.py]: the link candidate extractor *)

(** A Python call that either returns or raises. *)
Inductive result (E A : Type) :=
| Ok (value : A)
| Raise (error : E).
Arguments Ok {E A} value.
Arguments Raise {E A} error.

Module FetchCurrentPatch.
Import SimpleHtml.

Definition BASE_URL : string := "https://playvalorant.com".

(** [PATCH_ID_RE] of this module is [(\d{1,2})[-.](\d{1,2})], without word
    boundaries. *)
Definition parse_patch_id (value : string) : option (nat * nat) :=
  PyStr.search_patch_id false value.

Definition format_patch_id (parts : option (nat * nat)) : option string :=
  match parts with
  | None => None
  | Some (major, minor) =>
      Some (PyStr.str_of_nat major ++ "." ++ PyStr.str_of_nat_02d minor)%string
  end.

Record Candidate := {
  title : string;
  url : string;
  patch_tuple : option (nat * nat);
  order : nat
}.

Record PatchLink := {
  link_title : string;
  link_url : string;
  link_patch_id : option string
}.

(** The sort key [(major, minor, -order)]; it is only computed on
    candidates that have a version. *)
Definition sort_key (item : Candidate) : nat * nat * Z :=
  match patch_tuple item with
  | Some (major, minor) => (major, minor, (- Z.of_nat (order item))%Z)
  | None => (0, 0, 0%Z)
  end.

(** [a < b] on key tuples. *)
Definition key_ltb (a b : nat * nat * Z) : bool :=
  let '(a1, a2, a3) := a in
  let '(b1, b2, b3) := b in
  (a1 <? b1) || ((a1 =? b1) && ((a2 <? b2) || ((a2 =? b2) && (a3 <? b3)%Z))).

(** [list.sort(key=sort_key, reverse=True)]: descending, and stable (items
    with equal keys keep their relative order), which determines the
    result. *)
Fixpoint insert_desc (item : Candidate) (sorted : list Candidate)
  : list Candidate :=
  match sorted with
  | [] => [item]
  | other :: rest =>
      if key_ltb (sort_key item) (sort_key other)
      then other :: insert_desc item rest
      else item :: other :: rest
  end.

Fixpoint sort_desc (items : list Candidate) : list Candidate :=
  match items with
  | [] => []
  | item :: rest => insert_desc item (sort_desc rest)
  end.

(** [min(items, key=order)] on [best :: items]: the first of the minimal
    items. *)
Fixpoint min_by_order (best : Candidate) (items : list Candidate) : Candidate :=
  match items with
  | [] => best
  | item :: rest =>
      min_by_order (if order item <? order best then item else best) rest
  end.

Definition has_version (item : Candidate) : bool :=
  match patch_tuple item with Some _ => true | None => false end.

(** The choice of [selected] among the candidates. *)
Definition select (candidates : list Candidate) : option Candidate :=
  match candidates with
  | [] => None
  | first :: others =>
      match sort_desc (filter has_version candidates) with
      | selected :: _ => Some selected
      | [] => Some (min_by_order first others)
      end
  end.

Section WithUrljoin.

(** [urllib.parse.urljoin] *)
Variable urljoin : string -> string -> string.

(** The loop over the enumerated anchors; [candidates] and [seen_urls] are
    the values built so far. *)
Fixpoint collect (base_url : string) (anchors : list (nat * ElementEvent))
    (candidates : list Candidate) (seen_urls : list string) : list Candidate :=
  match anchors with
  | [] => candidates
  | (index, anchor) :: rest =>
      let href := PyStr.strip (dict_get_default (attrs anchor) "href" "") in
      if PyStr.is_empty href then collect base_url rest candidates seen_urls
      else
        let lowered_href := PyStr.lower href in
        if negb (PyStr.contains "patch-notes" lowered_href) then
          collect base_url rest candidates seen_urls
        else if PyStr.contains "/news/tags/patch-notes" lowered_href then
          collect base_url rest candidates seen_urls
        else if negb (PyStr.contains "/news/" lowered_href) then
          collect base_url rest candidates seen_urls
        else
          let url := urljoin base_url href in
          if PyStr.mem url seen_urls then
            collect base_url rest candidates seen_urls
          else
            let title := normalize_space (text anchor) in
            let patch_tuple :=
              match parse_patch_id url with
              | Some parts => Some parts
              | None => parse_patch_id title
              end in
            collect base_url rest
              (candidates
                 ++ [{| title := if PyStr.is_empty title
                                 then "Valorant Patch Notes" else title;
                        url := url;
                        patch_tuple := patch_tuple;
                        order := index |}])
              (url :: seen_urls)
  end.

Definition candidates_of (parsed : ParsedHTML) (base_url : string)
  : list Candidate :=
  collect base_url
    (ParsePatch.enumerate
       (filter (fun event => String.eqb (tag event) "a") (events parsed)))
    [] [].

(** [extract_current_patch_link] after the call to [parse_html]. *)
Definition extract_current_patch_link_parsed (parsed : ParsedHTML)
    (base_url : string) : result string PatchLink :=
  match select (candidates_of parsed base_url) with
  | None => Raise "Could not find any patch-notes links on the tag page."
  | Some selected =>
      Ok {| link_title := title selected;
            link_url := url selected;
            link_patch_id := format_patch_id (patch_tuple selected) |}
  end.

Variable tokenize : string -> list Token.

Definition extract_current_patch_link (html base_url : string)
  : result string PatchLink :=
  extract_current_patch_link_parsed (parse_html tokenize html) base_url.

End WithUrljoin.

End FetchCurrentPatch.

(** ** The graph store

    The store is a multigraph: nodes carry an internal identity, one label,
    their natural key ([id], or [uuid] for agents) and the other properties
    the program writes; relationships are directed and typed.  Nothing in
    the model prevents two nodes with the same label and key or two equal
    relationships; the Cypher clauses below are given their meaning on any
    such graph. *)

Module Graph.

Inductive Label := Patch | Section | Change | Agent.

Inductive RelType := HAS_SECTION | HAS_CHANGE | MENTIONS_AGENT.

(** The properties of a node other than its key. *)
Inductive Props :=
| PatchProps (title url : string) (published_at : option string)
| SectionProps (name : string) (order : nat) (patch_id : string)
| ChangeProps (text section_name source_url : string) (order : nat)
| AgentProps (name : string) (role icon_url : option string)
    (abilities : list string) (aliases : option (list string)).

Record Node := {
  nid : nat;
  label : Label;
  key : string;
  props : Props
}.

Record Rel := {
  rel : RelType;
  src : nat;
  dst : nat
}.

Record Store := {
  nodes : list Node;
  rels : list Rel;
  next_id : nat
}.

Definition empty : Store := {| nodes := []; rels := []; next_id := 0 |}.

Definition label_eqb (a b : Label) : bool :=
  match a, b with
  | Patch, Patch | Section, Section | Change, Change | Agent, Agent => true
  | _, _ => false
  end.

Definition reltype_eqb (a b : RelType) : bool :=
  match a, b with
  | HAS_SECTION, HAS_SECTION | HAS_CHANGE, HAS_CHANGE
  | MENTIONS_AGENT, MENTIONS_AGENT => true
  | _, _ => false
  end.

Definition rel_eqb (a b : Rel) : bool :=
  reltype_eqb (rel a) (rel b) && (src a =? src b) && (dst a =? dst b).

Definition mem_id (i : nat) (ids : list nat) : bool := existsb (Nat.eqb i) ids.

(** The pattern [(n:l {key: k})]. *)
Definition is_node (l : Label) (k : string) (n : Node) : bool :=
  label_eqb (label n) l && String.eqb (key n) k.

(** [MATCH (n:l {key: k})] *)
Definition match_nodes (l : Label) (k : string) (st : Store) : list Node :=
  filter (is_node l k) (nodes st).

Definition set_props (p : Props) (n : Node) : Node :=
  {| nid := nid n; label := label n; key := key n; props := p |}.

(** [MERGE (n:l {key: k}) SET n.<property> = ...]: the nodes that match all
    receive the properties; when none matches, one is created.  The
    identities of the nodes bound to [n] are returned. *)
Definition merge_node (l : Label) (k : string) (p : Props) (st : Store)
  : Store * list nat :=
  match match_nodes l k st with
  | [] =>
      ({| nodes := nodes st ++ [{| nid := next_id st; label := l; key := k; props := p |}];
          rels := rels st;
          next_id := S (next_id st) |},
       [next_id st])
  | matched =>
      ({| nodes := map (fun n => if is_node l k n then set_props p n else n) (nodes st);
          rels := rels st;
          next_id := next_id st |},
       map nid matched)
  end.

Definition has_rel (r : Rel) (st : Store) : bool := existsb (rel_eqb r) (rels st).

(** [MERGE (a)-[:t]->(b)] for bound [a] and [b]. *)
Definition merge_rel (t : RelType) (a b : nat) (st : Store) : Store :=
  let r := {| rel := t; src := a; dst := b |} in
  if has_rel r st then st
  else {| nodes := nodes st; rels := rels st ++ [r]; next_id := next_id st |}.

(** [DELETE r] for the relationships selected by [doomed]. *)
Definition delete_rels (doomed : Rel -> bool) (st : Store) : Store :=
  {| nodes := nodes st;
     rels := filter (fun r => negb (doomed r)) (rels st);
     next_id := next_id st |}.

(** [DETACH DELETE] of the nodes whose identities are in [ids]. *)
Definition detach_delete (ids : list nat) (st : Store) : Store :=
  {| nodes := filter (fun n => negb (mem_id (nid n) ids)) (nodes st);
     rels := filter (fun r => negb (mem_id (src r) ids || mem_id (dst r) ids))
               (rels st);
     next_id := next_id st |}.

(** The pattern [(a)-[:t]->(b:l)] from a bound [a]: one row per
    relationship and end node. *)
Definition out_rels (t : RelType) (l : Label) (a : nat) (st : Store)
  : list (Rel * Node) :=
  flat_map
    (fun r =>
       if reltype_eqb (rel r) t && (src r =? a) then
         map (fun b => (r, b))
             (filter (fun b => (nid b =? dst r) && label_eqb (label b) l) (nodes st))
       else [])
    (rels st).

Definition out_nodes (t : RelType) (l : Label) (a : nat) (st : Store) : list Node :=
  map snd (out_rels t l a st).

(** [MATCH (p:Patch {id: patch_id})-[:HAS_SECTION]->(s:Section)]: the
    sections, one per row. *)
Definition patch_sections (patch_id : string) (st : Store) : list Node :=
  flat_map (fun p => out_nodes HAS_SECTION Section (nid p) st)
           (match_nodes Patch patch_id st).

(** [MATCH (p:Patch {id: patch_id})-[:HAS_SECTION]->(:Section)-[:HAS_CHANGE]->(c:Change)]:
    the changes, one per row. *)
Definition patch_changes (patch_id : string) (st : Store) : list Node :=
  flat_map (fun s => out_nodes HAS_CHANGE Change (nid s) st)
           (patch_sections patch_id st).

Definition node_label_is (l : Label) (i : nat) (st : Store) : bool :=
  existsb (fun n => (nid n =? i) && label_eqb (label n) l) (nodes st).

End Graph.

(** ** [ingest/load_neo4j.py]: the graph materializer and the mention linker *)

Module LoadNeo4j.
Import Graph.

(** [re.sub(r"[^a-z0-9]+", " ", value.lower()).strip()] *)
Definition normalize_for_match (value : string) : string :=
  PyStr.strip (PyStr.sub_non_alnum false (PyStr.lower value)).

(** An entry of the agent roster.  A missing or empty [uuid] is the empty
    string; a missing [aliases] is [None]. *)
Record AgentEntry := {
  uuid : string;
  name : string;
  role : option string;
  icon_url : option string;
  abilities : list string;
  aliases : option (list string)
}.

(** [MERGE (a:Agent {uuid: row.uuid}) SET a.name = ..., ...] for every row. *)
Definition upsert_agents (st : Store) (agents : list AgentEntry) : Store :=
  match agents with
  | [] => st
  | _ :: _ =>
      fold_left
        (fun st row =>
           fst (merge_node Agent (uuid row)
                  (AgentProps (name row) (role row) (icon_url row)
                     (abilities row) (aliases row)) st))
        agents st
  end.

(** The relationships [(c)-[r:MENTIONS_AGENT]->(:Agent)] leaving one of the
    nodes [changes]. *)
Definition mentions_from (changes : list Node) (st : Store) (r : Rel) : bool :=
  reltype_eqb (rel r) MENTIONS_AGENT
  && mem_id (src r) (map nid changes)
  && node_label_is Agent (dst r) st.

Definition clear_patch_subgraph (st : Store) (patch_id : string) : Store :=
  let sections := patch_sections patch_id st in
  let changes := patch_changes patch_id st in
  let st := delete_rels (mentions_from changes st) st in
  detach_delete (map nid changes ++ map nid sections) st.

(** [MATCH (p:Patch {id: $patch_id}) MERGE (s:Section {id: $id}) SET ...
    MERGE (p)-[:HAS_SECTION]->(s)] *)
Definition merge_section (patch_id : string) (section : ParsePatch.Section)
    (st : Store) : Store :=
  fold_left
    (fun st p =>
       let '(st, bound) :=
         merge_node Section (ParsePatch.section_id section)
           (SectionProps (ParsePatch.name section) (ParsePatch.order section) patch_id)
           st in
       fold_left (fun st s => merge_rel HAS_SECTION (nid p) s st) bound st)
    (match_nodes Patch patch_id st) st.

(** [MATCH (s:Section {id: $section_id}) UNWIND $changes AS change
    MERGE (c:Change {id: change.id}) SET ... MERGE (s)-[:HAS_CHANGE]->(c)] *)
Definition merge_changes (section_id : string) (changes : list ParsePatch.Change)
    (st : Store) : Store :=
  fold_left
    (fun st s =>
       fold_left
         (fun st change =>
            let '(st, bound) :=
              merge_node Change (ParsePatch.change_id change)
                (ChangeProps (ParsePatch.change_text change)
                   (ParsePatch.section_name change)
                   (ParsePatch.source_url change)
                   (ParsePatch.change_order change))
                st in
            fold_left (fun st c => merge_rel HAS_CHANGE (nid s) c st) bound st)
         changes st)
    (match_nodes Section section_id st) st.

(** The body of the loop over the sections of the document. *)
Definition upsert_section (patch_id : string)
    (acc : Store * (nat * nat)) (section : ParsePatch.Section)
  : Store * (nat * nat) :=
  let '(st, (section_count, change_count)) := acc in
  let section_count := section_count + 1 in
  let st := merge_section patch_id section st in
  let changes := ParsePatch.changes section in
  let change_count := change_count + List.length changes in
  match changes with
  | [] => (st, (section_count, change_count))
  | _ :: _ =>
      (merge_changes (ParsePatch.section_id section) changes st,
       (section_count, change_count))
  end.

Definition upsert_patch (st : Store) (patch_doc : ParsePatch.PatchDocument)
  : Store * (nat * nat) :=
  let patch := ParsePatch.patch patch_doc in
  let st :=
    fst (merge_node Patch (ParsePatch.patch_id patch)
           (PatchProps (ParsePatch.patch_title patch) (ParsePatch.url patch)
              (ParsePatch.published_at patch)) st) in
  let st := clear_patch_subgraph st (ParsePatch.patch_id patch) in
  fold_left (upsert_section (ParsePatch.patch_id patch))
    (ParsePatch.sections patch_doc) (st, (0, 0)).

(** [agent.get("aliases") or [agent.get("name")]] *)
Definition aliases_or_name (agent : AgentEntry) : list string :=
  match aliases agent with
  | Some (alias :: others) => alias :: others
  | _ => [name agent]
  end.

(** The test of one alias against the padded, normalized text. *)
Definition alias_matches (normalized_text alias : string) : bool :=
  let alias_normalized := normalize_for_match alias in
  if String.length alias_normalized <? 3 then false
  else PyStr.contains (" " ++ alias_normalized ++ " ")%string normalized_text.

(** The loop that fills [matched_uuids]. *)
Fixpoint matched_uuids (normalized_text : string) (agents : list AgentEntry)
  : list string :=
  match agents with
  | [] => []
  | agent :: rest =>
      if PyStr.is_empty (uuid agent) then matched_uuids normalized_text rest
      else if existsb (alias_matches normalized_text) (aliases_or_name agent)
      then uuid agent :: matched_uuids normalized_text rest
      else matched_uuids normalized_text rest
  end.

(** [sorted(set(xs))]: the distinct strings in increasing order. *)
Fixpoint insert_sorted (x : string) (sorted : list string) : list string :=
  match sorted with
  | [] => [x]
  | y :: rest =>
      match String.compare x y with
      | Lt => x :: y :: rest
      | Eq => y :: rest
      | Gt => y :: insert_sorted x rest
      end
  end.

Definition sorted_set (xs : list string) : list string :=
  fold_right insert_sorted [] xs.

Definition detect_agent_mentions (change_text : string)
    (agents : list AgentEntry) : list string :=
  let normalized_text := (" " ++ normalize_for_match change_text ++ " ")%string in
  if PyStr.is_empty (PyStr.strip normalized_text) then []
  else sorted_set (matched_uuids normalized_text agents).

Definition text_of (c : Node) : string :=
  match props c with
  | ChangeProps text _ _ _ => text
  | _ => ""
  end.

(** [MATCH (c:Change {id: $change_id}) UNWIND $agent_uuids AS uuid
    MATCH (a:Agent {uuid: uuid}) MERGE (c)-[:MENTIONS_AGENT]->(a)] *)
Definition link_change (change_id : string) (agent_uuids : list string)
    (st : Store) : Store :=
  fold_left
    (fun st c =>
       fold_left
         (fun st uuid =>
            fold_left (fun st a => merge_rel MENTIONS_AGENT (nid c) (nid a) st)
                      (match_nodes Agent uuid st) st)
         agent_uuids st)
    (match_nodes Change change_id st) st.

(** The first statement of [relink_patch_agent_mentions]. *)
Definition delete_patch_mentions (st : Store) (patch_id : string) : Store :=
  delete_rels (mentions_from (patch_changes patch_id st) st) st.

(** The body of the loop over the records. *)
Definition relink_record (agents : list AgentEntry)
    (acc : Store * nat) (record : string * string) : Store * nat :=
  let '(st, links_created) := acc in
  let '(change_id, text) := record in
  let mentioned_agent_uuids := detect_agent_mentions text agents in
  match mentioned_agent_uuids with
  | [] => (st, links_created)
  | _ :: _ =>
      (link_change change_id mentioned_agent_uuids st,
       links_created + List.length mentioned_agent_uuids)
  end.

Definition relink_patch_agent_mentions (st : Store) (patch_id : string)
    (agents : list AgentEntry) : Store * nat :=
  match agents with
  | [] => (st, 0)
  | _ :: _ =>
      let st := delete_patch_mentions st patch_id in
      let records :=
        map (fun c => (key c, text_of c)) (patch_changes patch_id st) in
      fold_left (relink_record agents) records (st, 0)
  end.

Record Stats := {
  sections : nat;
  changes : nat;
  agents : nat;
  agent_links : nat
}.

(** [MATCH (n) DETACH DELETE n] *)
Definition wipe_all (st : Store) : Store :=
  {| nodes := []; rels := []; next_id := next_id st |}.

(** [load_to_neo4j] inside its session.  The schema file only declares
    constraints and indexes and is left out. *)
Definition load_to_neo4j (st : Store) (patch_doc : ParsePatch.PatchDocument)
    (agents_doc : option (list AgentEntry)) (wipe : bool) : Store * Stats :=
  let agents := match agents_doc with Some agents => agents | None => [] end in
  let patch_id := ParsePatch.patch_id (ParsePatch.patch patch_doc) in
  let st := if wipe then wipe_all st else st in
  let st := upsert_agents st agents in
  let '(st, (section_count, change_count)) := upsert_patch st patch_doc in
  let '(st, links_created) := relink_patch_agent_mentions st patch_id agents in
  (st, {| sections := section_count; changes := change_count;
          agents := List.length agents; agent_links := links_created |}).

End LoadNeo4j.

(** ** [rag/retriever.py]: the retriever *)

(** [ORDER BY]: insertion sort by a "comes no later than" test.  Rows that
    compare equal stay in the order the match produced them; the properties
    below do not depend on that choice. *)
Fixpoint insert_by {A : Type} (le : A -> A -> bool) (x : A) (sorted : list A)
  : list A :=
  match sorted with
  | [] => [x]
  | y :: rest => if le x y then x :: y :: rest else y :: insert_by le x rest
  end.

Definition sort_by {A : Type} (le : A -> A -> bool) (xs : list A) : list A :=
  fold_right (insert_by le) [] xs.

(** [DISTINCT]: the first occurrence of every value. *)
Fixpoint distinct {A : Type} (eqb : A -> A -> bool) (xs : list A) : list A :=
  match xs with
  | [] => []
  | x :: rest => x :: filter (fun y => negb (eqb x y)) (distinct eqb rest)
  end.

Module Retriever.
Import Graph.

(** The errors a statement can raise.  The first two are instances of
    [Neo4jError], the class named by the [except] clause; the third stands
    for the errors of the driver, which are not. *)
Inductive StoreError :=
| IndexMissing
| ServerError (code : string)
| DriverError (message : string).

Definition is_Neo4jError (e : StoreError) : bool :=
  match e with
  | IndexMissing | ServerError _ => true
  | DriverError _ => false
  end.

Inductive Statement := ResolveAgents | QueryByAgents | FallbackSearch.

(** A session on the store: the graph it holds, what the full-text
    procedure [db.index.fulltext.queryNodes('change_text_ft', q)] yields
    (nodes with their scores, or an error), and the statements that fail. *)
Record Session := {
  store : Store;
  fulltext_query : string -> result StoreError (list (nat * Q));
  fault : Statement -> option StoreError
}.

Definition run {A : Type} (session : Session) (stmt : Statement) (rows : A)
  : result StoreError A :=
  match fault session stmt with
  | Some e => Raise e
  | None => Ok rows
  end.

Record RetrievedChange := {
  change_id : string;
  patch_id : string;
  section_name : string;
  text : string;
  source_url : string;
  score : Q;
  agents : list string
}.

(** A row of the two search statements, with the values it is ordered by. *)
Record Row := {
  row_change : RetrievedChange;
  section_order : nat;
  change_order : nat
}.

Definition agent_name (a : Node) : string :=
  match props a with
  | AgentProps name _ _ _ _ => name
  | _ => ""
  end.

(** [coalesce(a.aliases, [a.name])] *)
Definition agent_aliases (a : Node) : list string :=
  match props a with
  | AgentProps name _ _ _ (Some aliases) => aliases
  | AgentProps name _ _ _ None => [name]
  | _ => []
  end.

Definition section_name_of (s : Node) : string :=
  match props s with
  | SectionProps name _ _ => name
  | _ => ""
  end.

Definition order_of (n : Node) : nat :=
  match props n with
  | SectionProps _ order _ => order
  | ChangeProps _ _ _ order => order
  | _ => 0
  end.

Definition source_url_of (c : Node) : string :=
  match props c with
  | ChangeProps _ _ source_url _ => source_url
  | _ => ""
  end.

Definition has_label (l : Label) (n : Node) : bool := label_eqb (label n) l.

(** [toLower(whole) CONTAINS toLower(part)] *)
Definition icontains (whole part : string) : bool :=
  PyStr.contains (PyStr.lower part) (PyStr.lower whole).

(** The [WHERE] clause of [_resolve_agents]. *)
Definition alias_in_query (search_text : string) (a : Node) : bool :=
  existsb (fun alias => icontains search_text alias) (agent_aliases a).

Definition pair_eqb (a b : string * string) : bool :=
  String.eqb (fst a) (fst b) && String.eqb (snd a) (snd b).

(** [ORDER BY size(name) DESC] on rows [(uuid, name)]. *)
Definition longer_name_first (a b : string * string) : bool :=
  String.length (snd b) <=? String.length (snd a).

Definition resolve_rows (st : Store) (search_text : string)
  : list (string * string) :=
  firstn 4
    (sort_by longer_name_first
       (distinct pair_eqb
          (map (fun a => (key a, agent_name a))
               (filter (fun a => has_label Agent a && alias_in_query search_text a)
                       (nodes st))))).

Definition _resolve_agents (session : Session) (query : string)
  : result StoreError (list (string * string)) :=
  run session ResolveAgents (resolve_rows (store session) query).

(** The start nodes [a] of the pattern [(a:l)-[:t]->(b)] into a bound [b]. *)
Definition in_nodes (t : RelType) (l : Label) (b : nat) (st : Store) : list Node :=
  flat_map
    (fun r =>
       if reltype_eqb (rel r) t && (dst r =? b) then
         filter (fun a => (nid a =? src r) && label_eqb (label a) l) (nodes st)
       else [])
    (rels st).

(** [OPTIONAL MATCH (c)-[:MENTIONS_AGENT]->(a:Agent)] with
    [collect(DISTINCT a.name)]. *)
Definition mentioned_names (c : Node) (st : Store) : list string :=
  distinct String.eqb
    (map agent_name (out_nodes MENTIONS_AGENT Agent (nid c) st)).

(** The row returned for a change [c] reached through the section [s] of
    the patch [p]. *)
Definition make_row (st : Store) (score : Q) (p s c : Node) : Row :=
  {| row_change :=
       {| change_id := key c;
          patch_id := key p;
          section_name := section_name_of s;
          text := LoadNeo4j.text_of c;
          source_url := source_url_of c;
          score := score;
          agents := mentioned_names c st |};
     section_order := order_of s;
     change_order := order_of c |}.

(** [MATCH (s:Section)-[:HAS_CHANGE]->(c) MATCH (p:Patch)-[:HAS_SECTION]->(s)]
    for a bound [c]. *)
Definition owners (c : Node) (st : Store) : list (Node * Node) :=
  flat_map
    (fun s => map (fun p => (p, s)) (in_nodes HAS_SECTION Patch (nid s) st))
    (in_nodes HAS_CHANGE Section (nid c) st).

(** [ORDER BY section_order ASC, change_order ASC] *)
Definition document_order (a b : Row) : bool :=
  (section_order a <? section_order b)
  || ((section_order a =? section_order b) && (change_order a <=? change_order b)).

Definition id_eqb (a b : Node) : bool := nid a =? nid b.

Definition by_agents_rows (st : Store) (agent_uuids : list string) (k : nat)
  : list Row :=
  let matched :=
    filter (fun a => has_label Agent a && PyStr.mem (key a) agent_uuids) (nodes st) in
  let changes :=
    distinct id_eqb
      (flat_map (fun a => in_nodes MENTIONS_AGENT Change (nid a) st) matched) in
  firstn k
    (sort_by document_order
       (flat_map
          (fun c => map (fun ps => make_row st (10 # 1) (fst ps) (snd ps) c)
                        (owners c st))
          changes)).

(** [agents=[agent for agent in (record["agents"] or []) if agent]] *)
Definition _record_to_change (row : Row) : RetrievedChange :=
  let record := row_change row in
  {| change_id := change_id record;
     patch_id := patch_id record;
     section_name := section_name record;
     text := text record;
     source_url := source_url record;
     score := score record;
     agents := filter (fun agent => negb (PyStr.is_empty agent)) (agents record) |}.

Definition _query_by_agents (session : Session) (agent_uuids : list string)
    (k : nat) : result StoreError (list RetrievedChange) :=
  match run session QueryByAgents (by_agents_rows (store session) agent_uuids k) with
  | Ok records => Ok (map _record_to_change records)
  | Raise e => Raise e
  end.

(** [ORDER BY score DESC] *)
Definition higher_score_first (a b : Row) : bool :=
  Qle_bool (score (row_change b)) (score (row_change a)).

(** The rows of the full-text statement, from the nodes and scores the
    procedure yields. *)
Definition fulltext_rows (st : Store) (hits : list (nat * Q)) (k : nat)
  : list Row :=
  firstn k
    (sort_by higher_score_first
       (flat_map
          (fun hit =>
             flat_map
               (fun c => map (fun ps => make_row st (snd hit) (fst ps) (snd ps) c)
                             (owners c st))
               (filter (fun n => (nid n =? fst hit) && has_label Change n) (nodes st)))
          hits)).

(** The [WHERE] clause of the fallback statement. *)
Definition substring_match (search_text : string) (s c : Node) : bool :=
  icontains (LoadNeo4j.text_of c) search_text
  || icontains (section_name_of s) search_text.

(** The paths [(p:Patch)-[:HAS_SECTION]->(s:Section)-[:HAS_CHANGE]->(c:Change)]. *)
Definition all_paths (st : Store) : list (Node * Node * Node) :=
  flat_map
    (fun p =>
       flat_map
         (fun s => map (fun c => (p, s, c)) (out_nodes HAS_CHANGE Change (nid s) st))
         (out_nodes HAS_SECTION Section (nid p) st))
    (filter (has_label Patch) (nodes st)).

(** The rows of the fallback statement as its [RETURN] clause yields them,
    before [ORDER BY] and [LIMIT]. *)
Definition fallback_returned (st : Store) (search_text : string) : list Row :=
  map (fun psc => make_row st 1 (fst (fst psc)) (snd (fst psc)) (snd psc))
      (filter (fun psc => substring_match search_text (snd (fst psc)) (snd psc))
              (all_paths st)).

(** *** The sort keys of a [RETURN] that aggregates

    A [RETURN] with an aggregate groups its rows: a row then holds the
    returned columns and nothing else, and the variables bound by the
    [MATCH] clauses are out of scope.  A sort key of [ORDER BY] has to
    repeat a returned expression or to name a column; for any other key the
    store rejects the statement with a syntax error when it compiles it,
    whatever the graph holds. *)

Inductive Expr :=
| Name (variable : string)
| Property (variable property : string)
| CollectDistinct (variable property : string)
| Number (literal : string).

Definition expr_eqb (a b : Expr) : bool :=
  match a, b with
  | Name x, Name y => String.eqb x y
  | Property x p, Property y q => String.eqb x y && String.eqb p q
  | CollectDistinct x p, CollectDistinct y q => String.eqb x y && String.eqb p q
  | Number x, Number y => String.eqb x y
  | _, _ => false
  end.

(** [RETURN e1 AS c1, ..., en AS cn ORDER BY k1 ASC, ..., km ASC] *)
Record Return := {
  items : list (Expr * string);
  order_by : list Expr
}.


(** The column a sort key stands for, if any. *)
Definition sort_column (r : Return) (sort_key : Expr) : option string :=
  match find (fun item => expr_eqb (fst item) sort_key) (items r) with
  | Some item => Some (snd item)
  | None =>
      match sort_key with
      | Name column =>
          if PyStr.mem column (map snd (items r)) then Some column else None
      | _ => None
      end
  end.

Fixpoint sort_columns (r : Return) (sort_keys : list Expr)
  : option (list string) :=
  match sort_keys with
  | [] => Some []
  | sort_key :: rest =>
      match sort_column r sort_key, sort_columns r rest with
      | Some column, Some columns => Some (column :: columns)
      | _, _ => None
      end
  end.

Fixpoint names_compare (xs ys : list string) : comparison :=
  match xs, ys with
  | [], [] => Eq
  | [], _ :: _ => Lt
  | _ :: _, [] => Gt
  | x :: xs', y :: ys' =>
      match String.compare x y with
      | Eq => names_compare xs' ys'
      | c => c
      end
  end.

(** The order of two returned rows on one column. *)
Definition column_compare (column : string) (a b : RetrievedChange) : comparison :=
  if String.eqb column "change_id" then String.compare (change_id a) (change_id b)
  else if String.eqb column "patch_id" then String.compare (patch_id a) (patch_id b)
  else if String.eqb column "section_name"
  then String.compare (section_name a) (section_name b)
  else if String.eqb column "text" then String.compare (text a) (text b)
  else if String.eqb column "source_url"
  then String.compare (source_url a) (source_url b)
  else if String.eqb column "agents" then names_compare (agents a) (agents b)
  else if String.eqb column "score" then Qcompare (score a) (score b)
  else Eq.

(** [ORDER BY] on the columns, each ascending. *)
Fixpoint columns_ascending (columns : list string) (a b : Row) : bool :=
  match columns with
  | [] => true
  | column :: rest =>
      match column_compare column (row_change a) (row_change b) with
      | Lt => true
      | Eq => columns_ascending rest a b
      | Gt => false
      end
  end.

Definition syntax_error : StoreError :=
  ServerError "Neo.ClientError.Statement.SyntaxError".

(** The [RETURN] clause of the fallback statement with its [ORDER BY]. *)
Definition fallback_return : Return :=
  {| items :=
       [(Property "c" "id", "change_id");
        (Property "p" "id", "patch_id");
        (Property "s" "name", "section_name");
        (Property "c" "text", "text");
        (Property "c" "source_url", "source_url");
        (CollectDistinct "a" "name", "agents");
        (Number "1.0", "score")];
     order_by := [Property "s" "order"; Property "c" "order"] |}.


(** The fallback statement: its sort keys are resolved when the statement is
    compiled, and the rows are matched, ordered and cut to [k] afterwards. *)
Definition fallback_rows (st : Store) (search_text : string) (k : nat)
  : result StoreError (list Row) :=
  match sort_columns fallback_return (order_by fallback_return) with
  | None => Raise syntax_error
  | Some columns =>
      Ok (firstn k
            (sort_by (columns_ascending columns)
               (fallback_returned st search_text)))
  end.

Definition _query_by_fulltext (session : Session) (query : string) (k : nat)
  : result StoreError (list RetrievedChange) :=
  match fulltext_query session query with
  | Ok hits => Ok (map _record_to_change (fulltext_rows (store session) hits k))
  | Raise e =>
      if is_Neo4jError e then
        match fault session FallbackSearch with
        | Some e' => Raise e'
        | None =>
            match fallback_rows (store session) query k with
            | Ok fallback_records => Ok (map _record_to_change fallback_records)
            | Raise e' => Raise e'
            end
        end
      else Raise e
  end.

Record Retrieval := {
  matched_agents : list string;
  changes : list RetrievedChange
}.

Definition retrieve (session : Session) (query : string) (k : nat)
  : result StoreError Retrieval :=
  match _resolve_agents session query with
  | Raise e => Raise e
  | Ok matched =>
      let found :=
        match matched with
        | [] => _query_by_fulltext session query k
        | _ :: _ => _query_by_agents session (map fst matched) k
        end in
      match found with
      | Raise e => Raise e
      | Ok changes =>
          Ok {| matched_agents := map snd matched; changes := changes |}
      end
  end.

End Retriever.

(** ** [ingest/fetch_agents.py]: the roster parser *)

Module FetchAgents.
Import LoadNeo4j.

(** An item of the [data] array of the payload, with the fields the parser
    reads.  A string field that is missing is the empty string, as the
    defaults of the [get] calls make it; a missing or null [uuid] or
    portrait is [None]; [role_displayName] is the [displayName] of the
    [role] object and [abilities] holds the [displayName] of every
    ability. *)
Record Item := {
  uuid : option string;
  isPlayableCharacter : bool;
  displayName : string;
  role_displayName : string;
  displayIcon : option string;
  fullPortrait : option string;
  bustPortrait : option string;
  abilities : list string
}.

(** The truth value of a string or [None]. *)
Definition truthy (value : option string) : bool :=
  match value with
  | Some s => negb (PyStr.is_empty s)
  | None => false
  end.

(** [x or y] *)
Definition or_else (x y : option string) : option string :=
  if truthy x then x else y.

(** [a <= b] on the keys [str.lower]. *)
Definition lower_le (a b : string) : bool :=
  match String.compare (PyStr.lower a) (PyStr.lower b) with
  | Gt => false
  | _ => true
  end.

Section WithSetOrder.

(** The order in which a [set] yields the strings added to it in the order
    of the list: each string once, in an order the program does not
    control. *)
Variable set_order : list string -> list string.

(** [sorted(set(xs), key=str.lower)] *)
Definition sorted_set (xs : list string) : list string :=
  sort_by lower_le (set_order xs).

(** The body of the loop: the entry appended for an item, if any. *)
Definition entry_of (item : Item) : option AgentEntry :=
  if negb (isPlayableCharacter item) then None
  else
    let name := normalize_space (displayName item) in
    if PyStr.is_empty name then None
    else
      let role_name :=
        let stripped := normalize_space (role_displayName item) in
        if PyStr.is_empty stripped then None else Some stripped in
      let icon_url :=
        or_else (or_else (displayIcon item) (fullPortrait item))
                (bustPortrait item) in
      let ability_names :=
        filter (fun ability_name => negb (PyStr.is_empty ability_name))
               (map normalize_space (abilities item)) in
      Some {| LoadNeo4j.uuid :=
                match uuid item with Some u => u | None => "" end;
              LoadNeo4j.name := name;
              LoadNeo4j.role := role_name;
              LoadNeo4j.icon_url := icon_url;
              LoadNeo4j.abilities := sorted_set ability_names;
              LoadNeo4j.aliases := Some (sorted_set (name :: ability_names)) |}.

Definition entries (data : list Item) : list AgentEntry :=
  flat_map (fun item => match entry_of item with
                        | Some entry => [entry]
                        | None => []
                        end)
           data.

(** [parse_agents_payload] on the [data] array of the payload. *)
Definition parse_agents_payload (data : list Item) : list AgentEntry :=
  sort_by (fun a b => lower_le (LoadNeo4j.name a) (LoadNeo4j.name b))
    (filter (fun agent => negb (PyStr.is_empty (LoadNeo4j.uuid agent)))
            (entries data)).

End WithSetOrder.

End FetchAgents.

(** ** [rag/answer.py] and [rag/cli.py]: the answer *)

Module Answer.
Import Retriever.

Definition newline : string := String (ascii_of_nat 10) EmptyString.

(** The loop that collects the source addresses: the non-empty ones, each
    at its first occurrence. *)
Definition source_urls (changes : list RetrievedChange) : list string :=
  fold_left
    (fun source_urls change =>
       if negb (PyStr.is_empty (source_url change))
          && negb (PyStr.mem (source_url change) source_urls)
       then source_urls ++ [source_url change]
       else source_urls)
    changes [].

(** The line of the change at position [index], counted from 1. *)
Definition change_line (index : nat) (change : RetrievedChange) : string :=
  let agents_suffix :=
    match agents change with
    | [] => ""
    | _ :: _ => (" | Mentions: " ++ PyStr.join ", " (agents change))%string
    end in
  (PyStr.str_of_nat index ++ ". [" ++ patch_id change ++ "] "
     ++ section_name change ++ ": " ++ text change ++ agents_suffix)%string.

(** The list [lines] at the end of [format_answer]. *)
Definition answer_lines (question : string) (matched_agents : list string)
    (changes : list RetrievedChange) : list string :=
  [("Question: " ++ question)%string]
    ++ match matched_agents with
       | [] => []
       | _ :: _ =>
           [("Detected agent(s): " ++ PyStr.join ", " matched_agents)%string]
       end
    ++ [("Top " ++ PyStr.str_of_nat (List.length changes) ++ " change(s):")%string]
    ++ map (fun ic => change_line (fst ic + 1) (snd ic))
           (ParsePatch.enumerate changes)
    ++ match source_urls changes with
       | [] => []
       | urls =>
           "Sources:" :: map (fun url => ("- " ++ url)%string) (firstn 3 urls)
       end.

Definition format_answer (question : string) (matched_agents : list string)
    (changes : list RetrievedChange) : string :=
  match changes with
  | [] =>
      ("No matching changes were found for: " ++ question ++ newline
         ++ "Try using an agent name (for example: Reyna, Harbor, Jett) or a topic like UI or gameplay.")%string
  | _ :: _ => PyStr.join newline (answer_lines question matched_agents changes)
  end.

(** [run_single_query] of [rag/cli.py] *)
Definition run_single_query (session : Session) (query : string) (k : nat)
  : result StoreError string :=
  match retrieve session query k with
  | Ok found => Ok (format_answer query (matched_agents found) (changes found))
  | Raise e => Raise e
  end.

End Answer.

(** ** Sample inputs *)

Module Fixtures.
Import SimpleHtml.

Definition element (tag text : string) : list Token :=
  [StartTag tag []; Data text; EndTag tag].

(** An article with a share button, an empty heading, a repeated list item
    and the same item under a second heading. *)
Definition article_tokens : list Token :=
  [StartTag "article" []]
    ++ element "p" "Share"
    ++ element "h2" "Agent Updates"
    ++ [StartTag "ul" []]
    ++ element "li" "Reyna's Leer duration reduced from 3 to 1.5 seconds"
    ++ element "li" "Reyna's Leer duration reduced from 3 to 1.5 seconds"
    ++ [EndTag "ul"]
    ++ element "h2" "Modes"
    ++ element "h2" "Bug Fixes"
    ++ element "li" "Harbor fixed a bug where Cove could be destroyed early"
    ++ element "li" "Reyna's Leer duration reduced from 3 to 1.5 seconds"
    ++ [EndTag "article"].

Definition article_tokenizer (html : string) : list Token := article_tokens.

Definition leer_item : ElementEvent :=
  {| tag := "li"; attrs := [];
     text := "Reyna's Leer duration reduced from 3 to 1.5 seconds";
     parents := ["article"; "ul"] |}.

Definition agent_heading : ElementEvent :=
  {| tag := "h2"; attrs := []; text := "Agent Updates"; parents := ["article"] |}.

End Fixtures.

Module ListingFixture.
Import SimpleHtml.

Definition anchor (href text : string) : list Token :=
  [StartTag "a" [("href", Some href)]; Data text; EndTag "a"].

(** A listing page: the tag page itself, 11.01, 11.02 twice under two
    addresses, and a link without a version. *)
Definition listing_tokens : list Token :=
  anchor "/en-us/news/tags/patch-notes/" "All patch notes"
    ++ anchor "/en-us/news/game-updates/valorant-patch-notes-11-01/" "Patch 11.01"
    ++ anchor "/en-us/news/game-updates/valorant-patch-notes-11-02/" "Patch 11.02"
    ++ anchor "/en-us/news/game-updates/valorant-patch-notes-11-02-b/" "Patch 11.02 again"
    ++ anchor "/en-us/news/game-updates/patch-notes-preview/" "Preview".

Definition listing_tokenizer (html : string) : list Token := listing_tokens.

(** A stand-in for [urljoin] on absolute paths. *)
Definition join_path (base href : string) : string := (base ++ href)%string.

End ListingFixture.

Module RosterFixture.
Import LoadNeo4j.

Definition reyna : AgentEntry :=
  {| uuid := "a3bfb853"; name := "Reyna"; role := Some "Duelist";
     icon_url := None; abilities := ["Dismiss"; "Leer"];
     aliases := Some ["Dismiss"; "Leer"; "Reyna"] |}.

Definition harbor : AgentEntry :=
  {| uuid := "95b78ed7"; name := "Harbor"; role := Some "Controller";
     icon_url := None; abilities := ["Cove"; "Go"];
     aliases := Some ["Cove"; "Go"; "Harbor"] |}.

Definition roster : list AgentEntry := [harbor; reyna].

Definition article_doc : ParsePatch.PatchDocument :=
  ParsePatch.parse_patch_notes_html Fixtures.article_tokenizer ""
    "https://playvalorant.com/en-us/news/game-updates/valorant-patch-notes-12-02/".

(** The store after the sample article and roster have been loaded. *)
Definition loaded_store : Graph.Store :=
  fst (load_to_neo4j Graph.empty article_doc (Some roster) false).

End RosterFixture.

Module RetrievalFixture.
Import LoadNeo4j.

Definition jett : AgentEntry :=
  {| uuid := "add6443a"; name := "Jett"; role := Some "Duelist";
     icon_url := None; abilities := ["Blade Storm"; "Updraft"];
     aliases := Some ["Blade Storm"; "Jett"; "Updraft"] |}.

Definition brimstone : AgentEntry :=
  {| uuid := "9f0d8ba9"; name := "Brimstone"; role := Some "Controller";
     icon_url := None; abilities := ["Incendiary"];
     aliases := Some ["Brimstone"; "Incendiary"] |}.

(** A store that holds the two agents. *)
Definition agents_store : Graph.Store :=
  upsert_agents Graph.empty [brimstone; jett].

End RetrievalFixture.

(** * Properties *)

(** ** Strings: the boolean tests against their meaning *)

Definition occurs_in (sub s : string) : Prop :=
  exists pre post, s = (pre ++ sub ++ post)%string.

Definition starts_with (p s : string) : Prop :=
  exists rest, s = (p ++ rest)%string.

Lemma startswith_spec (p s : string) :
  PyStr.startswith p s = true <-> starts_with p s.
Proof.
  revert s; induction p as [|a p IH]; intros s; simpl.
  - split; [intros _; now exists s | reflexivity].
  - destruct s as [|b s].
    + split; [discriminate | intros [r H]; discriminate].
    + rewrite andb_true_iff, Ascii.eqb_eq, IH. split.
      * intros [-> [r ->]]. now exists r.
      * intros [r H]. simpl in H. injection H as -> ->. split; [reflexivity|now exists r].
Qed.

Lemma contains_spec (sub s : string) :
  PyStr.contains sub s = true <-> occurs_in sub s.
Proof.
  induction s as [|c s IH].
  - simpl. rewrite orb_false_r, startswith_spec. split.
    + intros [r H]. exists "", r. exact H.
    + intros [pre [post H]]. destruct pre; [now exists post|discriminate].
  - cbn [PyStr.contains]. rewrite orb_true_iff, startswith_spec, IH. split.
    + intros [[r H] | [pre [post H]]].
      * exists "", r. exact H.
      * exists (String c pre), post. simpl. now rewrite H.
    + intros [pre [post H]]. destruct pre as [|x pre].
      * left. now exists post.
      * right. simpl in H. injection H as _ H. now exists pre, post.
Qed.

Lemma mem_spec (x : string) (xs : list string) :
  PyStr.mem x xs = true <-> In x xs.
Proof.
  unfold PyStr.mem. rewrite existsb_exists. split.
  - intros [y [Hin Heq]]. apply String.eqb_eq in Heq. now subst.
  - intros Hin. exists x. split; [assumption | apply String.eqb_refl].
Qed.

Lemma is_empty_spec (s : string) : PyStr.is_empty s = true <-> s = "".
Proof.
  destruct s; simpl; split; intros H; try reflexivity; discriminate.
Qed.

(** Character classes of a fixed-length pattern, as propositions. *)
Inductive CharClass :=
| Digit
| Lit (a : ascii).

Definition class_holds (cls : CharClass) (c : ascii) : Prop :=
  match cls with
  | Digit => 48 <= nat_of_ascii c <= 57
  | Lit a => c = a
  end.

Definition classb (cls : CharClass) : ascii -> bool :=
  match cls with
  | Digit => PyStr.isdigit
  | Lit a => PyStr.lit a
  end.

(** [w] has the shape [pat], character by character. *)
Definition has_shape (pat : list CharClass) (w : string) : Prop :=
  Forall2 class_holds pat (list_ascii_of_string w).

Lemma classb_spec (cls : CharClass) (c : ascii) :
  classb cls c = true <-> class_holds cls c.
Proof.
  destruct cls; simpl.
  - unfold PyStr.isdigit, PyStr.in_range, PyStr.code.
    rewrite andb_true_iff, !Nat.leb_le. reflexivity.
  - unfold PyStr.lit. rewrite Ascii.eqb_eq. split; intros H; now subst.
Qed.

Lemma match_classes_spec (pat : list CharClass) (s : string) :
  PyStr.match_classes (map classb pat) s = true
  <-> exists w, has_shape pat w /\ starts_with w s.
Proof.
  revert s; induction pat as [|cls pat IH]; intros s; simpl.
  - split; [intros _ | reflexivity].
    exists "". split; [constructor | now exists s].
  - destruct s as [|c s].
    + split; [discriminate|].
      intros [w [Hs [r Hr]]]. destruct w; [inversion Hs | discriminate].
    + rewrite andb_true_iff, classb_spec, IH. split.
      * intros [Hc [w [Hs [r ->]]]]. exists (String c w). split.
        -- constructor; assumption.
        -- now exists r.
      * intros [w [Hs [r Hr]]]. destruct w as [|x w]; [inversion Hs|].
        simpl in Hr. injection Hr as -> ->. inversion Hs; subst. split; [assumption|].
        exists w. split; [assumption | now exists r].
Qed.

Lemma search_classes_spec (pat : list CharClass) (s : string) :
  PyStr.search_classes (map classb pat) s = true
  <-> exists w, has_shape pat w /\ occurs_in w s.
Proof.
  induction s as [|c s IH].
  - cbn [PyStr.search_classes]. rewrite orb_false_r, match_classes_spec. split.
    + intros [w [Hs [r Hr]]]. exists w. split; [assumption | now exists "", r].
    + intros [w [Hs [pre [post H]]]]. exists w. split; [assumption|].
      destruct pre; [now exists post | discriminate].
  - cbn [PyStr.search_classes]. rewrite orb_true_iff, match_classes_spec, IH. split.
    + intros [[w [Hs [r Hr]]] | [w [Hs [pre [post H]]]]].
      * exists w. split; [assumption | now exists "", r].
      * exists w. split; [assumption|]. exists (String c pre), post. simpl. now rewrite H.
    + intros [w [Hs [pre [post H]]]]. destruct pre as [|x pre].
      * left. exists w. split; [assumption | now exists post].
      * right. exists w. split; [assumption|]. simpl in H. injection H as _ H.
        now exists pre, post.
Qed.

(** ** The content segmenter *)

Module ParsePatchFacts.
Import SimpleHtml ParsePatch.

Definition ISO_SHAPE : list CharClass :=
  [Digit; Digit; Digit; Digit; Lit "-"; Digit; Digit; Lit "-"; Digit; Digit;
   Lit "t"; Digit; Digit; Lit ":"; Digit; Digit].

(** The categories of text the change filter rejects, stated on the
    lower-cased and stripped text. *)
Definition rejected (normalized : string) : Prop :=
  normalized = ""
  \/ In normalized ["share"; "copy link"; "read more"; "learn more"]
  \/ starts_with "related articles" normalized
  \/ (occurs_in "game updates" normalized /\ occurs_in "patch notes" normalized)
  \/ (exists w, has_shape ISO_SHAPE w /\ occurs_in w normalized)
  \/ String.length normalized < 12
  \/ 500 < String.length normalized.

Definition kept (text : string) : Prop := should_keep_change text = true.

(** The two ways an iteration changes the state. *)
Definition open_section (text : string) (st : WalkState) : WalkState :=
  {| raw_sections := raw_sections st ++ [{| raw_name := text; raw_changes := [] |}];
     current_section := List.length (raw_sections st);
     seen_changes := seen_changes st |}.

Definition add_change (text : string) (st : WalkState) : WalkState :=
  {| raw_sections := append_change_at (current_section st) text (raw_sections st);
     current_section := current_section st;
     seen_changes := (current_name st, text) :: seen_changes st |}.

(** An event that reaches the change filter with text [t]. *)
Definition change_event (event : ElementEvent) (t : string) : Prop :=
  (tag event = "li" \/ (tag event = "p" /\ has_parent "li" event = false))
  /\ t = normalize_space (text event)
  /\ t <> "".

(** Some section called [n] already holds the text [t]. *)
Definition recorded (n t : string) (st : WalkState) : Prop :=
  exists r, In r (raw_sections st) /\ raw_name r = n /\ In t (raw_changes r).

(** The loop over a run of events none of which is the end-of-content
    heading: [None] when the loop breaks. *)
Fixpoint run (events : list ElementEvent) (st : WalkState) : option WalkState :=
  match events with
  | [] => Some st
  | event :: rest =>
      match step event st with
      | Continue st' => run rest st'
      | Break => None
      end
  end.

(** What holds of the state throughout the loop. *)
Record walk_inv (st : WalkState) : Prop := {
  inv_current : S (current_section st) = List.length (raw_sections st);
  inv_seen : forall n t, In (n, t) (seen_changes st) <-> recorded n t st;
  inv_kept : Forall (fun r => Forall kept (raw_changes r)) (raw_sections st);
  inv_nodup : Forall (fun r => NoDup (raw_changes r)) (raw_sections st);
  inv_general : exists cs rest,
      raw_sections st = {| raw_name := "General"; raw_changes := cs |} :: rest
}.

Lemma seen_spec key st : seen key st = true <-> In key (seen_changes st).
Proof.
  unfold seen. rewrite existsb_exists. destruct key as [n t]. split.
  - intros [[n' t'] [Hin Heq]]. unfold pair_eqb in Heq. simpl in Heq.
    apply andb_true_iff in Heq as [H1 H2].
    apply String.eqb_eq in H1, H2. now subst.
  - intros Hin. exists (n, t). split; [assumption|].
    unfold pair_eqb. simpl. now rewrite !String.eqb_refl.
Qed.

Lemma step_cases event st st' :
  step event st = Continue st' ->
  st' = st
  \/ (exists text, st' = open_section text st)
  \/ (exists text, kept text /\ seen (current_name st, text) st = false
                   /\ st' = add_change text st).
Proof.
  unfold step. intros H.
  destruct (negb (PyStr.mem (tag event) ["h2"; "h3"; "li"; "p"]));
    [injection H as <-; now left|].
  set (t := normalize_space (text event)) in *.
  destruct (PyStr.is_empty t); [injection H as <-; now left|].
  destruct (PyStr.mem (tag event) ["h2"; "h3"]).
  - destruct (String.eqb _ "related articles"); [discriminate|].
    destruct (should_keep_heading t); injection H as <-.
    + right; left. now exists t.
    + now left.
  - destruct (String.eqb (tag event) "p" && has_parent "li" event);
      [injection H as <-; now left|].
    destruct (should_keep_change t) eqn:Hk; [|injection H as <-; now left].
    destruct (seen (current_name st, t) st) eqn:Hs; simpl in H;
      injection H as <-; [now left|].
    right; right. exists t. repeat split; assumption.
Qed.

Lemma step_change_event event t st :
  change_event event t -> kept t ->
  step event st =
    Continue (if seen (current_name st, t) st then st else add_change t st).
Proof.
  intros [Htag [-> Hne]] Hk. unfold step.
  assert (PyStr.mem (tag event) ["h2"; "h3"; "li"; "p"] = true) as ->.
  { destruct Htag as [-> | [-> _]]; reflexivity. }
  assert (PyStr.mem (tag event) ["h2"; "h3"] = false) as ->.
  { destruct Htag as [-> | [-> _]]; reflexivity. }
  assert (String.eqb (tag event) "p" && has_parent "li" event = false) as ->.
  { destruct Htag as [-> | [-> ->]]; reflexivity. }
  simpl negb at 1. cbv iota.
  destruct (PyStr.is_empty (normalize_space (text event))) eqn:He.
  { apply is_empty_spec in He. contradiction. }
  unfold kept in Hk. rewrite Hk.
  now destruct (seen _ st).
Qed.

Lemma append_change_at_last init cur t :
  append_change_at (List.length init) t (init ++ [cur])
  = init ++ [{| raw_name := raw_name cur; raw_changes := raw_changes cur ++ [t] |}].
Proof.
  induction init as [|x init IH]; simpl; [reflexivity | now rewrite IH].
Qed.

Lemma split_last {A : Type} (l : list A) n :
  S n = List.length l -> exists init cur, l = init ++ [cur] /\ List.length init = n.
Proof.
  intros H. destruct (exists_last (l := l)) as [init [cur ->]].
  - intros ->. discriminate.
  - exists init, cur. split; [reflexivity|].
    rewrite length_app in H. simpl in H. lia.
Qed.

Lemma current_name_last init cur seen_list :
  current_name {| raw_sections := init ++ [cur];
                  current_section := List.length init;
                  seen_changes := seen_list |} = raw_name cur.
Proof.
  unfold current_name. simpl.
  rewrite nth_error_app2 by lia. now rewrite Nat.sub_diag.
Qed.

Lemma walk_inv_initial : walk_inv initial_state.
Proof.
  constructor; simpl.
  - reflexivity.
  - intros n t. split; [intros []|].
    intros [r [[<- | []] [_ []]]].
  - repeat constructor.
  - repeat constructor.
  - now exists [], [].
Qed.

Lemma walk_inv_open text st : walk_inv st -> walk_inv (open_section text st).
Proof.
  intros [Hc Hs Hk Hn [cs [rest Hg]]]. constructor; simpl.
  - rewrite length_app. simpl. lia.
  - intros n t. rewrite Hs. unfold recorded. simpl. split.
    + intros [r [Hin H]]. exists r. split; [apply in_or_app; now left | assumption].
    + intros [r [Hin [H1 H2]]]. apply in_app_or in Hin as [Hin | [<- | []]].
      * now exists r.
      * destruct H2.
  - apply Forall_app. split; [assumption | repeat constructor].
  - apply Forall_app. split; [assumption | repeat constructor].
  - rewrite Hg. now exists cs, (rest ++ [{| raw_name := text; raw_changes := [] |}]).
Qed.

Lemma walk_inv_add text st :
  walk_inv st -> kept text -> seen (current_name st, text) st = false ->
  walk_inv (add_change text st).
Proof.
  intros [Hc Hs Hk Hn [cs [rest Hg]]] Hkept Hseen.
  destruct (split_last _ _ Hc) as [init [cur [Hl Hlen]]].
  destruct st as [rs c sn]. simpl in Hc, Hk, Hn, Hg, Hl, Hlen.
  subst c. rewrite Hl in *. clear Hl rs.
  rewrite current_name_last in Hseen.
  assert (Hfresh : forall r, In r (init ++ [cur]) -> raw_name r = raw_name cur ->
                             ~ In text (raw_changes r)).
  { intros r Hin Hr Ht.
    assert (In (raw_name cur, text) sn) as Hin'
      by (apply Hs; exists r; simpl; now repeat split).
    apply (seen_spec (raw_name cur, text)
             {| raw_sections := init ++ [cur];
                current_section := List.length init; seen_changes := sn |}) in Hin'.
    rewrite Hseen in Hin'. discriminate. }
  unfold add_change. simpl raw_sections. simpl current_section. simpl seen_changes.
  rewrite append_change_at_last, current_name_last.
  apply Forall_app in Hk as [Hk1 Hk2]. apply Forall_app in Hn as [Hn1 Hn2].
  inversion_clear Hk2 as [|? ? Hk2' _]. inversion_clear Hn2 as [|? ? Hn2' _].
  constructor; simpl.
  - rewrite !length_app. simpl. lia.
  - intros n t. unfold recorded at 1. simpl. rewrite Hs. unfold recorded. simpl.
    split.
    + intros [Heq | [r [Hin [H1 H2]]]].
      * injection Heq as <- <-. eexists. split; [apply in_or_app; right; now left|].
        simpl. split; [reflexivity | apply in_or_app; right; now left].
      * apply in_app_or in Hin as [Hin | [<- | []]].
        -- exists r. split; [apply in_or_app; now left | now split].
        -- eexists. split; [apply in_or_app; right; now left|].
           simpl. split; [assumption | apply in_or_app; now left].
    + intros [r [Hin [H1 H2]]]. apply in_app_or in Hin as [Hin | [<- | []]].
      * right. exists r. split; [apply in_or_app; now left | now split].
      * simpl in H1, H2. apply in_app_or in H2 as [H2 | [<- | []]].
        -- right. exists cur. split; [apply in_or_app; right; now left | now split].
        -- left. now rewrite H1.
  - apply Forall_app. split; [assumption|]. constructor; [|constructor]. simpl.
    apply Forall_app. split; [assumption | now repeat constructor].
  - apply Forall_app. split; [assumption|]. constructor; [|constructor]. simpl.
    apply NoDup_app; [assumption | repeat constructor; intros [] | ].
    intros x Hx [<- | []]. apply (Hfresh cur); [apply in_or_app; right; now left | reflexivity | assumption].
  - destruct init as [|r0 init]; simpl in *.
    + injection Hg as ->. simpl. now eexists _, [].
    + injection Hg as -> _. now eexists _, _.
Qed.

Lemma walk_inv_step event st st' :
  walk_inv st -> step event st = Continue st' -> walk_inv st'.
Proof.
  intros Hinv Hstep.
  destruct (step_cases _ _ _ Hstep) as [-> | [[t ->] | [t [Hk [Hs ->]]]]].
  - assumption.
  - now apply walk_inv_open.
  - now apply walk_inv_add.
Qed.

Lemma walk_inv_run events : forall st st',
  walk_inv st -> run events st = Some st' -> walk_inv st'.
Proof.
  induction events as [|e events IH]; intros st st' Hinv H; simpl in H.
  - now injection H as <-.
  - destruct (step e st) eqn:Hstep; [|discriminate].
    eapply IH; [|eassumption]. eapply walk_inv_step; eassumption.
Qed.

Lemma walk_inv_walk events : forall st, walk_inv st -> walk_inv (walk events st).
Proof.
  induction events as [|e events IH]; intros st Hinv; simpl.
  - assumption.
  - destruct (step e st) eqn:Hstep; [|assumption].
    apply IH. eapply walk_inv_step; eassumption.
Qed.

Lemma segment_inv parsed :
  walk_inv (walk (scoped_events parsed) initial_state).
Proof. apply walk_inv_walk, walk_inv_initial. Qed.

(** *** The loop that numbers the retained sections *)

Definition nonempty (r : RawSection) : bool :=
  match raw_changes r with [] => false | _ :: _ => true end.

Definition mk_section (pid url : string) (n i : nat) (r : RawSection) : Section :=
  let sid := (pid ++ "-s" ++ PyStr.str_of_nat n)%string in
  {| section_id := sid; name := raw_name r; order := i;
     changes := build_changes sid (raw_name r) url (raw_changes r) |}.

Definition retained (raws : list (nat * RawSection)) : list (nat * RawSection) :=
  filter (fun ir => nonempty (snd ir)) raws.

Lemma combine_seq_fst {A : Type} (l : list A) : forall a,
  map fst (combine (seq a (List.length l)) l) = seq a (List.length l).
Proof.
  induction l as [|x l IH]; intros a; simpl; [reflexivity | now rewrite IH].
Qed.

Lemma combine_seq_snd {A : Type} (l : list A) : forall a,
  map snd (combine (seq a (List.length l)) l) = l.
Proof.
  induction l as [|x l IH]; intros a; simpl; [reflexivity | now rewrite IH].
Qed.

Lemma combine_seq_length {A : Type} (l : list A) a :
  List.length (combine (seq a (List.length l)) l) = List.length l.
Proof. rewrite length_combine, length_seq. lia. Qed.

Lemma combine_seq_nth {A : Type} (l : list A) : forall a i x,
  In (i, x) (combine (seq a (List.length l)) l) ->
  a <= i /\ nth_error l (i - a) = Some x.
Proof.
  induction l as [|y l IH]; intros a i x H; simpl in H; [destruct H|].
  destruct H as [H | H].
  - injection H as <- <-. rewrite Nat.sub_diag. split; [lia | reflexivity].
  - apply IH in H as [Hle Hn]. split; [lia|].
    replace (i - a) with (S (i - S a)) by lia. exact Hn.
Qed.

Lemma combine_seq_sorted {A : Type} (f : nat * A -> bool) (l : list A) : forall a,
  StronglySorted lt (map fst (filter f (combine (seq a (List.length l)) l))).
Proof.
  induction l as [|y l IH]; intros a; simpl; [constructor|].
  destruct (f (a, y)); [|apply IH].
  simpl. constructor; [apply IH|].
  apply Forall_forall. intros i Hi. apply in_map_iff in Hi as [[i' x] [<- Hin]].
  apply filter_In in Hin as [Hin _]. apply combine_seq_nth in Hin. simpl. lia.
Qed.

Lemma filter_snd {A B : Type} (p : B -> bool) (l : list (A * B)) :
  map snd (filter (fun x => p (snd x)) l) = filter p (map snd l).
Proof.
  induction l as [|[a b] l IH]; simpl; [reflexivity|].
  destruct (p b); simpl; now rewrite IH.
Qed.

Lemma build_sections_spec pid url raws : forall acc,
  build_sections pid url raws acc
  = acc ++ map (fun nir => mk_section pid url (fst nir) (fst (snd nir)) (snd (snd nir)))
             (combine (seq (List.length acc) (List.length (retained raws)))
                      (retained raws)).
Proof.
  induction raws as [|[i r] raws IH]; intros acc; simpl.
  - now rewrite app_nil_r.
  - unfold nonempty at 1 2. simpl. destruct (raw_changes r) as [|t ts] eqn:Hr.
    + apply IH.
    + rewrite IH, <- app_assoc, length_app. simpl.
      rewrite Nat.add_1_r. unfold mk_section at 2. simpl. now rewrite Hr.
Qed.

Lemma build_changes_text sid nm url texts :
  map change_text (build_changes sid nm url texts) = texts.
Proof.
  unfold build_changes, enumerate. rewrite map_map.
  transitivity (map snd (combine (seq 0 (List.length texts)) texts)).
  - apply map_ext. now intros [m t].
  - apply combine_seq_snd.
Qed.

Lemma build_changes_length sid nm url texts :
  List.length (build_changes sid nm url texts) = List.length texts.
Proof.
  unfold build_changes, enumerate. now rewrite length_map, combine_seq_length.
Qed.

Lemma build_changes_ids sid nm url texts :
  map change_id (build_changes sid nm url texts)
  = map (fun m => (sid ++ "-c" ++ PyStr.str_of_nat m)%string)
        (seq 0 (List.length texts)).
Proof.
  unfold build_changes, enumerate. rewrite map_map.
  rewrite <- (combine_seq_fst texts 0) at 2. rewrite map_map.
  apply map_ext. now intros [m t].
Qed.

Lemma build_changes_orders sid nm url texts :
  map change_order (build_changes sid nm url texts) = seq 0 (List.length texts).
Proof.
  unfold build_changes, enumerate. rewrite map_map.
  transitivity (map fst (combine (seq 0 (List.length texts)) texts)).
  - apply map_ext. now intros [m t].
  - apply combine_seq_fst.
Qed.

(** The sections of the document, as a numbering of the raw sections that
    hold a change. *)
Lemma sections_shape parsed url :
  let doc := parse_patch_notes_parsed parsed url in
  sections doc
  = map (fun nir => mk_section (patch_id (patch doc)) url
                      (fst nir) (fst (snd nir)) (snd (snd nir)))
        (enumerate (retained (enumerate (segment parsed)))).
Proof.
  simpl. now rewrite build_sections_spec.
Qed.

Lemma retained_snd raws :
  map snd (retained (enumerate raws)) = filter nonempty raws.
Proof.
  unfold retained. rewrite filter_snd. unfold enumerate.
  now rewrite combine_seq_snd.
Qed.


Lemma retained_in_segment parsed n i r :
  In (n, (i, r)) (enumerate (retained (enumerate (segment parsed)))) ->
  nth_error (segment parsed) i = Some r /\ raw_changes r <> [].
Proof.
  intros H. apply in_combine_r in H. apply filter_In in H as [Hin Hne].
  apply combine_seq_nth in Hin as [_ Hn]. rewrite Nat.sub_0_r in Hn.
  split; [assumption|]. simpl in Hne. unfold nonempty in Hne.
  now destruct (raw_changes r).
Qed.

Lemma Forall_change_texts (P : string -> Prop) sid nm url texts :
  Forall P texts ->
  Forall (fun c => P (change_text c)) (build_changes sid nm url texts).
Proof.
  intros H. rewrite <- (build_changes_text sid nm url texts) in H.
  induction (build_changes sid nm url texts) as [|c cs IH]; [constructor|].
  simpl in H. inversion_clear H. constructor; auto.
Qed.

Lemma should_keep_change_false_iff text :
  should_keep_change text = false <-> rejected (PyStr.strip (PyStr.lower text)).
Proof.
  unfold should_keep_change, rejected.
  set (n := PyStr.strip (PyStr.lower text)).
  change PyStr.ISO_DATETIME with (map classb ISO_SHAPE).
  destruct (PyStr.is_empty n) eqn:E1.
  { apply is_empty_spec in E1. tauto. }
  destruct (PyStr.mem n NOISE_CHANGES) eqn:E2.
  { apply mem_spec in E2. unfold NOISE_CHANGES in E2. tauto. }
  destruct (PyStr.startswith "related articles" n) eqn:E3.
  { apply startswith_spec in E3. tauto. }
  destruct (PyStr.contains "game updates" n && PyStr.contains "patch notes" n) eqn:E4.
  { apply andb_true_iff in E4 as [Ha Hb]. apply contains_spec in Ha, Hb. tauto. }
  destruct (PyStr.search_classes (map classb ISO_SHAPE) n) eqn:E5.
  { apply search_classes_spec in E5. tauto. }
  destruct (String.length n <? 12) eqn:E6.
  { apply Nat.ltb_lt in E6. tauto. }
  destruct (500 <? String.length n) eqn:E7.
  { apply Nat.ltb_lt in E7. tauto. }
  split; [discriminate|].
  intros [H | [H | [H | [[Ha Hb] | [H | [H | H]]]]]].
  - apply is_empty_spec in H. congruence.
  - apply (mem_spec n NOISE_CHANGES) in H. congruence.
  - apply startswith_spec in H. congruence.
  - apply contains_spec in Ha, Hb. rewrite Ha, Hb in E4. discriminate.
  - apply search_classes_spec in H. congruence.
  - apply Nat.ltb_lt in H. congruence.
  - apply Nat.ltb_lt in H. congruence.
Qed.

(** C7. [should_keep_change] answers [False] exactly when the lower-cased,
    stripped text is empty, is one of the four noise phrases, starts with
    "related articles", contains both "game updates" and "patch notes",
    contains a date-time of the shape dddd-dd-ddtdd:dd, or is shorter than
    12 or longer than 500 characters; it answers [True] otherwise, and every
    change of every document returned by [parse_patch_notes_html] has a text
    the filter keeps, hence a text in none of those categories. *)
Theorem should_keep_change_rejects_noise :
  (forall text,
      (should_keep_change text = false
       <-> rejected (PyStr.strip (PyStr.lower text)))
      /\ (should_keep_change text = true
          <-> ~ rejected (PyStr.strip (PyStr.lower text))))
  /\ (forall tokenize html source_url,
        Forall (fun s =>
                  Forall (fun c =>
                            should_keep_change (change_text c) = true
                            /\ ~ rejected (PyStr.strip (PyStr.lower (change_text c))))
                         (changes s))
               (sections (parse_patch_notes_html tokenize html source_url))).
Proof.
  assert (Hiff : forall text,
             should_keep_change text = true
             <-> ~ rejected (PyStr.strip (PyStr.lower text))).
  { intros text. rewrite <- should_keep_change_false_iff.
    destruct (should_keep_change text); split; congruence. }
  split.
  - intros text. split; [apply should_keep_change_false_iff | apply Hiff].
  - intros tokenize html url. unfold parse_patch_notes_html.
    set (parsed := parse_html tokenize html).
    rewrite (sections_shape parsed url). apply Forall_map, Forall_forall.
    intros [n [i r]] Hin. simpl.
    apply retained_in_segment in Hin as [Hnth _]. apply nth_error_In in Hnth.
    pose proof (inv_kept _ (segment_inv parsed)) as Hk.
    rewrite Forall_forall in Hk. specialize (Hk r Hnth).
    eapply Forall_impl; [|apply Forall_change_texts; exact Hk].
    intros c Hc. split; [exact Hc | now apply Hiff].
Qed.

(** C8. While the segmentation loop runs, an [li] (or a [p] outside any
    [li]) whose text passes the filter is appended to the current section
    exactly when no section bearing the current section's name has recorded
    that text before, which is what the set of (section name, text) pairs
    holds; the text is then added at the end of the current section and
    nothing else changes.  Texts recorded under other names do not count, so
    the same text under a heading with a different name is appended again.
    Consequently no raw section, and no section of the document, holds the
    same text twice. *)
Theorem dedupe_is_per_section_name :
  (forall events st event t,
      run events initial_state = Some st ->
      change_event event t -> kept t ->
      (In (current_name st, t) (seen_changes st) <-> recorded (current_name st) t st)
      /\ (recorded (current_name st) t st -> step event st = Continue st)
      /\ (~ recorded (current_name st) t st ->
          step event st = Continue (add_change t st)
          /\ exists init cur,
               raw_sections st = init ++ [cur]
               /\ current_name st = raw_name cur
               /\ raw_sections (add_change t st)
                  = init ++ [{| raw_name := raw_name cur;
                                raw_changes := raw_changes cur ++ [t] |}]))
  /\ (forall parsed, Forall (fun r => NoDup (raw_changes r)) (segment parsed))
  /\ (forall tokenize html source_url,
        Forall (fun s => NoDup (map change_text (changes s)))
               (sections (parse_patch_notes_html tokenize html source_url))).
Proof.
  split; [|split].
  - intros events st event t Hrun Hev Hk.
    pose proof (walk_inv_run _ _ _ walk_inv_initial Hrun) as Hinv.
    pose proof (inv_seen _ Hinv (current_name st) t) as Hs.
    rewrite (step_change_event _ _ st Hev Hk).
    split; [exact Hs | split].
    + intros Hr. apply Hs, seen_spec in Hr. now rewrite Hr.
    + intros Hr.
      destruct (seen (current_name st, t) st) eqn:Hseen.
      { apply seen_spec, Hs in Hseen. contradiction. }
      split; [reflexivity|].
      destruct (split_last _ _ (inv_current _ Hinv)) as [init [cur [Hl Hlen]]].
      exists init, cur. destruct st as [rs c sn]. simpl in *. subst rs c.
      rewrite current_name_last. repeat split.
      unfold add_change. simpl. apply append_change_at_last.
  - intros parsed. apply (inv_nodup _ (segment_inv parsed)).
  - intros tokenize html url. unfold parse_patch_notes_html.
    set (parsed := parse_html tokenize html).
    rewrite (sections_shape parsed url). apply Forall_map, Forall_forall.
    intros [n [i r]] Hin. simpl. rewrite build_changes_text.
    apply retained_in_segment in Hin as [Hnth _]. apply nth_error_In in Hnth.
    pose proof (inv_nodup _ (segment_inv parsed)) as Hn.
    rewrite Forall_forall in Hn. now apply Hn.
Qed.

Lemma dedupe_is_per_section_name_witness :
  let t := "Reyna's Leer duration reduced from 3 to 1.5 seconds" in
  let st := walk [Fixtures.agent_heading; Fixtures.leer_item] initial_state in
  run [Fixtures.agent_heading; Fixtures.leer_item] initial_state = Some st
  /\ change_event Fixtures.leer_item t
  /\ kept t
  /\ step Fixtures.leer_item st = Continue st.
Proof.
  intros t st.
  assert (Hrun : run [Fixtures.agent_heading; Fixtures.leer_item] initial_state = Some st)
    by reflexivity.
  assert (Hev : change_event Fixtures.leer_item t).
  { split; [left; reflexivity | split; [reflexivity | discriminate]]. }
  assert (Hk : kept t) by reflexivity.
  destruct dedupe_is_per_section_name as [H _].
  destruct (H _ _ _ _ Hrun Hev Hk) as [_ [Hdup _]].
  split; [exact Hrun | split; [exact Hev | split; [exact Hk|]]].
  apply Hdup. exists {| raw_name := "Agent Updates"; raw_changes := [t] |}.
  split; [right; left; reflexivity | split; [reflexivity | left; reflexivity]].
Defined.

(** C1. The document keeps exactly the raw sections that hold at least one
    change after filtering, in the order they were met, each with its
    changes in order; the first raw section is the implicit "General" one
    and is kept or dropped by the same rule.  The n-th kept section (from 0)
    has id "{patch id}-s{n}" and its m-th change has id "{section id}-c{m}"
    and order m.  The document is a function of the markup and the source
    URL: equal inputs give equal documents, ids included. *)
Theorem parse_patch_notes_html_dense_ids tokenize html source_url :
  let parsed := parse_html tokenize html in
  let doc := parse_patch_notes_html tokenize html source_url in
  (exists cs rest,
      segment parsed = {| raw_name := "General"; raw_changes := cs |} :: rest)
  /\ map (fun s => (name s, map change_text (changes s))) (sections doc)
     = map (fun r => (raw_name r, raw_changes r))
           (filter (fun r => negb (Nat.eqb (List.length (raw_changes r)) 0))
                   (segment parsed))
  /\ map section_id (sections doc)
     = map (fun n => (patch_id (patch doc) ++ "-s" ++ PyStr.str_of_nat n)%string)
           (seq 0 (List.length (sections doc)))
  /\ Forall (fun s =>
               map change_id (changes s)
               = map (fun m => (section_id s ++ "-c" ++ PyStr.str_of_nat m)%string)
                     (seq 0 (List.length (changes s)))
               /\ map change_order (changes s) = seq 0 (List.length (changes s)))
            (sections doc)
  /\ (forall html' source_url',
         html' = html -> source_url' = source_url ->
         parse_patch_notes_html tokenize html' source_url' = doc).
Proof.
  intros parsed doc. unfold doc, parse_patch_notes_html. fold parsed.
  split; [apply (inv_general _ (segment_inv parsed))|].
  rewrite (sections_shape parsed source_url).
  set (pid := patch_id (patch (parse_patch_notes_parsed parsed source_url))).
  set (X := retained (enumerate (segment parsed))).
  split; [|split; [|split]].
  - rewrite map_map.
    transitivity (map (fun r => (raw_name r, raw_changes r))
                      (map snd (map snd (enumerate X)))).
    + rewrite !map_map. apply map_ext. intros [n [i r]]. simpl.
      now rewrite build_changes_text.
    + unfold enumerate at 1. rewrite combine_seq_snd. unfold X.
      rewrite retained_snd. f_equal. apply filter_ext. intros r.
      unfold nonempty. now destruct (raw_changes r).
  - rewrite map_map, length_map. unfold enumerate. rewrite combine_seq_length.
    rewrite <- (combine_seq_fst X 0) at 2. rewrite map_map.
    apply map_ext. now intros [n [i r]].
  - apply Forall_map, Forall_forall. intros [n [i r]] _. simpl.
    now rewrite build_changes_ids, build_changes_orders, build_changes_length.
  - intros html' url' -> ->. reflexivity.
Qed.

Lemma parse_patch_notes_html_dense_ids_witness :
  let doc := parse_patch_notes_html Fixtures.article_tokenizer "" "https://playvalorant.com/en-us/news/game-updates/valorant-patch-notes-12-02/" in
  map section_id (sections doc) = ["12.02-s0"; "12.02-s1"]
  /\ parse_patch_notes_html Fixtures.article_tokenizer "" "https://playvalorant.com/en-us/news/game-updates/valorant-patch-notes-12-02/" = doc.
Proof.
  intros doc. split; [reflexivity|].
  apply (parse_patch_notes_html_dense_ids Fixtures.article_tokenizer "" "https://playvalorant.com/en-us/news/game-updates/valorant-patch-notes-12-02/");
    reflexivity.
Defined.

(** C10. A kept section's [order] is the position of its raw section in the
    sequence of raw sections, where the implicit "General" section and the
    sections dropped for want of changes are counted.  The orders of the
    kept sections therefore increase strictly, but they need not start at 0
    nor be contiguous, and they differ in general from the index in the
    section id: there is an article whose two sections have orders 1 and 3
    and ids ending in s0 and s1. *)
Theorem section_order_is_raw_position :
  (forall tokenize html source_url,
      let parsed := parse_html tokenize html in
      let doc := parse_patch_notes_html tokenize html source_url in
      Forall (fun s =>
                exists r, nth_error (segment parsed) (order s) = Some r
                          /\ raw_name r = name s
                          /\ raw_changes r = map change_text (changes s))
             (sections doc)
      /\ StronglySorted lt (map order (sections doc)))
  /\ (let doc := parse_patch_notes_html Fixtures.article_tokenizer "" "" in
      List.length (segment (parse_html Fixtures.article_tokenizer "")) = 4
      /\ map order (sections doc) = [1; 3]
      /\ map section_id (sections doc) = ["latest-s0"; "latest-s1"]).
Proof.
  split.
  - intros tokenize html url parsed doc. unfold doc, parse_patch_notes_html.
    fold parsed. rewrite (sections_shape parsed url). split.
    + apply Forall_map, Forall_forall. intros [n [i r]] Hin. simpl.
      apply retained_in_segment in Hin as [Hnth _].
      exists r. now rewrite build_changes_text.
    + rewrite map_map.
      replace (map _ (enumerate (retained (enumerate (segment parsed)))))
        with (map fst (retained (enumerate (segment parsed)))).
      * apply combine_seq_sorted.
      * rewrite <- (combine_seq_snd (retained (enumerate (segment parsed))) 0) at 1.
        unfold enumerate at 3. rewrite map_map. apply map_ext. now intros [n [i r]].
  - repeat split; reflexivity.
Qed.

End ParsePatchFacts.

(** ** The link candidate extractor *)

Module FetchCurrentPatchFacts.
Import SimpleHtml FetchCurrentPatch.

(** [(major', minor') <= (major, minor)], lexicographically. *)
Definition version_le (v' v : nat * nat) : Prop :=
  fst v' < fst v \/ (fst v' = fst v /\ snd v' <= snd v).

Definition key_lt (a b : nat * nat * Z) : Prop :=
  let '(a1, a2, a3) := a in
  let '(b1, b2, b3) := b in
  a1 < b1 \/ (a1 = b1 /\ (a2 < b2 \/ (a2 = b2 /\ (a3 < b3)%Z))).

Lemma key_ltb_spec a b : key_ltb a b = true <-> key_lt a b.
Proof.
  destruct a as [[a1 a2] a3], b as [[b1 b2] b3]. unfold key_ltb, key_lt.
  rewrite !orb_true_iff, !andb_true_iff, !orb_true_iff, !andb_true_iff,
    !Nat.ltb_lt, !Nat.eqb_eq, Z.ltb_lt. reflexivity.
Qed.

Lemma key_ltb_false a b : key_ltb a b = false <-> ~ key_lt a b.
Proof.
  rewrite <- key_ltb_spec. destruct (key_ltb a b); split; congruence.
Qed.

Lemma key_lt_asym a b : key_lt a b -> ~ key_lt b a.
Proof.
  destruct a as [[a1 a2] a3], b as [[b1 b2] b3]. unfold key_lt. lia.
Qed.

Lemma key_not_lt_trans a b c : ~ key_lt a b -> ~ key_lt b c -> ~ key_lt a c.
Proof.
  destruct a as [[a1 a2] a3], b as [[b1 b2] b3], c as [[c1 c2] c3].
  unfold key_lt. lia.
Qed.

(** The head of the sorted list is an item of greatest key. *)
Lemma sort_desc_head items :
  items <> [] ->
  exists selected rest,
    sort_desc items = selected :: rest
    /\ In selected items
    /\ forall item, In item items -> ~ key_lt (sort_key selected) (sort_key item).
Proof.
  induction items as [|x items IH]; intros Hne; [contradiction|]. simpl.
  destruct items as [|y items].
  - simpl. exists x, []. split; [reflexivity|]. split; [now left|].
    intros item [<- | []]. intros H. exact (key_lt_asym _ _ H H).
  - destruct IH as [h [t [Hs [Hin Hmax]]]]; [discriminate|].
    rewrite Hs. simpl. destruct (key_ltb (sort_key x) (sort_key h)) eqn:Hlt.
    + exists h, (insert_desc x t). split; [reflexivity|]. split; [now right|].
      intros item [<- | Hitem].
      * apply key_lt_asym. now apply key_ltb_spec.
      * now apply Hmax.
    + exists x, (h :: t). split; [reflexivity|]. split; [now left|].
      apply key_ltb_false in Hlt.
      intros item [<- | Hitem].
      * intros H. exact (key_lt_asym _ _ H H).
      * eapply key_not_lt_trans; [exact Hlt | now apply Hmax].
Qed.

Lemma min_by_order_spec items : forall best,
  In (min_by_order best items) (best :: items)
  /\ forall item, In item (best :: items) ->
                  order (min_by_order best items) <= order item.
Proof.
  induction items as [|x items IH]; intros best; simpl.
  - split; [now left|]. intros item [<- | []]. lia.
  - destruct (IH (if order x <? order best then x else best)) as [Hin Hmin].
    split.
    + destruct Hin as [Hin | Hin]; [|now right; right].
      rewrite <- Hin. destruct (order x <? order best); [right; now left | now left].
    + intros item Hitem.
      assert (Hb : order (min_by_order (if order x <? order best then x else best) items)
                   <= order (if order x <? order best then x else best))
        by (apply Hmin; now left).
      destruct (order x <? order best) eqn:Hlt;
        [apply Nat.ltb_lt in Hlt | apply Nat.ltb_ge in Hlt].
      * destruct Hitem as [<- | [<- | Hitem]]; [lia | lia | apply Hmin; now right].
      * destruct Hitem as [<- | [<- | Hitem]]; [lia | lia | apply Hmin; now right].
Qed.

Lemma has_version_spec item :
  has_version item = true <-> exists v, patch_tuple item = Some v.
Proof.
  unfold has_version. destruct (patch_tuple item) as [v|]; split.
  - intros _. now exists v.
  - reflexivity.
  - discriminate.
  - intros [v H]. discriminate.
Qed.

(** The selection, on any list of candidates. *)
Lemma select_spec candidates :
  candidates <> [] ->
  exists selected,
    select candidates = Some selected
    /\ In selected candidates
    /\ ((exists item, In item candidates /\ has_version item = true) ->
        exists v,
          patch_tuple selected = Some v
          /\ forall item v', In item candidates -> patch_tuple item = Some v' ->
               version_le v' v /\ (v' = v -> order selected <= order item))
    /\ ((forall item, In item candidates -> patch_tuple item = None) ->
        forall item, In item candidates -> order selected <= order item).
Proof.
  intros Hne. destruct candidates as [|first others]; [contradiction|].
  unfold select.
  destruct (filter has_version (first :: others)) as [|x versioned] eqn:Hf.
  - simpl. destruct (min_by_order_spec others first) as [Hin Hmin].
    exists (min_by_order first others). repeat split; try assumption.
    + intros [item [Hitem Hv]].
      assert (In item (filter has_version (first :: others)))
        by (apply filter_In; now split).
      rewrite Hf in H. destruct H.
    + intros _. exact Hmin.
  - destruct (sort_desc_head (x :: versioned)) as [sel [rest [Hs [Hin Hmax]]]];
      [discriminate|].
    rewrite Hs. exists sel.
    rewrite <- Hf in Hin. apply filter_In in Hin as [Hin Hv].
    apply has_version_spec in Hv as [v Hv].
    split; [reflexivity|]. split; [assumption|]. split.
    + intros _. exists v. split; [assumption|].
      intros item v' Hitem Hv'.
      assert (Hin' : In item (x :: versioned)).
      { rewrite <- Hf. apply filter_In. split; [assumption|].
        apply has_version_spec. now exists v'. }
      specialize (Hmax item Hin'). unfold sort_key in Hmax.
      rewrite Hv, Hv' in Hmax. destruct v as [a b], v' as [a' b'].
      unfold key_lt in Hmax. unfold version_le. simpl.
      split; [lia|]. intros Heq. injection Heq as -> ->. lia.
    + intros Hnone. rewrite (Hnone sel Hin) in Hv. discriminate.
Qed.

Section Candidates.

Variable urljoin : string -> string -> string.

(** The candidates carry the positions of their anchors, in increasing
    order. *)
Lemma collect_orders base_url anchors : forall candidates seen_urls,
  StronglySorted lt (map fst anchors) ->
  StronglySorted lt (map order candidates) ->
  (forall c a, In c candidates -> In a anchors -> order c < fst a) ->
  StronglySorted lt (map order (collect urljoin base_url anchors candidates seen_urls)).
Proof.
  induction anchors as [|[index anchor] anchors IH]; intros cands seen Ha Hc Hlt;
    simpl; [assumption|].
  inversion_clear Ha as [|? ? Ha' Hall].
  assert (Hskip : forall seen',
             StronglySorted lt
               (map order (collect urljoin base_url anchors cands seen'))).
  { intros seen'. apply IH; try assumption.
    intros c a H1 H2. apply Hlt; [assumption | now right]. }
  assert (Hadd : forall c seen', order c = index ->
             StronglySorted lt
               (map order (collect urljoin base_url anchors (cands ++ [c]) seen'))).
  { intros c0 seen' Hc0. apply IH; try assumption.
    - rewrite map_app. simpl. rewrite Hc0.
      clear - Hc Hlt. induction cands as [|c cands IHc]; simpl.
      + repeat constructor.
      + inversion_clear Hc. constructor.
        * apply IHc; [assumption|]. intros c' a H1 H2.
          apply Hlt; [now right | assumption].
        * apply Forall_app. split; [assumption|]. constructor; [|constructor].
          apply (Hlt c (index, anchor)); now left.
    - intros c a Hin Ha. apply in_app_or in Hin as [Hin | [<- | []]].
      + apply Hlt; [assumption | now right].
      + rewrite Hc0. rewrite Forall_forall in Hall. apply Hall. now apply in_map. }
  repeat match goal with
         | |- context [if ?b then _ else _] => destruct b; try apply Hskip
         end; apply Hadd; reflexivity.
Qed.

Lemma candidates_of_orders parsed base_url :
  StronglySorted lt (map order (candidates_of urljoin parsed base_url)).
Proof.
  unfold candidates_of. apply collect_orders.
  - unfold ParsePatch.enumerate. rewrite ParsePatchFacts.combine_seq_fst.
    generalize 0 as a. induction (List.length _) as [|n IH]; intros a; simpl.
    + constructor.
    + constructor; [apply IH|]. apply Forall_forall. intros i Hi.
      apply in_seq in Hi. lia.
  - constructor.
  - intros c a [].
Qed.

End Candidates.

(** C4. When the listing yields at least one candidate,
    [extract_current_patch_link] returns the title, address and formatted
    version of one of them, chosen as follows.  If some candidate has a
    parsed version, the chosen one has a version, no candidate has a greater
    (major, minor) pair in the lexicographic order, and every candidate with
    the same pair occurs at the chosen one's position or later.  If none has
    a version, every candidate occurs at the chosen one's position or later.
    Positions are those of the anchors in the document and strictly increase
    along the candidate list, so the earliest candidate is unique. *)
Theorem extract_current_patch_link_ranking urljoin tokenize html base_url :
  let candidates := candidates_of urljoin (parse_html tokenize html) base_url in
  candidates <> [] ->
  StronglySorted lt (map order candidates)
  /\ exists selected,
      In selected candidates
      /\ extract_current_patch_link urljoin tokenize html base_url
         = Ok {| link_title := title selected;
                 link_url := url selected;
                 link_patch_id := format_patch_id (patch_tuple selected) |}
      /\ ((exists item, In item candidates /\ patch_tuple item <> None) ->
          exists v,
            patch_tuple selected = Some v
            /\ forall item v', In item candidates -> patch_tuple item = Some v' ->
                 version_le v' v /\ (v' = v -> order selected <= order item))
      /\ ((forall item, In item candidates -> patch_tuple item = None) ->
          forall item, In item candidates -> order selected <= order item).
Proof.
  intros candidates Hne. split; [apply candidates_of_orders|].
  destruct (select_spec candidates Hne) as [sel [Hsel [Hin [Hver Hnone]]]].
  exists sel. split; [assumption|]. split.
  - unfold extract_current_patch_link, extract_current_patch_link_parsed.
    fold candidates. now rewrite Hsel.
  - split; [|assumption].
    intros [item [Hitem Hv]]. apply Hver. exists item. split; [assumption|].
    unfold has_version. now destruct (patch_tuple item).
Qed.

Lemma extract_current_patch_link_ranking_witness :
  let candidates :=
    candidates_of ListingFixture.join_path
      (parse_html ListingFixture.listing_tokenizer "") BASE_URL in
  candidates <> []
  /\ exists selected,
      In selected candidates
      /\ extract_current_patch_link ListingFixture.join_path
           ListingFixture.listing_tokenizer "" BASE_URL
         = Ok {| link_title := title selected;
                 link_url := url selected;
                 link_patch_id := format_patch_id (patch_tuple selected) |}.
Proof.
  intros candidates.
  assert (Hne : candidates <> []) by (vm_compute; discriminate).
  split; [exact Hne|].
  destruct (extract_current_patch_link_ranking ListingFixture.join_path
              ListingFixture.listing_tokenizer "" BASE_URL Hne)
    as [_ [selected [Hin [Hlink _]]]].
  exists selected. split; assumption.
Defined.

(** The tie-break of the listing [11.01, 11.02, 11.02]: the first 11.02. *)
Example listing_selects_first_of_highest :
  extract_current_patch_link ListingFixture.join_path
    ListingFixture.listing_tokenizer "" BASE_URL
  = Ok {| link_title := "Patch 11.02";
          link_url := "https://playvalorant.com/en-us/news/game-updates/valorant-patch-notes-11-02/";
          link_patch_id := Some "11.02" |}.
Proof. reflexivity. Qed.

End FetchCurrentPatchFacts.


(** ** The mention linker: alias matching *)

Module DetectFacts.
Import Graph LoadNeo4j.

Fixpoint all_space (s : string) : Prop :=
  match s with
  | EmptyString => True
  | String c r => PyStr.isspace c = true /\ all_space r
  end.

Lemma all_space_append a b : all_space (a ++ b) <-> all_space a /\ all_space b.
Proof.
  induction a as [|c a IH]; simpl; [tauto | rewrite IH; tauto].
Qed.

Lemma rstrip_all_space s : all_space (PyStr.rstrip s) -> all_space s.
Proof.
  induction s as [|c s IH]; simpl; [trivial|].
  destruct (PyStr.rstrip s) as [|x r] eqn:Hr.
  - destruct (PyStr.isspace c) eqn:Hc.
    + intros _. split; [reflexivity | now apply IH].
    + simpl. intros [H _]. congruence.
  - simpl. intros [Hc Hx]. split; [assumption | now apply IH].
Qed.

Lemma lstrip_all_space s : PyStr.lstrip s = "" -> all_space s.
Proof.
  induction s as [|c s IH]; simpl; [trivial|].
  destruct (PyStr.isspace c) eqn:Hc; [|discriminate].
  intros H. split; [reflexivity | now apply IH].
Qed.

Lemma lstrip_head s c r : PyStr.lstrip s = String c r -> PyStr.isspace c = false.
Proof.
  induction s as [|x s IH]; simpl; [discriminate|].
  destruct (PyStr.isspace x) eqn:Hx; [assumption|].
  intros H. injection H as <- _. assumption.
Qed.

Lemma strip_all_space s : PyStr.strip s = "" -> all_space s.
Proof.
  unfold PyStr.strip. intros H. now apply rstrip_all_space, lstrip_all_space.
Qed.

Lemma strip_head s c r : PyStr.strip s = String c r -> PyStr.isspace c = false.
Proof. unfold PyStr.strip. apply lstrip_head. Qed.

(** *** [sorted(set(...))] *)

Definition str_lt : string -> string -> Prop := String_as_OT.lt.

Lemma compare_lt a b : String.compare a b = Lt <-> str_lt a b.
Proof. apply String_as_OT.cmp_lt. Qed.

Lemma compare_gt a b : String.compare a b = Gt -> str_lt b a.
Proof.
  intros H. apply compare_lt. rewrite String.compare_antisym, H. reflexivity.
Qed.

Lemma insert_sorted_In x l z : In z (insert_sorted x l) <-> z = x \/ In z l.
Proof.
  induction l as [|y l IH]; simpl.
  - intuition congruence.
  - destruct (String.compare x y) eqn:Hc; simpl.
    + apply String.compare_eq_iff in Hc. subst. intuition congruence.
    + intuition congruence.
    + rewrite IH. intuition congruence.
Qed.

Lemma sorted_set_In xs z : In z (sorted_set xs) <-> In z xs.
Proof.
  induction xs as [|x xs IH]; simpl; [reflexivity|].
  rewrite insert_sorted_In, IH. intuition congruence.
Qed.

Lemma insert_sorted_sorted x l :
  StronglySorted str_lt l -> StronglySorted str_lt (insert_sorted x l).
Proof.
  induction l as [|y l IH]; intros Hs; simpl.
  - repeat constructor.
  - inversion_clear Hs as [|? ? Hs' Hy].
    destruct (String.compare x y) eqn:Hc.
    + now constructor.
    + apply compare_lt in Hc. constructor; [now constructor|].
      constructor; [assumption|].
      eapply Forall_impl; [|exact Hy]. intros z Hz.
      eapply String_as_OT.lt_trans; eassumption.
    + apply compare_gt in Hc. constructor; [now apply IH|].
      apply Forall_forall. intros z Hz. apply insert_sorted_In in Hz as [-> | Hz].
      * assumption.
      * rewrite Forall_forall in Hy. now apply Hy.
Qed.

Lemma sorted_set_sorted xs : StronglySorted str_lt (sorted_set xs).
Proof.
  induction xs as [|x xs IH]; simpl; [constructor | now apply insert_sorted_sorted].
Qed.

Lemma sorted_NoDup l : StronglySorted str_lt l -> NoDup l.
Proof.
  induction 1 as [|x l Hs IH Hx]; constructor; [|assumption].
  intros Hin. rewrite Forall_forall in Hx.
  exact (String_as_OT.lt_not_eq _ _ (Hx x Hin) eq_refl).
Qed.

(** *** The matching loop *)

(** Some alias of the agent, normalized to at least three characters,
    occurs between spaces in the padded, normalized text. *)
Definition alias_occurs (change_text alias : string) : Prop :=
  3 <= String.length (normalize_for_match alias)
  /\ occurs_in (" " ++ normalize_for_match alias ++ " ")
               (" " ++ normalize_for_match change_text ++ " ").

Definition mentioned (change_text : string) (agent : AgentEntry) : Prop :=
  exists alias, In alias (aliases_or_name agent) /\ alias_occurs change_text alias.

Lemma alias_matches_spec change_text alias :
  alias_matches (" " ++ normalize_for_match change_text ++ " ") alias = true
  <-> alias_occurs change_text alias.
Proof.
  unfold alias_matches, alias_occurs.
  destruct (String.length (normalize_for_match alias) <? 3) eqn:Hlen.
  - apply Nat.ltb_lt in Hlen. split; [discriminate | lia].
  - apply Nat.ltb_ge in Hlen. rewrite contains_spec. tauto.
Qed.

Lemma matched_uuids_In change_text agents u :
  In u (matched_uuids (" " ++ normalize_for_match change_text ++ " ") agents)
  <-> u <> "" /\ exists agent,
        In agent agents /\ uuid agent = u /\ mentioned change_text agent.
Proof.
  induction agents as [|agent agents IH]; simpl.
  - split; [intros [] | intros [_ [a [[] _]]]].
  - assert (Hex : existsb (alias_matches (" " ++ normalize_for_match change_text ++ " "))
                    (aliases_or_name agent) = true
                  <-> mentioned change_text agent).
    { rewrite existsb_exists. unfold mentioned.
      split; intros [alias [Hin H]]; exists alias; split; try assumption;
        now apply alias_matches_spec. }
    destruct (PyStr.is_empty (uuid agent)) eqn:He.
    + apply is_empty_spec in He. rewrite IH. split.
      * intros [Hu [a [Hin H]]]. split; [assumption|]. exists a. split; [now right | assumption].
      * intros [Hu [a [[<- | Hin] [Hu' H]]]]; [congruence|].
        split; [assumption|]. now exists a.
    + assert (Hne : uuid agent <> "")
        by (intros H; apply is_empty_spec in H; congruence).
      destruct (existsb _ (aliases_or_name agent)) eqn:Hm.
      * simpl. rewrite IH. split.
        -- intros [<- | [Hu [a [Hin H]]]].
           ++ split; [assumption|]. exists agent. split; [now left|].
              split; [reflexivity | now apply Hex].
           ++ split; [assumption|]. exists a. split; [now right | assumption].
        -- intros [Hu [a [[<- | Hin] [Hu' H]]]]; [now left|].
           right. split; [assumption|]. now exists a.
      * rewrite IH. split.
        -- intros [Hu [a [Hin H]]]. split; [assumption|]. exists a. split; [now right | assumption].
        -- intros [Hu [a [[<- | Hin] [Hu' H]]]].
           ++ apply Hex in H. congruence.
           ++ split; [assumption|]. now exists a.
Qed.

(** The early return loses nothing: a text that normalizes to nothing
    holds no alias of three characters. *)
Lemma blank_text_no_mention change_text alias :
  PyStr.strip (" " ++ normalize_for_match change_text ++ " ") = "" ->
  ~ alias_occurs change_text alias.
Proof.
  intros Hblank [Hlen [pre [post Hocc]]].
  apply strip_all_space in Hblank. rewrite Hocc in Hblank.
  apply all_space_append in Hblank as [_ Hblank].
  apply all_space_append in Hblank as [Hblank _].
  simpl in Hblank. destruct Hblank as [_ Hblank].
  apply all_space_append in Hblank as [Hblank _].
  unfold normalize_for_match in *.
  destruct (PyStr.strip (PyStr.sub_non_alnum false (PyStr.lower alias)))
    as [|c r] eqn:Hs; [simpl in Hlen; lia|].
  apply strip_head in Hs. simpl in Hblank. destruct Hblank as [Hc _]. congruence.
Qed.

Lemma detect_agent_mentions_In change_text agents u :
  In u (detect_agent_mentions change_text agents)
  <-> u <> "" /\ exists agent,
        In agent agents /\ uuid agent = u /\ mentioned change_text agent.
Proof.
  unfold detect_agent_mentions.
  destruct (PyStr.is_empty (PyStr.strip (" " ++ normalize_for_match change_text ++ " ")))
    eqn:Hblank.
  - apply is_empty_spec in Hblank. split; [intros []|].
    intros [_ [agent [_ [_ [alias [_ H]]]]]].
    exact (blank_text_no_mention _ _ Hblank H).
  - rewrite sorted_set_In. apply matched_uuids_In.
Qed.

Lemma detect_agent_mentions_sorted change_text agents :
  StronglySorted str_lt (detect_agent_mentions change_text agents).
Proof.
  unfold detect_agent_mentions. destruct (PyStr.is_empty _).
  - constructor.
  - apply sorted_set_sorted.
Qed.

Lemma detect_agent_mentions_NoDup change_text agents :
  NoDup (detect_agent_mentions change_text agents).
Proof. apply sorted_NoDup, detect_agent_mentions_sorted. Qed.

(** C3. [detect_agent_mentions] returns the uuid of an agent exactly when
    the agent has a (non-empty) uuid and one of its aliases, normalized by
    [normalize_for_match] to at least three characters, occurs between
    spaces in the normalized change text padded with a space on each side;
    the aliases of an agent are its alias list, or its name when the list is
    missing or empty.  The result is sorted and holds each uuid once,
    whatever number of aliases matched. *)
Theorem detect_agent_mentions_spec change_text agents :
  (forall u,
      In u (detect_agent_mentions change_text agents)
      <-> u <> "" /\ exists agent,
            In agent agents /\ uuid agent = u /\ mentioned change_text agent)
  /\ NoDup (detect_agent_mentions change_text agents)
  /\ StronglySorted str_lt (detect_agent_mentions change_text agents).
Proof.
  split; [|split].
  - intros u. apply detect_agent_mentions_In.
  - apply detect_agent_mentions_NoDup.
  - apply detect_agent_mentions_sorted.
Qed.

(** The examples of the specification: Reyna is found through her name and
    through "Leer"; the alias "Go" is too short to match anything. *)
Example reyna_is_mentioned :
  detect_agent_mentions "Reyna's Leer duration reduced" RosterFixture.roster
  = ["a3bfb853"].
Proof. reflexivity. Qed.

Example short_alias_is_skipped :
  normalize_for_match "Go" = "go"
  /\ detect_agent_mentions "Let's go there" RosterFixture.roster = [].
Proof. split; reflexivity. Qed.

Lemma short_alias_never_matches change_text alias :
  String.length (normalize_for_match alias) < 3 ->
  alias_matches (" " ++ normalize_for_match change_text ++ " ") alias = false.
Proof.
  intros H. unfold alias_matches. apply Nat.ltb_lt in H. now rewrite H.
Qed.

End DetectFacts.


(** ** The graph materializer *)

Module StoreFacts.
Import Graph LoadNeo4j.

Definition node_keys (st : Store) : list (Label * string) :=
  map (fun n => (label n, key n)) (nodes st).

(** A store without duplicates: node identities are distinct and below the
    next one to be handed out, no two nodes share label and key, and no
    relationship occurs twice. *)
Record clean (st : Store) : Prop := {
  clean_ids : NoDup (map nid (nodes st));
  clean_fresh : Forall (fun n => nid n < next_id st) (nodes st);
  clean_nodes : NoDup (node_keys st);
  clean_rels : NoDup (rels st)
}.

Lemma label_eqb_spec a b : label_eqb a b = true <-> a = b.
Proof. destruct a, b; simpl; split; intros H; congruence. Qed.

Lemma reltype_eqb_spec a b : reltype_eqb a b = true <-> a = b.
Proof. destruct a, b; simpl; split; intros H; congruence. Qed.

Lemma rel_eqb_spec a b : rel_eqb a b = true <-> a = b.
Proof.
  unfold rel_eqb. rewrite !andb_true_iff, reltype_eqb_spec, !Nat.eqb_eq.
  destruct a, b; simpl. split.
  - intros [[-> ->] ->]. reflexivity.
  - intros H. injection H as -> -> ->. auto.
Qed.

Lemma mem_id_spec i ids : mem_id i ids = true <-> In i ids.
Proof.
  unfold mem_id. rewrite existsb_exists. split.
  - intros [j [Hin Heq]]. apply Nat.eqb_eq in Heq. now subst.
  - intros Hin. exists i. split; [assumption | apply Nat.eqb_refl].
Qed.

Lemma has_rel_spec r st : has_rel r st = true <-> In r (rels st).
Proof.
  unfold has_rel. rewrite existsb_exists. split.
  - intros [r' [Hin Heq]]. apply rel_eqb_spec in Heq. now subst.
  - intros Hin. exists r. split; [assumption | now apply rel_eqb_spec].
Qed.

Lemma is_node_spec l k n : is_node l k n = true <-> label n = l /\ key n = k.
Proof.
  unfold is_node. now rewrite andb_true_iff, label_eqb_spec, String.eqb_eq.
Qed.

Lemma match_nodes_In l k st n :
  In n (match_nodes l k st) <-> In n (nodes st) /\ label n = l /\ key n = k.
Proof. unfold match_nodes. now rewrite filter_In, is_node_spec. Qed.

(** Dropping elements keeps their images distinct. *)
Lemma NoDup_map_filter {X Y : Type} (image : X -> Y) (keep : X -> bool) :
  forall xs, NoDup (map image xs) -> NoDup (map image (filter keep xs)).
Proof.
  intros xs. induction xs as [|x xs IH]; simpl; intros H; [constructor|].
  inversion_clear H as [|? ? Hx Hl]. destruct (keep x); simpl; [|now apply IH].
  constructor; [|now apply IH].
  intros Hin. apply Hx. apply in_map_iff in Hin as [y [Hy Hin]].
  apply filter_In in Hin as [Hin _]. apply in_map_iff. now exists y.
Qed.

Lemma fold_left_inv {S X : Type} (P : S -> Prop) (f : S -> X -> S) (l : list X) :
  (forall s x, P s -> P (f s x)) -> forall s, P s -> P (fold_left f l s).
Proof.
  intros Hf. induction l as [|x l IH]; intros s Hs; simpl; [assumption|].
  apply IH, Hf, Hs.
Qed.

(** *** Every clause keeps the store free of duplicates *)

Lemma merge_node_clean l k p st : clean st -> clean (fst (merge_node l k p st)).
Proof.
  intros [Hids Hfresh Hkeys Hrels]. unfold merge_node.
  destruct (match_nodes l k st) as [|m ms] eqn:Hm; simpl.
  - constructor; simpl.
    + rewrite map_app. simpl. apply NoDup_app; [assumption | repeat constructor; intros [] |].
      intros i Hi [<- | []]. apply in_map_iff in Hi as [n [Hn Hin]].
      rewrite Forall_forall in Hfresh. specialize (Hfresh n Hin). lia.
    + apply Forall_app. split.
      * eapply Forall_impl; [|exact Hfresh]. simpl. intros; lia.
      * repeat constructor.
    + unfold node_keys. simpl. rewrite map_app. simpl.
      apply NoDup_app; [assumption | repeat constructor; intros [] |].
      intros lk Hi [<- | []]. apply in_map_iff in Hi as [n [Hn Hin]].
      injection Hn as Hl Hk.
      assert (In n (match_nodes l k st)) as Hin'
        by (apply match_nodes_In; now repeat split).
      rewrite Hm in Hin'. destruct Hin'.
    + assumption.
  - assert (Hsame : forall (A : Type) (g : Node -> A),
               (forall n, g (set_props p n) = g n) ->
               map g (map (fun n => if is_node l k n then set_props p n else n) (nodes st))
               = map g (nodes st)).
    { intros A g Hg. rewrite map_map. apply map_ext. intros n.
      destruct (is_node l k n); [apply Hg | reflexivity]. }
    constructor; simpl.
    + now rewrite Hsame.
    + apply Forall_map. eapply Forall_impl; [|exact Hfresh]. intros n Hn.
      now destruct (is_node l k n).
    + unfold node_keys. simpl. now rewrite Hsame.
    + assumption.
Qed.

Lemma merge_rel_clean t a b st : clean st -> clean (merge_rel t a b st).
Proof.
  intros Hc. unfold merge_rel.
  destruct (has_rel _ st) eqn:Hr; [assumption|].
  destruct Hc as [Hids Hfresh Hkeys Hrels]. constructor; simpl; try assumption.
  apply NoDup_app; [assumption | repeat constructor; intros [] |].
  intros r Hin [<- | []]. apply has_rel_spec in Hin. congruence.
Qed.

Lemma delete_rels_clean doomed st : clean st -> clean (delete_rels doomed st).
Proof.
  intros [Hids Hfresh Hkeys Hrels]. constructor; simpl; try assumption.
  now apply NoDup_filter.
Qed.

Lemma detach_delete_clean ids st : clean st -> clean (detach_delete ids st).
Proof.
  intros [Hids Hfresh Hkeys Hrels]. constructor; simpl.
  - now apply NoDup_map_filter.
  - apply Forall_forall. intros n Hn. apply filter_In in Hn as [Hn _].
    rewrite Forall_forall in Hfresh. now apply Hfresh.
  - unfold node_keys. simpl. now apply NoDup_map_filter.
  - now apply NoDup_filter.
Qed.

Lemma upsert_agents_clean st agents : clean st -> clean (upsert_agents st agents).
Proof.
  intros Hc. unfold upsert_agents. destruct agents as [|a agents]; [assumption|].
  apply fold_left_inv; [|assumption]. intros s row Hs. now apply merge_node_clean.
Qed.

Lemma clear_patch_subgraph_clean st patch_id :
  clean st -> clean (clear_patch_subgraph st patch_id).
Proof.
  intros Hc. unfold clear_patch_subgraph.
  now apply detach_delete_clean, delete_rels_clean.
Qed.

Lemma merge_section_clean patch_id section st :
  clean st -> clean (merge_section patch_id section st).
Proof.
  intros Hc. unfold merge_section. apply fold_left_inv; [|assumption].
  intros s p Hs.
  pose proof (merge_node_clean Section (ParsePatch.section_id section)
                (SectionProps (ParsePatch.name section) (ParsePatch.order section)
                   patch_id) s Hs) as Hm.
  destruct (merge_node _ _ _ s) as [s' bound]. simpl in Hm.
  apply fold_left_inv; [|assumption]. intros. now apply merge_rel_clean.
Qed.

Lemma merge_changes_clean section_id changes st :
  clean st -> clean (merge_changes section_id changes st).
Proof.
  intros Hc. unfold merge_changes. apply fold_left_inv; [|assumption].
  intros s sec Hs. apply fold_left_inv; [|assumption].
  intros s1 change Hs1.
  pose proof (merge_node_clean Change (ParsePatch.change_id change)
                (ChangeProps (ParsePatch.change_text change)
                   (ParsePatch.section_name change) (ParsePatch.source_url change)
                   (ParsePatch.change_order change)) s1 Hs1) as Hm.
  destruct (merge_node _ _ _ s1) as [s' bound]. simpl in Hm.
  apply fold_left_inv; [|assumption]. intros. now apply merge_rel_clean.
Qed.

Lemma upsert_section_clean patch_id acc section :
  clean (fst acc) -> clean (fst (upsert_section patch_id acc section)).
Proof.
  destruct acc as [st [sc cc]]. simpl. intros Hc.
  pose proof (merge_section_clean patch_id section st Hc) as Hm.
  destruct (ParsePatch.changes section); simpl; [assumption|].
  now apply merge_changes_clean.
Qed.

Lemma upsert_patch_clean st patch_doc :
  clean st -> clean (fst (upsert_patch st patch_doc)).
Proof.
  intros Hc. unfold upsert_patch.
  apply (fold_left_inv (fun acc => clean (fst acc))).
  - intros. now apply upsert_section_clean.
  - simpl. now apply clear_patch_subgraph_clean, merge_node_clean.
Qed.

Lemma link_change_clean change_id uuids st :
  clean st -> clean (link_change change_id uuids st).
Proof.
  intros Hc. unfold link_change.
  apply fold_left_inv; [|assumption]. intros s c Hs.
  apply fold_left_inv; [|assumption]. intros s1 u Hs1.
  apply fold_left_inv; [|assumption]. intros. now apply merge_rel_clean.
Qed.

Lemma relink_clean st patch_id agents :
  clean st -> clean (fst (relink_patch_agent_mentions st patch_id agents)).
Proof.
  intros Hc. unfold relink_patch_agent_mentions.
  destruct agents as [|a agents]; [assumption|].
  apply (fold_left_inv (fun acc => clean (fst acc))).
  - intros [s n] [cid text] Hs. simpl in *.
    destruct (detect_agent_mentions text (a :: agents)); simpl; [assumption|].
    now apply link_change_clean.
  - simpl. now apply delete_rels_clean.
Qed.

Lemma wipe_all_clean st : clean (wipe_all st).
Proof. constructor; simpl; constructor. Qed.

Lemma load_to_neo4j_clean st patch_doc agents_doc wipe :
  clean st -> clean (fst (load_to_neo4j st patch_doc agents_doc wipe)).
Proof.
  intros Hc. unfold load_to_neo4j.
  set (agents := match agents_doc with Some a => a | None => [] end).
  set (st0 := if wipe then wipe_all st else st).
  assert (H0 : clean st0) by (unfold st0; destruct wipe; [apply wipe_all_clean | assumption]).
  pose proof (upsert_patch_clean _ patch_doc (upsert_agents_clean _ agents H0)) as H1.
  destruct (upsert_patch (upsert_agents st0 agents) patch_doc) as [st1 [sc cc]].
  simpl in H1.
  pose proof (relink_clean st1 (ParsePatch.patch_id (ParsePatch.patch patch_doc))
                agents H1) as H2.
  destruct (relink_patch_agent_mentions st1 _ agents) as [st2 links]. exact H2.
Qed.

(** *** The counts returned depend on the document alone *)

Definition count_changes (secs : list ParsePatch.Section) : nat :=
  fold_right (fun s n => List.length (ParsePatch.changes s) + n) 0 secs.

Lemma upsert_sections_counts patch_id secs : forall st a b,
  snd (fold_left (upsert_section patch_id) secs (st, (a, b)))
  = (a + List.length secs, b + count_changes secs).
Proof.
  induction secs as [|s secs IH]; intros st a b; simpl.
  - f_equal; lia.
  - destruct (ParsePatch.changes s) eqn:Hc; rewrite IH; simpl; f_equal; lia.
Qed.

Lemma upsert_patch_counts st patch_doc :
  snd (upsert_patch st patch_doc)
  = (List.length (ParsePatch.sections patch_doc),
     count_changes (ParsePatch.sections patch_doc)).
Proof. unfold upsert_patch. now rewrite upsert_sections_counts. Qed.

Lemma load_to_neo4j_counts st patch_doc agents_doc wipe :
  sections (snd (load_to_neo4j st patch_doc agents_doc wipe))
  = List.length (ParsePatch.sections patch_doc)
  /\ changes (snd (load_to_neo4j st patch_doc agents_doc wipe))
     = count_changes (ParsePatch.sections patch_doc).
Proof.
  unfold load_to_neo4j.
  set (agents := match agents_doc with Some a => a | None => [] end).
  set (st0 := upsert_agents (if wipe then wipe_all st else st) agents).
  pose proof (upsert_patch_counts st0 patch_doc) as Hc.
  destruct (upsert_patch st0 patch_doc) as [st1 [sc cc]]. simpl in Hc.
  injection Hc as -> ->.
  destruct (relink_patch_agent_mentions st1 _ agents) as [st2 links].
  simpl. split; reflexivity.
Qed.

(** *** Reading the patterns *)

Lemma out_rels_In t l a st r b :
  In (r, b) (out_rels t l a st)
  <-> In r (rels st) /\ rel r = t /\ src r = a
      /\ In b (nodes st) /\ nid b = dst r /\ label b = l.
Proof.
  unfold out_rels. rewrite in_flat_map. split.
  - intros [r' [Hr Hin]].
    destruct (reltype_eqb (rel r') t && (src r' =? a)) eqn:Hc; [|destruct Hin].
    apply andb_true_iff in Hc as [Ht Hs].
    apply reltype_eqb_spec in Ht. apply Nat.eqb_eq in Hs.
    apply in_map_iff in Hin as [b' [Heq Hb]]. injection Heq as <- <-.
    apply filter_In in Hb as [Hb Hc]. apply andb_true_iff in Hc as [Hn Hl].
    apply Nat.eqb_eq in Hn. apply label_eqb_spec in Hl. tauto.
  - intros [Hr [Ht [Hs [Hb [Hn Hl]]]]]. exists r. split; [assumption|].
    apply reltype_eqb_spec in Ht. apply Nat.eqb_eq in Hs. rewrite Ht, Hs. simpl.
    apply in_map. apply filter_In. split; [assumption|].
    apply andb_true_iff. split; [now apply Nat.eqb_eq | now apply label_eqb_spec].
Qed.

Lemma out_nodes_In t l a st b :
  In b (out_nodes t l a st)
  <-> exists r, In r (rels st) /\ rel r = t /\ src r = a
                /\ In b (nodes st) /\ nid b = dst r /\ label b = l.
Proof.
  unfold out_nodes. rewrite in_map_iff. split.
  - intros [[r b'] [<- Hin]]. exists r. now apply out_rels_In.
  - intros [r H]. exists (r, b). split; [reflexivity | now apply out_rels_In].
Qed.

(** [st'] holds no node and no relationship that [st] lacks. *)
Definition sub (st' st : Store) : Prop :=
  incl (nodes st') (nodes st) /\ incl (rels st') (rels st).

Lemma out_nodes_sub t l a st' st b :
  sub st' st -> In b (out_nodes t l a st') -> In b (out_nodes t l a st).
Proof.
  intros [Hn Hr]. rewrite !out_nodes_In. intros [r [H1 [H2 [H3 [H4 H5]]]]].
  exists r. repeat split; try tauto; [now apply Hr | now apply Hn].
Qed.

Lemma patch_sections_In patch_id st s :
  In s (patch_sections patch_id st)
  <-> exists p, In p (nodes st) /\ label p = Patch /\ key p = patch_id
                /\ In s (out_nodes HAS_SECTION Section (nid p) st).
Proof.
  unfold patch_sections. rewrite in_flat_map. split.
  - intros [p [Hp Hs]]. apply match_nodes_In in Hp. exists p. tauto.
  - intros [p [H1 [H2 [H3 H4]]]]. exists p. split; [|assumption].
    apply match_nodes_In. tauto.
Qed.

Lemma patch_changes_In patch_id st c :
  In c (patch_changes patch_id st)
  <-> exists s, In s (patch_sections patch_id st)
                /\ In c (out_nodes HAS_CHANGE Change (nid s) st).
Proof. unfold patch_changes. now rewrite in_flat_map. Qed.

Lemma patch_sections_sub patch_id st' st s :
  sub st' st -> In s (patch_sections patch_id st') -> In s (patch_sections patch_id st).
Proof.
  intros Hsub. rewrite !patch_sections_In. intros [p [H1 [H2 [H3 H4]]]].
  exists p. repeat split; try assumption; [now apply Hsub | eapply out_nodes_sub; eassumption].
Qed.

Lemma clear_patch_subgraph_sub st patch_id : sub (clear_patch_subgraph st patch_id) st.
Proof.
  unfold clear_patch_subgraph, sub. simpl. split.
  - intros n Hn. now apply filter_In in Hn as [Hn _].
  - intros r Hr. apply filter_In in Hr as [Hr _]. now apply filter_In in Hr as [Hr _].
Qed.

Lemma empty_list {A : Type} (l : list A) : (forall x, ~ In x l) -> l = [].
Proof.
  destruct l as [|x l]; [reflexivity|]. intros H. destruct (H x). now left.
Qed.

(** The clearing statement removes the sections and changes of the patch
    together with every relationship that touches them. *)
Lemma clear_patch_subgraph_spec st patch_id :
  let doomed := patch_changes patch_id st ++ patch_sections patch_id st in
  let st' := clear_patch_subgraph st patch_id in
  (forall n, In n doomed -> forall m, In m (nodes st') -> nid m <> nid n)
  /\ (forall n r, In n doomed -> In r (rels st') -> src r <> nid n /\ dst r <> nid n)
  /\ patch_sections patch_id st' = []
  /\ patch_changes patch_id st' = [].
Proof.
  intros doomed st'.
  assert (Hnodes : forall n, In n doomed -> forall m, In m (nodes st') -> nid m <> nid n).
  { intros n Hn m Hm Heq. unfold st', clear_patch_subgraph in Hm. simpl in Hm.
    apply filter_In in Hm as [_ Hm]. apply negb_true_iff in Hm.
    assert (mem_id (nid m) (map nid (patch_changes patch_id st)
                             ++ map nid (patch_sections patch_id st)) = true) as Hin.
    { apply mem_id_spec. rewrite <- map_app, Heq. now apply in_map. }
    congruence. }
  assert (Hrels : forall n r, In n doomed -> In r (rels st') ->
                              src r <> nid n /\ dst r <> nid n).
  { intros n r Hn Hr. unfold st', clear_patch_subgraph in Hr. simpl in Hr.
    apply filter_In in Hr as [_ Hr]. apply negb_true_iff, orb_false_iff in Hr as [H1 H2].
    assert (Hin : In (nid n) (map nid (patch_changes patch_id st)
                               ++ map nid (patch_sections patch_id st))).
    { rewrite <- map_app. now apply in_map. }
    split; intros Heq; rewrite <- Heq in Hin; apply mem_id_spec in Hin; congruence. }
  assert (Hsec : patch_sections patch_id st' = []).
  { apply empty_list. intros s Hs.
    pose proof (patch_sections_sub _ _ _ _ (clear_patch_subgraph_sub st patch_id) Hs) as Hs0.
    apply patch_sections_In in Hs as [p [_ [_ [_ Hout]]]].
    apply out_nodes_In in Hout as [r [Hr [_ [_ [_ [Hd _]]]]]].
    assert (Hdoomed : In s doomed) by (apply in_or_app; now right).
    destruct (Hrels s r Hdoomed Hr) as [_ H]. congruence. }
  repeat split; try assumption; try (now apply Hrels).
  unfold patch_changes. fold st'. now rewrite Hsec.
Qed.

Lemma clean_empty : clean Graph.empty.
Proof. constructor; simpl; constructor. Qed.

End StoreFacts.

(** ** The mention linker: relinking a patch *)

Module RelinkFacts.
Import Graph LoadNeo4j StoreFacts.

Definition mention (c a : nat) : Rel :=
  {| rel := MENTIONS_AGENT; src := c; dst := a |}.

(** The agent nodes the statement of [link_change] binds for a change. *)
Definition linked_agents (st : Store) (agents : list AgentEntry) (c : Node)
  : list Node :=
  flat_map (fun u => match_nodes Agent u st)
           (detect_agent_mentions (text_of c) agents).

(** The relationships re-derived for a change. *)
Definition derived_for (st : Store) (agents : list AgentEntry) (c : Node)
  : list Rel :=
  map (fun a => mention (nid c) (nid a)) (linked_agents st agents c).

(** Every [MENTIONS_AGENT] relationship from a change of the patch to an
    agent node is one the roster accounts for. *)
Definition only_derived_mentions (st : Store) (patch_id : string)
    (agents : list AgentEntry) : Prop :=
  forall r c a,
    In r (rels st) -> rel r = MENTIONS_AGENT ->
    In c (patch_changes patch_id st) -> src r = nid c ->
    In a (nodes st) -> label a = Agent -> dst r = nid a ->
    In (key a) (detect_agent_mentions (text_of c) agents).

Definition with_rels (st : Store) (rs : list Rel) : Store :=
  {| nodes := nodes st; rels := rs; next_id := next_id st |}.

(** Elements that expand to nothing can be filtered out beforehand. *)
Lemma flat_map_filter {X Y : Type} (expand : X -> list Y) (keep : X -> bool) :
  (forall x, keep x = false -> expand x = []) ->
  forall xs, flat_map expand (filter keep xs) = flat_map expand xs.
Proof.
  intros H xs. induction xs as [|x xs IH]; simpl; [reflexivity|].
  destruct (keep x) eqn:Hp; simpl; rewrite IH; [reflexivity|].
  now rewrite (H x Hp).
Qed.

(** A pattern over relationships of type [t] only sees those. *)
Lemma out_nodes_ext t l a st st' :
  nodes st = nodes st' ->
  filter (fun r => reltype_eqb (rel r) t) (rels st)
  = filter (fun r => reltype_eqb (rel r) t) (rels st') ->
  out_nodes t l a st = out_nodes t l a st'.
Proof.
  intros Hn Hr. unfold out_nodes, out_rels. f_equal.
  rewrite <- (flat_map_filter _ (fun r => reltype_eqb (rel r) t)) with (xs := rels st).
  - rewrite <- (flat_map_filter _ (fun r => reltype_eqb (rel r) t)) with (xs := rels st').
    + now rewrite Hr, Hn.
    + intros r H. now rewrite H.
  - intros r H. now rewrite H.
Qed.

(** Two stores with the same nodes that differ by [MENTIONS_AGENT]
    relationships only. *)
Definition same_structure (st st' : Store) : Prop :=
  nodes st = nodes st'
  /\ forall t, t <> MENTIONS_AGENT ->
       filter (fun r => reltype_eqb (rel r) t) (rels st)
       = filter (fun r => reltype_eqb (rel r) t) (rels st').

Lemma same_structure_changes patch_id st st' :
  same_structure st st' -> patch_changes patch_id st = patch_changes patch_id st'.
Proof.
  intros [Hn Hr].
  assert (Hs : patch_sections patch_id st = patch_sections patch_id st').
  { unfold patch_sections, match_nodes. rewrite Hn. apply flat_map_ext. intros p.
    apply out_nodes_ext; [assumption | apply Hr; discriminate]. }
  unfold patch_changes. rewrite Hs. apply flat_map_ext. intros s.
  apply out_nodes_ext; [assumption | apply Hr; discriminate].
Qed.

Lemma filter_filter_other {A : Type} (p q : A -> bool) (l : list A) :
  (forall x, p x = true -> q x = true) ->
  filter p (filter q l) = filter p l.
Proof.
  intros H. induction l as [|x l IH]; simpl; [reflexivity|].
  destruct (q x) eqn:Hq; simpl.
  - destruct (p x); now rewrite IH.
  - destruct (p x) eqn:Hp; [|assumption]. rewrite (H x Hp) in Hq. discriminate.
Qed.

Lemma delete_patch_mentions_structure st patch_id :
  same_structure (delete_patch_mentions st patch_id) st.
Proof.
  split; [reflexivity|]. intros t Ht. unfold delete_patch_mentions. simpl.
  apply filter_filter_other. intros r Hr. apply reltype_eqb_spec in Hr.
  unfold mentions_from. destruct (reltype_eqb (rel r) MENTIONS_AGENT) eqn:Hm.
  - apply reltype_eqb_spec in Hm. congruence.
  - reflexivity.
Qed.

Lemma added_mentions_structure st new :
  Forall (fun r => rel r = MENTIONS_AGENT) new ->
  same_structure (with_rels st (rels st ++ new)) st.
Proof.
  intros Hnew. split; [reflexivity|]. intros t Ht. simpl.
  rewrite filter_app. rewrite <- (app_nil_r (filter _ (rels st))) at 2. f_equal.
  induction Hnew as [|r new Hr _ IH]; simpl; [reflexivity|].
  destruct (reltype_eqb (rel r) t) eqn:Hc; [|assumption].
  apply reltype_eqb_spec in Hc. congruence.
Qed.

Lemma node_label_is_spec l i st :
  node_label_is l i st = true <-> exists n, In n (nodes st) /\ nid n = i /\ label n = l.
Proof.
  unfold node_label_is. rewrite existsb_exists. split.
  - intros [n [Hin Hc]]. apply andb_true_iff in Hc as [H1 H2].
    apply Nat.eqb_eq in H1. apply label_eqb_spec in H2. now exists n.
  - intros [n [Hin [H1 H2]]]. exists n. split; [assumption|].
    apply andb_true_iff. split; [now apply Nat.eqb_eq | now apply label_eqb_spec].
Qed.

(** The first statement leaves no mention from a change of the patch to an
    agent. *)
Lemma delete_patch_mentions_spec st patch_id r c a :
  In r (rels (delete_patch_mentions st patch_id)) ->
  In c (patch_changes patch_id st) ->
  In a (nodes st) -> label a = Agent ->
  r <> mention (nid c) (nid a).
Proof.
  intros Hr Hc Ha Hl ->. unfold delete_patch_mentions in Hr. simpl in Hr.
  apply filter_In in Hr as [_ Hr]. apply negb_true_iff in Hr.
  unfold mentions_from in Hr. simpl in Hr.
  assert (mem_id (nid c) (map nid (patch_changes patch_id st)) = true) as H1
    by (apply mem_id_spec; now apply in_map).
  assert (node_label_is Agent (nid a) st = true) as H2
    by (apply node_label_is_spec; now exists a).
  rewrite H1, H2 in Hr. discriminate.
Qed.

(** Identities name nodes: in a clean store two nodes with the same
    identity are the same node. *)
Lemma nid_injective st n m :
  clean st -> In n (nodes st) -> In m (nodes st) -> nid n = nid m -> n = m.
Proof.
  intros [Hids _ _ _]. induction (nodes st) as [|x l IH]; simpl; [intros []|].
  simpl in Hids. inversion_clear Hids as [|? ? Hx Hl].
  intros [<- | Hn] [<- | Hm] Heq.
  - reflexivity.
  - destruct Hx. rewrite Heq. now apply in_map.
  - destruct Hx. rewrite <- Heq. now apply in_map.
  - now apply IH.
Qed.

(** In a clean store a label and a key name at most one node. *)
Lemma match_nodes_unique st n :
  clean st -> In n (nodes st) -> match_nodes (label n) (key n) st = [n].
Proof.
  intros [_ _ Hkeys _]. unfold match_nodes, node_keys in *.
  induction (nodes st) as [|x l IH]; simpl; [intros []|].
  simpl in Hkeys. inversion_clear Hkeys as [|? ? Hx Hl].
  assert (Hnone : forall y, (label y, key y) = (label x, key x) -> ~ In (label x, key x) (map (fun n => (label n, key n)) l) ->
                  filter (is_node (label y) (key y)) l = []).
  { intros y Hy Hnot. apply empty_list. intros z Hz. apply filter_In in Hz as [Hz Hc].
    apply is_node_spec in Hc as [H1 H2]. apply Hnot. apply in_map_iff. exists z.
    split; [|assumption]. rewrite H1, H2. exact Hy. }
  intros [<- | Hn].
  - assert (is_node (label x) (key x) x = true) as -> by now apply is_node_spec.
    f_equal. now apply Hnone.
  - destruct (is_node (label n) (key n) x) eqn:Hc.
    + apply is_node_spec in Hc as [H1 H2]. destruct Hx. apply in_map_iff.
      exists n. split; [congruence | assumption].
    + now apply IH.
Qed.

Lemma with_rels_same st : with_rels st (rels st) = st.
Proof. now destruct st. Qed.

Lemma match_nodes_nodes l k st st' :
  nodes st = nodes st' -> match_nodes l k st = match_nodes l k st'.
Proof. unfold match_nodes. now intros ->. Qed.

(** Merging relationships that are all new appends them. *)
Lemma merge_mentions_all c targets : forall st,
  NoDup targets ->
  (forall t, In t targets -> ~ In (mention c t) (rels st)) ->
  fold_left (fun st t => merge_rel MENTIONS_AGENT c t st) targets st
  = with_rels st (rels st ++ map (mention c) targets).
Proof.
  induction targets as [|t targets IH]; intros st Hnd Hnew; simpl.
  - now rewrite app_nil_r, with_rels_same.
  - inversion_clear Hnd as [|? ? Ht Hnd'].
    unfold merge_rel at 2. fold (mention c t).
    destruct (has_rel (mention c t) st) eqn:Hr.
    { apply has_rel_spec in Hr. destruct (Hnew t); [now left | assumption]. }
    rewrite IH; [|assumption|].
    + unfold with_rels. simpl. now rewrite <- app_assoc.
    + intros t' Ht' Hin. simpl in Hin. apply in_app_or in Hin as [Hin | [Heq | []]].
      * apply (Hnew t'); [now right | assumption].
      * injection Heq as ->. contradiction.
Qed.

Lemma merge_mentions_nodes c targets : forall st,
  nodes (fold_left (fun st t => merge_rel MENTIONS_AGENT c t st) targets st)
  = nodes st.
Proof.
  induction targets as [|t targets IH]; intros st; simpl; [reflexivity|].
  rewrite IH. unfold merge_rel. now destruct (has_rel _ st).
Qed.

Lemma fold_left_map {S X Y : Type} (f : S -> Y -> S) (g : X -> Y) (l : list X) :
  forall s, fold_left (fun s x => f s (g x)) l s = fold_left f (map g l) s.
Proof. induction l as [|x l IH]; intros s; simpl; [reflexivity | apply IH]. Qed.

(** The two inner loops of the linking statement, as one loop over the
    agent nodes bound in the store the statement starts from. *)
Lemma link_uuids c uuids : forall st,
  fold_left
    (fun st uuid =>
       fold_left (fun st a => merge_rel MENTIONS_AGENT c (nid a) st)
                 (match_nodes Agent uuid st) st)
    uuids st
  = fold_left (fun st t => merge_rel MENTIONS_AGENT c t st)
      (map nid (flat_map (fun u => match_nodes Agent u st) uuids)) st.
Proof.
  induction uuids as [|u uuids IH]; intros st; simpl; [reflexivity|].
  rewrite map_app, fold_left_app.
  rewrite (fold_left_map (fun st t => merge_rel MENTIONS_AGENT c t st) nid).
  set (st' := fold_left _ (map nid (match_nodes Agent u st)) st).
  rewrite IH. f_equal. f_equal. apply flat_map_ext. intros u'.
  apply match_nodes_nodes. apply merge_mentions_nodes.
Qed.

Section Relink.

Variable st : Store.
Variable patch_id : string.
Variable agents : list AgentEntry.

Hypothesis st_clean : clean st.
Hypothesis changes_once : NoDup (map nid (patch_changes patch_id st)).

Let st1 := delete_patch_mentions st patch_id.
Let cs := patch_changes patch_id st.

Lemma change_in_store c : In c cs -> In c (nodes st) /\ label c = Change.
Proof.
  intros Hc. apply patch_changes_In in Hc as [s [_ Hout]].
  apply out_nodes_In in Hout as [r H]. tauto.
Qed.

Lemma linked_agent_in_store c a :
  In a (linked_agents st agents c) ->
  In a (nodes st) /\ label a = Agent
  /\ In (key a) (detect_agent_mentions (text_of c) agents).
Proof.
  unfold linked_agents. rewrite in_flat_map. intros [u [Hu Ha]].
  apply match_nodes_In in Ha as [Ha [Hl Hk]]. subst u. tauto.
Qed.

Lemma linked_agents_distinct c : NoDup (map nid (linked_agents st agents c)).
Proof.
  unfold linked_agents.
  pose proof (DetectFacts.detect_agent_mentions_NoDup (text_of c) agents) as Hnd.
  induction (detect_agent_mentions (text_of c) agents) as [|u us IH]; simpl;
    [constructor|].
  inversion_clear Hnd as [|? ? Hu Hus]. rewrite map_app.
  destruct (match_nodes Agent u st) as [|a rest] eqn:Hm; simpl; [now apply IH|].
  assert (Ha : In a (match_nodes Agent u st)) by (rewrite Hm; now left).
  apply match_nodes_In in Ha as [Ha [Hl Hk]].
  pose proof (match_nodes_unique st a st_clean Ha) as Huniq.
  rewrite Hl, Hk, Hm in Huniq. injection Huniq as ->. simpl.
  constructor; [|now apply IH].
  intros Hin. apply in_map_iff in Hin as [a' [Heq Hin]].
  apply in_flat_map in Hin as [u' [Hu' Ha']].
  apply match_nodes_In in Ha' as [Ha' [Hl' Hk']].
  assert (a' = a) by (now apply (nid_injective st)).
  subst a'. congruence.
Qed.

(** The linking statement for one change of the patch, run on a store that
    holds the relationships re-derived for the changes before it. *)
Lemma link_change_adds done c todo :
  cs = done ++ c :: todo ->
  let before := with_rels st1 (rels st1 ++ flat_map (derived_for st agents) done) in
  link_change (key c) (detect_agent_mentions (text_of c) agents) before
  = with_rels st1
      (rels st1 ++ flat_map (derived_for st agents) (done ++ [c])).
Proof.
  intros Hcs before.
  assert (Hc : In c cs) by (rewrite Hcs; apply in_or_app; right; now left).
  destruct (change_in_store c Hc) as [Hin Hl].
  unfold link_change.
  assert (Hm : match_nodes Change (key c) before = [c]).
  { rewrite (match_nodes_nodes _ _ before st) by reflexivity.
    rewrite <- Hl. now apply match_nodes_unique. }
  rewrite Hm. simpl fold_left at 1. rewrite link_uuids.
  assert (Hla : flat_map (fun u => match_nodes Agent u before)
                  (detect_agent_mentions (text_of c) agents)
                = linked_agents st agents c).
  { unfold linked_agents. apply flat_map_ext. intros u.
    now apply match_nodes_nodes. }
  rewrite Hla, merge_mentions_all.
  - unfold with_rels. simpl. rewrite flat_map_app. simpl.
    rewrite app_nil_r, <- app_assoc. unfold derived_for at 3. now rewrite map_map.
  - apply linked_agents_distinct.
  - intros t Ht Hrel. apply in_map_iff in Ht as [a [<- Ha]].
    destruct (linked_agent_in_store c a Ha) as [Hna [Hla' _]].
    simpl in Hrel. apply in_app_or in Hrel as [Hrel | Hrel].
    + now apply (delete_patch_mentions_spec st patch_id _ c a Hrel).
    + apply in_flat_map in Hrel as [c' [Hc' Hd]].
      apply in_map_iff in Hd as [a' [Heq _]]. injection Heq as Heq _.
      unfold cs in Hcs. rewrite Hcs, map_app in changes_once. simpl in changes_once.
      apply NoDup_remove_2 in changes_once. apply changes_once.
      apply in_or_app. left. rewrite <- Heq. now apply in_map.
Qed.

Definition mentions_of (c : Node) : nat :=
  List.length (detect_agent_mentions (text_of c) agents).

Lemma relink_record_adds done c todo n :
  cs = done ++ c :: todo ->
  relink_record agents
    (with_rels st1 (rels st1 ++ flat_map (derived_for st agents) done), n)
    (key c, text_of c)
  = (with_rels st1 (rels st1 ++ flat_map (derived_for st agents) (done ++ [c])),
     n + mentions_of c).
Proof.
  intros Hcs. pose proof (link_change_adds done c todo Hcs) as Hlink.
  unfold relink_record, mentions_of.
  destruct (detect_agent_mentions (text_of c) agents) as [|u us] eqn:Hd.
  - assert (Hempty : derived_for st agents c = []).
    { unfold derived_for, linked_agents. now rewrite Hd. }
    rewrite flat_map_app. cbn [flat_map]. rewrite Hempty, !app_nil_r.
    f_equal. simpl. lia.
  - f_equal. exact Hlink.
Qed.

Lemma relink_loop todo : forall done n,
  cs = done ++ todo ->
  fold_left (relink_record agents) (map (fun c => (key c, text_of c)) todo)
    (with_rels st1 (rels st1 ++ flat_map (derived_for st agents) done), n)
  = (with_rels st1 (rels st1 ++ flat_map (derived_for st agents) cs),
     n + list_sum (map mentions_of todo)).
Proof.
  induction todo as [|c todo IH]; intros done n Hcs; cbn [map fold_left list_sum].
  - rewrite app_nil_r in Hcs. rewrite <- Hcs, Nat.add_0_r. reflexivity.
  - rewrite (relink_record_adds done c todo n Hcs).
    rewrite IH by (rewrite <- app_assoc; exact Hcs).
    cbn [list_sum fold_right]. now rewrite Nat.add_assoc.
Qed.

Lemma relink_result :
  agents <> [] ->
  relink_patch_agent_mentions st patch_id agents
  = (with_rels st (rels st1 ++ flat_map (derived_for st agents) cs),
     list_sum (map mentions_of cs)).
Proof.
  intros Hne. unfold relink_patch_agent_mentions.
  destruct agents as [|a rest] eqn:Ha; [contradiction|]. rewrite <- Ha.
  fold st1.
  rewrite (same_structure_changes patch_id st1 st)
    by apply delete_patch_mentions_structure.
  fold cs.
  pose proof (relink_loop cs [] 0 eq_refl) as H. simpl in H.
  rewrite app_nil_r, with_rels_same in H. exact H.
Qed.

Lemma derived_are_mentions :
  Forall (fun r => rel r = MENTIONS_AGENT) (flat_map (derived_for st agents) cs).
Proof.
  apply Forall_forall. intros r Hr. apply in_flat_map in Hr as [c [_ Hr]].
  apply in_map_iff in Hr as [a [<- _]]. reflexivity.
Qed.

Lemma relink_only_derived :
  agents <> [] ->
  only_derived_mentions (fst (relink_patch_agent_mentions st patch_id agents))
    patch_id agents.
Proof.
  intros Hne. rewrite (relink_result Hne). cbn [fst].
  intros r c a Hr Hrel Hc Hsrc Ha Hl Hdst.
  assert (Hsame : patch_changes patch_id
                    (with_rels st (rels st1 ++ flat_map (derived_for st agents) cs))
                  = cs).
  { transitivity (patch_changes patch_id st1).
    - apply (same_structure_changes patch_id
               (with_rels st1 (rels st1 ++ flat_map (derived_for st agents) cs)) st1).
      apply added_mentions_structure, derived_are_mentions.
    - apply same_structure_changes, delete_patch_mentions_structure. }
  rewrite Hsame in Hc. cbn [with_rels rels nodes] in Hr, Ha.
  destruct (change_in_store c Hc) as [Hcin _].
  assert (Hr' : r = mention (nid c) (nid a)).
  { destruct r as [t sr ds]. simpl in *. now subst. }
  apply in_app_or in Hr as [Hr | Hr].
  - destruct (delete_patch_mentions_spec st patch_id r c a Hr Hc Ha Hl Hr').
  - apply in_flat_map in Hr as [c' [Hc' Hd]].
    apply in_map_iff in Hd as [a' [Heq Ha']]. rewrite Hr' in Heq.
    injection Heq as Hceq Haeq.
    destruct (linked_agent_in_store c' a' Ha') as [Ha'in [_ Hdet]].
    destruct (change_in_store c' Hc') as [Hc'in _].
    assert (c' = c) by (now apply (nid_injective st)).
    assert (a' = a) by (now apply (nid_injective st)).
    now subst.
Qed.

(** When the store holds every roster agent that has a uuid, the number
    returned is the number of relationships created. *)
Lemma relink_count :
  agents <> [] ->
  (forall agent, In agent agents -> uuid agent <> "" ->
                 match_nodes Agent (uuid agent) st <> []) ->
  List.length (rels (fst (relink_patch_agent_mentions st patch_id agents)))
  = List.length (rels st1) + snd (relink_patch_agent_mentions st patch_id agents).
Proof.
  intros Hne Hpresent. rewrite (relink_result Hne). simpl.
  rewrite length_app. f_equal.
  induction cs as [|c l IH]; simpl; [reflexivity|].
  rewrite length_app, IH. f_equal.
  unfold derived_for, mentions_of. rewrite length_map. unfold linked_agents.
  pose proof (DetectFacts.detect_agent_mentions_In (text_of c) agents) as Hspec.
  assert (Hall : forall u, In u (detect_agent_mentions (text_of c) agents) ->
                           List.length (match_nodes Agent u st) = 1).
  { intros u Hu. apply Hspec in Hu as [Hu [agent [Hin [Heq _]]]].
    specialize (Hpresent agent Hin). rewrite Heq in Hpresent.
    specialize (Hpresent Hu).
    destruct (match_nodes Agent u st) as [|a rest] eqn:Hm; [contradiction|].
    assert (Ha : In a (match_nodes Agent u st)) by (rewrite Hm; now left).
    apply match_nodes_In in Ha as [Ha [Hl Hk]].
    pose proof (match_nodes_unique st a st_clean Ha) as Huniq.
    rewrite Hl, Hk, Hm in Huniq. now injection Huniq as ->. }
  clear Hspec.
  induction (detect_agent_mentions (text_of c) agents) as [|u us IHu]; simpl;
    [reflexivity|].
  rewrite length_app. rewrite Hall by now left. rewrite IHu; [reflexivity|].
  intros u' Hu'. apply Hall. now right.
Qed.

End Relink.

Lemma loaded_store_clean : clean RosterFixture.loaded_store.
Proof. apply load_to_neo4j_clean, clean_empty. Qed.

(** C9, as stated, fails for the empty roster: the function returns at once
    and the mentions recorded earlier stay in the store, although no roster
    entry accounts for them. *)
Lemma relink_empty_roster_keeps_mentions :
  relink_patch_agent_mentions RosterFixture.loaded_store "12.02" [] = (RosterFixture.loaded_store, 0)
  /\ ~ only_derived_mentions
         (fst (relink_patch_agent_mentions RosterFixture.loaded_store "12.02" [])) "12.02" [].
Proof.
  split; [reflexivity|]. intros H.
  refine (H (mention 4 1)
            {| nid := 4; label := Change; key := "12.02-s0-c0";
               props := ChangeProps
                          "Reyna's Leer duration reduced from 3 to 1.5 seconds"
                          "Agent Updates"
                          "https://playvalorant.com/en-us/news/game-updates/valorant-patch-notes-12-02/"
                          0 |}
            {| nid := 1; label := Agent; key := "a3bfb853";
               props := AgentProps "Reyna" (Some "Duelist") None
                          ["Dismiss"; "Leer"] (Some ["Dismiss"; "Leer"; "Reyna"]) |}
            _ eq_refl _ eq_refl _ eq_refl eq_refl);
    vm_compute; tauto.
Qed.

(** C9, amended.  With an empty roster [relink_patch_agent_mentions]
    returns 0 and leaves the store as it is.  With a non-empty roster, on a
    store without duplicates in which each change of the patch is reached
    once, it first deletes every [MENTIONS_AGENT] relationship from a change
    of the patch to an agent node, then adds, for each change of the patch
    and each uuid [detect_agent_mentions] reports for its text, a
    relationship to the agent node with that uuid; afterwards every mention
    from a change of the patch is one the roster accounts for.  The number
    returned is the total number of reported uuids, and it is the number of
    relationships created when the store holds every roster agent that has a
    uuid. *)
Theorem relink_patch_agent_mentions_spec st patch_id agents :
  (agents = [] -> relink_patch_agent_mentions st patch_id agents = (st, 0))
  /\ (agents <> [] -> clean st -> NoDup (map nid (patch_changes patch_id st)) ->
      let st1 := delete_patch_mentions st patch_id in
      let result := relink_patch_agent_mentions st patch_id agents in
      (forall r c a,
          In r (rels st1) -> In c (patch_changes patch_id st) ->
          In a (nodes st) -> label a = Agent -> r <> mention (nid c) (nid a))
      /\ fst result
         = with_rels st
             (rels st1
                ++ flat_map (derived_for st agents) (patch_changes patch_id st))
      /\ only_derived_mentions (fst result) patch_id agents
      /\ snd result
         = list_sum
             (map (fun c => List.length (detect_agent_mentions (text_of c) agents))
                  (patch_changes patch_id st))
      /\ ((forall agent, In agent agents -> uuid agent <> "" ->
                         match_nodes Agent (uuid agent) st <> []) ->
          List.length (rels (fst result)) = List.length (rels st1) + snd result)).
Proof.
  split.
  - intros ->. reflexivity.
  - intros Hne Hclean Honce st1 result. unfold result.
    split; [intros r c a; apply delete_patch_mentions_spec|].
    rewrite (relink_result st patch_id agents Hclean Honce Hne).
    split; [reflexivity|]. split.
    + rewrite <- (relink_result st patch_id agents Hclean Honce Hne).
      now apply relink_only_derived.
    + split; [reflexivity|]. intros Hpresent.
      rewrite <- (relink_result st patch_id agents Hclean Honce Hne).
      now apply relink_count.
Qed.

Lemma relink_patch_agent_mentions_spec_witness :
  RosterFixture.roster <> []
  /\ clean RosterFixture.loaded_store
  /\ NoDup (map nid (patch_changes "12.02" RosterFixture.loaded_store))
  /\ only_derived_mentions
       (fst (relink_patch_agent_mentions RosterFixture.loaded_store "12.02" RosterFixture.roster))
       "12.02" RosterFixture.roster
  /\ snd (relink_patch_agent_mentions RosterFixture.loaded_store "12.02" RosterFixture.roster) = 3.
Proof.
  assert (Hne : RosterFixture.roster <> []) by discriminate.
  assert (Honce : NoDup (map nid (patch_changes "12.02" RosterFixture.loaded_store))).
  { vm_compute. repeat constructor; simpl; intuition discriminate. }
  destruct (relink_patch_agent_mentions_spec RosterFixture.loaded_store "12.02" RosterFixture.roster)
    as [_ H].
  destruct (H Hne loaded_store_clean Honce) as [_ [_ [Hd [Hn _]]]].
  split; [exact Hne|]. split; [exact loaded_store_clean|]. split; [exact Honce|].
  split; [exact Hd|]. rewrite Hn. reflexivity.
Defined.

End RelinkFacts.

(** ** The retriever *)

Section SortBy.

Context {A : Type}.
Variable le : A -> A -> bool.

Lemma insert_by_perm x l : Permutation (insert_by le x l) (x :: l).
Proof.
  induction l as [|y l IH]; simpl; [reflexivity|].
  destruct (le x y); [reflexivity|].
  rewrite IH. apply perm_swap.
Qed.

Lemma sort_by_perm l : Permutation (sort_by le l) l.
Proof.
  induction l as [|x l IH]; simpl; [constructor|].
  rewrite insert_by_perm. now constructor.
Qed.

Hypothesis le_total : forall a b, le a b = true \/ le b a = true.
Hypothesis le_trans : forall a b c, le a b = true -> le b c = true -> le a c = true.

Lemma insert_by_sorted x l :
  StronglySorted (fun a b => le a b = true) l ->
  StronglySorted (fun a b => le a b = true) (insert_by le x l).
Proof.
  induction l as [|y l IH]; intros Hs; simpl.
  - repeat constructor.
  - inversion_clear Hs as [|? ? Hs' Hy]. destruct (le x y) eqn:Hxy.
    + constructor; [now constructor|]. constructor; [assumption|].
      eapply Forall_impl; [|exact Hy]. intros z Hz. eapply le_trans; eassumption.
    + constructor; [now apply IH|].
      apply Forall_forall. intros z Hz.
      apply (Permutation_in _ (insert_by_perm x l)) in Hz as [<- | Hz].
      * destruct (le_total x y); congruence.
      * rewrite Forall_forall in Hy. now apply Hy.
Qed.

Lemma sort_by_sorted l : StronglySorted (fun a b => le a b = true) (sort_by le l).
Proof.
  induction l as [|x l IH]; simpl; [constructor | now apply insert_by_sorted].
Qed.

End SortBy.

Lemma firstn_incl {A : Type} k : forall (l : list A) x,
  In x (firstn k l) -> In x l.
Proof.
  induction k as [|k IH]; intros l x H; simpl in H; [destruct H|].
  destruct l as [|y l]; [destruct H|]. destruct H as [-> | H]; [now left|].
  right. now apply IH.
Qed.

Lemma sorted_weaken {A : Type} (R R' : A -> A -> Prop) l :
  (forall a b, R a b -> R' a b) -> StronglySorted R l -> StronglySorted R' l.
Proof.
  intros H. induction 1 as [|x l Hs IH Hx]; constructor; [assumption|].
  eapply Forall_impl; [|exact Hx]. intros y. apply H.
Qed.

Lemma firstn_sorted {A : Type} (R : A -> A -> Prop) k : forall l,
  StronglySorted R l -> StronglySorted R (firstn k l).
Proof.
  induction k as [|k IH]; intros l Hs; simpl; [constructor|].
  destruct l as [|x l]; [constructor|]. inversion_clear Hs as [|? ? Hs' Hx].
  constructor; [now apply IH|].
  apply Forall_forall. intros y Hy. apply firstn_incl in Hy.
  rewrite Forall_forall in Hx. now apply Hx.
Qed.

Lemma distinct_In {A : Type} (eqb : A -> A -> bool) :
  (forall x y, eqb x y = true <-> x = y) ->
  forall l x, In x (distinct eqb l) <-> In x l.
Proof.
  intros Heq. induction l as [|y l IH]; intros x; simpl; [reflexivity|].
  rewrite filter_In, IH, negb_true_iff. split.
  - intros [-> | [H _]]; auto.
  - intros [-> | H]; [now left|].
    destruct (eqb y x) eqn:E; [left; now apply Heq | right; now split].
Qed.

Lemma distinct_NoDup {A : Type} (eqb : A -> A -> bool) :
  (forall x y, eqb x y = true <-> x = y) ->
  forall l, NoDup (distinct eqb l).
Proof.
  intros Heq. induction l as [|y l IH]; simpl; constructor.
  - intros Hin. apply filter_In in Hin as [_ Hin]. apply negb_true_iff in Hin.
    assert (eqb y y = true) by now apply Heq. congruence.
  - now apply NoDup_filter.
Qed.

Module RetrieverFacts.
Import Graph Retriever.

Lemma icontains_spec whole part :
  icontains whole part = true <-> occurs_in (PyStr.lower part) (PyStr.lower whole).
Proof. unfold icontains. apply contains_spec. Qed.

Lemma pair_eqb_spec a b : pair_eqb a b = true <-> a = b.
Proof.
  destruct a as [a1 a2], b as [b1 b2]. unfold pair_eqb. simpl.
  rewrite andb_true_iff, !String.eqb_eq. split.
  - now intros [-> ->].
  - intros H. injection H as -> ->. auto.
Qed.

(** The agent node [a] has an alias that occurs in the query, letter case
    aside. *)
Definition alias_occurs_in_query (query : string) (a : Node) : Prop :=
  label a = Agent
  /\ exists alias, In alias (agent_aliases a)
                   /\ occurs_in (PyStr.lower alias) (PyStr.lower query).

Definition name_not_shorter (r1 r2 : string * string) : Prop :=
  String.length (snd r2) <= String.length (snd r1).

(** The reading of "ordered by the length of the matching alias": of two
    neighbouring rows, the first has a matching alias at least as long as
    some matching alias of the second. *)
Definition ordered_by_matching_alias (st : Store) (query : string)
    (rows : list (string * string)) : Prop :=
  forall before a1 a2 after,
    rows = before ++ (key a1, agent_name a1) :: (key a2, agent_name a2) :: after ->
    In a1 (nodes st) -> In a2 (nodes st) ->
    exists x y,
      In x (agent_aliases a1) /\ icontains query x = true
      /\ In y (agent_aliases a2) /\ icontains query y = true
      /\ String.length y <= String.length x.

(** C6, as stated, fails: the rows are ordered by the length of the agent's
    name.  For the query below Jett matches through "Blade Storm" (11
    characters) and Brimstone through "Brimstone" (9), yet Brimstone comes
    first. *)
Lemma resolve_agents_orders_by_name_not_alias :
  resolve_rows RetrievalFixture.agents_store "blade storm or brimstone"
  = [("9f0d8ba9", "Brimstone"); ("add6443a", "Jett")]
  /\ ~ ordered_by_matching_alias RetrievalFixture.agents_store
         "blade storm or brimstone"
         (resolve_rows RetrievalFixture.agents_store "blade storm or brimstone").
Proof.
  split; [reflexivity|]. intros H.
  destruct (H []
              {| nid := 0; label := Agent; key := "9f0d8ba9";
                 props := AgentProps "Brimstone" (Some "Controller") None
                            ["Incendiary"] (Some ["Brimstone"; "Incendiary"]) |}
              {| nid := 1; label := Agent; key := "add6443a";
                 props := AgentProps "Jett" (Some "Duelist") None
                            ["Blade Storm"; "Updraft"]
                            (Some ["Blade Storm"; "Jett"; "Updraft"]) |}
              [] eq_refl)
    as [x [y [Hx [Hxm [Hy [Hym Hlen]]]]]];
    [vm_compute; tauto | vm_compute; tauto |].
  simpl in Hx, Hy.
  destruct Hx as [<- | [<- | []]]; destruct Hy as [<- | [<- | [<- | []]]];
    vm_compute in Hxm, Hym, Hlen; try discriminate; lia.
Qed.

Lemma longer_name_first_total a b :
  longer_name_first a b = true \/ longer_name_first b a = true.
Proof. unfold longer_name_first. rewrite !Nat.leb_le. lia. Qed.

Lemma longer_name_first_trans a b c :
  longer_name_first a b = true -> longer_name_first b c = true ->
  longer_name_first a c = true.
Proof. unfold longer_name_first. rewrite !Nat.leb_le. lia. Qed.

(** C6, amended.  [_resolve_agents] returns the first four rows of a list
    that holds, once each, the (uuid, name) pairs of exactly the agent nodes
    having an alias that occurs in the query case-insensitively, ordered by
    the length of the agent's name, longest first; the aliases of a node are
    its [aliases] property, or its name when the property is absent. *)
Theorem resolve_agents_spec st query :
  List.length (resolve_rows st query) <= 4
  /\ exists all,
      resolve_rows st query = firstn 4 all
      /\ (forall row,
             In row all
             <-> exists a, In a (nodes st) /\ alias_occurs_in_query query a
                           /\ row = (key a, agent_name a))
      /\ NoDup all
      /\ StronglySorted name_not_shorter all
      /\ StronglySorted name_not_shorter (resolve_rows st query).
Proof.
  split; [apply firstn_le_length|].
  set (found := map (fun a => (key a, agent_name a))
                    (filter (fun a => has_label Agent a && alias_in_query query a)
                            (nodes st))).
  assert (Hsorted : StronglySorted name_not_shorter
                      (sort_by longer_name_first (distinct pair_eqb found))).
  { eapply sorted_weaken;
      [|apply (sort_by_sorted longer_name_first longer_name_first_total
                 longer_name_first_trans)].
    intros r1 r2 H. unfold longer_name_first in H. now apply Nat.leb_le in H. }
  exists (sort_by longer_name_first (distinct pair_eqb found)).
  split; [reflexivity|]. split; [|split; [|split]].
  - intros row. split.
    + intros Hin. apply (Permutation_in _ (sort_by_perm _ _)) in Hin.
      apply (proj1 (distinct_In pair_eqb pair_eqb_spec _ _)) in Hin.
      apply in_map_iff in Hin as [a [<- Ha]]. apply filter_In in Ha as [Ha Hc].
      apply andb_true_iff in Hc as [Hl Hm]. exists a. split; [assumption|].
      split; [|reflexivity]. split; [now apply StoreFacts.label_eqb_spec|].
      apply existsb_exists in Hm as [alias [Hal Hm]]. exists alias.
      split; [assumption | now apply icontains_spec].
    + intros [a [Ha [[Hl [alias [Hal Hm]]] ->]]].
      apply (Permutation_in _ (Permutation_sym (sort_by_perm _ _))).
      apply (proj2 (distinct_In pair_eqb pair_eqb_spec _ _)).
      apply in_map_iff. exists a. split; [reflexivity|]. apply filter_In.
      split; [assumption|]. apply andb_true_iff.
      split; [now apply StoreFacts.label_eqb_spec|].
      apply existsb_exists. exists alias. split; [assumption | now apply icontains_spec].
  - eapply Permutation_NoDup; [apply Permutation_sym, sort_by_perm|].
    apply distinct_NoDup, pair_eqb_spec.
  - exact Hsorted.
  - unfold resolve_rows. fold found. now apply firstn_sorted.
Qed.

(** *** The text-search path *)

Definition in_document_order (a b : Row) : Prop :=
  section_order a < section_order b
  \/ (section_order a = section_order b /\ change_order a <= change_order b).

Lemma document_order_spec a b :
  document_order a b = true <-> in_document_order a b.
Proof.
  unfold document_order, in_document_order.
  now rewrite orb_true_iff, andb_true_iff, Nat.ltb_lt, Nat.eqb_eq, Nat.leb_le.
Qed.

Lemma document_order_total a b :
  document_order a b = true \/ document_order b a = true.
Proof. rewrite !document_order_spec. unfold in_document_order. lia. Qed.

Lemma document_order_trans a b c :
  document_order a b = true -> document_order b c = true ->
  document_order a c = true.
Proof. rewrite !document_order_spec. unfold in_document_order. lia. Qed.


Lemma fallback_rows_rejected st query k :
  fallback_rows st query k = Raise syntax_error.
Proof. reflexivity. Qed.






End RetrieverFacts.

(** ** Whitespace normalization *)

Module TextFacts.

(** A word: not empty, and free of whitespace. *)
Fixpoint nospace (s : string) : Prop :=
  match s with
  | EmptyString => True
  | String c r => PyStr.isspace c = false /\ nospace r
  end.

Definition word (w : string) : Prop := w <> "" /\ nospace w.

Lemma word_cons c w : PyStr.isspace c = false -> nospace w -> word (String c w).
Proof. intros Hc Hw. split; [discriminate | now split]. Qed.

Lemma split_words s : Forall word (PyStr.split s).
Proof.
  induction s as [|c s IH]; simpl; [constructor|].
  destruct (PyStr.isspace c) eqn:Hc; [assumption|].
  destruct s as [|c' s'].
  - constructor; [|constructor]. now apply word_cons.
  - destruct (PyStr.isspace c') eqn:Hc'.
    + constructor; [now apply word_cons | assumption].
    + destruct (PyStr.split (String c' s')) as [|w ws].
      * constructor; [now apply word_cons | constructor].
      * inversion_clear IH as [|? ? [_ Hw] Hws].
        constructor; [now apply word_cons | assumption].
Qed.

Lemma split_word w : word w -> PyStr.split w = [w].
Proof.
  intros [Hne Hw]. induction w as [|c w IH]; [contradiction|].
  destruct Hw as [Hc Hw]. simpl. rewrite Hc.
  destruct w as [|c' w']; [reflexivity|].
  destruct Hw as [Hc' Hw']. rewrite Hc'.
  rewrite IH; [reflexivity | discriminate | now split].
Qed.

Lemma split_word_then w rest :
  word w -> PyStr.split (w ++ String " " rest) = w :: PyStr.split rest.
Proof.
  intros [Hne Hw]. induction w as [|c w IH]; [contradiction|].
  destruct Hw as [Hc Hw]. cbn [append PyStr.split]. rewrite Hc.
  destruct w as [|c' w'].
  - reflexivity.
  - destruct Hw as [Hc' Hw']. cbn [append]. rewrite Hc'.
    cbn [append] in IH. rewrite IH; [reflexivity | discriminate | now split].
Qed.

Lemma split_join ws : Forall word ws -> PyStr.split (PyStr.join " " ws) = ws.
Proof.
  unfold PyStr.join. induction 1 as [|w ws Hw Hws IH]; [reflexivity|].
  destruct ws as [|w' ws'].
  - simpl. now apply split_word.
  - change (concat " " (w :: w' :: ws'))
      with (w ++ String " " (concat " " (w' :: ws')))%string.
    rewrite split_word_then by assumption. now rewrite IH.
Qed.

Lemma split_trailing_space s : PyStr.split (s ++ " ") = PyStr.split s.
Proof.
  induction s as [|c s IH]; [reflexivity|].
  cbn [append PyStr.split]. destruct (PyStr.isspace c); [assumption|].
  destruct s as [|c' s']; [reflexivity|].
  cbn [append] in *. destruct (PyStr.isspace c'); now rewrite IH.
Qed.

Lemma split_all_space s : PyStr.split s = [] <-> DetectFacts.all_space s.
Proof.
  induction s as [|c s IH]; simpl; [tauto|].
  destruct (PyStr.isspace c) eqn:Hc.
  - rewrite IH. tauto.
  - split; [|intros [H _]; discriminate].
    destruct s as [|c' s']; [discriminate|].
    destruct (PyStr.isspace c'); [discriminate|].
    destruct (PyStr.split (String c' s')); discriminate.
Qed.

Lemma lstrip_word_first w rest : word w -> PyStr.lstrip (w ++ rest) = (w ++ rest)%string.
Proof.
  intros [Hne Hw]. destruct w as [|c w]; [contradiction|].
  destruct Hw as [Hc _]. simpl. now rewrite Hc.
Qed.

Lemma rstrip_word w : word w -> PyStr.rstrip w = w.
Proof.
  intros [Hne Hw]. induction w as [|c w IH]; [contradiction|].
  destruct Hw as [Hc Hw]. simpl. destruct w as [|c' w'].
  - simpl. now rewrite Hc.
  - rewrite IH; [reflexivity | discriminate | assumption].
Qed.

Lemma rstrip_word_last a w : word w -> PyStr.rstrip (a ++ w) = (a ++ w)%string.
Proof.
  intros Hw. induction a as [|c a IH]; [now apply rstrip_word|].
  cbn [append PyStr.rstrip]. rewrite IH.
  destruct (a ++ w)%string eqn:E; [|reflexivity].
  destruct a; [simpl in E; subst; destruct Hw as [H _]; contradiction | discriminate].
Qed.

Lemma join_words_shape w ws :
  Forall word (w :: ws) ->
  exists a last, word last /\ PyStr.join " " (w :: ws) = (a ++ last)%string
                 /\ exists rest, PyStr.join " " (w :: ws) = (w ++ rest)%string.
Proof.
  unfold PyStr.join. revert w. induction ws as [|w' ws IH]; intros w H.
  - inversion_clear H. exists "", w. simpl. split; [assumption|]. split; [reflexivity|].
    exists "". clear. induction w; simpl; [reflexivity | now f_equal].
  - inversion_clear H as [|? ? Hw Hws].
    destruct (IH w' Hws) as [a [last [Hl [Ha _]]]].
    exists (w ++ " " ++ a)%string, last. split; [assumption|].
    change (concat " " (w :: w' :: ws))
      with (w ++ " " ++ concat " " (w' :: ws))%string.
    split.
    + rewrite Ha. clear. induction w; simpl; [reflexivity | now f_equal].
    + now exists (" " ++ concat " " (w' :: ws))%string.
Qed.

Lemma strip_join ws :
  Forall word ws -> PyStr.strip (PyStr.join " " ws) = PyStr.join " " ws.
Proof.
  intros H. destruct ws as [|w ws]; [reflexivity|].
  destruct (join_words_shape w ws H) as [a [last [Hl [Ha [rest Hr]]]]].
  unfold PyStr.strip. rewrite Ha at 1. rewrite rstrip_word_last by assumption.
  rewrite <- Ha, Hr. apply lstrip_word_first. now inversion_clear H.
Qed.

Lemma normalize_space_idempotent s :
  normalize_space (normalize_space s) = normalize_space s.
Proof. unfold normalize_space. now rewrite split_join by apply split_words. Qed.

Lemma normalize_space_padded s :
  normalize_space (" " ++ s ++ " ") = normalize_space s.
Proof.
  unfold normalize_space. cbn [append PyStr.split].
  assert (PyStr.isspace " " = true) as -> by reflexivity.
  now rewrite split_trailing_space.
Qed.

(** X1. [normalize_space] yields a fixed point of itself and of [strip], its
    result is the words of the input joined by single spaces, and it is empty
    exactly when the input holds nothing but whitespace. *)
Theorem normalize_space_canonical s :
  normalize_space (normalize_space s) = normalize_space s
  /\ PyStr.strip (normalize_space s) = normalize_space s
  /\ PyStr.split (normalize_space s) = PyStr.split s
  /\ Forall word (PyStr.split s)
  /\ (normalize_space s = "" <-> DetectFacts.all_space s).
Proof.
  split; [apply normalize_space_idempotent|].
  split; [apply strip_join, split_words|].
  split; [apply split_join, split_words|].
  split; [apply split_words|].
  rewrite <- split_all_space. unfold normalize_space. split.
  - intros H. pose proof (split_join (PyStr.split s) (split_words s)) as Hs.
    rewrite H in Hs. simpl in Hs. now symmetry.
  - now intros ->.
Qed.

End TextFacts.

(** ** The event tokenizer *)

Module TokenizerFacts.
Import SimpleHtml.

Definition interesting (t : string) : Prop := PyStr.mem t INTERESTING_TAGS = true.

Definition event_ok (e : ElementEvent) : Prop :=
  interesting (tag e) /\ normalize_space (text e) = text e.

(** What [handle_endtag] emits for the capture it closes. *)
Definition event_of (capture : Capture) : ElementEvent :=
  {| tag := cap_tag capture; attrs := cap_attrs capture;
     text := normalize_space (PyStr.join "" (cap_text_parts capture));
     parents := cap_parents capture |}.

Definition add_text (data : string) (capture : Capture) : Capture :=
  {| cap_tag := cap_tag capture; cap_attrs := cap_attrs capture;
     cap_parents := cap_parents capture;
     cap_text_parts := cap_text_parts capture ++ [(" " ++ data ++ " ")%string] |}.

Record collector_ok (c : Collector) : Prop := {
  ok_captures : Forall (fun capture => interesting (cap_tag capture)) (_capture_stack c);
  ok_events : Forall event_ok (col_events c)
}.

Lemma last_split {A : Type} (l : list A) x rest :
  rev l = x :: rest -> l = rev rest ++ [x].
Proof.
  intros H. rewrite <- (rev_involutive l), H. reflexivity.
Qed.

(** The two outcomes of an end tag: it closes the innermost capture, or it
    only touches the stack of open tags. *)
Lemma handle_endtag_cases self t :
  (top_capture_is t (_capture_stack self) = false
   /\ handle_endtag self t
      = {| _stack := remove_last_occurrence t (_stack self);
           _capture_stack := _capture_stack self;
           col_events := col_events self; col_metas := col_metas self |})
  \/ (exists init capture,
         _capture_stack self = init ++ [capture] /\ cap_tag capture = t
         /\ handle_endtag self t
            = {| _stack := remove_last_occurrence t (_stack self);
                 _capture_stack := init;
                 col_events := col_events self ++ [event_of capture];
                 col_metas := col_metas self |}).
Proof.
  unfold handle_endtag, top_capture_is.
  destruct (rev (_capture_stack self)) as [|capture rest] eqn:Hrev.
  - left. split; reflexivity.
  - destruct (String.eqb (cap_tag capture) t) eqn:Ht.
    + right. apply String.eqb_eq in Ht. apply last_split in Hrev.
      exists (rev rest), capture. split; [assumption|]. split; [assumption|].
      rewrite Hrev, removelast_last. reflexivity.
    + left. split; reflexivity.
Qed.

Lemma handle_ok self token : collector_ok self -> collector_ok (handle self token).
Proof.
  intros [Hc He]. destruct token as [t attrs | t | data]; cbn [handle].
  - unfold handle_starttag.
    constructor; cbn [_capture_stack col_events]; [|assumption].
    destruct (PyStr.mem t INTERESTING_TAGS) eqn:Hm; [|assumption].
    apply Forall_app. split; [assumption|]. constructor; [exact Hm | constructor].
  - destruct (handle_endtag_cases self t) as [[_ ->] | [init [capture [Hs [Ht ->]]]]].
    + now constructor.
    + rewrite Hs in Hc. apply Forall_app in Hc as [Hinit Hcap].
      inversion_clear Hcap as [|? ? Hcap' _].
      constructor; cbn [_capture_stack col_events]; [assumption|].
      apply Forall_app. split; [assumption|]. constructor; [|constructor].
      split; [exact Hcap' | apply TextFacts.normalize_space_idempotent].
  - unfold handle_data. destruct (PyStr.is_empty data); [now constructor|].
    destruct (_capture_stack self) as [|c cs] eqn:Hs; [constructor; [now rewrite Hs | assumption]|].
    constructor; cbn [_capture_stack col_events]; [|assumption].
    inversion_clear Hc as [|? ? Hc1 Hc2]. cbn [map].
    constructor; [assumption|]. clear - Hc2.
    induction Hc2; simpl; constructor; assumption.
Qed.

Lemma feed_ok tokens : forall self,
  collector_ok self -> collector_ok (fold_left handle tokens self).
Proof.
  induction tokens as [|t tokens IH]; intros self H; simpl; [assumption|].
  apply IH, handle_ok, H.
Qed.

Lemma new_collector_ok : collector_ok new_collector.
Proof. constructor; constructor. Qed.

(** X2. Every event of a parsed document belongs to one of the eight
    captured tags (so none is a [meta] event) and carries a text that
    [normalize_space] leaves unchanged.  The document title, when there is
    one, is the non-empty text of a [title] event; when there is none, every
    [title] event has an empty text. *)
Theorem parse_tokens_events tokens :
  let parsed := parse_tokens tokens in
  Forall (fun e => In (tag e) INTERESTING_TAGS
                   /\ tag e <> "meta"
                   /\ normalize_space (text e) = text e)
         (events parsed)
  /\ match title parsed with
     | Some t => t <> "" /\ exists e, In e (events parsed)
                                      /\ tag e = "title" /\ text e = t
     | None => forall e, In e (events parsed) -> tag e = "title" -> text e = ""
     end.
Proof.
  intros parsed. split.
  - pose proof (ok_events _ (feed_ok tokens _ new_collector_ok)) as H.
    eapply Forall_impl; [|exact H]. intros e [Ht Hn].
    apply mem_spec in Ht. split; [assumption|]. split; [|assumption].
    intros Heq. rewrite Heq in Ht. simpl in Ht.
    repeat (destruct Ht as [Ht | Ht]; [discriminate|]). exact Ht.
  - unfold parsed, parse_tokens. simpl.
    destruct (find _ (col_events (fold_left handle tokens new_collector)))
      as [e|] eqn:Hf.
    + apply find_some in Hf as [Hin Hc]. apply andb_true_iff in Hc as [Ht Hn].
      apply String.eqb_eq in Ht. split.
      * intros He. rewrite He in Hn. discriminate.
      * now exists e.
    + intros e Hin Ht. pose proof (find_none _ _ Hf e Hin) as Hc. simpl in Hc.
      rewrite Ht in Hc. simpl in Hc. apply negb_false_iff in Hc.
      now apply is_empty_spec.
Qed.

(** The attribute dictionaries of the [meta] start tags, in order. *)
Definition meta_of (token : Token) : list Dict :=
  match token with
  | StartTag t attrs => if String.eqb t "meta" then [attrs_dict_of attrs] else []
  | _ => []
  end.

Lemma feed_metas tokens : forall self,
  col_metas (fold_left handle tokens self)
  = col_metas self ++ flat_map meta_of tokens.
Proof.
  induction tokens as [|t tokens IH]; intros self; simpl.
  - now rewrite app_nil_r.
  - rewrite IH. destruct t as [t attrs | t | data]; simpl.
    + destruct (String.eqb t "meta"); [now rewrite <- app_assoc | reflexivity].
    + destruct (handle_endtag_cases self t) as [[_ ->] | [? [? [_ [_ ->]]]]];
        reflexivity.
    + unfold handle_data. destruct (PyStr.is_empty data); [reflexivity|].
      destruct (_capture_stack self); reflexivity.
Qed.

(** X3. The [meta] entries of a parsed document are the attribute
    dictionaries of its [meta] start tags, one per tag and in document
    order, whatever else the markup holds. *)
Theorem parse_tokens_metas tokens :
  metas (parse_tokens tokens) = flat_map meta_of tokens.
Proof. unfold parse_tokens. simpl. apply feed_metas. Qed.

Lemma remove_first_head x l : remove_first x (x :: l) = l.
Proof. simpl. now rewrite String.eqb_refl. Qed.

Lemma remove_last_occurrence_pushed x l :
  remove_last_occurrence x (l ++ [x]) = l.
Proof.
  unfold remove_last_occurrence. rewrite rev_app_distr. simpl.
  rewrite String.eqb_refl. apply rev_involutive.
Qed.

(** X4. An element of a captured tag that holds only text, met in any state
    of the collector, adds exactly one event: its tag, its attributes, the
    normalized text, and as ancestors the tags open when it started.  The
    stack of open tags is as before, and every capture that was open has
    received the text (padded with spaces) unless the text is empty. *)
Theorem text_element_event self t attrs data :
  interesting t ->
  fold_left handle [StartTag t attrs; Data data; EndTag t] self
  = {| _stack := _stack self;
       _capture_stack :=
         if PyStr.is_empty data then _capture_stack self
         else map (add_text data) (_capture_stack self);
       col_events :=
         col_events self
           ++ [{| tag := t; attrs := attrs_dict_of attrs;
                  text := normalize_space data; parents := _stack self |}];
       col_metas := col_metas self |}.
Proof.
  intros Ht. unfold interesting in Ht. cbn [fold_left handle].
  unfold handle_starttag. rewrite Ht.
  assert (String.eqb t "meta" = false) as ->.
  { apply String.eqb_neq. intros ->. discriminate. }
  rewrite removelast_last.
  set (opened := {| cap_tag := t; cap_attrs := attrs_dict_of attrs;
                    cap_parents := _stack self; cap_text_parts := [] |}).
  unfold handle_data. cbn [_capture_stack _stack col_events col_metas].
  destruct (PyStr.is_empty data) eqn:He.
  - apply is_empty_spec in He. subst data.
    unfold handle_endtag, top_capture_is.
    cbn [_capture_stack _stack col_events col_metas].
    rewrite rev_app_distr. cbn [rev app cap_tag opened].
    rewrite String.eqb_refl, removelast_last, remove_last_occurrence_pushed.
    reflexivity.
  - destruct (_capture_stack self ++ [opened]) as [|c cs] eqn:Hs.
    { destruct (_capture_stack self); discriminate. }
    rewrite <- Hs. clear Hs c cs.
    unfold handle_endtag, top_capture_is.
    cbn [_capture_stack _stack col_events col_metas].
    rewrite map_app, rev_app_distr. cbn [map rev app cap_tag opened].
    rewrite String.eqb_refl, removelast_last, remove_last_occurrence_pushed.
    cbn [cap_text_parts cap_attrs cap_parents cap_tag app].
    rewrite <- (TextFacts.normalize_space_padded data). reflexivity.
Qed.

Lemma text_element_event_witness :
  TokenizerFacts.interesting "li"
  /\ col_events
       (fold_left handle
          [StartTag "li" []; Data "  Harbor   fixed "; EndTag "li"]
          (handle new_collector (StartTag "ul" [])))
     = [{| tag := "li"; attrs := []; text := "Harbor fixed"; parents := ["ul"] |}].
Proof.
  split; [reflexivity|].
  rewrite (text_element_event (handle new_collector (StartTag "ul" []))
             "li" [] "  Harbor   fixed " eq_refl).
  reflexivity.
Defined.

End TokenizerFacts.

(** ** Version numbers *)

Module VersionFacts.

Lemma first_some_In {A B : Type} (f : A -> option B) l y :
  PyStr.first_some f l = Some y -> exists x, In x l /\ f x = Some y.
Proof.
  induction l as [|x l IH]; simpl; [discriminate|].
  destruct (f x) as [y'|] eqn:Hx.
  - intros H. injection H as <-. exists x. split; [now left | assumption].
  - intros H. destruct (IH H) as [x' [Hin Hf]]. exists x'. split; [now right | assumption].
Qed.

Lemma digit_value_bound c : PyStr.isdigit c = true -> PyStr.digit_value c <= 9.
Proof.
  unfold PyStr.isdigit, PyStr.in_range, PyStr.digit_value.
  rewrite andb_true_iff, !Nat.leb_le. lia.
Qed.

(** A group of one or two digits is a number below 100. *)
Lemma digits_1_2_bound s g r :
  In (g, r) (PyStr.digits_1_2 s) -> PyStr.int_of_digits g < 100.
Proof.
  unfold PyStr.digits_1_2.
  destruct s as [|a [|b s']].
  - intros [].
  - destruct (PyStr.isdigit a) eqn:Ha; [|intros []].
    intros [H | []]. injection H as <- _.
    apply digit_value_bound in Ha. unfold PyStr.int_of_digits. simpl. lia.
  - destruct (PyStr.isdigit a) eqn:Ha; [|intros []].
    pose proof (digit_value_bound a Ha) as Hda.
    destruct (PyStr.isdigit b) eqn:Hb.
    + pose proof (digit_value_bound b Hb) as Hdb.
      intros [H | [H | []]]; injection H as <- _;
        unfold PyStr.int_of_digits; simpl; lia.
    + intros [H | []]. injection H as <- _.
      unfold PyStr.int_of_digits. simpl. lia.
Qed.

Lemma match_patch_id_at_bound wb prev s a b :
  PyStr.match_patch_id_at wb prev s = Some (a, b) -> a < 100 /\ b < 100.
Proof.
  unfold PyStr.match_patch_id_at. destruct (wb && prev); [discriminate|].
  intros H. apply first_some_In in H as [[g1 r1] [Hin1 H]].
  destruct r1 as [|c r2]; [discriminate|].
  destruct (PyStr.is_sep c); [|discriminate].
  apply first_some_In in H as [[g2 r3] [Hin2 H]].
  destruct (wb && PyStr.next_is_word r3); [discriminate|].
  injection H as <- <-.
  split; eapply digits_1_2_bound; eassumption.
Qed.

Lemma search_patch_id_bound wb s a b :
  PyStr.search_patch_id wb s = Some (a, b) -> a < 100 /\ b < 100.
Proof.
  unfold PyStr.search_patch_id. generalize false as prev.
  induction s as [|c s IH]; intros prev; simpl.
  - destruct (PyStr.match_patch_id_at wb prev "") as [[a' b']|] eqn:Hm; [|discriminate].
    intros H. injection H as -> ->. eapply match_patch_id_at_bound; eassumption.
  - destruct (PyStr.match_patch_id_at wb prev (String c s)) as [[a' b']|] eqn:Hm.
    + intros H. injection H as -> ->. eapply match_patch_id_at_bound; eassumption.
    + apply IH.
Qed.

(** The formatted version, read back by either pattern. *)
Definition reads_back (wb : bool) (a b : nat) : bool :=
  match PyStr.search_patch_id wb (ParsePatch.format_version a b) with
  | Some (a', b') => (a' =? a) && (b' =? b)
  | None => false
  end.

Lemma reads_back_all :
  forallb (fun a => forallb (fun b => reads_back true a b && reads_back false a b)
                            (seq 0 100))
          (seq 0 100) = true.
Proof. vm_compute. reflexivity. Qed.

Lemma format_then_search wb a b :
  a < 100 -> b < 100 ->
  PyStr.search_patch_id wb (ParsePatch.format_version a b) = Some (a, b).
Proof.
  intros Ha Hb. pose proof reads_back_all as H.
  rewrite forallb_forall in H.
  assert (Hina : In a (seq 0 100)) by (apply in_seq; lia).
  assert (Hinb : In b (seq 0 100)) by (apply in_seq; lia).
  specialize (H a Hina). rewrite forallb_forall in H.
  specialize (H b Hinb). apply andb_true_iff in H.
  assert (Hr : reads_back wb a b = true) by (destruct wb; tauto).
  unfold reads_back in Hr.
  destruct (PyStr.search_patch_id wb (ParsePatch.format_version a b)) as [[a' b']|];
    [|discriminate].
  apply andb_true_iff in Hr as [H1 H2]. apply Nat.eqb_eq in H1, H2. now subst.
Qed.

End VersionFacts.

(** ** The content segmenter: further properties *)

Module SegmenterFacts.
Import SimpleHtml ParsePatch.

Lemma find_patch_id_shape values id :
  find_patch_id values = Some id ->
  exists a b, a < 100 /\ b < 100 /\ id = format_version a b.
Proof.
  induction values as [|v values IH]; simpl; [discriminate|].
  destruct (PyStr.search_patch_id true v) as [[a b]|] eqn:Hs; [|assumption].
  intros H. injection H as <-.
  apply VersionFacts.search_patch_id_bound in Hs. exists a, b. tauto.
Qed.

(** X5. A version id found by [find_patch_id] is "major.minor" with both
    numbers below 100 and the minor on two digits; reading the id again,
    with the pattern of this module or with the one of the link extractor,
    gives the same version.  The patch id of a document is such an id or the
    default "latest". *)
Theorem find_patch_id_stable :
  (forall values id,
      find_patch_id values = Some id ->
      exists a b,
        a < 100 /\ b < 100 /\ id = format_version a b
        /\ find_patch_id [id] = Some id
        /\ FetchCurrentPatch.parse_patch_id id = Some (a, b))
  /\ (forall parsed source_url,
        let id := patch_id (patch (parse_patch_notes_parsed parsed source_url)) in
        id = "latest" \/ find_patch_id [id] = Some id).
Proof.
  assert (Hstable : forall values id,
             find_patch_id values = Some id ->
             exists a b,
               a < 100 /\ b < 100 /\ id = format_version a b
               /\ find_patch_id [id] = Some id
               /\ FetchCurrentPatch.parse_patch_id id = Some (a, b)).
  { intros values id H. destruct (find_patch_id_shape values id H) as [a [b [Ha [Hb ->]]]].
    exists a, b. repeat split; try assumption.
    - simpl. now rewrite VersionFacts.format_then_search.
    - unfold FetchCurrentPatch.parse_patch_id.
      now apply VersionFacts.format_then_search. }
  split; [exact Hstable|].
  intros parsed url. cbv zeta. unfold parse_patch_notes_parsed.
  cbn [patch patch_id].
  destruct (find_patch_id [extract_title parsed (scoped_events parsed); url])
    as [id|] eqn:Hf.
  - right. destruct (Hstable _ _ Hf) as [a [b [_ [_ [_ [H _]]]]]]. exact H.
  - now left.
Qed.

Lemma find_patch_id_stable_witness :
  find_patch_id ["VALORANT Patch Notes 12.02"; "https://playvalorant.com/"]
  = Some "12.02"
  /\ find_patch_id ["12.02"] = Some "12.02".
Proof.
  assert (H0 : find_patch_id ["VALORANT Patch Notes 12.02"; "https://playvalorant.com/"]
               = Some "12.02") by reflexivity.
  destruct find_patch_id_stable as [H _].
  destruct (H _ _ H0) as [a [b [_ [_ [_ [Hs _]]]]]].
  split; [exact H0 | exact Hs].
Defined.

Lemma scoped_events_filter parsed :
  exists keep, scoped_events parsed = filter keep (events parsed).
Proof.
  unfold scoped_events.
  destruct (existsb (has_parent "article") (events parsed));
    [now exists (has_parent "article")|].
  destruct (existsb (has_parent "main") (events parsed));
    [now exists (has_parent "main")|].
  exists (fun _ => true). induction (events parsed) as [|e l IH]; simpl;
    [reflexivity | now rewrite <- IH].
Qed.

Lemma scoped_events_incl parsed e :
  In e (scoped_events parsed) -> In e (events parsed).
Proof.
  destruct (scoped_events_filter parsed) as [keep ->].
  intros H. now apply filter_In in H.
Qed.

(** X6. Scoping keeps the events in order and never discards all of them:
    the scoped events are the events inside [article] when there are any,
    else those inside [main] when there are any, else all events. *)
Theorem scoped_events_keeps_content parsed :
  (events parsed <> [] -> scoped_events parsed <> [])
  /\ (exists keep, scoped_events parsed = filter keep (events parsed))
  /\ ((exists e, In e (events parsed) /\ In "article" (parents e)) ->
      forall e, In e (scoped_events parsed)
                <-> In e (events parsed) /\ In "article" (parents e))
  /\ ((forall e, In e (events parsed) -> ~ In "article" (parents e)) ->
      (exists e, In e (events parsed) /\ In "main" (parents e)) ->
      forall e, In e (scoped_events parsed)
                <-> In e (events parsed) /\ In "main" (parents e))
  /\ ((forall e, In e (events parsed) ->
                 ~ In "article" (parents e) /\ ~ In "main" (parents e)) ->
      scoped_events parsed = events parsed).
Proof.
  assert (Hex : forall name,
             existsb (has_parent name) (events parsed) = true
             <-> exists e, In e (events parsed) /\ In name (parents e)).
  { intros name. rewrite existsb_exists. unfold has_parent.
    split; intros [e [Hin H]]; exists e; split; try assumption; now apply mem_spec. }
  assert (Hfilter : forall name e,
             In e (filter (has_parent name) (events parsed))
             <-> In e (events parsed) /\ In name (parents e)).
  { intros name e. rewrite filter_In. unfold has_parent. now rewrite mem_spec. }
  unfold scoped_events.
  destruct (existsb (has_parent "article") (events parsed)) eqn:Ha.
  - apply Hex in Ha. split; [|split; [|split; [|split]]].
    + intros _ Hnil. destruct Ha as [e He]. apply Hfilter in He.
      rewrite Hnil in He. destruct He.
    + now exists (has_parent "article").
    + intros _ e. apply Hfilter.
    + intros Hno. destruct Ha as [e [Hin He]]. destruct (Hno e Hin He).
    + intros Hno. destruct Ha as [e [Hin He]]. destruct (Hno e Hin) as [H _].
      destruct (H He).
  - assert (Hna : ~ exists e, In e (events parsed) /\ In "article" (parents e)).
    { intros H. apply Hex in H. congruence. }
    destruct (existsb (has_parent "main") (events parsed)) eqn:Hm.
    + apply Hex in Hm. split; [|split; [|split; [|split]]].
      * intros _ Hnil. destruct Hm as [e He]. apply Hfilter in He.
        rewrite Hnil in He. destruct He.
      * now exists (has_parent "main").
      * intros H. destruct (Hna H).
      * intros _ _ e. apply Hfilter.
      * intros Hno. destruct Hm as [e [Hin He]]. destruct (Hno e Hin) as [_ H].
        destruct (H He).
    + split; [|split; [|split; [|split]]].
      * tauto.
      * exists (fun _ => true). clear. induction (events parsed) as [|e l IH]; simpl;
          [reflexivity | now rewrite <- IH].
      * intros H. destruct (Hna H).
      * intros _ H. apply Hex in H. congruence.
      * reflexivity.
Qed.

Lemma scoped_events_keeps_content_witness :
  let parsed := parse_tokens Fixtures.article_tokens in
  events parsed <> [] /\ scoped_events parsed <> [].
Proof.
  intros parsed.
  assert (H : events parsed <> []) by (vm_compute; discriminate).
  split; [exact H|]. exact (proj1 (scoped_events_keeps_content parsed) H).
Defined.




(** *** The walk over the events *)

(** A heading that ends the content. *)
Definition end_marker (e : ElementEvent) : Prop :=
  (tag e = "h2" \/ tag e = "h3")
  /\ PyStr.strip (PyStr.lower (normalize_space (text e))) = "related articles".

(** A heading that opens the section [t]. *)
Definition heading_event (e : ElementEvent) (t : string) : Prop :=
  (tag e = "h2" \/ tag e = "h3")
  /\ t = normalize_space (text e)
  /\ should_keep_heading t = true.

Lemma step_end_marker e st : end_marker e -> step e st = Break.
Proof.
  intros [Htag Htext]. unfold step.
  assert (PyStr.mem (tag e) ["h2"; "h3"; "li"; "p"] = true) as ->
    by (destruct Htag as [-> | ->]; reflexivity).
  assert (PyStr.mem (tag e) ["h2"; "h3"] = true) as ->
    by (destruct Htag as [-> | ->]; reflexivity).
  cbn [negb]. cbv iota.
  destruct (PyStr.is_empty (normalize_space (text e))) eqn:He.
  { apply is_empty_spec in He. rewrite He in Htext. discriminate. }
  now rewrite Htext.
Qed.

Lemma walk_stops_at_marker pre e post : forall st,
  end_marker e -> walk (pre ++ e :: post) st = walk pre st.
Proof.
  induction pre as [|x pre IH]; intros st He; simpl.
  - now rewrite step_end_marker.
  - destruct (step x st); [now apply IH | reflexivity].
Qed.

(** X8. A heading whose text is "related articles" (letter case aside) ends
    the content: whatever follows it among the scoped events has no effect
    on the sections, and the heading itself opens no section. *)
Theorem related_articles_ends_content :
  (forall pre e post st,
      end_marker e -> walk (pre ++ e :: post) st = walk pre st)
  /\ (forall parsed pre e post,
        scoped_events parsed = pre ++ e :: post -> end_marker e ->
        segment parsed = raw_sections (walk pre initial_state)).
Proof.
  split.
  - intros. now apply walk_stops_at_marker.
  - intros parsed pre e post Hs He. unfold segment.
    now rewrite Hs, walk_stops_at_marker.
Qed.

Lemma related_articles_ends_content_witness :
  let marker := {| tag := "h3"; attrs := []; text := "Related Articles";
                   parents := ["article"] |} in
  end_marker marker
  /\ walk ([Fixtures.agent_heading] ++ marker :: [Fixtures.leer_item]) initial_state
     = walk [Fixtures.agent_heading] initial_state.
Proof.
  intros marker.
  assert (H : end_marker marker) by (split; [now right | reflexivity]).
  split; [exact H|]. now apply related_articles_ends_content.
Defined.

(** What one iteration does, with the event it does it for. *)
Lemma step_outcomes e st st' :
  step e st = Continue st' ->
  st' = st
  \/ (exists t, heading_event e t /\ st' = ParsePatchFacts.open_section t st)
  \/ (exists t, ParsePatchFacts.change_event e t /\ ParsePatchFacts.kept t
                 /\ st' = ParsePatchFacts.add_change t st).
Proof.
  unfold step.
  destruct (PyStr.mem (tag e) ["h2"; "h3"; "li"; "p"]) eqn:Hall; cbn [negb];
    [|intros H; injection H as <-; now left].
  destruct (PyStr.is_empty (normalize_space (text e))) eqn:Hne;
    [intros H; injection H as <-; now left|].
  assert (Hnonempty : normalize_space (text e) <> "").
  { intros H. apply is_empty_spec in H. congruence. }
  destruct (PyStr.mem (tag e) ["h2"; "h3"]) eqn:Hh.
  - destruct (String.eqb _ "related articles"); [discriminate|].
    destruct (should_keep_heading (normalize_space (text e))) eqn:Hk;
      intros H; injection H as <-; [|now left].
    right; left. exists (normalize_space (text e)). split; [|reflexivity].
    apply mem_spec in Hh. simpl in Hh.
    split; [destruct Hh as [H | [H | []]]; [left | right]; congruence|]. now split.
  - destruct (String.eqb (tag e) "p" && has_parent "li" e) eqn:Hp;
      [intros H; injection H as <-; now left|].
    destruct (should_keep_change (normalize_space (text e))) eqn:Hk;
      [|intros H; injection H as <-; now left].
    destruct (ParsePatch.seen _ st); cbn [negb];
      intros H; injection H as <-; [now left|].
    right; right. exists (normalize_space (text e)).
    split; [|split; [exact Hk | reflexivity]].
    split; [|now split].
    apply mem_spec in Hall. simpl in Hall.
    destruct Hall as [H | [H | [H | [H | []]]]].
    + rewrite <- H in Hh. discriminate.
    + rewrite <- H in Hh. discriminate.
    + now left.
    + right. split; [now symmetry|]. rewrite <- H in Hp. simpl in Hp. exact Hp.
Qed.

(** Every raw section is named "General" or after a kept heading among the
    events [all], and every text it holds comes from an item or paragraph
    among them. *)
Definition traced (all : list ElementEvent) (r : RawSection) : Prop :=
  (raw_name r = "General"
   \/ exists e, In e all /\ heading_event e (raw_name r))
  /\ Forall (fun t => exists e, In e all /\ ParsePatchFacts.change_event e t
                                /\ ParsePatchFacts.kept t)
            (raw_changes r).

Lemma append_change_at_Forall (P : RawSection -> Prop) t : forall i l,
  (forall r, P r ->
             P {| raw_name := raw_name r; raw_changes := raw_changes r ++ [t] |}) ->
  Forall P l -> Forall P (append_change_at i t l).
Proof.
  intros i l Hstep H. revert i.
  induction H as [|r l Hr Hl IH]; intros i; destruct i; simpl;
    constructor; auto.
Qed.

Lemma walk_traced all evs : forall st,
  incl evs all ->
  Forall (traced all) (raw_sections st) ->
  Forall (traced all) (raw_sections (walk evs st)).
Proof.
  induction evs as [|e evs IH]; intros st Hincl Hst; simpl; [assumption|].
  assert (He : In e all) by (apply Hincl; now left).
  assert (Hrest : incl evs all) by (intros x Hx; apply Hincl; now right).
  destruct (step e st) as [st'|] eqn:Hstep; [|assumption].
  apply IH; [assumption|].
  destruct (step_outcomes _ _ _ Hstep) as [-> | [[t [Hh ->]] | [t [Hc [Hk ->]]]]].
  - assumption.
  - simpl. apply Forall_app. split; [assumption|].
    constructor; [|constructor]. split; simpl; [|constructor].
    right. now exists e.
  - simpl. apply append_change_at_Forall; [|assumption].
    intros r [Hn Hr]. split; simpl; [assumption|].
    apply Forall_app. split; [assumption|].
    constructor; [|constructor]. now exists e.
Qed.

Lemma segment_traced parsed :
  Forall (traced (scoped_events parsed)) (segment parsed).
Proof.
  unfold segment. apply walk_traced.
  - apply incl_refl.
  - simpl. constructor; [|constructor]. split; simpl; [now left | constructor].
Qed.

Lemma heading_kept_general : should_keep_heading "General" = true.
Proof. reflexivity. Qed.

(** X9. Every section of a document is named "General" or carries the
    normalized text of an [h2] or [h3] among the scoped events; in both cases
    the name passes [should_keep_heading], so it is not empty and, lower-cased
    and stripped, is none of the six noise headings. *)
Theorem section_names_are_kept_headings parsed source_url :
  Forall (fun s =>
            should_keep_heading (name s) = true
            /\ name s <> ""
            /\ ~ In (PyStr.strip (PyStr.lower (name s))) NOISE_HEADINGS
            /\ (name s = "General"
                \/ exists e, In e (scoped_events parsed)
                             /\ (tag e = "h2" \/ tag e = "h3")
                             /\ name s = normalize_space (text e)))
         (sections (parse_patch_notes_parsed parsed source_url)).
Proof.
  rewrite (ParsePatchFacts.sections_shape parsed source_url).
  apply Forall_map, Forall_forall. intros [n [i r]] Hin. simpl.
  apply ParsePatchFacts.retained_in_segment in Hin as [Hnth _].
  apply nth_error_In in Hnth.
  pose proof (segment_traced parsed) as Ht. rewrite Forall_forall in Ht.
  destruct (Ht r Hnth) as [Hname _].
  assert (Hk : should_keep_heading (raw_name r) = true).
  { destruct Hname as [-> | [e [_ [_ [_ H]]]]]; [reflexivity | exact H]. }
  split; [exact Hk|]. unfold should_keep_heading in Hk.
  destruct (PyStr.is_empty (PyStr.strip (PyStr.lower (raw_name r)))) eqn:He;
    [discriminate|].
  split; [|split].
  - intros Hn. rewrite Hn in He. discriminate.
  - intros Hnoise. apply (proj2 (mem_spec _ NOISE_HEADINGS)) in Hnoise.
    rewrite Hnoise in Hk. discriminate.
  - destruct Hname as [-> | [e [Hin [Htag [Htext _]]]]]; [now left|].
    right. now exists e.
Qed.

(** X10. Every change of a document carries the name of the section that
    holds it and the source URL given to the parser, and its text is the
    normalized text of an [li], or of a [p] outside any [li], among the
    scoped events. *)
Theorem changes_carry_their_origin parsed source_url :
  Forall (fun s =>
            Forall (fun c =>
                      section_name c = name s
                      /\ ParsePatch.source_url c = source_url
                      /\ exists e, In e (scoped_events parsed)
                                   /\ ParsePatchFacts.change_event e (change_text c))
                   (changes s))
         (sections (parse_patch_notes_parsed parsed source_url)).
Proof.
  rewrite (ParsePatchFacts.sections_shape parsed source_url).
  apply Forall_map, Forall_forall. intros [n [i r]] Hin. simpl.
  apply ParsePatchFacts.retained_in_segment in Hin as [Hnth _].
  apply nth_error_In in Hnth.
  pose proof (segment_traced parsed) as Ht. rewrite Forall_forall in Ht.
  destruct (Ht r Hnth) as [_ Hch].
  unfold build_changes. apply Forall_map, Forall_forall.
  intros [m t] Hmt. simpl. split; [reflexivity|]. split; [reflexivity|].
  apply in_combine_r in Hmt. rewrite Forall_forall in Hch.
  destruct (Hch t Hmt) as [e [He [Hc _]]]. now exists e.
Qed.

(** X11. A page without any [li] or [p] element, the empty page among them,
    yields a document without sections. *)
Theorem no_items_no_sections parsed source_url :
  (forall e, In e (events parsed) -> tag e <> "li" /\ tag e <> "p") ->
  sections (parse_patch_notes_parsed parsed source_url) = [].
Proof.
  intros Hno. rewrite (ParsePatchFacts.sections_shape parsed source_url).
  assert (Hempty : ParsePatchFacts.retained (enumerate (segment parsed)) = []).
  { apply StoreFacts.empty_list. intros [i r] Hin.
    unfold ParsePatchFacts.retained in Hin. apply filter_In in Hin as [Hin Hne].
    apply in_combine_r in Hin.
    pose proof (segment_traced parsed) as Ht. rewrite Forall_forall in Ht.
    destruct (Ht r Hin) as [_ Hch]. simpl in Hne. unfold ParsePatchFacts.nonempty in Hne.
    destruct (raw_changes r) as [|t ts]; [discriminate|].
    inversion_clear Hch as [|? ? [e [He [[Htag _] _]]] _].
    apply scoped_events_incl in He. destruct (Hno e He) as [Hli Hp].
    destruct Htag as [H | [H _]]; congruence. }
  now rewrite Hempty.
Qed.

Lemma no_items_no_sections_witness :
  (forall e, In e (events (parse_tokens [])) -> tag e <> "li" /\ tag e <> "p")
  /\ sections (parse_patch_notes_parsed (parse_tokens []) "local://patch-notes.html")
     = [].
Proof.
  assert (H : forall e, In e (events (parse_tokens [])) -> tag e <> "li" /\ tag e <> "p")
    by (intros e []).
  split; [exact H|]. now apply no_items_no_sections.
Defined.

End SegmenterFacts.

(** ** The link candidate extractor: further properties *)

Module LinkFacts.
Import SimpleHtml FetchCurrentPatch.

Lemma format_patch_id_version a b :
  format_patch_id (Some (a, b)) = Some (ParsePatch.format_version a b).
Proof. reflexivity. Qed.

(** X12. A version read by [parse_patch_id] has both numbers below 100, and
    formatting it gives an id from which [parse_patch_id] reads the same
    version again; [format_patch_id] gives no id exactly for no version. *)
Theorem parse_format_round_trip :
  (forall value v,
      parse_patch_id value = Some v ->
      fst v < 100 /\ snd v < 100
      /\ exists id, format_patch_id (Some v) = Some id
                    /\ parse_patch_id id = Some v)
  /\ (forall parts, format_patch_id parts = None <-> parts = None).
Proof.
  split.
  - intros value [a b] H. unfold parse_patch_id in H.
    destruct (VersionFacts.search_patch_id_bound _ _ _ _ H) as [Ha Hb].
    simpl. split; [assumption|]. split; [assumption|].
    exists (ParsePatch.format_version a b). split; [reflexivity|].
    now apply VersionFacts.format_then_search.
  - intros [[a b]|]; simpl; split; intros H; try discriminate; reflexivity.
Qed.

Lemma parse_format_round_trip_witness :
  parse_patch_id "valorant-patch-notes-11-2" = Some (11, 2)
  /\ exists id, format_patch_id (Some (11, 2)) = Some id
                /\ parse_patch_id id = Some (11, 2).
Proof.
  assert (H : parse_patch_id "valorant-patch-notes-11-2" = Some (11, 2))
    by reflexivity.
  split; [exact H|].
  destruct parse_format_round_trip as [Hrt _].
  destruct (Hrt _ _ H) as [_ [_ Hid]]. exact Hid.
Defined.

Section Candidates.

Variable urljoin : string -> string -> string.
Variable base_url : string.

(** The [href] of an anchor, stripped. *)
Definition href_of (anchor : ElementEvent) : string :=
  PyStr.strip (dict_get_default (attrs anchor) "href" "").

(** The anchors that pass the four tests of the loop. *)
Definition eligible (anchor : ElementEvent) : bool :=
  negb (PyStr.is_empty (href_of anchor))
  && PyStr.contains "patch-notes" (PyStr.lower (href_of anchor))
  && negb (PyStr.contains "/news/tags/patch-notes" (PyStr.lower (href_of anchor)))
  && PyStr.contains "/news/" (PyStr.lower (href_of anchor)).

Definition target (anchor : ElementEvent) : string :=
  urljoin base_url (href_of anchor).

(** The candidate made from an anchor at position [index]. *)
Definition candidate_of (index : nat) (anchor : ElementEvent) : Candidate :=
  let title := normalize_space (text anchor) in
  {| title := if PyStr.is_empty title then "Valorant Patch Notes" else title;
     url := target anchor;
     patch_tuple := match parse_patch_id (target anchor) with
                    | Some parts => Some parts
                    | None => parse_patch_id title
                    end;
     order := index |}.

Lemma collect_step index anchor rest candidates seen_urls :
  collect urljoin base_url ((index, anchor) :: rest) candidates seen_urls
  = if eligible anchor && negb (PyStr.mem (target anchor) seen_urls)
    then collect urljoin base_url rest
           (candidates ++ [candidate_of index anchor])
           (target anchor :: seen_urls)
    else collect urljoin base_url rest candidates seen_urls.
Proof.
  cbn [collect]. unfold eligible, target, candidate_of, href_of.
  destruct (PyStr.is_empty _); cbn [negb andb]; [reflexivity|].
  destruct (PyStr.contains "patch-notes" _); cbn [negb andb]; [|reflexivity].
  destruct (PyStr.contains "/news/tags/patch-notes" _); cbn [negb andb];
    [reflexivity|].
  destruct (PyStr.contains "/news/" _); cbn [negb andb]; [|reflexivity].
  destruct (PyStr.mem _ seen_urls); reflexivity.
Qed.

(** What the loop guarantees of the candidates it returns. *)
Record collected (anchors : list (nat * ElementEvent))
    (before after : list Candidate) : Prop := {
  col_made :
    exists added,
      after = before ++ added
      /\ Forall (fun c => exists index anchor,
                            In (index, anchor) anchors
                            /\ eligible anchor = true
                            /\ c = candidate_of index anchor)
                added;
  col_distinct : NoDup (map url after);
  col_complete :
    forall index anchor,
      In (index, anchor) anchors -> eligible anchor = true ->
      In (target anchor) (map url after)
}.

Lemma collect_collected anchors : forall candidates seen_urls,
  (forall u, In u seen_urls <-> In u (map url candidates)) ->
  NoDup (map url candidates) ->
  collected anchors candidates
    (collect urljoin base_url anchors candidates seen_urls).
Proof.
  induction anchors as [|[index anchor] rest IH]; intros cands seen Hseen Hnd.
  - simpl. constructor.
    + exists []. split; [now rewrite app_nil_r | constructor].
    + assumption.
    + intros i a [].
  - rewrite collect_step.
    destruct (eligible anchor) eqn:He; cbn [andb].
    + destruct (PyStr.mem (target anchor) seen) eqn:Hm; cbn [negb].
      * destruct (IH cands seen Hseen Hnd) as [[added [Heq Hadded]] Hd Hc].
        constructor.
        -- exists added. split; [assumption|].
           eapply Forall_impl; [|exact Hadded].
           intros c [i [a [Hin H]]]. exists i, a. split; [now right | assumption].
        -- assumption.
        -- intros i a [Hia | Hia] Hel; [|now apply (Hc i a)].
           injection Hia as <- <-. apply mem_spec in Hm. apply Hseen in Hm.
           rewrite Heq, map_app. apply in_or_app. now left.
      * assert (Hfresh : ~ In (target anchor) (map url cands)).
        { intros H. apply Hseen in H. apply mem_spec in H. congruence. }
        destruct (IH (cands ++ [candidate_of index anchor]) (target anchor :: seen))
          as [[added [Heq Hadded]] Hd Hc].
        { intros u. rewrite map_app, in_app_iff. simpl. rewrite Hseen. tauto. }
        { rewrite map_app. simpl. apply NoDup_app; [assumption | | ].
          - constructor; [intros [] | constructor].
          - intros u Hu [<- | []]. contradiction. }
        constructor.
        -- exists (candidate_of index anchor :: added). split.
           ++ rewrite Heq, <- app_assoc. reflexivity.
           ++ constructor.
              ** exists index, anchor. split; [now left | now split].
              ** eapply Forall_impl; [|exact Hadded].
                 intros c [i [a [Hin H]]]. exists i, a.
                 split; [now right | assumption].
        -- assumption.
        -- intros i a [Hia | Hia] Hel; [|now apply (Hc i a)].
           injection Hia as <- <-. rewrite Heq, !map_app, <- app_assoc.
           apply in_or_app. right. now left.
    + destruct (IH cands seen Hseen Hnd) as [[added [Heq Hadded]] Hd Hc].
      constructor.
      * exists added. split; [assumption|].
        eapply Forall_impl; [|exact Hadded].
        intros c [i [a [Hin H]]]. exists i, a. split; [now right | assumption].
      * assumption.
      * intros i a [Hia | Hia] Hel; [|now apply (Hc i a)].
        injection Hia as <- <-. congruence.
Qed.

Definition anchors_of (parsed : ParsedHTML) : list ElementEvent :=
  filter (fun event => String.eqb (tag event) "a") (events parsed).

Lemma candidates_of_collected parsed :
  collected (ParsePatch.enumerate (anchors_of parsed)) []
    (candidates_of urljoin parsed base_url).
Proof.
  unfold candidates_of. apply collect_collected.
  - intros u. reflexivity.
  - constructor.
Qed.

Lemma enumerate_In {A : Type} (l : list A) i x :
  In (i, x) (ParsePatch.enumerate l) -> In x l.
Proof. unfold ParsePatch.enumerate. apply in_combine_r. Qed.

Lemma In_enumerate {A : Type} (l : list A) x :
  In x l -> exists i, In (i, x) (ParsePatch.enumerate l).
Proof.
  unfold ParsePatch.enumerate. generalize 0 as a.
  induction l as [|y l IH]; intros a Hin; [destruct Hin|].
  destruct Hin as [-> | Hin]; simpl.
  - exists a. now left.
  - destruct (IH (S a) Hin) as [i Hi]. exists i. now right.
Qed.

Lemma anchors_of_In parsed a :
  In a (anchors_of parsed) <-> In a (events parsed) /\ tag a = "a".
Proof.
  unfold anchors_of. rewrite filter_In. now rewrite String.eqb_eq.
Qed.

Lemma candidate_of_title index anchor : title (candidate_of index anchor) <> "".
Proof.
  unfold candidate_of. simpl.
  destruct (PyStr.is_empty (normalize_space (text anchor))) eqn:He;
    [discriminate|].
  intros H. rewrite H in He. discriminate.
Qed.

Lemma candidates_made parsed :
  Forall (fun c => exists index anchor,
                     In anchor (events parsed) /\ tag anchor = "a"
                     /\ eligible anchor = true
                     /\ c = candidate_of index anchor)
         (candidates_of urljoin parsed base_url).
Proof.
  destruct (candidates_of_collected parsed) as [[added [Heq Hadded]] _ _].
  simpl in Heq. rewrite Heq.
  eapply Forall_impl; [|exact Hadded].
  intros c [i [a [Hin [Hel ->]]]]. exists i, a.
  apply enumerate_In, anchors_of_In in Hin as [Hin Htag].
  repeat split; assumption.
Qed.

Lemma candidate_of_version index anchor v :
  patch_tuple (candidate_of index anchor) = Some v ->
  exists value, parse_patch_id value = Some v.
Proof.
  unfold candidate_of. simpl.
  destruct (parse_patch_id (target anchor)) as [parts|] eqn:Hu.
  - intros H. injection H as <-. now exists (target anchor).
  - intros H. now exists (normalize_space (text anchor)).
Qed.

(** X13. The candidates are made from the eligible anchors: those whose
    stripped [href] is not empty and, lower-cased, contains "patch-notes"
    and "/news/" but not "/news/tags/patch-notes".  Each candidate is made
    from such an anchor of the document and has a non-empty title; no two
    candidates have the same address; and the address of every eligible
    anchor is that of some candidate. *)
Theorem candidates_are_eligible_anchors parsed :
  let candidates := candidates_of urljoin parsed base_url in
  Forall (fun c =>
            title c <> ""
            /\ exists anchor,
                 In anchor (events parsed) /\ tag anchor = "a"
                 /\ eligible anchor = true
                 /\ c = candidate_of (order c) anchor)
         candidates
  /\ NoDup (map url candidates)
  /\ (forall anchor,
         In anchor (events parsed) -> tag anchor = "a" ->
         eligible anchor = true ->
         exists c, In c candidates /\ url c = target anchor).
Proof.
  intros candidates.
  destruct (candidates_of_collected parsed) as [_ Hd Hc].
  fold candidates in Hd, Hc.
  split; [|split].
  - eapply Forall_impl; [|exact (candidates_made parsed)].
    intros c [i [a [Hin [Htag [Hel ->]]]]]. split; [apply candidate_of_title|].
    exists a. repeat split; assumption.
  - assumption.
  - intros a Hin Htag Hel.
    assert (Ha : In a (anchors_of parsed)) by (apply anchors_of_In; now split).
    apply In_enumerate in Ha as [i Hi].
    specialize (Hc i a Hi Hel). apply in_map_iff in Hc as [c [Hu Hc]].
    now exists c.
Qed.

Lemma candidates_nil_iff parsed :
  candidates_of urljoin parsed base_url = []
  <-> forall anchor, In anchor (events parsed) -> tag anchor = "a" ->
                     eligible anchor = false.
Proof.
  destruct (candidates_of_collected parsed) as [[added [Heq Hadded]] _ Hc].
  simpl in Heq. split.
  - intros Hnil a Hin Htag. destruct (eligible a) eqn:Hel; [|reflexivity].
    assert (Ha : In a (anchors_of parsed)) by (apply anchors_of_In; now split).
    apply In_enumerate in Ha as [i Hi].
    specialize (Hc i a Hi Hel). rewrite Hnil in Hc. destruct Hc.
  - intros Hnone. rewrite Heq. destruct added as [|c added]; [reflexivity|].
    inversion_clear Hadded as [|? ? [i [a [Hin [Hel _]]]] _].
    apply enumerate_In, anchors_of_In in Hin as [Hin Htag].
    rewrite (Hnone a Hin Htag) in Hel. discriminate.
Qed.

(** X14. [extract_current_patch_link] raises exactly when the document has
    no eligible anchor.  Otherwise it returns the non-empty title and the
    address of one of the candidates, and a formatted version that is
    missing exactly when no candidate has a version and from which, when
    present, [parse_patch_id] reads the version of the chosen candidate. *)
Theorem extract_current_patch_link_outcomes parsed :
  let candidates := candidates_of urljoin parsed base_url in
  let outcome := extract_current_patch_link_parsed urljoin parsed base_url in
  ((exists error, outcome = Raise error)
   <-> forall anchor, In anchor (events parsed) -> tag anchor = "a" ->
                      eligible anchor = false)
  /\ (forall link,
         outcome = Ok link ->
         link_title link <> ""
         /\ (exists c, In c candidates
                       /\ link_title link = title c
                       /\ link_url link = url c
                       /\ link_patch_id link = format_patch_id (patch_tuple c))
         /\ (link_patch_id link = None
             <-> forall c, In c candidates -> patch_tuple c = None)
         /\ (forall id, link_patch_id link = Some id ->
                        exists v c, In c candidates
                                    /\ patch_tuple c = Some v
                                    /\ parse_patch_id id = Some v)).
Proof.
  intros candidates outcome. subst outcome.
  unfold extract_current_patch_link_parsed. fold candidates.
  pose proof (candidates_nil_iff parsed) as Hnil. fold candidates in Hnil.
  destruct candidates as [|c0 cs] eqn:Hcands.
  - simpl. split.
    + split; [intros _; now apply Hnil | intros _; eexists; reflexivity].
    + intros link H. discriminate.
  - destruct (FetchCurrentPatchFacts.select_spec (c0 :: cs))
      as [sel [Hsel [Hin [Hver Hnone]]]]; [discriminate|].
    rewrite Hsel. split.
    + split.
      * intros [error H]. discriminate.
      * intros H. apply Hnil in H. discriminate.
    + intros link H. injection H as <-. cbn [link_title link_url link_patch_id].
      assert (Htitle : title sel <> "").
      { pose proof (candidates_made parsed) as Hall.
        fold candidates in Hall. rewrite Hcands, Forall_forall in Hall.
        destruct (Hall sel Hin) as [i [a [_ [_ [_ ->]]]]].
        apply candidate_of_title. }
      split; [assumption|]. split.
      { exists sel. repeat split. assumption. }
      split.
      * split.
        -- intros Hfmt c Hc. destruct (patch_tuple c) as [v|] eqn:Hv; [|reflexivity].
           destruct Hver as [v' [Hv' _]].
           { exists c. split; [assumption|].
             apply FetchCurrentPatchFacts.has_version_spec. now exists v. }
           rewrite Hv' in Hfmt. destruct v'. discriminate.
        -- intros Hall. now rewrite (Hall sel Hin).
      * intros id Hid. destruct (patch_tuple sel) as [[a b]|] eqn:Hv;
          [|discriminate].
        exists (a, b), sel. split; [assumption|]. split; [assumption|].
        assert (Hparse : exists value, parse_patch_id value = Some (a, b)).
        { pose proof (candidates_made parsed) as Hall.
          fold candidates in Hall. rewrite Hcands, Forall_forall in Hall.
          destruct (Hall sel Hin) as [i [anchor [_ [_ [_ Hc]]]]].
          rewrite Hc in Hv. eapply candidate_of_version; eassumption. }
        destruct Hparse as [value Hparse]. unfold parse_patch_id in Hparse.
        destruct (VersionFacts.search_patch_id_bound _ _ _ _ Hparse) as [Ha Hb].
        rewrite format_patch_id_version in Hid. injection Hid as <-.
        now apply VersionFacts.format_then_search.
Qed.

End Candidates.

Lemma candidates_are_eligible_anchors_witness :
  let parsed := parse_tokens ListingFixture.listing_tokens in
  let anchor :=
    {| tag := "a";
       attrs := [("href", "/en-us/news/game-updates/valorant-patch-notes-11-01/")];
       text := "Patch 11.01"; parents := [] |} in
  In anchor (events parsed) /\ tag anchor = "a" /\ eligible anchor = true
  /\ exists c,
       In c (candidates_of ListingFixture.join_path parsed BASE_URL)
       /\ url c = target ListingFixture.join_path BASE_URL anchor.
Proof.
  intros parsed anchor.
  assert (Hin : In anchor (events parsed))
    by (vm_compute; right; left; reflexivity).
  assert (Htag : tag anchor = "a") by reflexivity.
  assert (Hel : eligible anchor = true) by (vm_compute; reflexivity).
  split; [exact Hin|]. split; [exact Htag|]. split; [exact Hel|].
  destruct (candidates_are_eligible_anchors ListingFixture.join_path BASE_URL parsed)
    as [_ [_ H]].
  exact (H anchor Hin Htag Hel).
Defined.

Lemma extract_current_patch_link_outcomes_witness :
  let parsed := parse_tokens (ListingFixture.anchor "/en-us/agents/" "Agents") in
  (forall anchor, In anchor (events parsed) -> tag anchor = "a" ->
                  eligible anchor = false)
  /\ exists error,
       extract_current_patch_link_parsed ListingFixture.join_path parsed BASE_URL
       = Raise error.
Proof.
  intros parsed.
  assert (H : forall anchor, In anchor (events parsed) -> tag anchor = "a" ->
                             eligible anchor = false).
  { intros anchor Hin _. vm_compute in Hin. destruct Hin as [<- | []].
    vm_compute. reflexivity. }
  split; [exact H|].
  destruct (extract_current_patch_link_outcomes ListingFixture.join_path BASE_URL parsed)
    as [Hraise _].
  exact (proj2 Hraise H).
Defined.

End LinkFacts.

(** ** The mention linker: the normal form used for matching *)

Module MatchFacts.
Import LoadNeo4j.

Ltac each_char c :=
  destruct c as [[|] [|] [|] [|] [|] [|] [|] [|]]; vm_compute.

Lemma lower_char_twice c :
  PyStr.lower_char (PyStr.lower_char c) = PyStr.lower_char c.
Proof. each_char c; reflexivity. Qed.

Lemma lower_twice s : PyStr.lower (PyStr.lower s) = PyStr.lower s.
Proof.
  induction s as [|c s IH]; simpl; [reflexivity|].
  now rewrite lower_char_twice, IH.
Qed.

Lemma lower_alnum_plain c :
  PyStr.is_lower_alnum c = true ->
  PyStr.isspace c = false /\ PyStr.lower_char c = c.
Proof. each_char c; intros H; try discriminate H; split; reflexivity. Qed.

Lemma space_not_alnum c :
  PyStr.isspace c = true -> PyStr.is_lower_alnum c = false.
Proof.
  intros Hs. destruct (PyStr.is_lower_alnum c) eqn:Ha; [|reflexivity].
  apply lower_alnum_plain in Ha as [Ha _]. congruence.
Qed.

(** The strings made of the characters [a-z0-9] and of single spaces;
    with [in_run] the string does not start with a space either. *)
Fixpoint spaced (in_run : bool) (s : string) : Prop :=
  match s with
  | EmptyString => True
  | String c s' =>
      if PyStr.is_lower_alnum c then spaced false s'
      else c = " "%char /\ in_run = false /\ spaced true s'
  end.

Lemma sub_non_alnum_spaced s : forall in_run,
  spaced in_run (PyStr.sub_non_alnum in_run s).
Proof.
  induction s as [|c s IH]; intros in_run; simpl; [trivial|].
  destruct (PyStr.is_lower_alnum c) eqn:Hc.
  - simpl. rewrite Hc. apply IH.
  - destruct in_run; [apply IH|]. simpl. repeat split. apply IH.
Qed.

Lemma sub_non_alnum_fixed s : forall in_run,
  spaced in_run s -> PyStr.sub_non_alnum in_run s = s.
Proof.
  induction s as [|c s IH]; intros in_run; simpl; [reflexivity|].
  destruct (PyStr.is_lower_alnum c) eqn:Hc.
  - intros H. now rewrite IH.
  - intros [-> [-> H]]. now rewrite IH.
Qed.

Lemma lower_fixed s : forall in_run, spaced in_run s -> PyStr.lower s = s.
Proof.
  induction s as [|c s IH]; intros in_run; simpl; [reflexivity|].
  destruct (PyStr.is_lower_alnum c) eqn:Hc.
  - intros H. apply lower_alnum_plain in Hc as [_ ->]. now rewrite (IH false).
  - intros [-> [_ H]]. now rewrite (IH true).
Qed.

Lemma spaced_weaken s : spaced true s -> spaced false s.
Proof.
  destruct s as [|c s]; simpl; [trivial|].
  destruct (PyStr.is_lower_alnum c); [trivial|]. intros [_ [H _]]. discriminate.
Qed.

Lemma lstrip_spaced s : forall in_run,
  spaced in_run s -> spaced false (PyStr.lstrip s).
Proof.
  induction s as [|c s IH]; intros in_run; simpl; [trivial|].
  destruct (PyStr.isspace c) eqn:Hs.
  - rewrite (space_not_alnum c Hs). intros [_ [_ H]]. now apply (IH true).
  - simpl. destruct (PyStr.is_lower_alnum c); [trivial|].
    intros [-> _]. discriminate.
Qed.

Lemma rstrip_spaced s : forall in_run,
  spaced in_run s -> spaced in_run (PyStr.rstrip s).
Proof.
  induction s as [|c s IH]; intros in_run; simpl; [trivial|].
  destruct (PyStr.is_lower_alnum c) eqn:Hc.
  - intros H. specialize (IH false H).
    destruct (PyStr.rstrip s) as [|x r].
    + destruct (PyStr.isspace c); simpl; [trivial | now rewrite Hc].
    + cbn [spaced]. now rewrite Hc.
  - intros [-> [-> H]]. specialize (IH true H).
    destruct (PyStr.rstrip s) as [|x r]; [exact I|].
    cbn [spaced]. change (PyStr.is_lower_alnum " ") with false. cbv iota.
    repeat split. exact IH.
Qed.

(** *** [strip] *)

Lemma rstrip_cons c s :
  PyStr.rstrip (String c s)
  = match PyStr.rstrip s with
    | EmptyString => if PyStr.isspace c then EmptyString else String c EmptyString
    | r => String c r
    end.
Proof. reflexivity. Qed.

Lemma rstrip_twice s : PyStr.rstrip (PyStr.rstrip s) = PyStr.rstrip s.
Proof.
  induction s as [|c s IH]; [reflexivity|].
  rewrite rstrip_cons. destruct (PyStr.rstrip s) as [|x r] eqn:Hr.
  - destruct (PyStr.isspace c) eqn:Hc; [reflexivity|].
    rewrite rstrip_cons. simpl. now rewrite Hc.
  - rewrite rstrip_cons, IH. reflexivity.
Qed.

Lemma lstrip_twice s : PyStr.lstrip (PyStr.lstrip s) = PyStr.lstrip s.
Proof.
  induction s as [|c s IH]; simpl; [reflexivity|].
  destruct (PyStr.isspace c) eqn:Hc; [assumption|]. simpl. now rewrite Hc.
Qed.

Lemma lstrip_keeps_end s :
  PyStr.rstrip s = s -> PyStr.rstrip (PyStr.lstrip s) = PyStr.lstrip s.
Proof.
  induction s as [|c s IH]; [reflexivity|].
  intros H. cbn [PyStr.lstrip]. destruct (PyStr.isspace c) eqn:Hc; [|exact H].
  apply IH. rewrite rstrip_cons in H.
  destruct (PyStr.rstrip s) as [|x r].
  - rewrite Hc in H. discriminate.
  - now injection H.
Qed.

Lemma strip_twice s : PyStr.strip (PyStr.strip s) = PyStr.strip s.
Proof.
  unfold PyStr.strip.
  rewrite (lstrip_keeps_end (PyStr.rstrip s) (rstrip_twice s)).
  apply lstrip_twice.
Qed.

Lemma strip_spaced s in_run : spaced in_run s -> spaced false (PyStr.strip s).
Proof.
  intros H. unfold PyStr.strip. eapply lstrip_spaced, rstrip_spaced, H.
Qed.

Lemma normalize_for_match_spaced s : spaced false (normalize_for_match s).
Proof.
  unfold normalize_for_match. eapply strip_spaced, sub_non_alnum_spaced.
Qed.

Lemma normalize_for_match_fixed s :
  spaced false s -> PyStr.strip s = s -> normalize_for_match s = s.
Proof.
  intros Hs Ht. unfold normalize_for_match.
  now rewrite (lower_fixed s false Hs), (sub_non_alnum_fixed s false Hs).
Qed.

Lemma normalize_for_match_twice s :
  normalize_for_match (normalize_for_match s) = normalize_for_match s.
Proof.
  apply normalize_for_match_fixed; [apply normalize_for_match_spaced|].
  unfold normalize_for_match. apply strip_twice.
Qed.

Lemma normalize_for_match_lower s :
  normalize_for_match (PyStr.lower s) = normalize_for_match s.
Proof. unfold normalize_for_match. now rewrite lower_twice. Qed.

(** X15. The form used for matching is a normal form: it consists of the
    characters [a-z0-9] and of single spaces, has no space at either end,
    and is left unchanged by normalizing again; a text and its lower-cased
    version have the same form. *)
Theorem normalize_for_match_normal_form s :
  normalize_for_match (normalize_for_match s) = normalize_for_match s
  /\ normalize_for_match (PyStr.lower s) = normalize_for_match s
  /\ PyStr.strip (normalize_for_match s) = normalize_for_match s
  /\ PyStr.lower (normalize_for_match s) = normalize_for_match s
  /\ spaced true (normalize_for_match s).
Proof.
  split; [apply normalize_for_match_twice|].
  split; [apply normalize_for_match_lower|].
  assert (Hstrip : PyStr.strip (normalize_for_match s) = normalize_for_match s)
    by (unfold normalize_for_match; apply strip_twice).
  split; [exact Hstrip|].
  pose proof (normalize_for_match_spaced s) as Hs.
  split; [exact (lower_fixed _ _ Hs)|].
  destruct (normalize_for_match s) as [|c r] eqn:Hn; [exact I|].
  cbn [spaced] in *. destruct (PyStr.is_lower_alnum c); [exact Hs|].
  destruct Hs as [-> _].
  apply DetectFacts.strip_head in Hstrip. discriminate.
Qed.

Lemma alias_matches_normal text alias alias' :
  normalize_for_match alias = normalize_for_match alias' ->
  alias_matches text alias = alias_matches text alias'.
Proof. unfold alias_matches. now intros ->. Qed.

Lemma detect_agent_mentions_normal text text' agents :
  normalize_for_match text = normalize_for_match text' ->
  detect_agent_mentions text agents = detect_agent_mentions text' agents.
Proof. unfold detect_agent_mentions. now intros ->. Qed.

(** X16. The uuids reported for a change text depend on the text only
    through its normal form: two texts with the same form, such as a text,
    its lower-cased version and its normal form, get the same uuids. *)
Theorem detect_agent_mentions_by_normal_form agents :
  (forall text text',
      normalize_for_match text = normalize_for_match text' ->
      detect_agent_mentions text agents = detect_agent_mentions text' agents)
  /\ (forall text,
         detect_agent_mentions (PyStr.lower text) agents
         = detect_agent_mentions text agents
         /\ detect_agent_mentions (normalize_for_match text) agents
            = detect_agent_mentions text agents).
Proof.
  split.
  - intros text text'. apply detect_agent_mentions_normal.
  - intros text. split; apply detect_agent_mentions_normal.
    + apply normalize_for_match_lower.
    + apply normalize_for_match_twice.
Qed.

Lemma detect_agent_mentions_by_normal_form_witness :
  normalize_for_match "REYNA's Leer: cost up!"
  = normalize_for_match "reyna s  leer -- cost up"
  /\ detect_agent_mentions "REYNA's Leer: cost up!" RosterFixture.roster
     = detect_agent_mentions "reyna s  leer -- cost up" RosterFixture.roster.
Proof.
  assert (H : normalize_for_match "REYNA's Leer: cost up!"
              = normalize_for_match "reyna s  leer -- cost up")
    by (vm_compute; reflexivity).
  split; [exact H|].
  exact (proj1 (detect_agent_mentions_by_normal_form RosterFixture.roster) _ _ H).
Defined.

End MatchFacts.

(** ** The graph materializer: agents *)

Module LoaderFacts.
Import Graph LoadNeo4j StoreFacts RelinkFacts.

(** The properties [upsert_agents] writes for a roster row. *)
Definition props_of (row : AgentEntry) : Props :=
  AgentProps (name row) (role row) (icon_url row) (abilities row) (aliases row).

(** The row that writes last on the agent [u]. *)
Definition last_row (u : string) (rows : list AgentEntry) : option AgentEntry :=
  find (fun row => String.eqb (uuid row) u) (rev rows).

Definition is_agent (n : Node) : bool := label_eqb (label n) Agent.

Lemma find_first_part {A : Type} (p : A -> bool) (front back : list A) :
  find p (front ++ back)
  = match find p front with
    | Some x => Some x
    | None => find p back
    end.
Proof.
  induction front as [|x front IH]; simpl; [reflexivity|].
  now destruct (p x).
Qed.

Lemma is_node_set_props l k p n : is_node l k (set_props p n) = is_node l k n.
Proof. reflexivity. Qed.

(** A [MERGE ... SET] on [(l, k)] leaves alone every selection of nodes by
    label and key that does not select [(l, k)]. *)
Lemma merge_node_filter (q : Label -> string -> bool) l k p st :
  q l k = false ->
  filter (fun n => q (label n) (key n)) (nodes (fst (merge_node l k p st)))
  = filter (fun n => q (label n) (key n)) (nodes st).
Proof.
  intros Hq. unfold merge_node.
  destruct (match_nodes l k st) as [|m ms]; cbn [fst nodes].
  - rewrite filter_app. simpl. rewrite Hq. apply app_nil_r.
  - induction (nodes st) as [|n ns IH]; simpl; [reflexivity|].
    destruct (is_node l k n) eqn:Hn.
    + apply is_node_spec in Hn as [Hl Hk]. simpl. rewrite Hl, Hk, Hq. exact IH.
    + destruct (q (label n) (key n)); now rewrite IH.
Qed.

Lemma merge_node_other l k p st l' k' :
  (l', k') <> (l, k) ->
  match_nodes l' k' (fst (merge_node l k p st)) = match_nodes l' k' st.
Proof.
  intros Hne. unfold match_nodes, is_node.
  apply (merge_node_filter (fun a b => label_eqb a l' && String.eqb b k')).
  destruct (label_eqb l l') eqn:Hl; [|reflexivity].
  destruct (String.eqb k k') eqn:Hk; [|reflexivity].
  apply label_eqb_spec in Hl. apply String.eqb_eq in Hk. congruence.
Qed.

Lemma merge_node_same l k p st :
  match_nodes l k (fst (merge_node l k p st)) <> []
  /\ Forall (fun n => props n = p) (match_nodes l k (fst (merge_node l k p st))).
Proof.
  unfold merge_node. destruct (match_nodes l k st) as [|m ms] eqn:Hm; cbn [fst].
  - unfold match_nodes in *. cbn [nodes]. rewrite filter_app, Hm. simpl.
    assert (is_node l k {| nid := next_id st; label := l; key := k; props := p |}
            = true) as ->.
    { apply is_node_spec. now split. }
    split; [discriminate | now constructor].
  - assert (Hmap : match_nodes l k
                     {| nodes := map (fun n => if is_node l k n then set_props p n else n)
                                     (nodes st);
                        rels := rels st; next_id := next_id st |}
                   = map (set_props p) (match_nodes l k st)).
    { unfold match_nodes. cbn [nodes]. clear Hm.
      induction (nodes st) as [|n ns IH]; simpl; [reflexivity|].
      destruct (is_node l k n) eqn:Hn.
      - rewrite is_node_set_props, Hn. simpl. now rewrite IH.
      - rewrite Hn. exact IH. }
    rewrite Hmap, Hm. split; [discriminate|].
    apply Forall_forall. intros n Hin. apply in_map_iff in Hin as [n' [<- _]].
    reflexivity.
Qed.

Lemma merge_node_rels l k p st : rels (fst (merge_node l k p st)) = rels st.
Proof. unfold merge_node. now destruct (match_nodes l k st). Qed.

Definition upsert_row (st : Store) (row : AgentEntry) : Store :=
  fst (merge_node Agent (uuid row) (props_of row) st).

Lemma upsert_agents_fold st rows : upsert_agents st rows = fold_left upsert_row rows st.
Proof. now destruct rows. Qed.

(** The agent nodes found under a uuid after the roster has been written. *)
Lemma upsert_agents_match u rows : forall st,
  match last_row u rows with
  | Some row =>
      match_nodes Agent u (upsert_agents st rows) <> []
      /\ Forall (fun n => props n = props_of row)
                (match_nodes Agent u (upsert_agents st rows))
  | None => match_nodes Agent u (upsert_agents st rows) = match_nodes Agent u st
  end.
Proof.
  unfold last_row. induction rows as [|row rows IH]; intros st.
  - reflexivity.
  - rewrite upsert_agents_fold. cbn [fold_left rev]. rewrite <- upsert_agents_fold.
    rewrite find_first_part. specialize (IH (upsert_row st row)).
    destruct (find _ (rev rows)) as [last|]; [exact IH|].
    rewrite IH. cbn [find]. destruct (String.eqb (uuid row) u) eqn:Hu.
    + apply String.eqb_eq in Hu. subst u. apply merge_node_same.
    + apply merge_node_other. intros H. injection H as H.
      apply String.eqb_neq in Hu. congruence.
Qed.

Lemma last_row_some u rows :
  In u (map uuid rows) ->
  exists row, last_row u rows = Some row /\ In row rows /\ uuid row = u.
Proof.
  intros Hin. unfold last_row.
  destruct (find _ (rev rows)) as [row|] eqn:Hf.
  - apply find_some in Hf as [Hr Hu]. apply String.eqb_eq in Hu.
    exists row. split; [reflexivity|]. split; [now apply in_rev | assumption].
  - apply in_map_iff in Hin as [row [Hu Hr]].
    pose proof (find_none _ _ Hf row (proj1 (in_rev _ _) Hr)) as H.
    simpl in H. rewrite Hu, String.eqb_refl in H. discriminate.
Qed.

Lemma upsert_agents_others st rows :
  filter (fun n => negb (is_agent n)) (nodes (upsert_agents st rows))
  = filter (fun n => negb (is_agent n)) (nodes st)
  /\ rels (upsert_agents st rows) = rels st.
Proof.
  rewrite upsert_agents_fold. revert st.
  induction rows as [|row rows IH]; intros st; simpl; [now split|].
  destruct (IH (upsert_row st row)) as [Hn Hr]. rewrite Hn, Hr. split.
  - apply (merge_node_filter (fun l _ => negb (label_eqb l Agent))). reflexivity.
  - apply merge_node_rels.
Qed.

Lemma match_nodes_single st l k :
  clean st -> match_nodes l k st <> [] -> exists n, match_nodes l k st = [n].
Proof.
  intros Hc Hne. destruct (match_nodes l k st) as [|n ns] eqn:Hm; [contradiction|].
  assert (Hin : In n (match_nodes l k st)) by (rewrite Hm; now left).
  apply match_nodes_In in Hin as [Hin [Hl Hk]].
  pose proof (match_nodes_unique st n Hc Hin) as Hu.
  rewrite Hl, Hk, Hm in Hu. now exists n.
Qed.

(** X17. Writing a roster whose rows all have a uuid into a store without
    duplicates leaves, for each uuid of the roster, exactly one agent node;
    its properties are those of the last row with that uuid.  Agents under
    other uuids, the nodes that are not agents and all relationships are as
    before. *)
Theorem upsert_agents_spec st rows :
  clean st ->
  Forall (fun row => uuid row <> "") rows ->
  let st' := upsert_agents st rows in
  (forall u, In u (map uuid rows) ->
             exists row n,
               last_row u rows = Some row /\ In row rows /\ uuid row = u
               /\ match_nodes Agent u st' = [n]
               /\ props n = props_of row)
  /\ (forall u, ~ In u (map uuid rows) ->
                match_nodes Agent u st' = match_nodes Agent u st)
  /\ filter (fun n => negb (is_agent n)) (nodes st')
     = filter (fun n => negb (is_agent n)) (nodes st)
  /\ rels st' = rels st.
Proof.
  intros Hc _ st'. subst st'. split; [|split].
  - intros u Hu. destruct (last_row_some u rows Hu) as [row [Hlast [Hin Hrow]]].
    pose proof (upsert_agents_match u rows st) as Hm. rewrite Hlast in Hm.
    destruct Hm as [Hne Hprops].
    destruct (match_nodes_single _ Agent u (upsert_agents_clean st rows Hc) Hne)
      as [n Hn].
    exists row, n. rewrite Hn in Hprops. inversion_clear Hprops. tauto.
  - intros u Hu. pose proof (upsert_agents_match u rows st) as Hm.
    destruct (last_row u rows) as [row|] eqn:Hlast; [|exact Hm].
    unfold last_row in Hlast. apply find_some in Hlast as [Hin Heq].
    apply String.eqb_eq in Heq. destruct Hu. apply in_map_iff.
    exists row. split; [assumption | now apply in_rev].
  - apply upsert_agents_others.
Qed.

Lemma upsert_agents_spec_witness :
  clean Graph.empty
  /\ Forall (fun row => uuid row <> "") RosterFixture.roster
  /\ exists row n,
       last_row "a3bfb853" RosterFixture.roster = Some row
       /\ match_nodes Agent "a3bfb853"
            (upsert_agents Graph.empty RosterFixture.roster) = [n]
       /\ props n = props_of row.
Proof.
  assert (Hu : Forall (fun row => uuid row <> "") RosterFixture.roster)
    by (repeat constructor; discriminate).
  split; [exact clean_empty|]. split; [exact Hu|].
  destruct (upsert_agents_spec Graph.empty RosterFixture.roster clean_empty Hu)
    as [H _].
  destruct (H "a3bfb853") as [row [n [H1 [_ [_ [H2 H3]]]]]];
    [vm_compute; right; now left|].
  exists row, n. split; [exact H1|]. split; [exact H2 | exact H3].
Defined.

(** *** Agents outlive the loading of a patch *)

Definition agents_of (st : Store) : list Node := filter is_agent (nodes st).

Lemma merge_rel_nodes t a b st : nodes (merge_rel t a b st) = nodes st.
Proof. unfold merge_rel. now destruct (has_rel _ st). Qed.

Lemma merge_rels_nodes t f (targets : list nat) : forall st,
  nodes (fold_left (fun st x => merge_rel t (f x) x st) targets st) = nodes st.
Proof.
  induction targets as [|x targets IH]; intros st; simpl; [reflexivity|].
  now rewrite IH, merge_rel_nodes.
Qed.

Lemma merge_node_agents l k p st :
  l <> Agent -> agents_of (fst (merge_node l k p st)) = agents_of st.
Proof.
  intros Hl. unfold agents_of, is_agent.
  apply (merge_node_filter (fun a _ => label_eqb a Agent)).
  destruct (label_eqb l Agent) eqn:H; [|reflexivity].
  apply label_eqb_spec in H. contradiction.
Qed.

Lemma merge_section_agents patch_id section st :
  agents_of (merge_section patch_id section st) = agents_of st.
Proof.
  unfold merge_section.
  apply (fold_left_inv (fun s => agents_of s = agents_of st)); [|reflexivity].
  intros s p Hs.
  destruct (merge_node Section (ParsePatch.section_id section) _ s)
    as [s' bound] eqn:Hm.
  unfold agents_of in *.
  rewrite (merge_rels_nodes HAS_SECTION (fun _ => nid p)).
  change s' with (fst (s', bound)). rewrite <- Hm, <- Hs.
  now apply merge_node_agents.
Qed.

Lemma merge_changes_agents section_id changes st :
  agents_of (merge_changes section_id changes st) = agents_of st.
Proof.
  unfold merge_changes.
  apply (fold_left_inv (fun s => agents_of s = agents_of st)); [|reflexivity].
  intros s0 sec Hs0.
  apply (fold_left_inv (fun s => agents_of s = agents_of st)); [|exact Hs0].
  intros s change Hs.
  destruct (merge_node Change (ParsePatch.change_id change) _ s)
    as [s' bound] eqn:Hm.
  unfold agents_of in *.
  rewrite (merge_rels_nodes HAS_CHANGE (fun _ => nid sec)).
  change s' with (fst (s', bound)). rewrite <- Hm, <- Hs.
  now apply merge_node_agents.
Qed.

Lemma upsert_section_agents patch_id acc section :
  agents_of (fst (upsert_section patch_id acc section)) = agents_of (fst acc).
Proof.
  destruct acc as [st [a b]]. unfold upsert_section. cbn [fst].
  destruct (ParsePatch.changes section); cbn [fst].
  - apply merge_section_agents.
  - now rewrite merge_changes_agents, merge_section_agents.
Qed.

Lemma filter_narrowed {A : Type} (p q : A -> bool) (l : list A) :
  (forall x, In x l -> p x = true -> q x = true) ->
  filter p (filter q l) = filter p l.
Proof.
  induction l as [|x l IH]; intros H; simpl; [reflexivity|].
  assert (Hl : filter p (filter q l) = filter p l)
    by (apply IH; intros y Hy; apply H; now right).
  destruct (q x) eqn:Hq; simpl.
  - now rewrite Hl.
  - destruct (p x) eqn:Hp; [|exact Hl].
    rewrite (H x (or_introl eq_refl) Hp) in Hq. discriminate.
Qed.

(** The nodes removed with a patch are sections and changes. *)
Lemma doomed_not_agent st patch_id m :
  In m (patch_changes patch_id st ++ patch_sections patch_id st) ->
  In m (nodes st) /\ label m <> Agent.
Proof.
  intros Hin. apply in_app_or in Hin as [Hin | Hin].
  - apply patch_changes_In in Hin as [s [_ Hout]].
    apply out_nodes_In in Hout as [r [_ [_ [_ [Hm [_ Hl]]]]]].
    split; [assumption|]. rewrite Hl. discriminate.
  - apply patch_sections_In in Hin as [p [_ [_ [_ Hout]]]].
    apply out_nodes_In in Hout as [r [_ [_ [_ [Hm [_ Hl]]]]]].
    split; [assumption|]. rewrite Hl. discriminate.
Qed.

Lemma clear_patch_subgraph_agents st patch_id :
  clean st -> agents_of (clear_patch_subgraph st patch_id) = agents_of st.
Proof.
  intros Hc. unfold clear_patch_subgraph, detach_delete, delete_rels, agents_of.
  cbn [nodes]. apply filter_narrowed. intros n Hn Hagent.
  apply negb_true_iff. destruct (mem_id (nid n) _) eqn:Hmem; [|reflexivity].
  apply mem_id_spec in Hmem. rewrite <- map_app in Hmem.
  apply in_map_iff in Hmem as [m [Hid Hm]].
  apply doomed_not_agent in Hm as [Hm Hl].
  rewrite (nid_injective st m n Hc Hm Hn Hid) in Hl.
  apply label_eqb_spec in Hagent. contradiction.
Qed.

Lemma upsert_patch_agents st patch_doc :
  clean st -> agents_of (fst (upsert_patch st patch_doc)) = agents_of st.
Proof.
  intros Hc. unfold upsert_patch.
  set (pid := ParsePatch.patch_id (ParsePatch.patch patch_doc)).
  set (st1 := fst (merge_node Patch pid _ st)).
  assert (H1 : agents_of st1 = agents_of st)
    by (apply merge_node_agents; discriminate).
  assert (Hc1 : clean st1) by now apply merge_node_clean.
  rewrite <- H1, <- (clear_patch_subgraph_agents st1 pid Hc1).
  set (st2 := clear_patch_subgraph st1 pid).
  apply (fold_left_inv (fun acc => agents_of (fst acc) = agents_of st2));
    [|reflexivity].
  intros acc section Hacc. now rewrite upsert_section_agents.
Qed.

Lemma link_change_nodes change_id uuids st :
  nodes (link_change change_id uuids st) = nodes st.
Proof.
  unfold link_change.
  apply (fold_left_inv (fun s => nodes s = nodes st)); [|reflexivity].
  intros s0 c H0.
  apply (fold_left_inv (fun s => nodes s = nodes st)); [|exact H0].
  intros s1 u H1.
  apply (fold_left_inv (fun s => nodes s = nodes st)); [|exact H1].
  intros s a Hs. now rewrite merge_rel_nodes.
Qed.

Lemma relink_nodes st patch_id roster :
  nodes (fst (relink_patch_agent_mentions st patch_id roster)) = nodes st.
Proof.
  unfold relink_patch_agent_mentions. destruct roster as [|row rows]; [reflexivity|].
  apply (fold_left_inv
           (fun acc => nodes (fst acc) = nodes st)); [|reflexivity].
  intros [s n] [cid text] Hs. unfold relink_record.
  destruct (detect_agent_mentions text (row :: rows)); [exact Hs|].
  cbn [fst] in *. now rewrite link_change_nodes.
Qed.

Definition roster_of (agents_doc : option (list AgentEntry)) : list AgentEntry :=
  match agents_doc with Some rows => rows | None => [] end.

Lemma load_to_neo4j_agents st patch_doc agents_doc wipe :
  clean st ->
  agents_of (fst (load_to_neo4j st patch_doc agents_doc wipe))
  = agents_of (upsert_agents (if wipe then wipe_all st else st)
                 (roster_of agents_doc)).
Proof.
  intros Hc. unfold load_to_neo4j. fold (roster_of agents_doc).
  set (st0 := if wipe then wipe_all st else st).
  assert (Hc0 : clean st0) by (subst st0; destruct wipe; [apply wipe_all_clean | exact Hc]).
  set (st1 := upsert_agents st0 (roster_of agents_doc)).
  assert (Hc1 : clean st1) by now apply upsert_agents_clean.
  pose proof (upsert_patch_agents st1 patch_doc Hc1) as Hp.
  destruct (upsert_patch st1 patch_doc) as [st2 [a b]]. cbn [fst] in Hp.
  pose proof (relink_nodes st2
                (ParsePatch.patch_id (ParsePatch.patch patch_doc))
                (roster_of agents_doc)) as Hr.
  destruct (relink_patch_agent_mentions st2 _ _) as [st3 n]. cbn [fst] in *.
  unfold agents_of in *. now rewrite Hr.
Qed.

Lemma match_nodes_agents u st :
  match_nodes Agent u st = filter (fun n => String.eqb (key n) u) (agents_of st).
Proof.
  unfold match_nodes, agents_of, is_node, is_agent.
  induction (nodes st) as [|n ns IH]; simpl; [reflexivity|].
  destruct (label_eqb (label n) Agent); simpl; [|exact IH].
  destruct (String.eqb (key n) u); now rewrite IH.
Qed.

(** X18. Loading a patch never removes or alters an agent: on a store
    without duplicates the agent nodes after [upsert_patch] are those
    before it, [relink_patch_agent_mentions] changes no node at all, and
    after [load_to_neo4j] the agent nodes are the ones [upsert_agents] left,
    so every uuid of the roster finds the same agents as just after the
    roster was written. *)
Theorem agents_outlive_loading st patch_doc agents_doc wipe :
  clean st ->
  let final := fst (load_to_neo4j st patch_doc agents_doc wipe) in
  let written :=
    upsert_agents (if wipe then wipe_all st else st) (roster_of agents_doc) in
  agents_of (fst (upsert_patch st patch_doc)) = agents_of st
  /\ (forall patch_id roster,
         nodes (fst (relink_patch_agent_mentions st patch_id roster)) = nodes st)
  /\ agents_of final = agents_of written
  /\ (forall u, match_nodes Agent u final = match_nodes Agent u written).
Proof.
  intros Hc final written.
  split; [now apply upsert_patch_agents|].
  split; [intros patch_id roster; apply relink_nodes|].
  assert (H : agents_of final = agents_of written)
    by now apply load_to_neo4j_agents.
  split; [exact H|]. intros u. now rewrite !match_nodes_agents, H.
Qed.

Lemma agents_outlive_loading_witness :
  clean Graph.empty
  /\ agents_of (fst (load_to_neo4j Graph.empty RosterFixture.article_doc
                       (Some RosterFixture.roster) false))
     = agents_of (upsert_agents Graph.empty RosterFixture.roster).
Proof.
  split; [exact clean_empty|].
  destruct (agents_outlive_loading Graph.empty RosterFixture.article_doc
              (Some RosterFixture.roster) false clean_empty) as [_ [_ [H _]]].
  exact H.
Defined.

(** *** Relinking twice *)

Lemma derived_are_doomed st patch_id roster r :
  In r (flat_map (derived_for st roster) (patch_changes patch_id st)) ->
  mentions_from (patch_changes patch_id st) st r = true.
Proof.
  intros Hin. apply in_flat_map in Hin as [c [Hc Hr]].
  unfold derived_for in Hr. apply in_map_iff in Hr as [a [<- Ha]].
  unfold linked_agents in Ha. apply in_flat_map in Ha as [u [_ Ha]].
  apply match_nodes_In in Ha as [Ha [Hl _]].
  unfold mentions_from, mention. cbn [rel src dst reltype_eqb andb].
  apply andb_true_iff. split.
  - apply mem_id_spec. now apply in_map.
  - apply node_label_is_spec. now exists a.
Qed.

Lemma filter_none {A : Type} (p : A -> bool) (l : list A) :
  (forall x, In x l -> p x = false) -> filter p l = [].
Proof.
  intros H. apply empty_list. intros x Hx. apply filter_In in Hx as [Hin Hp].
  rewrite (H x Hin) in Hp. discriminate.
Qed.

Lemma relink_twice st patch_id roster :
  clean st -> NoDup (map nid (patch_changes patch_id st)) ->
  let once := relink_patch_agent_mentions st patch_id roster in
  relink_patch_agent_mentions (fst once) patch_id roster = once.
Proof.
  intros Hc Honce once. subst once.
  destruct roster as [|row rows] eqn:Hroster; [reflexivity|].
  rewrite <- Hroster.
  assert (Hne : roster <> []) by (rewrite Hroster; discriminate).
  pose proof (relink_result st patch_id roster Hc Honce Hne) as H1.
  set (cs := patch_changes patch_id st) in *.
  set (st1 := delete_patch_mentions st patch_id) in *.
  set (derived := flat_map (derived_for st roster) cs) in *.
  set (st2 := with_rels st (rels st1 ++ derived)) in *.
  assert (Hc2 : clean st2).
  { pose proof (relink_clean st patch_id roster Hc) as H. now rewrite H1 in H. }
  assert (Hderived : Forall (fun r => rel r = MENTIONS_AGENT) derived).
  { apply Forall_forall. intros r Hr. apply in_flat_map in Hr as [c [_ Hr]].
    unfold derived_for in Hr. apply in_map_iff in Hr as [a [<- _]]. reflexivity. }
  assert (Hcs : patch_changes patch_id st2 = cs).
  { apply same_structure_changes. split; [reflexivity|].
    intros t Ht. subst st2. cbn [with_rels rels]. rewrite filter_app.
    destruct (delete_patch_mentions_structure st patch_id) as [_ Hs].
    fold st1 in Hs. rewrite (Hs t Ht).
    rewrite (filter_none _ derived); [apply app_nil_r|].
    intros r Hr. rewrite Forall_forall in Hderived. rewrite (Hderived r Hr).
    destruct t; [reflexivity | reflexivity | contradiction]. }
  assert (Honce2 : NoDup (map nid (patch_changes patch_id st2)))
    by now rewrite Hcs.
  pose proof (relink_result st2 patch_id roster Hc2 Honce2 Hne) as H2.
  rewrite Hcs in H2. rewrite H1. cbn [fst]. rewrite H2. f_equal.
  assert (Hrels : rels (delete_patch_mentions st2 patch_id) = rels st1).
  { unfold delete_patch_mentions, delete_rels. cbn [rels]. rewrite Hcs.
    subst st2. cbn [with_rels rels]. rewrite filter_app.
    rewrite (filter_none _ derived).
    - rewrite app_nil_r. subst st1. unfold delete_patch_mentions, delete_rels.
      cbn [rels]. fold cs. apply filter_filter_other. trivial.
    - intros r Hr. apply negb_false_iff.
      apply (derived_are_doomed st patch_id roster r Hr). }
  rewrite Hrels. reflexivity.
Qed.

(** X19. Relinking is idempotent: on a store without duplicates in which
    each change of the patch is reached once, running
    [relink_patch_agent_mentions] again on its own result, with the same
    roster, returns the same store and the same number. *)
Theorem relink_is_idempotent st patch_id roster :
  clean st -> NoDup (map nid (patch_changes patch_id st)) ->
  let once := relink_patch_agent_mentions st patch_id roster in
  let twice := relink_patch_agent_mentions (fst once) patch_id roster in
  fst twice = fst once /\ snd twice = snd once.
Proof.
  intros Hc Honce once twice. subst twice.
  pose proof (relink_twice st patch_id roster Hc Honce) as H. cbv zeta in H.
  fold once in H. now rewrite H.
Qed.

Lemma relink_is_idempotent_witness :
  let once :=
    relink_patch_agent_mentions RosterFixture.loaded_store "12.02"
      RosterFixture.roster in
  clean RosterFixture.loaded_store
  /\ NoDup (map nid (patch_changes "12.02" RosterFixture.loaded_store))
  /\ fst (relink_patch_agent_mentions (fst once) "12.02" RosterFixture.roster)
     = fst once.
Proof.
  intros once.
  assert (Hn : NoDup (map nid (patch_changes "12.02" RosterFixture.loaded_store)))
    by (vm_compute; repeat constructor; simpl; intuition discriminate).
  split; [exact loaded_store_clean|]. split; [exact Hn|].
  exact (proj1 (relink_is_idempotent RosterFixture.loaded_store "12.02"
                  RosterFixture.roster loaded_store_clean Hn)).
Defined.

End LoaderFacts.

(** ** The retriever: the entity-scoped search and the shape of the results *)

Module SearchFacts.
Import Graph Retriever StoreFacts RetrieverFacts.

Lemma distinct_sub {A : Type} (eqb : A -> A -> bool) : forall l x,
  In x (distinct eqb l) -> In x l.
Proof.
  induction l as [|y l IH]; intros x; simpl; [trivial|].
  intros [-> | H]; [now left|]. apply filter_In in H as [H _]. right. now apply IH.
Qed.

(** [DISTINCT] keeps a representative of every value. *)
Lemma distinct_covers {A : Type} (eqb : A -> A -> bool) :
  (forall x, eqb x x = true) ->
  (forall x y z, eqb x y = true -> eqb y z = true -> eqb x z = true) ->
  forall l z, In z l -> exists y, In y (distinct eqb l) /\ eqb y z = true.
Proof.
  intros Hrefl Htrans. induction l as [|x l IH]; intros z; simpl; [intros []|].
  intros [-> | Hz].
  - exists z. split; [now left | apply Hrefl].
  - destruct (IH z Hz) as [y [Hy Hyz]].
    destruct (eqb x y) eqn:Hxy.
    + exists x. split; [now left | eapply Htrans; eassumption].
    + exists y. split; [|assumption]. right. apply filter_In.
      split; [assumption | now rewrite Hxy].
Qed.

(** The relationship of type [t] from [a] to [b]. *)
Definition edge (t : RelType) (a b : Node) : Rel :=
  {| rel := t; src := nid a; dst := nid b |}.

Lemma in_nodes_In t l b st a :
  In a (in_nodes t l (nid b) st)
  <-> In a (nodes st) /\ label a = l /\ In (edge t a b) (rels st).
Proof.
  unfold in_nodes. rewrite in_flat_map. split.
  - intros [r [Hr Ha]].
    destruct (reltype_eqb (rel r) t && (dst r =? nid b)) eqn:Hc; [|destruct Ha].
    apply andb_true_iff in Hc as [Ht Hd].
    apply reltype_eqb_spec in Ht. apply Nat.eqb_eq in Hd.
    apply filter_In in Ha as [Ha Hc]. apply andb_true_iff in Hc as [Hs Hl].
    apply Nat.eqb_eq in Hs. apply label_eqb_spec in Hl.
    split; [assumption|]. split; [assumption|].
    unfold edge. rewrite Hs, <- Hd, <- Ht. now destruct r.
  - intros [Ha [Hl Hr]]. exists (edge t a b). split; [assumption|].
    unfold edge. cbn [rel src dst].
    assert (reltype_eqb t t = true) as -> by now apply reltype_eqb_spec.
    rewrite Nat.eqb_refl. cbn [andb]. apply filter_In. split; [assumption|].
    rewrite Nat.eqb_refl. cbn [andb]. now apply label_eqb_spec.
Qed.

(** [c] belongs to the section [s] of the patch [p]. *)
Definition owner_path (st : Store) (p s c : Node) : Prop :=
  In s (nodes st) /\ label s = Section /\ In (edge HAS_CHANGE s c) (rels st)
  /\ In p (nodes st) /\ label p = Patch /\ In (edge HAS_SECTION p s) (rels st).

Lemma owners_In st p s c : In (p, s) (owners c st) <-> owner_path st p s c.
Proof.
  unfold owners, owner_path. rewrite in_flat_map. split.
  - intros [s' [Hs Hp]]. apply in_map_iff in Hp as [p' [Heq Hp]].
    injection Heq as -> ->.
    apply in_nodes_In in Hs. apply in_nodes_In in Hp. tauto.
  - intros [Hs [Hls [Hrs [Hp [Hlp Hrp]]]]]. exists s. split.
    + apply in_nodes_In. tauto.
    + apply in_map_iff. exists p. split; [reflexivity|].
      apply in_nodes_In. tauto.
Qed.

(** The change node [c] mentions an agent whose uuid is one of [uuids]. *)
Definition mentions_queried (st : Store) (uuids : list string) (c : Node) : Prop :=
  In c (nodes st) /\ label c = Change
  /\ exists a, In a (nodes st) /\ label a = Agent /\ In (key a) uuids
               /\ In (edge MENTIONS_AGENT c a) (rels st).

(** The rows of the entity-scoped statement before [ORDER BY] and [LIMIT]. *)
Definition entity_rows (st : Store) (agent_uuids : list string) : list Row :=
  flat_map
    (fun c => map (fun ps => make_row st (10 # 1) (fst ps) (snd ps) c)
                  (owners c st))
    (distinct id_eqb
       (flat_map (fun a => in_nodes MENTIONS_AGENT Change (nid a) st)
          (filter (fun a => has_label Agent a && PyStr.mem (key a) agent_uuids)
                  (nodes st)))).

Lemma by_agents_rows_sorted st agent_uuids k :
  by_agents_rows st agent_uuids k
  = firstn k (sort_by document_order (entity_rows st agent_uuids)).
Proof. reflexivity. Qed.

Lemma mentioning_In st uuids c :
  In c (flat_map (fun a => in_nodes MENTIONS_AGENT Change (nid a) st)
          (filter (fun a => has_label Agent a && PyStr.mem (key a) uuids)
                  (nodes st)))
  <-> mentions_queried st uuids c.
Proof.
  rewrite in_flat_map. unfold mentions_queried. split.
  - intros [a [Ha Hc]]. apply filter_In in Ha as [Ha Hq].
    apply andb_true_iff in Hq as [Hl Hk].
    apply label_eqb_spec in Hl. apply mem_spec in Hk.
    apply in_nodes_In in Hc as [Hc [Hlc Hr]].
    split; [assumption|]. split; [assumption|]. now exists a.
  - intros [Hc [Hlc [a [Ha [Hl [Hk Hr]]]]]]. exists a. split.
    + apply filter_In. split; [assumption|]. apply andb_true_iff. split.
      * now apply label_eqb_spec.
      * now apply mem_spec.
    + apply in_nodes_In. tauto.
Qed.

Lemma entity_rows_sound st uuids row :
  In row (entity_rows st uuids) ->
  exists p s c, mentions_queried st uuids c /\ owner_path st p s c
                /\ row = make_row st (10 # 1) p s c.
Proof.
  unfold entity_rows. intros H. apply in_flat_map in H as [c [Hc Hrow]].
  apply distinct_sub, mentioning_In in Hc.
  apply in_map_iff in Hrow as [[p s] [<- Hps]]. apply owners_In in Hps.
  now exists p, s, c.
Qed.

Lemma entity_rows_complete st uuids p s c :
  clean st -> mentions_queried st uuids c -> owner_path st p s c ->
  In (make_row st (10 # 1) p s c) (entity_rows st uuids).
Proof.
  intros Hclean Hc Hps. unfold entity_rows. apply in_flat_map.
  pose proof Hc as Hin. apply mentioning_In in Hin.
  destruct (distinct_covers id_eqb) with (l := flat_map
              (fun a => in_nodes MENTIONS_AGENT Change (nid a) st)
              (filter (fun a => has_label Agent a && PyStr.mem (key a) uuids)
                      (nodes st))) (z := c) as [y [Hy Hyc]].
  - intros x. apply Nat.eqb_refl.
  - unfold id_eqb. intros x y z Hxy Hyz.
    apply Nat.eqb_eq in Hxy, Hyz. apply Nat.eqb_eq. congruence.
  - exact Hin.
  - assert (Heq : y = c).
    { apply Nat.eqb_eq in Hyc.
      pose proof (distinct_sub _ _ _ Hy) as Hy'. apply mentioning_In in Hy'.
      destruct Hy' as [Hy' _]. destruct Hc as [Hc _].
      exact (RelinkFacts.nid_injective st y c Hclean Hy' Hc Hyc). }
    subst y. exists c. split; [assumption|].
    apply in_map_iff. exists (p, s). split; [reflexivity | now apply owners_In].
Qed.

(** X20. The entity-scoped search returns at most [k] rows in ascending
    (section order, change order).  They are the first [k] of the sorted
    rows; each of these has score 10.0 and belongs to a change that
    mentions an agent with one of the given uuids, with the section and the
    patch that own the change; on a store without duplicates every such
    change, section and patch has its row among them. *)
Theorem by_agents_rows_spec st agent_uuids k :
  List.length (by_agents_rows st agent_uuids k) <= k
  /\ StronglySorted in_document_order (by_agents_rows st agent_uuids k)
  /\ exists all,
      by_agents_rows st agent_uuids k = firstn k all
      /\ StronglySorted in_document_order all
      /\ Forall (fun row =>
                   score (row_change row) = (10 # 1)%Q
                   /\ exists p s c,
                       mentions_queried st agent_uuids c /\ owner_path st p s c
                       /\ row = make_row st (10 # 1) p s c)
                all
      /\ (clean st ->
          forall p s c,
            mentions_queried st agent_uuids c -> owner_path st p s c ->
            In (make_row st (10 # 1) p s c) all).
Proof.
  rewrite by_agents_rows_sorted.
  set (all := sort_by document_order (entity_rows st agent_uuids)).
  assert (Hsorted : StronglySorted in_document_order all).
  { eapply sorted_weaken; [|apply sort_by_sorted].
    - intros a b. apply document_order_spec.
    - apply document_order_total.
    - apply document_order_trans. }
  split; [apply firstn_le_length|].
  split; [now apply firstn_sorted|].
  exists all. split; [reflexivity|]. split; [assumption|]. split.
  - apply Forall_forall. intros row Hrow.
    apply (Permutation_in _ (sort_by_perm document_order _)) in Hrow.
    destruct (entity_rows_sound _ _ _ Hrow) as [p [s [c [Hc [Hps ->]]]]].
    split; [reflexivity|]. now exists p, s, c.
  - intros Hclean p s c Hc Hps.
    apply (Permutation_in _ (Permutation_sym (sort_by_perm document_order _))).
    now apply entity_rows_complete.
Qed.

(** *** The full-text search *)

Definition score_not_lower (a b : Row) : Prop :=
  (score (row_change b) <= score (row_change a))%Q.

Lemma higher_score_first_total a b :
  higher_score_first a b = true \/ higher_score_first b a = true.
Proof.
  unfold higher_score_first. rewrite !Qle_bool_iff.
  destruct (Qlt_le_dec (score (row_change a)) (score (row_change b))) as [H | H].
  - right. now apply Qlt_le_weak.
  - now left.
Qed.

Lemma higher_score_first_trans a b c :
  higher_score_first a b = true -> higher_score_first b c = true ->
  higher_score_first a c = true.
Proof.
  unfold higher_score_first. rewrite !Qle_bool_iff. intros H1 H2.
  eapply Qle_trans; eassumption.
Qed.

Lemma fulltext_rows_sound st hits k :
  Forall (fun row =>
            exists hit p s c,
              In hit hits /\ In c (nodes st) /\ nid c = fst hit
              /\ label c = Change /\ owner_path st p s c
              /\ row = make_row st (snd hit) p s c)
         (fulltext_rows st hits k).
Proof.
  unfold fulltext_rows. apply Forall_forall. intros row Hrow.
  apply firstn_incl in Hrow.
  apply (Permutation_in _ (sort_by_perm higher_score_first _)) in Hrow.
  apply in_flat_map in Hrow as [hit [Hhit Hrow]].
  apply in_flat_map in Hrow as [c [Hc Hrow]].
  apply filter_In in Hc as [Hc Hq]. apply andb_true_iff in Hq as [Hid Hl].
  apply Nat.eqb_eq in Hid. apply label_eqb_spec in Hl.
  apply in_map_iff in Hrow as [[p s] [<- Hps]]. apply owners_In in Hps.
  exists hit, p, s, c. tauto.
Qed.

(** X21. The full-text search returns at most [k] rows, by descending
    score.  Each row carries the score of a hit of the index whose node is a
    change of the store, and belongs to that change with a section and a
    patch that own it: hits on other nodes, and on changes without owner,
    give no row. *)
Theorem fulltext_rows_spec st hits k :
  List.length (fulltext_rows st hits k) <= k
  /\ StronglySorted score_not_lower (fulltext_rows st hits k)
  /\ Forall (fun row =>
               exists hit p s c,
                 In hit hits /\ In c (nodes st) /\ nid c = fst hit
                 /\ label c = Change /\ owner_path st p s c
                 /\ row = make_row st (snd hit) p s c)
            (fulltext_rows st hits k).
Proof.
  split; [apply firstn_le_length|]. split; [|apply fulltext_rows_sound].
  unfold fulltext_rows.
  apply firstn_sorted. eapply sorted_weaken; [|apply sort_by_sorted].
  - intros a b H. unfold higher_score_first in H.
    now apply Qle_bool_iff in H.
  - apply higher_score_first_total.
  - apply higher_score_first_trans.
Qed.

(** *** The shape of every result *)










Lemma by_agents_rows_spec_witness :
  clean RosterFixture.loaded_store
  /\ List.length (by_agents_rows RosterFixture.loaded_store ["a3bfb853"] 8) <= 8.
Proof.
  split; [exact RelinkFacts.loaded_store_clean|].
  exact (proj1 (by_agents_rows_spec RosterFixture.loaded_store ["a3bfb853"] 8)).
Defined.

End SearchFacts.

(** ** The roster parser *)

Module RosterFacts.
Import FetchAgents.

Definition lower_before (a b : string) : Prop := lower_le a b = true.

Lemma lower_le_total a b : lower_le a b = true \/ lower_le b a = true.
Proof.
  unfold lower_le. rewrite (String.compare_antisym (PyStr.lower a) (PyStr.lower b)).
  destruct (String.compare (PyStr.lower b) (PyStr.lower a)); simpl; auto.
Qed.

Lemma lower_le_trans a b c :
  lower_le a b = true -> lower_le b c = true -> lower_le a c = true.
Proof.
  unfold lower_le.
  destruct (String.compare (PyStr.lower a) (PyStr.lower b)) eqn:Hab;
    [| |discriminate]; intros _;
    (destruct (String.compare (PyStr.lower b) (PyStr.lower c)) eqn:Hbc;
     [| |discriminate]); intros _.
  - apply String.compare_eq_iff in Hab. rewrite Hab, Hbc. reflexivity.
  - apply String.compare_eq_iff in Hab. rewrite Hab, Hbc. reflexivity.
  - apply String.compare_eq_iff in Hbc. rewrite <- Hbc, Hab. reflexivity.
  - apply DetectFacts.compare_lt in Hab, Hbc.
    assert (H : String.compare (PyStr.lower a) (PyStr.lower c) = Lt).
    { apply DetectFacts.compare_lt. eapply String_as_OT.lt_trans; eassumption. }
    now rewrite H.
Qed.

Section Roster.

Variable set_order : list string -> list string.

(** A set yields each of its elements once. *)
Hypothesis set_order_spec :
  forall xs, NoDup (set_order xs) /\ forall x, In x (set_order xs) <-> In x xs.

Lemma ordered_set_In xs x : In x (sorted_set set_order xs) <-> In x xs.
Proof.
  unfold sorted_set. destruct (set_order_spec xs) as [_ H]. rewrite <- H.
  split; apply Permutation_in;
    [|apply Permutation_sym]; apply sort_by_perm.
Qed.

Lemma ordered_set_NoDup xs : NoDup (sorted_set set_order xs).
Proof.
  unfold sorted_set.
  eapply Permutation_NoDup; [apply Permutation_sym, sort_by_perm|].
  apply set_order_spec.
Qed.

Lemma ordered_set_sorted xs : StronglySorted lower_before (sorted_set set_order xs).
Proof.
  unfold sorted_set. apply sort_by_sorted.
  - apply lower_le_total.
  - apply lower_le_trans.
Qed.

(** The names an entry is made of: normalized and not empty. *)
Definition proper (s : string) : Prop := s <> "" /\ normalize_space s = s.

Lemma proper_normalized s :
  PyStr.is_empty (normalize_space s) = false -> proper (normalize_space s).
Proof.
  intros H. split.
  - intros He. rewrite He in H. discriminate.
  - apply TextFacts.normalize_space_idempotent.
Qed.

Lemma ability_names_proper (raw : list string) :
  Forall proper
    (filter (fun ability_name => negb (PyStr.is_empty ability_name))
            (map normalize_space raw)).
Proof.
  apply Forall_forall. intros x Hx. apply filter_In in Hx as [Hx Hne].
  apply in_map_iff in Hx as [r [<- _]]. apply proper_normalized.
  now apply negb_true_iff in Hne.
Qed.

(** What every entry of the roster satisfies. *)
Record well_formed (entry : LoadNeo4j.AgentEntry) : Prop := {
  wf_name : proper (LoadNeo4j.name entry);
  wf_role : LoadNeo4j.role entry = None
            \/ exists r, LoadNeo4j.role entry = Some r /\ proper r;
  wf_abilities :
    NoDup (LoadNeo4j.abilities entry)
    /\ Forall proper (LoadNeo4j.abilities entry)
    /\ StronglySorted lower_before (LoadNeo4j.abilities entry);
  wf_aliases :
    exists names,
      LoadNeo4j.aliases entry = Some names
      /\ LoadNeo4j.aliases_or_name entry = names
      /\ NoDup names
      /\ StronglySorted lower_before names
      /\ forall a, In a names
                   <-> a = LoadNeo4j.name entry
                       \/ In a (LoadNeo4j.abilities entry)
}.

Lemma entry_of_well_formed item entry :
  entry_of set_order item = Some entry -> well_formed entry.
Proof.
  unfold entry_of. destruct (isPlayableCharacter item); [|discriminate].
  cbn [negb]. cbv zeta.
  destruct (PyStr.is_empty (normalize_space (displayName item))) eqn:Hn;
    [discriminate|].
  intros H. injection H as <-.
  pose proof (ability_names_proper (abilities item)) as Hab.
  set (ability_names := filter _ (map normalize_space (abilities item))) in *.
  constructor; cbn.
  - now apply proper_normalized.
  - destruct (PyStr.is_empty (normalize_space (role_displayName item))) eqn:Hr;
      [now left|].
    right. eexists. split; [reflexivity | now apply proper_normalized].
  - split; [apply ordered_set_NoDup|]. split; [|apply ordered_set_sorted].
    apply Forall_forall. intros a Ha.
    pose proof (proj1 (ordered_set_In ability_names a) Ha) as Ha'.
    rewrite Forall_forall in Hab. exact (Hab a Ha').
  - eexists. split; [reflexivity|].
    assert (Hin : forall a,
               In a (sorted_set set_order
                       (normalize_space (displayName item) :: ability_names))
               <-> a = normalize_space (displayName item)
                   \/ In a (sorted_set set_order ability_names)).
    { intros a. rewrite !ordered_set_In. simpl. intuition congruence. }
    split.
    + unfold LoadNeo4j.aliases_or_name. cbn.
      destruct (sorted_set set_order _) as [|a l] eqn:Hs; [|reflexivity].
      exfalso. apply (proj2 (Hin (normalize_space (displayName item)))).
      now left.
    + split; [apply ordered_set_NoDup|]. split; [apply ordered_set_sorted|].
      exact Hin.
Qed.

Lemma entries_In data entry :
  In entry (entries set_order data)
  <-> exists item, In item data /\ entry_of set_order item = Some entry.
Proof.
  unfold entries. rewrite in_flat_map. split; intros [item [Hi He]]; exists item;
    (split; [assumption|]).
  - destruct (entry_of set_order item) as [e|]; [|destruct He].
    destruct He as [-> | []]. reflexivity.
  - rewrite He. now left.
Qed.

Lemma parse_agents_payload_In data entry :
  In entry (parse_agents_payload set_order data)
  <-> LoadNeo4j.uuid entry <> ""
      /\ exists item, In item data /\ entry_of set_order item = Some entry.
Proof.
  unfold parse_agents_payload. rewrite <- entries_In. split.
  - intros H. apply (Permutation_in _ (sort_by_perm _ _)) in H.
    apply filter_In in H as [H Hu]. split; [|assumption].
    intros He. rewrite He in Hu. discriminate.
  - intros [Hu H].
    apply (Permutation_in _ (Permutation_sym (sort_by_perm _ _))).
    apply filter_In. split; [assumption|].
    destruct (LoadNeo4j.uuid entry); [contradiction | reflexivity].
Qed.

(** X23. Every entry of the parsed roster has a uuid and a name, both not
    empty; its name, its role when it has one, and its abilities are
    normalized, non-empty strings; its aliases are its name together with
    its abilities, each once; abilities and aliases are sorted by their
    lower-cased form.  In particular the mention linker finds a non-empty
    alias list on every entry and never falls back on the name. *)
Theorem parse_agents_payload_entries data :
  Forall (fun entry => LoadNeo4j.uuid entry <> "" /\ well_formed entry)
         (parse_agents_payload set_order data).
Proof.
  apply Forall_forall. intros entry H.
  apply parse_agents_payload_In in H as [Hu [item [_ He]]].
  split; [assumption | now apply (entry_of_well_formed item)].
Qed.

(** The items that yield an entry of the roster. *)
Definition listed (item : Item) : Prop :=
  isPlayableCharacter item = true
  /\ normalize_space (displayName item) <> ""
  /\ truthy (uuid item) = true.

Lemma entry_of_listed item entry :
  entry_of set_order item = Some entry -> LoadNeo4j.uuid entry <> "" ->
  listed item
  /\ LoadNeo4j.name entry = normalize_space (displayName item)
  /\ uuid item = Some (LoadNeo4j.uuid entry).
Proof.
  unfold entry_of, listed. destruct (isPlayableCharacter item); [|discriminate].
  cbn [negb]. cbv zeta.
  destruct (PyStr.is_empty (normalize_space (displayName item))) eqn:Hn;
    [discriminate|].
  intros H. injection H as <-. cbn. intros Hu.
  destruct (uuid item) as [u|]; [|contradiction].
  repeat split.
  - intros He. rewrite He in Hn. discriminate.
  - cbn. destruct u; [contradiction | reflexivity].
Qed.

Lemma listed_entry item :
  listed item ->
  exists entry, entry_of set_order item = Some entry
                /\ LoadNeo4j.uuid entry <> ""
                /\ uuid item = Some (LoadNeo4j.uuid entry).
Proof.
  intros [Hp [Hn Hu]]. unfold entry_of. rewrite Hp. cbn [negb]. cbv zeta.
  destruct (PyStr.is_empty (normalize_space (displayName item))) eqn:He.
  { apply is_empty_spec in He. contradiction. }
  eexists. split; [reflexivity|]. cbn.
  destruct (uuid item) as [u|]; [|discriminate]. cbn in Hu.
  split; [|reflexivity]. intros H. rewrite H in Hu. discriminate.
Qed.

(** X24. The parsed roster is sorted by lower-cased name and holds no more
    entries than the payload has items.  Its entries are those of the
    items that are playable, have a name that is not blank and have a uuid:
    each entry carries the uuid and the normalized name of such an item, and
    each such item has its entry. *)
Theorem parse_agents_payload_roster data :
  let roster := parse_agents_payload set_order data in
  StronglySorted (fun a b => lower_before (LoadNeo4j.name a) (LoadNeo4j.name b))
                 roster
  /\ List.length roster <= List.length data
  /\ (forall entry,
         In entry roster ->
         exists item, In item data /\ listed item
                      /\ uuid item = Some (LoadNeo4j.uuid entry)
                      /\ LoadNeo4j.name entry = normalize_space (displayName item))
  /\ (forall item,
         In item data -> listed item ->
         exists entry, In entry roster
                       /\ uuid item = Some (LoadNeo4j.uuid entry)
                       /\ LoadNeo4j.name entry = normalize_space (displayName item)).
Proof.
  intros roster. split; [|split; [|split]].
  - subst roster. unfold parse_agents_payload.
    apply (sort_by_sorted
             (fun a b => lower_le (LoadNeo4j.name a) (LoadNeo4j.name b))).
    + intros a b. apply lower_le_total.
    + intros a b c. apply lower_le_trans.
  - subst roster. unfold parse_agents_payload.
    rewrite (Permutation_length (sort_by_perm _ _)).
    eapply Nat.le_trans; [apply filter_length_le|].
    unfold entries. clear. induction data as [|item data IH]; simpl; [lia|].
    rewrite length_app. destruct (entry_of set_order item); simpl; lia.
  - intros entry H. apply parse_agents_payload_In in H as [Hu [item [Hi He]]].
    destruct (entry_of_listed item entry He Hu) as [Hl [Hn Hid]].
    exists item. tauto.
  - intros item Hi Hl. destruct (listed_entry item Hl) as [entry [He [Hu Hid]]].
    exists entry. split.
    + apply parse_agents_payload_In. split; [assumption|]. now exists item.
    + split; [assumption|].
      now destruct (entry_of_listed item entry He Hu) as [_ [Hn _]].
Qed.

End Roster.

(** A set that yields its elements in the order of their first insertion. *)
Definition insertion_order (xs : list string) : list string :=
  distinct String.eqb xs.

Lemma insertion_order_spec xs :
  NoDup (insertion_order xs) /\ forall x, In x (insertion_order xs) <-> In x xs.
Proof.
  split.
  - apply distinct_NoDup. intros a b. apply String.eqb_eq.
  - apply distinct_In. intros a b. apply String.eqb_eq.
Qed.

(** The payload of the test suite, with a second item that has no uuid. *)
Definition sample_data : list Item :=
  [ {| uuid := Some "123"; isPlayableCharacter := true; displayName := "Reyna";
       role_displayName := "Duelist";
       displayIcon := Some "https://example.com/reyna.png";
       fullPortrait := None; bustPortrait := None;
       abilities := ["Leer"; "Dismiss"] |};
    {| uuid := None; isPlayableCharacter := true; displayName := "Sova";
       role_displayName := "Initiator";
       displayIcon := None; fullPortrait := None; bustPortrait := None;
       abilities := ["Recon Bolt"] |} ].

Lemma parse_agents_payload_entries_witness :
  Forall (fun entry => LoadNeo4j.uuid entry <> "" /\ well_formed entry)
         (parse_agents_payload insertion_order sample_data).
Proof.
  exact (parse_agents_payload_entries insertion_order insertion_order_spec
           sample_data).
Defined.

Lemma parse_agents_payload_roster_witness :
  List.length (parse_agents_payload insertion_order sample_data)
  <= List.length sample_data.
Proof.
  destruct (parse_agents_payload_roster insertion_order sample_data)
    as [_ [H _]].
  exact H.
Defined.

Example sample_roster :
  map (fun entry => (LoadNeo4j.name entry, LoadNeo4j.aliases entry))
      (parse_agents_payload insertion_order sample_data)
  = [("Reyna", Some ["Dismiss"; "Leer"; "Reyna"])].
Proof. vm_compute. reflexivity. Qed.

End RosterFacts.

(** ** The answer *)

Module AnswerFacts.
Import Retriever Answer.

Definition nonempty (u : string) : bool := negb (PyStr.is_empty u).

(** The addresses the loop collects, without the loop. *)
Definition first_occurrences (changes : list RetrievedChange) : list string :=
  distinct String.eqb (filter nonempty (map source_url changes)).

Lemma mem_app x xs ys : PyStr.mem x (xs ++ ys) = PyStr.mem x xs || PyStr.mem x ys.
Proof. unfold PyStr.mem. apply existsb_app. Qed.

Lemma filter_both {A : Type} (p q : A -> bool) (l : list A) :
  filter p (filter q l) = filter (fun x => q x && p x) l.
Proof.
  induction l as [|x l IH]; simpl; [reflexivity|].
  destruct (q x); simpl; [destruct (p x)|]; now rewrite IH.
Qed.

Lemma first_occurrences_cons change rest :
  first_occurrences (change :: rest)
  = if PyStr.is_empty (source_url change) then first_occurrences rest
    else source_url change
           :: filter (fun u => negb (String.eqb (source_url change) u))
                     (first_occurrences rest).
Proof.
  unfold first_occurrences. cbn [map filter]. unfold nonempty at 1.
  now destruct (PyStr.is_empty (source_url change)).
Qed.

Lemma source_urls_from (changes : list RetrievedChange) : forall seen,
  fold_left
    (fun source_urls change =>
       if negb (PyStr.is_empty (source_url change))
          && negb (PyStr.mem (source_url change) source_urls)
       then source_urls ++ [source_url change]
       else source_urls)
    changes seen
  = seen ++ filter (fun u => negb (PyStr.mem u seen)) (first_occurrences changes).
Proof.
  induction changes as [|change rest IH]; intros seen.
  - simpl. now rewrite app_nil_r.
  - cbn [fold_left]. rewrite first_occurrences_cons, IH.
    destruct (PyStr.is_empty (source_url change)) eqn:He; cbn [negb andb];
      [reflexivity|].
    cbn [filter].
    destruct (PyStr.mem (source_url change) seen) eqn:Hm; cbn [negb].
    + f_equal. symmetry. apply RelinkFacts.filter_filter_other.
      intros u Hu. apply negb_true_iff in Hu. apply negb_true_iff.
      apply String.eqb_neq. intros <-. congruence.
    + rewrite <- app_assoc. cbn [app]. f_equal. f_equal.
      rewrite filter_both. apply filter_ext. intros u.
      rewrite mem_app. unfold PyStr.mem at 2. cbn [existsb].
      rewrite orb_false_r, negb_orb, (String.eqb_sym u), andb_comm.
      reflexivity.
Qed.

Lemma source_urls_first_occurrences changes :
  source_urls changes = first_occurrences changes.
Proof.
  unfold source_urls. rewrite source_urls_from. cbn [app].
  unfold PyStr.mem. cbn [existsb negb]. apply filter_true.
Qed.

(** X25. The sources of an answer are the non-empty source addresses of the
    changes, each once and in the order of its first occurrence; the answer
    shows the first three of them. *)
Theorem source_urls_spec changes :
  source_urls changes = first_occurrences changes
  /\ NoDup (source_urls changes)
  /\ (forall u, In u (source_urls changes)
                <-> u <> "" /\ exists change, In change changes
                                              /\ source_url change = u)
  /\ (forall question matched,
        exists lines,
          answer_lines question matched changes
          = lines ++ match source_urls changes with
                     | [] => []
                     | urls => "Sources:"
                               :: map (fun url => ("- " ++ url)%string)
                                      (firstn 3 urls)
                     end).
Proof.
  rewrite source_urls_first_occurrences. unfold first_occurrences.
  split; [reflexivity|]. split; [|split].
  - apply distinct_NoDup. intros a b. apply String.eqb_eq.
  - intros u. rewrite distinct_In by (intros a b; apply String.eqb_eq).
    rewrite filter_In, in_map_iff. unfold nonempty. split.
    + intros [[change [Hu Hin]] Hne]. split.
      * intros ->. discriminate.
      * now exists change.
    + intros [Hne [change [Hin Hu]]]. split; [now exists change|].
      destruct u; [contradiction | reflexivity].
  - intros question matched. unfold answer_lines.
    rewrite source_urls_first_occurrences. unfold first_occurrences.
    rewrite !app_assoc. eexists. reflexivity.
Qed.

Lemma source_urls_spec_witness :
  let change url :=
    {| change_id := "c"; patch_id := "12.02"; section_name := "General";
       text := "t"; source_url := url; score := 1; agents := [] |} in
  let changes := [change "https://a"; change ""; change "https://b";
                  change "https://a"] in
  In "https://b" (source_urls changes)
  /\ "https://b" <> ""
  /\ exists c, In c changes /\ source_url c = "https://b".
Proof.
  intros change changes.
  assert (Hin : In "https://b" (source_urls changes))
    by (vm_compute; right; left; reflexivity).
  split; [exact Hin|].
  destruct (source_urls_spec changes) as [_ [_ [H _]]].
  exact (proj1 (H "https://b") Hin).
Defined.

(** *** The lines of an answer *)

Definition no_match (question : string) : string :=
  ("No matching changes were found for: " ++ question ++ newline
     ++ "Try using an agent name (for example: Reyna, Harbor, Jett) or a topic like UI or gameplay.")%string.

Lemma answer_lines_length question matched changes :
  List.length (answer_lines question matched changes)
  = 2 + (match matched with [] => 0 | _ :: _ => 1 end)
    + List.length changes
    + (match source_urls changes with
       | [] => 0
       | urls => 1 + Nat.min 3 (List.length urls)
       end).
Proof.
  unfold answer_lines, ParsePatch.enumerate. rewrite !length_app, length_map.
  rewrite ParsePatchFacts.combine_seq_length.
  destruct matched; destruct (source_urls changes) as [|u urls] eqn:Hs;
    cbn [List.length]; try lia.
  - rewrite length_map, length_firstn. simpl. lia.
  - rewrite length_map, length_firstn. simpl. lia.
Qed.

Lemma retrieve_changes_length session query k found :
  retrieve session query k = Ok found -> List.length (changes found) <= k.
Proof.
  unfold retrieve, _resolve_agents, run.
  destruct (fault session ResolveAgents); [discriminate|].
  destruct (resolve_rows (store session) query) as [|m ms].
  - unfold _query_by_fulltext, run.
    destruct (fulltext_query session query) as [hits|e].
    + intros H. injection H as <-. cbn [changes]. rewrite length_map.
      apply firstn_le_length.
    + destruct (is_Neo4jError e); [|discriminate].
      destruct (fault session FallbackSearch); [discriminate|].
      rewrite RetrieverFacts.fallback_rows_rejected. discriminate.
  - unfold _query_by_agents, run.
    destruct (fault session QueryByAgents); [discriminate|].
    intros H. injection H as <-. cbn [changes]. rewrite length_map.
    apply firstn_le_length.
Qed.

(** X26. [run_single_query] raises exactly the errors of [retrieve].  When
    [retrieve] returns no change, the answer is the no-match message for
    the query, whether or not agents were matched; in particular, when
    agents are matched but no change mentions them, no text search is
    attempted.  Otherwise the answer consists of at most [k + 7] lines, the
    first of which repeats the query. *)
Theorem run_single_query_outcomes session query k :
  (forall e, retrieve session query k = Raise e ->
             run_single_query session query k = Raise e)
  /\ (forall found,
        retrieve session query k = Ok found -> changes found = [] ->
        run_single_query session query k = Ok (no_match query))
  /\ (fault session ResolveAgents = None ->
      fault session QueryByAgents = None ->
      resolve_rows (store session) query <> [] ->
      by_agents_rows (store session)
        (map fst (resolve_rows (store session) query)) k = [] ->
      run_single_query session query k = Ok (no_match query))
  /\ (forall found,
        retrieve session query k = Ok found -> changes found <> [] ->
        exists lines,
          run_single_query session query k = Ok (PyStr.join newline lines)
          /\ List.length lines <= k + 7
          /\ hd "" lines = ("Question: " ++ query)%string).
Proof.
  unfold run_single_query. split; [|split; [|split]].
  - intros e ->. reflexivity.
  - intros found -> Hnone. unfold format_answer. now rewrite Hnone.
  - intros Hf1 Hf2 Hrows Hnone. unfold retrieve, _resolve_agents, run.
    rewrite Hf1. destruct (resolve_rows (store session) query) as [|m ms] eqn:Hm;
      [contradiction|].
    unfold _query_by_agents, run. rewrite Hf2, Hnone. reflexivity.
  - intros found Hfound Hsome. rewrite Hfound.
    exists (answer_lines query (matched_agents found) (changes found)).
    split; [|split].
    + unfold format_answer. destruct (changes found); [contradiction | reflexivity].
    + rewrite answer_lines_length.
      pose proof (retrieve_changes_length _ _ _ _ Hfound) as Hk.
      assert (Hs : match source_urls (changes found) with
                   | [] => 0
                   | urls => 1 + Nat.min 3 (List.length urls)
                   end <= 4).
      { destruct (source_urls (changes found)) as [|u urls]; [lia|].
        pose proof (Nat.le_min_l 3 (List.length (u :: urls))). lia. }
      destruct (matched_agents found); lia.
    + reflexivity.
Qed.

Lemma run_single_query_outcomes_witness :
  let session :=
    {| store := RosterFixture.loaded_store;
       fulltext_query := fun _ => Raise (DriverError "connection lost");
       fault := fun _ => None |} in
  retrieve session "duration" 8 = Raise (DriverError "connection lost")
  /\ run_single_query session "duration" 8 = Raise (DriverError "connection lost").
Proof.
  intros session.
  assert (H : retrieve session "duration" 8 = Raise (DriverError "connection lost"))
    by (vm_compute; reflexivity).
  split; [exact H|].
  exact (proj1 (run_single_query_outcomes session "duration" 8) _ H).
Defined.

End AnswerFacts.

(** ** The graph materializer: what a loaded patch looks like *)

Module UpsertFacts.
Import Graph LoadNeo4j StoreFacts RelinkFacts.

Definition edge := SearchFacts.edge.

(** The nodes under the label [l] and the key [k], and all relationships,
    are in [st'] as they are in [st]. *)
Definition keeps (l : Label) (k : string) (st st' : Store) : Prop :=
  (forall n, In n (nodes st) -> label n = l -> key n = k -> In n (nodes st'))
  /\ incl (rels st) (rels st').

Lemma keeps_refl l k st : keeps l k st st.
Proof. split; [trivial | apply incl_refl]. Qed.

Lemma keeps_trans l k st1 st2 st3 :
  keeps l k st1 st2 -> keeps l k st2 st3 -> keeps l k st1 st3.
Proof.
  intros [N1 R1] [N2 R2]. split.
  - intros n Hn Hl Hk. apply N2; try assumption. now apply N1.
  - eapply incl_tran; eassumption.
Qed.

Lemma merge_node_keeps l k p st l' k' :
  (l', k') <> (l, k) -> keeps l' k' st (fst (merge_node l k p st)).
Proof.
  intros Hne. split; [|rewrite LoaderFacts.merge_node_rels; apply incl_refl].
  intros n Hn Hl Hk. unfold merge_node.
  destruct (match_nodes l k st); cbn [fst nodes].
  - apply in_or_app. now left.
  - apply in_map_iff. exists n. split; [|assumption].
    destruct (is_node l k n) eqn:Hc; [|reflexivity].
    apply is_node_spec in Hc as [H1 H2]. destruct Hne. congruence.
Qed.

(** The nodes a [MERGE ... SET] binds: at least one, each under the label
    and the key, with the properties set. *)
Lemma merge_node_bound l k p st :
  snd (merge_node l k p st) <> []
  /\ forall i, In i (snd (merge_node l k p st)) ->
               exists n, In n (nodes (fst (merge_node l k p st)))
                         /\ nid n = i /\ label n = l /\ key n = k /\ props n = p.
Proof.
  unfold merge_node. destruct (match_nodes l k st) as [|m ms] eqn:Hm;
    cbn [fst snd nodes].
  - split; [discriminate|]. intros i [<- | []].
    exists {| nid := next_id st; label := l; key := k; props := p |}.
    split; [apply in_or_app; right; now left | now repeat split].
  - split; [discriminate|]. intros i Hi.
    apply in_map_iff in Hi as [n [<- Hn]]. rewrite <- Hm in Hn.
    pose proof Hn as Hn'. apply match_nodes_In in Hn' as [Hin [Hl Hk]].
    exists (set_props p n). split.
    + apply in_map_iff. exists n. split; [|assumption].
      assert (is_node l k n = true) as -> by (apply is_node_spec; now split).
      reflexivity.
    + now repeat split.
Qed.

Lemma merge_rel_In t a b st :
  In {| rel := t; src := a; dst := b |} (rels (merge_rel t a b st)).
Proof.
  unfold merge_rel. destruct (has_rel _ st) eqn:Hr.
  - now apply has_rel_spec.
  - cbn [rels]. apply in_or_app. right. now left.
Qed.

Lemma merge_rel_incl t a b st : incl (rels st) (rels (merge_rel t a b st)).
Proof.
  unfold merge_rel. destruct (has_rel _ st); [apply incl_refl|].
  cbn [rels]. now apply incl_appl, incl_refl.
Qed.

(** The relationships merged from one node to each of [targets]. *)
Lemma merge_rels_from t a targets : forall st,
  let st' := fold_left (fun st x => merge_rel t a x st) targets st in
  nodes st' = nodes st
  /\ incl (rels st) (rels st')
  /\ forall x, In x targets -> In {| rel := t; src := a; dst := x |} (rels st').
Proof.
  induction targets as [|y targets IH]; intros st; cbn [fold_left].
  - split; [reflexivity|]. split; [apply incl_refl | intros x []].
  - destruct (IH (merge_rel t a y st)) as [Hn [Hr Hx]].
    split; [now rewrite Hn, LoaderFacts.merge_rel_nodes|]. split.
    + eapply incl_tran; [apply merge_rel_incl | exact Hr].
    + intros x [<- | Hin]; [|now apply Hx]. apply Hr, merge_rel_In.
Qed.

Lemma merge_rels_keeps t a targets st l k :
  keeps l k st (fold_left (fun st x => merge_rel t a x st) targets st).
Proof.
  destruct (merge_rels_from t a targets st) as [Hn [Hr _]]. split.
  - intros n Hin _ _. now rewrite Hn.
  - exact Hr.
Qed.

(** The node of a section of the document, attached to the patch. *)
Definition has_section (st : Store) (pid : string) (sec : ParsePatch.Section)
  : Prop :=
  exists p s,
    In p (nodes st) /\ label p = Patch /\ key p = pid
    /\ In s (nodes st) /\ label s = Section
    /\ key s = ParsePatch.section_id sec
    /\ props s = SectionProps (ParsePatch.name sec) (ParsePatch.order sec) pid
    /\ In (edge HAS_SECTION p s) (rels st).

(** The node of a change of the document, attached to the section [sid]. *)
Definition has_change (st : Store) (sid : string) (ch : ParsePatch.Change)
  : Prop :=
  exists s c,
    In s (nodes st) /\ label s = Section /\ key s = sid
    /\ In c (nodes st) /\ label c = Change
    /\ key c = ParsePatch.change_id ch
    /\ props c = ChangeProps (ParsePatch.change_text ch)
                   (ParsePatch.section_name ch) (ParsePatch.source_url ch)
                   (ParsePatch.change_order ch)
    /\ In (edge HAS_CHANGE s c) (rels st).

Lemma has_section_keeps st st' pid sec :
  has_section st pid sec ->
  keeps Patch pid st st' -> keeps Section (ParsePatch.section_id sec) st st' ->
  has_section st' pid sec.
Proof.
  intros [p [s [Hp [Hlp [Hkp [Hs [Hls [Hks [Hps Hr]]]]]]]]] [Np Rp] [Ns _].
  exists p, s. repeat split; auto.
Qed.

Lemma has_change_keeps st st' sid ch :
  has_change st sid ch ->
  keeps Section sid st st' -> keeps Change (ParsePatch.change_id ch) st st' ->
  has_change st' sid ch.
Proof.
  intros [s [c [Hs [Hls [Hks [Hc [Hlc [Hkc [Hpc Hr]]]]]]]]] [Ns Rs] [Nc _].
  exists s, c. repeat split; auto.
Qed.

Definition patch_exists (st : Store) (pid : string) : Prop :=
  exists p, In p (nodes st) /\ label p = Patch /\ key p = pid.

Lemma patch_exists_keeps st st' pid :
  patch_exists st pid -> keeps Patch pid st st' -> patch_exists st' pid.
Proof. intros [p [Hp [Hl Hk]]] [N _]. exists p. auto. Qed.

(** *** The section statement *)

Lemma merge_section_has pid sec st :
  clean st -> patch_exists st pid ->
  has_section (merge_section pid sec st) pid sec.
Proof.
  intros Hc [p [Hp [Hl Hk]]]. unfold merge_section.
  pose proof (match_nodes_unique st p Hc Hp) as Hu. rewrite Hl, Hk in Hu.
  rewrite Hu. cbn [fold_left].
  pose proof (merge_node_bound Section (ParsePatch.section_id sec)
                (SectionProps (ParsePatch.name sec) (ParsePatch.order sec) pid) st)
    as [Hne Hb].
  pose proof (merge_node_keeps Section (ParsePatch.section_id sec)
                (SectionProps (ParsePatch.name sec) (ParsePatch.order sec) pid) st
                Patch pid) as [Nk _]; [discriminate|].
  destruct (merge_node Section _ _ st) as [st1 bound]. cbn [fst snd] in *.
  destruct bound as [|i bound]; [contradiction|].
  destruct (Hb i (or_introl eq_refl)) as [s [Hs [Hid [Hls [Hks Hps]]]]].
  destruct (merge_rels_from HAS_SECTION (nid p) (i :: bound) st1) as [Hn [_ Hx]].
  exists p, s. rewrite Hn. repeat split; auto.
  unfold edge, SearchFacts.edge. rewrite Hid. apply Hx. now left.
Qed.

Lemma merge_section_keeps pid sec st l k :
  (l, k) <> (Section, ParsePatch.section_id sec) ->
  keeps l k st (merge_section pid sec st).
Proof.
  intros Hne. unfold merge_section.
  apply (fold_left_inv (fun s => keeps l k st s)); [|apply keeps_refl].
  intros s p Hs. eapply keeps_trans; [exact Hs|].
  pose proof (merge_node_keeps Section (ParsePatch.section_id sec)
                (SectionProps (ParsePatch.name sec) (ParsePatch.order sec) pid) s
                l k Hne) as Hk.
  destruct (merge_node Section _ _ s) as [s1 bound]. cbn [fst] in Hk.
  eapply keeps_trans; [exact Hk | apply merge_rels_keeps].
Qed.

(** *** The change statement *)

(** The body of [UNWIND $changes] for the section node [s]. *)
Definition change_step (s : Node) (st : Store) (change : ParsePatch.Change)
  : Store :=
  let '(st, bound) :=
    merge_node Change (ParsePatch.change_id change)
      (ChangeProps (ParsePatch.change_text change)
         (ParsePatch.section_name change)
         (ParsePatch.source_url change)
         (ParsePatch.change_order change))
      st in
  fold_left (fun st c => merge_rel HAS_CHANGE (nid s) c st) bound st.

Lemma merge_changes_steps section_id changes st :
  merge_changes section_id changes st
  = fold_left (fun st s => fold_left (change_step s) changes st)
      (match_nodes Section section_id st) st.
Proof. reflexivity. Qed.

Lemma change_step_keeps s ch st l k :
  (l, k) <> (Change, ParsePatch.change_id ch) ->
  keeps l k st (change_step s st ch).
Proof.
  intros Hne. unfold change_step.
  pose proof (merge_node_keeps Change (ParsePatch.change_id ch)
                (ChangeProps (ParsePatch.change_text ch)
                   (ParsePatch.section_name ch) (ParsePatch.source_url ch)
                   (ParsePatch.change_order ch)) st l k Hne) as Hk.
  destruct (merge_node Change _ _ st) as [s1 bound]. cbn [fst] in Hk.
  eapply keeps_trans; [exact Hk | apply merge_rels_keeps].
Qed.

Lemma change_step_has s ch st :
  In s (nodes st) -> label s = Section ->
  has_change (change_step s st ch) (key s) ch.
Proof.
  intros Hs Hl. unfold change_step.
  pose proof (merge_node_bound Change (ParsePatch.change_id ch)
                (ChangeProps (ParsePatch.change_text ch)
                   (ParsePatch.section_name ch) (ParsePatch.source_url ch)
                   (ParsePatch.change_order ch)) st) as [Hne Hb].
  pose proof (merge_node_keeps Change (ParsePatch.change_id ch)
                (ChangeProps (ParsePatch.change_text ch)
                   (ParsePatch.section_name ch) (ParsePatch.source_url ch)
                   (ParsePatch.change_order ch)) st Section (key s))
    as [Nk _]; [discriminate|].
  destruct (merge_node Change _ _ st) as [st1 bound]. cbn [fst snd] in *.
  destruct bound as [|i bound]; [contradiction|].
  destruct (Hb i (or_introl eq_refl)) as [c [Hc [Hid [Hlc [Hkc Hpc]]]]].
  destruct (merge_rels_from HAS_CHANGE (nid s) (i :: bound) st1) as [Hn [_ Hx]].
  exists s, c. rewrite Hn. repeat split; auto.
  unfold edge, SearchFacts.edge. rewrite Hid. apply Hx. now left.
Qed.

Lemma change_steps_keeps s changes l k : forall st,
  (l = Change -> ~ In k (map ParsePatch.change_id changes)) ->
  keeps l k st (fold_left (change_step s) changes st).
Proof.
  induction changes as [|ch changes IH]; intros st Hne; cbn [fold_left].
  - apply keeps_refl.
  - eapply keeps_trans; [apply change_step_keeps | apply IH].
    + intros H. injection H as Hl Hk. apply (Hne Hl). left. now symmetry.
    + intros Hl Hin. apply (Hne Hl). now right.
Qed.

Lemma change_steps_have s changes : forall st,
  In s (nodes st) -> label s = Section ->
  NoDup (map ParsePatch.change_id changes) ->
  forall ch, In ch changes ->
             has_change (fold_left (change_step s) changes st) (key s) ch.
Proof.
  induction changes as [|ch0 changes IH]; intros st Hs Hl Hnd ch Hin;
    [destruct Hin|].
  cbn [fold_left]. cbn [map] in Hnd. inversion_clear Hnd as [|? ? Hfresh Hnd'].
  assert (Hs1 : In s (nodes (change_step s st ch0))).
  { apply (change_step_keeps s ch0 st Section (key s)); auto.
    discriminate. }
  destruct Hin as [<- | Hin]; [|now apply IH].
  apply (has_change_keeps (change_step s st ch0)).
  - now apply change_step_has.
  - apply change_steps_keeps. discriminate.
  - apply change_steps_keeps. intros _. exact Hfresh.
Qed.

Lemma merge_changes_has sid changes st :
  clean st ->
  (exists s, In s (nodes st) /\ label s = Section /\ key s = sid) ->
  NoDup (map ParsePatch.change_id changes) ->
  forall ch, In ch changes -> has_change (merge_changes sid changes st) sid ch.
Proof.
  intros Hc [s [Hs [Hl Hk]]] Hnd ch Hin. rewrite merge_changes_steps.
  pose proof (match_nodes_unique st s Hc Hs) as Hu. rewrite Hl, Hk in Hu.
  rewrite Hu. cbn [fold_left]. rewrite <- Hk. now apply change_steps_have.
Qed.

Lemma merge_changes_keeps sid changes st l k :
  (l = Change -> ~ In k (map ParsePatch.change_id changes)) ->
  keeps l k st (merge_changes sid changes st).
Proof.
  intros Hne. rewrite merge_changes_steps.
  apply (fold_left_inv (fun s => keeps l k st s)); [|apply keeps_refl].
  intros st1 s Hs. eapply keeps_trans; [exact Hs|].
  now apply change_steps_keeps.
Qed.

(** *** The loop over the sections *)

Lemma upsert_section_store pid st a b sec :
  fst (upsert_section pid (st, (a, b)) sec)
  = match ParsePatch.changes sec with
    | [] => merge_section pid sec st
    | _ :: _ =>
        merge_changes (ParsePatch.section_id sec) (ParsePatch.changes sec)
          (merge_section pid sec st)
    end.
Proof. unfold upsert_section. now destruct (ParsePatch.changes sec). Qed.

Lemma upsert_section_keeps pid acc sec l k :
  (l, k) <> (Section, ParsePatch.section_id sec) ->
  (l = Change -> ~ In k (map ParsePatch.change_id (ParsePatch.changes sec))) ->
  keeps l k (fst acc) (fst (upsert_section pid acc sec)).
Proof.
  intros Hs Hc. destruct acc as [st [a b]]. rewrite upsert_section_store.
  cbn [fst]. destruct (ParsePatch.changes sec) as [|ch chs] eqn:Hch.
  - now apply merge_section_keeps.
  - apply (keeps_trans l k st (merge_section pid sec st));
      [now apply merge_section_keeps|].
    now apply merge_changes_keeps.
Qed.

Lemma upsert_section_has pid acc sec :
  clean (fst acc) -> patch_exists (fst acc) pid ->
  NoDup (map ParsePatch.change_id (ParsePatch.changes sec)) ->
  let st' := fst (upsert_section pid acc sec) in
  has_section st' pid sec
  /\ forall ch, In ch (ParsePatch.changes sec) ->
                has_change st' (ParsePatch.section_id sec) ch.
Proof.
  intros Hc Hp Hnd st'. subst st'. destruct acc as [st [a b]].
  rewrite upsert_section_store. cbn [fst] in *.
  pose proof (merge_section_has pid sec st Hc Hp) as Hsec.
  destruct (ParsePatch.changes sec) as [|ch0 chs] eqn:Hch.
  - split; [assumption | intros ch []].
  - split.
    + apply (has_section_keeps (merge_section pid sec st)); [assumption| |];
        apply merge_changes_keeps; discriminate.
    + apply merge_changes_has; [now apply merge_section_clean| |assumption].
      destruct Hsec as [p [s [_ [_ [_ [Hs [Hl [Hk _]]]]]]]]. now exists s.
Qed.

Definition change_ids (secs : list ParsePatch.Section) : list string :=
  flat_map (fun sec => map ParsePatch.change_id (ParsePatch.changes sec)) secs.

Lemma distinct_parts {A : Type} (front back : list A) :
  NoDup (front ++ back) ->
  NoDup front /\ NoDup back /\ forall x, In x front -> ~ In x back.
Proof.
  induction front as [|x front IH]; cbn [app]; intros H.
  - split; [constructor|]. split; [assumption | intros x []].
  - inversion_clear H as [|? ? Hx Hrest]. destruct (IH Hrest) as [Hf [Hb Hd]].
    split; [|split; [assumption|]].
    + constructor; [|assumption]. intros Hin. apply Hx, in_or_app. now left.
    + intros y [<- | Hy]; [|now apply Hd].
      intros Hin. apply Hx, in_or_app. now right.
Qed.

Lemma upsert_sections_keeps pid secs l k : forall acc,
  (l = Section -> ~ In k (map ParsePatch.section_id secs)) ->
  (l = Change -> ~ In k (change_ids secs)) ->
  keeps l k (fst acc) (fst (fold_left (upsert_section pid) secs acc)).
Proof.
  induction secs as [|sec secs IH]; intros acc Hs Hc; cbn [fold_left].
  - apply keeps_refl.
  - eapply keeps_trans; [apply upsert_section_keeps | apply IH].
    + intros H. injection H as Hl Hk. apply (Hs Hl). left. now symmetry.
    + intros Hl Hin. apply (Hc Hl). unfold change_ids. cbn [flat_map].
      apply in_or_app. now left.
    + intros Hl Hin. apply (Hs Hl). now right.
    + intros Hl Hin. apply (Hc Hl). unfold change_ids. cbn [flat_map].
      apply in_or_app. now right.
Qed.

Lemma upsert_sections_have pid secs : forall acc,
  clean (fst acc) -> patch_exists (fst acc) pid ->
  NoDup (map ParsePatch.section_id secs) -> NoDup (change_ids secs) ->
  let st' := fst (fold_left (upsert_section pid) secs acc) in
  forall sec, In sec secs ->
    has_section st' pid sec
    /\ forall ch, In ch (ParsePatch.changes sec) ->
                  has_change st' (ParsePatch.section_id sec) ch.
Proof.
  induction secs as [|sec0 secs IH]; intros acc Hc Hp Hsec Hch st' sec Hin;
    [destruct Hin|].
  subst st'. cbn [fold_left].
  cbn [map] in Hsec. inversion_clear Hsec as [|? ? Hfresh Hsec'].
  unfold change_ids in Hch. cbn [flat_map] in Hch.
  apply distinct_parts in Hch as [Hch0 [Hch' Hdisj]].
  set (acc1 := upsert_section pid acc sec0).
  assert (Hc1 : clean (fst acc1)) by now apply upsert_section_clean.
  assert (Hp1 : patch_exists (fst acc1) pid).
  { apply (patch_exists_keeps (fst acc)); [assumption|].
    apply upsert_section_keeps; discriminate. }
  destruct Hin as [<- | Hin]; [|now apply IH].
  destruct (upsert_section_has pid acc sec0 Hc Hp Hch0) as [H0 H0c].
  fold acc1 in H0, H0c. split.
  - apply (has_section_keeps (fst acc1)); [assumption| |];
      apply upsert_sections_keeps; try discriminate.
    intros _. exact Hfresh.
  - intros ch Hin. apply (has_change_keeps (fst acc1)); [now apply H0c| |].
    + apply upsert_sections_keeps; [|discriminate]. intros _. exact Hfresh.
    + apply upsert_sections_keeps; [discriminate|]. intros _.
      apply Hdisj. now apply in_map.
Qed.

(** *** The patch node *)

Lemma clear_patch_subgraph_keeps_patch st pid p :
  clean st -> In p (nodes st) -> label p = Patch ->
  In p (nodes (clear_patch_subgraph st pid)).
Proof.
  intros Hc Hp Hl. unfold clear_patch_subgraph, detach_delete, delete_rels.
  cbn [nodes]. apply filter_In. split; [assumption|].
  apply negb_true_iff. destruct (mem_id (nid p) _) eqn:Hmem; [|reflexivity].
  apply mem_id_spec in Hmem. rewrite <- map_app in Hmem.
  apply in_map_iff in Hmem as [m [Hid Hm]].
  assert (Hlabel : In m (nodes st) /\ label m <> Patch).
  { apply in_app_or in Hm as [Hm | Hm].
    - apply patch_changes_In in Hm as [s [_ Hout]].
      apply out_nodes_In in Hout as [r [_ [_ [_ [Hin [_ Hlm]]]]]].
      split; [assumption|]. rewrite Hlm. discriminate.
    - apply patch_sections_In in Hm as [q [_ [_ [_ Hout]]]].
      apply out_nodes_In in Hout as [r [_ [_ [_ [Hin [_ Hlm]]]]]].
      split; [assumption|]. rewrite Hlm. discriminate. }
  destruct Hlabel as [Hm' Hlm].
  rewrite (nid_injective st m p Hc Hm' Hp Hid) in Hlm. contradiction.
Qed.

(** In a store without duplicates a label and a key name one node. *)
Lemma same_key_same_node st n m :
  clean st -> In n (nodes st) -> In m (nodes st) ->
  label n = label m -> key n = key m -> n = m.
Proof.
  intros Hc Hn Hm Hl Hk. pose proof (match_nodes_unique st n Hc Hn) as Hu.
  assert (Hin : In m (match_nodes (label n) (key n) st))
    by (apply match_nodes_In; now repeat split).
  rewrite Hu in Hin. destruct Hin as [-> | []]. reflexivity.
Qed.

Lemma out_nodes_edge t l a b st :
  In b (nodes st) -> label b = l -> In (edge t a b) (rels st) ->
  In b (out_nodes t l (nid a) st).
Proof.
  intros Hb Hl Hr. apply out_nodes_In. exists (edge t a b).
  repeat split; assumption.
Qed.

Lemma upsert_patch_loads st patch_doc :
  clean st ->
  NoDup (map ParsePatch.section_id (ParsePatch.sections patch_doc)) ->
  NoDup (change_ids (ParsePatch.sections patch_doc)) ->
  let patch := ParsePatch.patch patch_doc in
  let pid := ParsePatch.patch_id patch in
  let st' := fst (upsert_patch st patch_doc) in
  (exists p,
      match_nodes Patch pid st' = [p]
      /\ props p = PatchProps (ParsePatch.patch_title patch) (ParsePatch.url patch)
                     (ParsePatch.published_at patch))
  /\ forall sec,
       In sec (ParsePatch.sections patch_doc) ->
       exists s,
         In s (patch_sections pid st')
         /\ key s = ParsePatch.section_id sec
         /\ props s = SectionProps (ParsePatch.name sec) (ParsePatch.order sec) pid
         /\ forall ch,
              In ch (ParsePatch.changes sec) ->
              exists c,
                In c (out_nodes HAS_CHANGE Change (nid s) st')
                /\ In c (patch_changes pid st')
                /\ key c = ParsePatch.change_id ch
                /\ props c = ChangeProps (ParsePatch.change_text ch)
                               (ParsePatch.section_name ch)
                               (ParsePatch.source_url ch)
                               (ParsePatch.change_order ch).
Proof.
  intros Hc Hsec Hch patch pid st'.
  assert (Hclean : clean st') by now apply upsert_patch_clean.
  subst st'. unfold upsert_patch in *. fold patch pid in Hclean |- *.
  set (pprops := PatchProps (ParsePatch.patch_title patch) (ParsePatch.url patch)
                   (ParsePatch.published_at patch)) in *.
  pose proof (merge_node_bound Patch pid pprops st) as [Hne Hb].
  pose proof (merge_node_clean Patch pid pprops st Hc) as Hc1.
  set (st1 := fst (merge_node Patch pid pprops st)) in *.
  destruct (snd (merge_node Patch pid pprops st)) as [|i bound];
    [contradiction|].
  destruct (Hb i (or_introl eq_refl)) as [p [Hp [_ [Hlp [Hkp Hpp]]]]].
  pose proof (clear_patch_subgraph_keeps_patch st1 pid p Hc1 Hp Hlp) as Hp2.
  pose proof (clear_patch_subgraph_clean st1 pid Hc1) as Hc2.
  set (st2 := clear_patch_subgraph st1 pid) in *.
  set (final := fst (fold_left (upsert_section pid)
                       (ParsePatch.sections patch_doc) (st2, (0, 0)))) in *.
  assert (Hkeep : keeps Patch pid st2 final).
  { apply (upsert_sections_keeps pid _ Patch pid (st2, (0, 0))); discriminate. }
  assert (Hpf : In p (nodes final)) by (apply Hkeep; assumption).
  split.
  - exists p. split; [|assumption].
    pose proof (match_nodes_unique final p Hclean Hpf) as Hu.
    now rewrite Hlp, Hkp in Hu.
  - intros sec Hin.
    destruct (upsert_sections_have pid (ParsePatch.sections patch_doc)
                (st2, (0, 0)) Hc2) with (sec := sec)
      as [[p' [s [Hp' [Hlp' [Hkp' [Hs [Hls [Hks [Hps Hr]]]]]]]]] Hchanges];
      try assumption.
    { exists p. now repeat split. }
    fold final in Hp', Hs, Hr, Hchanges.
    assert (Hsec_in : In s (patch_sections pid final)).
    { apply patch_sections_In. exists p'. repeat split; try assumption.
      now apply out_nodes_edge. }
    exists s. repeat split; try assumption.
    intros ch Hch_in.
    destruct (Hchanges ch Hch_in)
      as [s' [c [Hs' [Hls' [Hks' [Hcn [Hlc [Hkc [Hpc Hrc]]]]]]]]].
    assert (Heq : s' = s).
    { apply (same_key_same_node final); try assumption; congruence. }
    subst s'.
    assert (Hout : In c (out_nodes HAS_CHANGE Change (nid s) final))
      by now apply out_nodes_edge.
    exists c. repeat split; try assumption.
    apply patch_changes_In. now exists s.
Qed.


(** X27. Loading a document whose section ids and change ids are pairwise
    distinct into a store without duplicates leaves one patch node under
    the patch id, with the title, address and date of the document.  Every
    section of the document is a section of that patch in the store, with
    its name and order, and every change of the section is attached to it
    and reached from the patch, with its text, section name, source address
    and order. *)
Theorem upsert_patch_loads_document st patch_doc :
  clean st ->
  NoDup (map ParsePatch.section_id (ParsePatch.sections patch_doc)) ->
  NoDup (change_ids (ParsePatch.sections patch_doc)) ->
  let patch := ParsePatch.patch patch_doc in
  let pid := ParsePatch.patch_id patch in
  let st' := fst (upsert_patch st patch_doc) in
  (exists p,
      match_nodes Patch pid st' = [p]
      /\ props p = PatchProps (ParsePatch.patch_title patch) (ParsePatch.url patch)
                     (ParsePatch.published_at patch))
  /\ forall sec,
       In sec (ParsePatch.sections patch_doc) ->
       exists s,
         In s (patch_sections pid st')
         /\ key s = ParsePatch.section_id sec
         /\ props s = SectionProps (ParsePatch.name sec) (ParsePatch.order sec) pid
         /\ forall ch,
              In ch (ParsePatch.changes sec) ->
              exists c,
                In c (out_nodes HAS_CHANGE Change (nid s) st')
                /\ In c (patch_changes pid st')
                /\ key c = ParsePatch.change_id ch
                /\ props c = ChangeProps (ParsePatch.change_text ch)
                               (ParsePatch.section_name ch)
                               (ParsePatch.source_url ch)
                               (ParsePatch.change_order ch).
Proof. apply upsert_patch_loads. Qed.

End UpsertFacts.

(** ** The ids of a parsed document *)

Module IdFacts.
Import ParsePatch.

Fixpoint all_digits (s : string) : Prop :=
  match s with
  | EmptyString => True
  | String c r => PyStr.isdigit c = true /\ all_digits r
  end.

Lemma to_uint_not_nil n : Nat.to_uint n <> Decimal.Nil.
Proof.
  intros H. pose proof (DecimalNat.Unsigned.to_of (Nat.to_uint n)) as E.
  rewrite DecimalNat.Unsigned.of_to, H in E. discriminate.
Qed.

Lemma str_of_nat_inj n m : PyStr.str_of_nat n = PyStr.str_of_nat m -> n = m.
Proof.
  unfold PyStr.str_of_nat. intros H.
  apply DecimalNat.Unsigned.to_uint_inj.
  pose proof (NilZero.usu _ (to_uint_not_nil n)) as Hn.
  pose proof (NilZero.usu _ (to_uint_not_nil m)) as Hm.
  rewrite H in Hn. congruence.
Qed.

Lemma string_of_uint_digits d : all_digits (NilEmpty.string_of_uint d).
Proof. induction d; simpl; auto. Qed.

Lemma str_of_nat_digits n : all_digits (PyStr.str_of_nat n).
Proof.
  unfold PyStr.str_of_nat, NilZero.string_of_uint.
  destruct (Nat.to_uint n); try apply string_of_uint_digits.
  simpl. auto.
Qed.

Lemma append_cancel p a b : (p ++ a = p ++ b)%string -> a = b.
Proof.
  induction p as [|c p IH]; simpl; [trivial|].
  intros H. injection H as H. now apply IH.
Qed.

Lemma append_assoc a b c : ((a ++ b) ++ c = a ++ (b ++ c))%string.
Proof. induction a as [|x a IH]; simpl; [reflexivity | now rewrite IH]. Qed.

(** A number is read off up to the dash that follows it. *)
Lemma digits_then_dash d1 : forall d2 r1 r2,
  all_digits d1 -> all_digits d2 ->
  (d1 ++ String "-" r1 = d2 ++ String "-" r2)%string ->
  d1 = d2 /\ r1 = r2.
Proof.
  induction d1 as [|c d1 IH]; intros [|c' d2] r1 r2 H1 H2 H; simpl in *.
  - injection H as H. now split.
  - injection H as Hc _. destruct H2 as [H2 _]. rewrite <- Hc in H2. discriminate.
  - injection H as Hc _. destruct H1 as [H1 _]. rewrite Hc in H1. discriminate.
  - injection H as Hc H. destruct H1 as [_ H1]. destruct H2 as [_ H2].
    destruct (IH d2 r1 r2 H1 H2 H) as [-> ->]. now subst.
Qed.

Definition section_id_of (pid : string) (n : nat) : string :=
  (pid ++ "-s" ++ PyStr.str_of_nat n)%string.

Definition change_id_of (pid : string) (n m : nat) : string :=
  (section_id_of pid n ++ "-c" ++ PyStr.str_of_nat m)%string.

Lemma section_id_of_inj pid n n' :
  section_id_of pid n = section_id_of pid n' -> n = n'.
Proof.
  unfold section_id_of. intros H. apply append_cancel in H.
  simpl in H. injection H as H. now apply str_of_nat_inj.
Qed.

Lemma change_id_of_inj pid n m n' m' :
  change_id_of pid n m = change_id_of pid n' m' -> n = n' /\ m = m'.
Proof.
  unfold change_id_of, section_id_of. rewrite !append_assoc. intros H.
  apply append_cancel in H. simpl in H. injection H as H.
  apply digits_then_dash in H as [Hn Hm]; try apply str_of_nat_digits.
  injection Hm as Hm. split; now apply str_of_nat_inj.
Qed.

Lemma distinct_images {A B : Type} (f : A -> B) (l : list A) :
  (forall a b, In a l -> In b l -> f a = f b -> a = b) ->
  NoDup l -> NoDup (map f l).
Proof.
  intros Hinj Hl. induction Hl as [|x l Hx Hl IH]; simpl; constructor.
  - intros Hin. apply in_map_iff in Hin as [y [Hy Hin]].
    assert (y = x) by (apply Hinj; [now right | now left | assumption]).
    subst. contradiction.
  - apply IH. intros a b Ha Hb. apply Hinj; now right.
Qed.

(** Numbered blocks: the block of [n] holds the images of the pairs
    [(n, 0)], [(n, 1)], ... *)
Lemma distinct_blocks {A B : Type} (g : nat -> nat -> B) (size : A -> nat) :
  (forall n m n' m', g n m = g n' m' -> n = n' /\ m = m') ->
  forall blocks : list (nat * A),
    NoDup (map fst blocks) ->
    NoDup (flat_map (fun na => map (g (fst na)) (seq 0 (size (snd na)))) blocks).
Proof.
  intros Hinj blocks. induction blocks as [|[n a] blocks IH]; intros Hnd;
    cbn [flat_map map fst snd] in *; [constructor|].
  inversion_clear Hnd as [|? ? Hn Hrest]. apply NoDup_app.
  - apply distinct_images; [|apply seq_NoDup].
    intros m m' _ _ H. now destruct (Hinj _ _ _ _ H).
  - now apply IH.
  - intros x Hx Hx'. apply in_map_iff in Hx as [m [<- _]].
    apply in_flat_map in Hx' as [[n' a'] [Hin Hx']].
    apply in_map_iff in Hx' as [m' [Heq _]]. cbn [fst] in Heq.
    destruct (Hinj _ _ _ _ Heq) as [-> _].
    apply Hn. apply in_map_iff. now exists (n, a').
Qed.

Definition change_ids := UpsertFacts.change_ids.

Lemma section_ids parsed url :
  let doc := parse_patch_notes_parsed parsed url in
  map section_id (sections doc)
  = map (section_id_of (patch_id (patch doc)))
        (seq 0 (List.length (sections doc))).
Proof.
  intros doc. subst doc. rewrite (ParsePatchFacts.sections_shape parsed url).
  set (pid := patch_id (patch (parse_patch_notes_parsed parsed url))).
  set (X := ParsePatchFacts.retained (enumerate (segment parsed))).
  rewrite length_map, map_map. unfold enumerate.
  rewrite ParsePatchFacts.combine_seq_length.
  rewrite <- (ParsePatchFacts.combine_seq_fst X 0) at 2.
  rewrite map_map. apply map_ext. now intros [n [i r]].
Qed.

Lemma document_change_ids parsed url :
  let doc := parse_patch_notes_parsed parsed url in
  change_ids (sections doc)
  = flat_map (fun nir => map (change_id_of (patch_id (patch doc)) (fst nir))
                             (seq 0 (List.length (raw_changes (snd (snd nir))))))
             (enumerate (ParsePatchFacts.retained (enumerate (segment parsed)))).
Proof.
  intros doc. subst doc. rewrite (ParsePatchFacts.sections_shape parsed url).
  set (pid := patch_id (patch (parse_patch_notes_parsed parsed url))).
  unfold change_ids, UpsertFacts.change_ids.
  induction (enumerate (ParsePatchFacts.retained (enumerate (segment parsed))))
    as [|[n [i r]] l IH]; cbn [map flat_map]; [reflexivity|].
  rewrite IH. f_equal. unfold ParsePatchFacts.mk_section. cbn [changes fst snd].
  apply ParsePatchFacts.build_changes_ids.
Qed.

Lemma document_ids_distinct parsed url :
  let doc := parse_patch_notes_parsed parsed url in
  NoDup (map section_id (sections doc)) /\ NoDup (change_ids (sections doc)).
Proof.
  intros doc. split.
  - subst doc. rewrite section_ids. apply distinct_images; [|apply seq_NoDup].
    intros a b _ _. apply section_id_of_inj.
  - subst doc. rewrite document_change_ids.
    apply (distinct_blocks
             (change_id_of (patch_id (patch (parse_patch_notes_parsed parsed url))))
             (fun ir => List.length (raw_changes (snd ir)))).
    + intros n m n' m'. apply change_id_of_inj.
    + unfold enumerate at 1. rewrite ParsePatchFacts.combine_seq_fst.
      apply seq_NoDup.
Qed.

(** X28. In a parsed document no two sections share an id and no two
    changes share an id, whatever the markup, so the document meets what
    loading asks of it: loaded into a store without duplicates, each of its
    changes is reached from the patch node, under its id and with its
    text. *)
Theorem parsed_document_loads parsed url st :
  let doc := parse_patch_notes_parsed parsed url in
  NoDup (map section_id (sections doc))
  /\ NoDup (change_ids (sections doc))
  /\ (StoreFacts.clean st ->
      forall sec ch,
        In sec (sections doc) -> In ch (changes sec) ->
        exists c,
          In c (Graph.patch_changes (patch_id (patch doc))
                  (fst (LoadNeo4j.upsert_patch st doc)))
          /\ Graph.key c = change_id ch
          /\ LoadNeo4j.text_of c = change_text ch).
Proof.
  intros doc. destruct (document_ids_distinct parsed url) as [Hs Hc].
  fold doc in Hs, Hc. split; [assumption|]. split; [assumption|].
  intros Hclean sec ch Hsec Hch.
  destruct (UpsertFacts.upsert_patch_loads st doc Hclean Hs Hc) as [_ H].
  destruct (H sec Hsec) as [s [_ [_ [_ Hchanges]]]].
  destruct (Hchanges ch Hch) as [c [_ [Hin [Hk Hp]]]].
  exists c. split; [assumption|]. split; [assumption|].
  unfold LoadNeo4j.text_of. now rewrite Hp.
Qed.

Definition sample_url : string :=
  "https://playvalorant.com/en-us/news/game-updates/valorant-patch-notes-12-02/".

Definition sample_doc : PatchDocument :=
  parse_patch_notes_parsed (SimpleHtml.parse_tokens Fixtures.article_tokens)
    sample_url.

Lemma parsed_document_loads_witness :
  StoreFacts.clean Graph.empty
  /\ forall sec ch,
       In sec (sections sample_doc) -> In ch (changes sec) ->
       exists c,
         In c (Graph.patch_changes (patch_id (patch sample_doc))
                 (fst (LoadNeo4j.upsert_patch Graph.empty sample_doc)))
         /\ Graph.key c = change_id ch
         /\ LoadNeo4j.text_of c = change_text ch.
Proof.
  split; [exact StoreFacts.clean_empty|].
  exact (proj2 (proj2 (parsed_document_loads
                         (SimpleHtml.parse_tokens Fixtures.article_tokens)
                         sample_url Graph.empty))
           StoreFacts.clean_empty).
Defined.

(** A document written by hand: one section with two changes. *)
Definition small_doc : PatchDocument :=
  {| patch := {| patch_id := "12.02"; patch_title := "Patch 12.02";
                 url := sample_url; published_at := None |};
     sections :=
       [{| section_id := "12.02-s0"; name := "Agents"; order := 1;
           changes :=
             [{| change_id := "12.02-s0-c0"; change_text := "Reyna: Leer cost up";
                 section_name := "Agents"; source_url := sample_url;
                 change_order := 0 |};
              {| change_id := "12.02-s0-c1"; change_text := "Harbor: Cove lasts longer";
                 section_name := "Agents"; source_url := sample_url;
                 change_order := 1 |}] |}] |}.

Lemma upsert_patch_loads_document_witness :
  StoreFacts.clean Graph.empty
  /\ NoDup (map section_id (sections small_doc))
  /\ NoDup (UpsertFacts.change_ids (sections small_doc))
  /\ exists p,
       Graph.match_nodes Graph.Patch (patch_id (patch small_doc))
         (fst (LoadNeo4j.upsert_patch Graph.empty small_doc)) = [p].
Proof.
  assert (Hs : NoDup (map section_id (sections small_doc))).
  { vm_compute. constructor; [intros [] | constructor]. }
  assert (Hc : NoDup (UpsertFacts.change_ids (sections small_doc))).
  { vm_compute. constructor; [|constructor; [intros [] | constructor]].
    intros [H | []]. discriminate H. }
  split; [exact StoreFacts.clean_empty|]. split; [exact Hs|]. split; [exact Hc|].
  pose proof (UpsertFacts.upsert_patch_loads_document Graph.empty small_doc
                StoreFacts.clean_empty Hs Hc) as H.
  exact (match proj1 H with ex_intro _ p (conj Hp _) => ex_intro _ p Hp end).
Defined.

End IdFacts.

(** ** The graph materializer: loading the same document again *)

Module ReloadFacts.
Import Graph LoadNeo4j StoreFacts RelinkFacts.

(** No relationship refers to an identity that is still to be handed out. *)
Definition grounded (st : Store) : Prop :=
  Forall (fun r => src r < next_id st /\ dst r < next_id st) (rels st).

Definition sound (st : Store) : Prop := clean st /\ grounded st.

Lemma sound_empty : sound Graph.empty.
Proof. split; [apply clean_empty | constructor]. Qed.

Lemma merge_node_next l k p st : next_id st <= next_id (fst (merge_node l k p st)).
Proof. unfold merge_node. destruct (match_nodes l k st); cbn; lia. Qed.

Lemma merge_node_sound l k p st : sound st -> sound (fst (merge_node l k p st)).
Proof.
  intros [Hc Hg]. split; [now apply merge_node_clean|].
  unfold grounded in *. rewrite LoaderFacts.merge_node_rels.
  pose proof (merge_node_next l k p st) as Hn.
  eapply Forall_impl; [|exact Hg]. cbn beta. intros r [H1 H2]. lia.
Qed.

Lemma merge_rel_sound t a b st :
  sound st -> a < next_id st -> b < next_id st -> sound (merge_rel t a b st).
Proof.
  intros [Hc Hg] Ha Hb. split; [now apply merge_rel_clean|].
  unfold merge_rel, grounded in *. destruct (has_rel _ st); [assumption|].
  cbn [rels next_id]. apply Forall_app. split; [assumption|].
  constructor; [|constructor]. cbn. lia.
Qed.

Lemma merge_rel_next t a b st : next_id (merge_rel t a b st) = next_id st.
Proof. unfold merge_rel. now destruct (has_rel _ st). Qed.

Lemma merge_rels_sound t a targets : forall st,
  sound st -> a < next_id st -> Forall (fun x => x < next_id st) targets ->
  sound (fold_left (fun st x => merge_rel t a x st) targets st)
  /\ next_id (fold_left (fun st x => merge_rel t a x st) targets st) = next_id st.
Proof.
  induction targets as [|x targets IH]; intros st Hs Ha Hx; cbn [fold_left];
    [now split|].
  inversion_clear Hx as [|? ? Hx0 Hx']. destruct (IH (merge_rel t a x st)) as [H1 H2].
  - now apply merge_rel_sound.
  - now rewrite merge_rel_next.
  - now rewrite merge_rel_next.
  - split; [assumption|]. now rewrite H2, merge_rel_next.
Qed.

Lemma delete_rels_sound doomed st : sound st -> sound (delete_rels doomed st).
Proof.
  intros [Hc Hg]. split; [now apply delete_rels_clean|].
  unfold grounded, delete_rels in *. cbn [rels next_id].
  apply Forall_forall. intros r Hr. apply filter_In in Hr as [Hr _].
  rewrite Forall_forall in Hg. now apply Hg.
Qed.

Lemma detach_delete_sound ids st : sound st -> sound (detach_delete ids st).
Proof.
  intros [Hc Hg]. split; [now apply detach_delete_clean|].
  unfold grounded, detach_delete in *. cbn [rels next_id].
  apply Forall_forall. intros r Hr. apply filter_In in Hr as [Hr _].
  rewrite Forall_forall in Hg. now apply Hg.
Qed.

Lemma upsert_agents_sound st rows : sound st -> sound (upsert_agents st rows).
Proof.
  intros Hs. rewrite LoaderFacts.upsert_agents_fold.
  apply fold_left_inv; [|assumption]. intros s row H.
  now apply merge_node_sound.
Qed.

Lemma clear_patch_subgraph_sound st pid :
  sound st -> sound (clear_patch_subgraph st pid).
Proof.
  intros Hs. unfold clear_patch_subgraph.
  now apply detach_delete_sound, delete_rels_sound.
Qed.

Lemma bound_below l k p st :
  clean st -> Forall (fun i => i < next_id (fst (merge_node l k p st)))
                     (snd (merge_node l k p st)).
Proof.
  intros Hc. pose proof (merge_node_clean l k p st Hc) as [_ Hfresh _ _].
  apply Forall_forall. intros i Hi.
  destruct (UpsertFacts.merge_node_bound l k p st) as [_ Hb].
  destruct (Hb i Hi) as [n [Hn [<- _]]].
  rewrite Forall_forall in Hfresh. now apply Hfresh.
Qed.

(** A [MERGE] of a node followed by the [MERGE] of relationships from the
    node [a] to the nodes bound. *)
Lemma merge_step_sound l k p t a st :
  sound st -> a < next_id st ->
  sound (fold_left (fun st x => merge_rel t a x st)
           (snd (merge_node l k p st)) (fst (merge_node l k p st))).
Proof.
  intros Hs Ha. pose proof (merge_node_next l k p st) as Hn.
  apply merge_rels_sound; [now apply merge_node_sound | lia |].
  apply bound_below, Hs.
Qed.

Lemma matched_below l k st n :
  clean st -> In n (match_nodes l k st) -> nid n < next_id st.
Proof.
  intros [_ Hfresh _ _] Hn. apply match_nodes_In in Hn as [Hn _].
  rewrite Forall_forall in Hfresh. now apply Hfresh.
Qed.

(** A loop over nodes matched at its start, whose body keeps the store
    sound and hands out identities only. *)
Lemma matched_loop_sound (body : Store -> Node -> Store) (matched : list Node) :
  (forall st n, sound st -> nid n < next_id st ->
                sound (body st n) /\ next_id st <= next_id (body st n)) ->
  forall st, sound st -> Forall (fun n => nid n < next_id st) matched ->
             sound (fold_left body matched st).
Proof.
  intros Hbody. induction matched as [|n matched IH]; intros st Hs Hm;
    cbn [fold_left]; [assumption|].
  inversion_clear Hm as [|? ? Hn Hm']. destruct (Hbody st n Hs Hn) as [H1 H2].
  apply IH; [assumption|]. eapply Forall_impl; [|exact Hm'].
  cbn beta. intros m Hlt. lia.
Qed.

Lemma matched_all_below l k st :
  clean st -> Forall (fun n => nid n < next_id st) (match_nodes l k st).
Proof.
  intros Hc. apply Forall_forall. intros n Hn. now apply (matched_below l k).
Qed.

Lemma merge_step_next l k p t a st :
  next_id st
  <= next_id (fold_left (fun st x => merge_rel t a x st)
                (snd (merge_node l k p st)) (fst (merge_node l k p st))).
Proof.
  pose proof (merge_node_next l k p st) as Hn.
  assert (H : forall targets s,
             next_id (fold_left (fun st x => merge_rel t a x st) targets s)
             = next_id s).
  { induction targets as [|x targets IH]; intros s; cbn [fold_left];
      [reflexivity|]. now rewrite IH, merge_rel_next. }
  now rewrite H.
Qed.

Lemma merge_section_sound pid sec st :
  sound st -> sound (merge_section pid sec st).
Proof.
  intros Hs. unfold merge_section.
  apply matched_loop_sound; [|assumption | apply matched_all_below, Hs].
  intros s p Hsound Hp.
  pose proof (merge_step_sound Section (ParsePatch.section_id sec)
                (SectionProps (ParsePatch.name sec) (ParsePatch.order sec) pid)
                HAS_SECTION (nid p) s Hsound Hp) as H1.
  pose proof (merge_step_next Section (ParsePatch.section_id sec)
                (SectionProps (ParsePatch.name sec) (ParsePatch.order sec) pid)
                HAS_SECTION (nid p) s) as H2.
  destruct (merge_node Section _ _ s) as [s1 bound]. now split.
Qed.

Lemma change_step_sound s ch st :
  sound st -> nid s < next_id st ->
  sound (UpsertFacts.change_step s st ch)
  /\ next_id st <= next_id (UpsertFacts.change_step s st ch).
Proof.
  intros Hsound Hs. unfold UpsertFacts.change_step.
  pose proof (merge_step_sound Change (ParsePatch.change_id ch)
                (ChangeProps (ParsePatch.change_text ch)
                   (ParsePatch.section_name ch) (ParsePatch.source_url ch)
                   (ParsePatch.change_order ch))
                HAS_CHANGE (nid s) st Hsound Hs) as H1.
  pose proof (merge_step_next Change (ParsePatch.change_id ch)
                (ChangeProps (ParsePatch.change_text ch)
                   (ParsePatch.section_name ch) (ParsePatch.source_url ch)
                   (ParsePatch.change_order ch))
                HAS_CHANGE (nid s) st) as H2.
  destruct (merge_node Change _ _ st) as [s1 bound]. now split.
Qed.

Lemma change_steps_sound s changes : forall st,
  sound st -> nid s < next_id st ->
  sound (fold_left (UpsertFacts.change_step s) changes st)
  /\ next_id st <= next_id (fold_left (UpsertFacts.change_step s) changes st).
Proof.
  induction changes as [|ch changes IH]; intros st Hsound Hs; cbn [fold_left];
    [split; [assumption | lia]|].
  destruct (change_step_sound s ch st Hsound Hs) as [H1 H2].
  destruct (IH (UpsertFacts.change_step s st ch) H1) as [H3 H4]; [lia|].
  split; [assumption | lia].
Qed.

Lemma merge_changes_sound sid changes st :
  sound st -> sound (merge_changes sid changes st).
Proof.
  intros Hs. rewrite UpsertFacts.merge_changes_steps.
  apply matched_loop_sound; [|assumption | apply matched_all_below, Hs].
  intros st1 s. apply change_steps_sound.
Qed.

Lemma upsert_section_sound pid acc sec :
  sound (fst acc) -> sound (fst (upsert_section pid acc sec)).
Proof.
  destruct acc as [st [a b]]. rewrite UpsertFacts.upsert_section_store.
  cbn [fst]. intros Hs. pose proof (merge_section_sound pid sec st Hs) as H1.
  destruct (ParsePatch.changes sec); [assumption|].
  now apply merge_changes_sound.
Qed.

Lemma upsert_patch_sound st patch_doc :
  sound st -> sound (fst (upsert_patch st patch_doc)).
Proof.
  intros Hs. unfold upsert_patch.
  apply (fold_left_inv (fun acc => sound (fst acc))).
  - intros acc sec. apply upsert_section_sound.
  - cbn [fst]. now apply clear_patch_subgraph_sound, merge_node_sound.
Qed.

Lemma link_change_sound cid uuids st : sound st -> sound (link_change cid uuids st).
Proof.
  intros Hs. unfold link_change.
  apply matched_loop_sound; [|assumption | apply matched_all_below, Hs].
  intros s0 c Hs0 Hc.
  apply (fold_left_inv
           (fun s => sound s /\ next_id s0 <= next_id s)); [|split; [assumption | lia]].
  intros s1 u [Hs1 Hn1].
  assert (Hloop : forall found s,
             sound s -> next_id s0 <= next_id s ->
             Forall (fun a => nid a < next_id s) found ->
             sound (fold_left (fun st a => merge_rel MENTIONS_AGENT (nid c) (nid a) st)
                      found s)
             /\ next_id s0
                <= next_id (fold_left
                              (fun st a => merge_rel MENTIONS_AGENT (nid c) (nid a) st)
                              found s)).
  { induction found as [|a found IH]; intros s Hsound Hn Ha; cbn [fold_left];
      [now split|].
    inversion_clear Ha as [|? ? Ha0 Ha'].
    apply IH.
    - apply merge_rel_sound; [assumption | lia | assumption].
    - now rewrite merge_rel_next.
    - now rewrite merge_rel_next. }
  apply Hloop; [assumption | assumption | apply matched_all_below, Hs1].
Qed.

Lemma relink_sound st pid roster :
  sound st -> sound (fst (relink_patch_agent_mentions st pid roster)).
Proof.
  intros Hs. unfold relink_patch_agent_mentions.
  destruct roster as [|row rows]; [assumption|].
  apply (fold_left_inv (fun acc => sound (fst acc))).
  - intros [s n] [cid text] H. unfold relink_record. cbn [fst] in *.
    destruct (detect_agent_mentions text (row :: rows)); [assumption|].
    cbn [fst]. now apply link_change_sound.
  - cbn [fst]. now apply delete_rels_sound.
Qed.

Lemma wipe_all_sound st : sound (wipe_all st).
Proof. split; [apply wipe_all_clean | constructor]. Qed.

(** *** The steps of a load *)

Definition start_of (wipe : bool) (st : Store) : Store :=
  if wipe then wipe_all st else st.

Definition patch_props (patch_doc : ParsePatch.PatchDocument) : Props :=
  PatchProps (ParsePatch.patch_title (ParsePatch.patch patch_doc))
    (ParsePatch.url (ParsePatch.patch patch_doc))
    (ParsePatch.published_at (ParsePatch.patch patch_doc)).

(** The store on which the loop over the sections starts. *)
Definition cleared (st : Store) (patch_doc : ParsePatch.PatchDocument) : Store :=
  let pid := ParsePatch.patch_id (ParsePatch.patch patch_doc) in
  clear_patch_subgraph (fst (merge_node Patch pid (patch_props patch_doc) st)) pid.

Definition sections_loop (pid : string) (secs : list ParsePatch.Section)
    (st : Store) : Store :=
  fst (fold_left (upsert_section pid) secs (st, (0, 0))).

Lemma upsert_patch_store st patch_doc :
  fst (upsert_patch st patch_doc)
  = sections_loop (ParsePatch.patch_id (ParsePatch.patch patch_doc))
      (ParsePatch.sections patch_doc) (cleared st patch_doc).
Proof. reflexivity. Qed.

Lemma load_store st patch_doc agents_doc wipe :
  let pid := ParsePatch.patch_id (ParsePatch.patch patch_doc) in
  let roster := LoaderFacts.roster_of agents_doc in
  let written := upsert_agents (start_of wipe st) roster in
  fst (load_to_neo4j st patch_doc agents_doc wipe)
  = fst (relink_patch_agent_mentions (fst (upsert_patch written patch_doc))
           pid roster)
  /\ agent_links (snd (load_to_neo4j st patch_doc agents_doc wipe))
     = snd (relink_patch_agent_mentions (fst (upsert_patch written patch_doc))
              pid roster)
  /\ agents (snd (load_to_neo4j st patch_doc agents_doc wipe))
     = List.length roster.
Proof.
  intros pid roster written. unfold load_to_neo4j.
  fold (LoaderFacts.roster_of agents_doc). fold roster.
  fold (start_of wipe st). fold written.
  destruct (upsert_patch written patch_doc) as [st1 [a b]]. cbn [fst].
  fold pid. destruct (relink_patch_agent_mentions st1 pid roster) as [st2 n].
  cbn. auto.
Qed.

Lemma load_sound st patch_doc agents_doc wipe :
  sound st -> sound (fst (load_to_neo4j st patch_doc agents_doc wipe)).
Proof.
  intros Hs. destruct (load_store st patch_doc agents_doc wipe) as [-> _].
  apply relink_sound, upsert_patch_sound, upsert_agents_sound.
  unfold start_of. destruct wipe; [apply wipe_all_sound | assumption].
Qed.

(** *** Creating a node and the relationship that attaches it *)

Definition new_node (l : Label) (k : string) (p : Props) (st : Store) : Node :=
  {| nid := next_id st; label := l; key := k; props := p |}.

(** The store after [MERGE (n:l {key: k}) SET ... MERGE (a)-[:t]->(n)] when
    no node is found under [(l, k)]. *)
Definition attach (t : RelType) (a : nat) (l : Label) (k : string) (p : Props)
    (st : Store) : Store :=
  {| nodes := nodes st ++ [new_node l k p st];
     rels := rels st ++ [{| rel := t; src := a; dst := next_id st |}];
     next_id := S (next_id st) |}.

Lemma merge_attach t a l k p st :
  grounded st -> match_nodes l k st = [] ->
  fold_left (fun st x => merge_rel t a x st)
    (snd (merge_node l k p st)) (fst (merge_node l k p st))
  = attach t a l k p st.
Proof.
  intros Hg Hm. unfold merge_node. rewrite Hm. cbn [fst snd fold_left].
  unfold merge_rel.
  destruct (has_rel _ _) eqn:Hr; [|reflexivity].
  apply has_rel_spec in Hr. cbn [rels] in Hr.
  unfold grounded in Hg. rewrite Forall_forall in Hg.
  destruct (Hg _ Hr) as [_ H]. cbn in H. lia.
Qed.

Lemma attach_sound t a l k p st :
  sound st -> a < next_id st -> match_nodes l k st = [] ->
  sound (attach t a l k p st).
Proof.
  intros Hs Ha Hm. rewrite <- merge_attach; [|apply Hs | assumption].
  now apply merge_step_sound.
Qed.

Lemma attach_match t a l k p st l' k' :
  match_nodes l' k' (attach t a l k p st)
  = match_nodes l' k' st
      ++ (if is_node l' k' (new_node l k p st) then [new_node l k p st] else []).
Proof. unfold match_nodes, attach. cbn [nodes]. now rewrite filter_app. Qed.

Lemma attach_match_other t a l k p st l' k' :
  (l', k') <> (l, k) ->
  match_nodes l' k' (attach t a l k p st) = match_nodes l' k' st.
Proof.
  intros Hne. rewrite attach_match.
  destruct (is_node l' k' (new_node l k p st)) eqn:Hn; [|apply app_nil_r].
  apply is_node_spec in Hn as [H1 H2]. cbn in H1, H2. destruct Hne. congruence.
Qed.

Lemma attach_match_new t a l k p st :
  match_nodes l k st = [] ->
  match_nodes l k (attach t a l k p st) = [new_node l k p st].
Proof.
  intros Hm. rewrite attach_match, Hm.
  assert (is_node l k (new_node l k p st) = true) as ->
    by (apply is_node_spec; now split).
  reflexivity.
Qed.

(** *** The store as a query sees it

    Identities are internal to the store: a query sees a node through its
    label, key and properties, and a relationship through its type and the
    labels and keys of the nodes it joins. *)

Definition name_of (st : Store) (i : nat) : option (Label * string) :=
  match find (fun n => nid n =? i) (nodes st) with
  | Some n => Some (label n, key n)
  | None => None
  end.

Definition node_view (n : Node) : Label * string * Props :=
  (label n, key n, props n).

Definition rel_view (st : Store) (r : Rel)
  : RelType * option (Label * string) * option (Label * string) :=
  (rel r, name_of st (src r), name_of st (dst r)).

Definition node_views (st : Store) : list (Label * string * Props) :=
  map node_view (nodes st).

Definition rel_views (st : Store)
  : list (RelType * option (Label * string) * option (Label * string)) :=
  map (rel_view st) (rels st).

Lemma name_of_node st n :
  clean st -> In n (nodes st) -> name_of st (nid n) = Some (label n, key n).
Proof.
  intros Hc Hn. unfold name_of.
  destruct (find (fun m => nid m =? nid n) (nodes st)) as [m|] eqn:Hf.
  - apply find_some in Hf as [Hm Heq]. apply Nat.eqb_eq in Heq.
    now rewrite (nid_injective st m n Hc Hm Hn Heq).
  - pose proof (find_none _ _ Hf n Hn) as H. cbn in H.
    rewrite Nat.eqb_refl in H. discriminate.
Qed.

Lemma name_of_same_nodes st st' i :
  nodes st' = nodes st -> name_of st' i = name_of st i.
Proof. unfold name_of. now intros ->. Qed.

Lemma attach_name_old t a l k p st i :
  i < next_id st -> name_of (attach t a l k p st) i = name_of st i.
Proof.
  intros Hi. unfold name_of, attach. cbn [nodes].
  rewrite LoaderFacts.find_first_part.
  destruct (find (fun n => nid n =? i) (nodes st)); [reflexivity|].
  cbn. destruct (Nat.eqb_spec (next_id st) i); [lia | reflexivity].
Qed.

Lemma attach_name_new t a l k p st :
  clean st -> name_of (attach t a l k p st) (next_id st) = Some (l, k).
Proof.
  intros [_ Hfresh _ _]. unfold name_of, attach. cbn [nodes].
  rewrite LoaderFacts.find_first_part.
  destruct (find (fun n => nid n =? next_id st) (nodes st)) as [m|] eqn:Hf.
  - apply find_some in Hf as [Hm Heq]. apply Nat.eqb_eq in Heq.
    rewrite Forall_forall in Hfresh. specialize (Hfresh m Hm). lia.
  - cbn. now rewrite Nat.eqb_refl.
Qed.

Lemma attach_node_views t a l k p st :
  node_views (attach t a l k p st) = node_views st ++ [(l, k, p)].
Proof. unfold node_views, attach. cbn [nodes]. now rewrite map_app. Qed.

Lemma attach_rel_views t a l k p st :
  sound st -> a < next_id st ->
  rel_views (attach t a l k p st)
  = rel_views st ++ [(t, name_of st a, Some (l, k))].
Proof.
  intros [Hc Hg] Ha. unfold rel_views. cbn [attach rels]. rewrite map_app.
  f_equal.
  - apply map_ext_in. intros r Hr. unfold rel_view.
    unfold grounded in Hg. rewrite Forall_forall in Hg.
    destruct (Hg r Hr) as [H1 H2]. now rewrite !attach_name_old.
  - cbn [map]. unfold rel_view. cbn [rel src dst].
    now rewrite attach_name_old, attach_name_new.
Qed.

(** *** The patterns after a node has been attached *)

Definition reaches (t : RelType) (l : Label) (a : nat) (st : Store) (r : Rel)
  : list Node :=
  if reltype_eqb (rel r) t && (src r =? a) then
    filter (fun b => (nid b =? dst r) && label_eqb (label b) l) (nodes st)
  else [].

Lemma out_nodes_reaches t l a st :
  out_nodes t l a st = flat_map (reaches t l a st) (rels st).
Proof.
  unfold out_nodes, out_rels, reaches.
  induction (rels st) as [|r rs IH]; cbn [flat_map map]; [reflexivity|].
  rewrite map_app, IH. f_equal.
  destruct (reltype_eqb (rel r) t && (src r =? a)); [|reflexivity].
  rewrite map_map. cbn [snd]. apply map_id.
Qed.

Lemma flat_map_same {X Y : Type} (f g : X -> list Y) (xs : list X) :
  (forall x, In x xs -> f x = g x) -> flat_map f xs = flat_map g xs.
Proof.
  induction xs as [|x xs IH]; intros H; cbn [flat_map]; [reflexivity|].
  rewrite (H x) by now left. f_equal. apply IH. intros y Hy. apply H. now right.
Qed.

Lemma filter_nothing {X : Type} (f : X -> bool) (xs : list X) :
  (forall x, In x xs -> f x = false) -> filter f xs = [].
Proof.
  induction xs as [|x xs IH]; intros H; cbn [filter]; [reflexivity|].
  rewrite (H x) by now left. apply IH. intros y Hy. apply H. now right.
Qed.

Lemma attach_out_nodes t a l k p st t' l' a' :
  sound st ->
  out_nodes t' l' a' (attach t a l k p st)
  = out_nodes t' l' a' st
      ++ (if reltype_eqb t t' && (a =? a') && label_eqb l l'
          then [new_node l k p st] else []).
Proof.
  intros [Hc Hg]. rewrite !out_nodes_reaches. cbn [attach rels].
  rewrite flat_map_app. f_equal.
  - apply flat_map_same. intros r Hr. unfold reaches.
    destruct (reltype_eqb (rel r) t' && (src r =? a')); [|reflexivity].
    cbn [attach nodes]. rewrite filter_app. cbn [filter new_node nid label].
    unfold grounded in Hg. rewrite Forall_forall in Hg.
    destruct (Hg r Hr) as [_ Hd].
    destruct (Nat.eqb_spec (next_id st) (dst r)); [lia|].
    cbn [andb]. apply app_nil_r.
  - cbn [flat_map]. rewrite app_nil_r. unfold reaches. cbn [rel src dst].
    destruct (reltype_eqb t t' && (a =? a')); [|reflexivity].
    cbn [andb attach nodes]. rewrite filter_app, filter_nothing.
    + cbn [filter new_node nid label app]. rewrite Nat.eqb_refl. cbn [andb].
      now destruct (label_eqb l l').
    + intros b Hb. destruct Hc as [_ Hfresh _ _].
      rewrite Forall_forall in Hfresh. specialize (Hfresh b Hb).
      destruct (Nat.eqb_spec (nid b) (next_id st)); [lia | reflexivity].
Qed.

Lemma out_nodes_unborn t l a st :
  grounded st -> next_id st <= a -> out_nodes t l a st = [].
Proof.
  intros Hg Ha. rewrite out_nodes_reaches.
  rewrite (flat_map_same _ (fun _ => [])).
  - induction (rels st); [reflexivity | assumption].
  - intros r Hr. unfold reaches. unfold grounded in Hg.
    rewrite Forall_forall in Hg. destruct (Hg r Hr) as [Hs _].
    destruct (Nat.eqb_spec (src r) a); [lia|]. now rewrite andb_false_r.
Qed.

Definition labelled (l : Label) (n : Node) : bool := label_eqb (label n) l.

Definition NodeView : Type := Label * string * Props.
Definition RelView : Type := RelType * option (Label * string) * option (Label * string).

Section Growth.

Variable pid : string.

(** [st'] is [st] with new nodes and relationships appended: the nodes are
    seen as [dnv], the relationships as [drv], and the sections and changes
    among the new nodes are reached from the patch after those of [st]. *)
Record grows (st st' : Store) (dnv : list NodeView) (drv : list RelView)
  : Prop := {
  g_sound : sound st';
  g_next : next_id st <= next_id st';
  g_rel_views : rel_views st' = rel_views st ++ drv;
  g_delta :
    exists dN dX,
      nodes st' = nodes st ++ dN
      /\ rels st' = rels st ++ dX
      /\ map node_view dN = dnv
      /\ Forall (fun n => next_id st <= nid n) dN
      /\ Forall (fun r => In (dst r) (map nid dN) /\ rel r <> MENTIONS_AGENT) dX
      /\ patch_sections pid st' = patch_sections pid st ++ filter (labelled Section) dN
      /\ patch_changes pid st' = patch_changes pid st ++ filter (labelled Change) dN
}.

Lemma grows_refl st : sound st -> grows st st [] [].
Proof.
  intros Hs. constructor; [assumption | lia | now rewrite app_nil_r |].
  exists [], []. rewrite !app_nil_r. repeat split; constructor.
Qed.

Lemma grows_trans st1 st2 st3 nv1 rv1 nv2 rv2 :
  grows st1 st2 nv1 rv1 -> grows st2 st3 nv2 rv2 ->
  grows st1 st3 (nv1 ++ nv2) (rv1 ++ rv2).
Proof.
  intros [_ Hn1 Hr1 [N1 [X1 [HN1 [HX1 [Hv1 [Hf1 [Hg1 [Hs1 Hc1]]]]]]]]]
         [Hs Hn2 Hr2 [N2 [X2 [HN2 [HX2 [Hv2 [Hf2 [Hg2 [Hs2 Hc2]]]]]]]]].
  constructor; [assumption | lia | now rewrite Hr2, Hr1, app_assoc |].
  exists (N1 ++ N2), (X1 ++ X2).
  rewrite HN2, HN1, HX2, HX1, Hs2, Hs1, Hc2, Hc1, !filter_app, map_app, Hv1, Hv2.
  rewrite <- !app_assoc. repeat split.
  - apply Forall_app. split; [assumption|].
    eapply Forall_impl; [|exact Hf2]. cbn beta. intros n H. lia.
  - apply Forall_app. split.
    + eapply Forall_impl; [|exact Hg1]. cbn beta. intros r [H H'].
      split; [|assumption]. rewrite map_app. apply in_or_app. now left.
    + eapply Forall_impl; [|exact Hg2]. cbn beta. intros r [H H'].
      split; [|assumption]. rewrite map_app. apply in_or_app. now right.
Qed.

Lemma grows_nodes st st' nv rv n :
  grows st st' nv rv -> In n (nodes st) -> In n (nodes st').
Proof.
  intros [_ _ _ [N [X [HN _]]]] Hn. rewrite HN. apply in_or_app. now left.
Qed.

(** The new nodes are found under the labels and keys of [nv] only. *)
Lemma grows_match st st' nv rv l k :
  grows st st' nv rv ->
  (forall v, In v nv -> fst v <> (l, k)) ->
  match_nodes l k st' = match_nodes l k st.
Proof.
  intros [_ _ _ [N [X [HN [_ [Hv _]]]]]] Hnone. unfold match_nodes.
  rewrite HN, filter_app, (filter_nothing _ N); [apply app_nil_r|].
  intros n Hn. destruct (is_node l k n) eqn:Hc; [|reflexivity].
  apply is_node_spec in Hc as [Hl Hk].
  destruct (Hnone (node_view n)).
  - rewrite <- Hv. now apply in_map.
  - unfold node_view. cbn [fst]. now rewrite Hl, Hk.
Qed.

Lemma attach_patch_sections t a l k p st :
  sound st -> l <> Patch ->
  patch_sections pid (attach t a l k p st)
  = flat_map
      (fun q => out_nodes HAS_SECTION Section (nid q) st
                  ++ (if reltype_eqb t HAS_SECTION && (a =? nid q)
                         && label_eqb l Section
                      then [new_node l k p st] else []))
      (match_nodes Patch pid st).
Proof.
  intros Hs Hl. unfold patch_sections.
  rewrite attach_match_other by (intros H; injection H as H _; congruence).
  apply flat_map_ext. intros q. now apply attach_out_nodes.
Qed.

Lemma attach_patch_changes t a l k p st :
  sound st ->
  patch_changes pid (attach t a l k p st)
  = flat_map
      (fun s => out_nodes HAS_CHANGE Change (nid s) st
                  ++ (if reltype_eqb t HAS_CHANGE && (a =? nid s)
                         && label_eqb l Change
                      then [new_node l k p st] else []))
      (patch_sections pid (attach t a l k p st)).
Proof.
  intros Hs. unfold patch_changes. apply flat_map_ext. intros q.
  now apply attach_out_nodes.
Qed.

Lemma flat_map_plain {X Y : Type} (f : X -> list Y) (xs : list X) :
  flat_map (fun x => f x ++ []) xs = flat_map f xs.
Proof. apply flat_map_ext. intros x. apply app_nil_r. Qed.

(** A section is created and attached to the patch. *)
Lemma attach_section_grows st q sid sp :
  sound st -> match_nodes Patch pid st = [q] -> match_nodes Section sid st = [] ->
  let st' := attach HAS_SECTION (nid q) Section sid sp st in
  grows st st' [(Section, sid, sp)]
    [(HAS_SECTION, Some (Patch, pid), Some (Section, sid))]
  /\ patch_sections pid st' = patch_sections pid st ++ [new_node Section sid sp st].
Proof.
  intros Hs Hq Hnone st'.
  assert (Hin : In q (match_nodes Patch pid st)) by (rewrite Hq; now left).
  pose proof (matched_below _ _ _ _ (proj1 Hs) Hin) as Hlt.
  apply match_nodes_In in Hin as [Hqn [Hql Hqk]].
  assert (Hsec : patch_sections pid st'
                 = patch_sections pid st ++ [new_node Section sid sp st]).
  { unfold st'. rewrite attach_patch_sections by (assumption || discriminate).
    unfold patch_sections. rewrite Hq. cbn [flat_map reltype_eqb label_eqb andb].
    rewrite Nat.eqb_refl. cbn [andb]. now rewrite !app_nil_r. }
  split; [|exact Hsec]. constructor.
  - now apply attach_sound.
  - cbn. lia.
  - unfold st'. rewrite attach_rel_views by assumption.
    rewrite (name_of_node st q (proj1 Hs) Hqn), Hql, Hqk. reflexivity.
  - exists [new_node Section sid sp st],
           [{| rel := HAS_SECTION; src := nid q; dst := next_id st |}].
    split; [reflexivity|]. split; [reflexivity|]. split; [reflexivity|].
    split; [repeat constructor|].
    split; [constructor; [cbn; split; [now left | discriminate] | constructor]|].
    split; [exact Hsec|].
    unfold st' at 1. rewrite attach_patch_changes by assumption.
    fold st'. rewrite Hsec. cbn [reltype_eqb andb filter labelled label new_node label_eqb].
    rewrite flat_map_plain, flat_map_app. cbn [flat_map].
    rewrite (out_nodes_unborn _ _ (nid (new_node Section sid sp st)));
      [| apply Hs | cbn; lia].
    unfold patch_changes. now rewrite !app_nil_r.
Qed.

(** A change is created and attached to the section reached last. *)
Lemma attach_change_grows st front s cid cp :
  sound st -> In s (nodes st) -> label s = Section ->
  patch_sections pid st = front ++ [s] ->
  Forall (fun q => nid q < nid s) front ->
  match_nodes Change cid st = [] ->
  grows st (attach HAS_CHANGE (nid s) Change cid cp st) [(Change, cid, cp)]
    [(HAS_CHANGE, Some (Section, key s), Some (Change, cid))]
  /\ patch_sections pid (attach HAS_CHANGE (nid s) Change cid cp st)
     = patch_sections pid st.
Proof.
  intros Hs Hsn Hsl Hps Hfront Hnone.
  assert (Hlt : nid s < next_id st).
  { destruct Hs as [[_ Hfresh _ _] _]. rewrite Forall_forall in Hfresh.
    now apply Hfresh. }
  assert (Hsec : patch_sections pid (attach HAS_CHANGE (nid s) Change cid cp st)
                 = patch_sections pid st).
  { rewrite attach_patch_sections by (assumption || discriminate).
    cbn [reltype_eqb andb]. rewrite flat_map_plain. reflexivity. }
  split; [|exact Hsec]. constructor.
  - now apply attach_sound.
  - cbn. lia.
  - rewrite attach_rel_views by assumption.
    rewrite (name_of_node st s (proj1 Hs) Hsn), Hsl. reflexivity.
  - exists [new_node Change cid cp st],
           [{| rel := HAS_CHANGE; src := nid s; dst := next_id st |}].
    split; [reflexivity|]. split; [reflexivity|]. split; [reflexivity|].
    split; [repeat constructor|].
    split; [constructor; [cbn; split; [now left | discriminate] | constructor]|].
    split; [rewrite Hsec; cbn; now rewrite app_nil_r|].
    rewrite attach_patch_changes, Hsec by assumption.
    cbn [reltype_eqb label_eqb andb filter labelled label new_node].
    unfold patch_changes. rewrite Hps, !flat_map_app. cbn [flat_map].
    rewrite Nat.eqb_refl, !app_nil_r, <- app_assoc. f_equal.
    apply flat_map_same. intros q Hq. rewrite Forall_forall in Hfront.
    specialize (Hfront q Hq).
    destruct (Nat.eqb_spec (nid s) (nid q)); [lia|]. cbn [andb]. apply app_nil_r.
Qed.

End Growth.

(** *** The loop over the sections on a store that holds none of them *)

Definition section_props (pid : string) (sec : ParsePatch.Section) : Props :=
  SectionProps (ParsePatch.name sec) (ParsePatch.order sec) pid.

Definition change_props (ch : ParsePatch.Change) : Props :=
  ChangeProps (ParsePatch.change_text ch) (ParsePatch.section_name ch)
    (ParsePatch.source_url ch) (ParsePatch.change_order ch).

Definition change_view (ch : ParsePatch.Change) : NodeView :=
  (Change, ParsePatch.change_id ch, change_props ch).

Definition change_rel_view (sid : string) (ch : ParsePatch.Change) : RelView :=
  (HAS_CHANGE, Some (Section, sid), Some (Change, ParsePatch.change_id ch)).

(** A section of the document and its changes, as nodes. *)
Definition section_views (pid : string) (sec : ParsePatch.Section)
  : list NodeView :=
  (Section, ParsePatch.section_id sec, section_props pid sec)
    :: map change_view (ParsePatch.changes sec).

(** The relationships that attach a section to the patch and its changes
    to the section. *)
Definition section_rel_views (pid : string) (sec : ParsePatch.Section)
  : list RelView :=
  (HAS_SECTION, Some (Patch, pid), Some (Section, ParsePatch.section_id sec))
    :: map (change_rel_view (ParsePatch.section_id sec)) (ParsePatch.changes sec).

Definition doc_node_views (pid : string) (secs : list ParsePatch.Section)
  : list NodeView :=
  flat_map (section_views pid) secs.

Definition doc_rel_views (pid : string) (secs : list ParsePatch.Section)
  : list RelView :=
  flat_map (section_rel_views pid) secs.

Lemma merge_section_attach pid sec st q :
  sound st -> match_nodes Patch pid st = [q] ->
  match_nodes Section (ParsePatch.section_id sec) st = [] ->
  merge_section pid sec st
  = attach HAS_SECTION (nid q) Section (ParsePatch.section_id sec)
      (section_props pid sec) st.
Proof.
  intros [_ Hg] Hq Hnone. unfold merge_section. rewrite Hq. cbn [fold_left].
  rewrite <- (merge_attach HAS_SECTION (nid q) Section _ (section_props pid sec) st
                Hg Hnone).
  unfold section_props. now destruct (merge_node Section _ _ st).
Qed.

Lemma change_step_attach s ch st :
  sound st -> match_nodes Change (ParsePatch.change_id ch) st = [] ->
  UpsertFacts.change_step s st ch
  = attach HAS_CHANGE (nid s) Change (ParsePatch.change_id ch) (change_props ch) st.
Proof.
  intros [_ Hg] Hnone. unfold UpsertFacts.change_step.
  rewrite <- (merge_attach HAS_CHANGE (nid s) Change _ (change_props ch) st
                Hg Hnone).
  unfold change_props. now destruct (merge_node Change _ _ st).
Qed.

Lemma change_steps_grow pid s front chs : forall st,
  sound st -> In s (nodes st) -> label s = Section ->
  patch_sections pid st = front ++ [s] ->
  Forall (fun q => nid q < nid s) front ->
  (forall ch, In ch chs -> match_nodes Change (ParsePatch.change_id ch) st = []) ->
  NoDup (map ParsePatch.change_id chs) ->
  grows pid st (fold_left (UpsertFacts.change_step s) chs st)
    (map change_view chs) (map (change_rel_view (key s)) chs).
Proof.
  induction chs as [|ch chs IH]; intros st Hs Hsn Hsl Hps Hfront Hnone Hnd;
    cbn [fold_left map]; [now apply grows_refl|].
  cbn [map] in Hnd. inversion_clear Hnd as [|? ? Hfresh Hnd'].
  rewrite change_step_attach by (assumption || apply Hnone; now left).
  destruct (attach_change_grows pid st front s (ParsePatch.change_id ch)
              (change_props ch) Hs Hsn Hsl Hps Hfront) as [G1 Hsec];
    [apply Hnone; now left|].
  eapply (grows_trans pid _ _ _ [change_view ch] [change_rel_view (key s) ch]);
    [exact G1|].
  apply IH.
  - apply G1.
  - eapply grows_nodes; eassumption.
  - assumption.
  - now rewrite Hsec.
  - assumption.
  - intros ch' Hin. rewrite attach_match_other; [apply Hnone; now right|].
    intros H. injection H as H. apply Hfresh. rewrite <- H. now apply in_map.
  - assumption.
Qed.

Lemma patch_sections_below pid st s :
  clean st -> In s (patch_sections pid st) -> nid s < next_id st.
Proof.
  intros [_ Hfresh _ _] Hs. apply patch_sections_In in Hs as [q [_ [_ [_ Hout]]]].
  apply out_nodes_In in Hout as [r [_ [_ [_ [Hn _]]]]].
  rewrite Forall_forall in Hfresh. now apply Hfresh.
Qed.

Lemma upsert_section_grows pid q sec st a b :
  sound st -> match_nodes Patch pid st = [q] ->
  match_nodes Section (ParsePatch.section_id sec) st = [] ->
  (forall ch, In ch (ParsePatch.changes sec) ->
              match_nodes Change (ParsePatch.change_id ch) st = []) ->
  NoDup (map ParsePatch.change_id (ParsePatch.changes sec)) ->
  grows pid st (fst (upsert_section pid (st, (a, b)) sec))
    (section_views pid sec) (section_rel_views pid sec).
Proof.
  intros Hs Hq Hnone Hchanges Hnd.
  rewrite UpsertFacts.upsert_section_store.
  rewrite (merge_section_attach pid sec st q Hs Hq Hnone).
  destruct (attach_section_grows pid st q (ParsePatch.section_id sec)
              (section_props pid sec) Hs Hq Hnone) as [G1 Hsec].
  set (st1 := attach HAS_SECTION (nid q) Section (ParsePatch.section_id sec)
                (section_props pid sec) st) in *.
  set (s := new_node Section (ParsePatch.section_id sec) (section_props pid sec) st)
    in *.
  assert (Hloop : match ParsePatch.changes sec with
                  | [] => st1
                  | _ :: _ =>
                      merge_changes (ParsePatch.section_id sec)
                        (ParsePatch.changes sec) st1
                  end
                  = fold_left (UpsertFacts.change_step s) (ParsePatch.changes sec) st1).
  { destruct (ParsePatch.changes sec) as [|ch chs] eqn:Hch; [reflexivity|].
    rewrite UpsertFacts.merge_changes_steps. unfold st1.
    rewrite (attach_match_new _ _ _ _ _ _ Hnone). reflexivity. }
  rewrite Hloop.
  apply (grows_trans pid st st1 _
           [(Section, ParsePatch.section_id sec, section_props pid sec)]
           [(HAS_SECTION, Some (Patch, pid), Some (Section, ParsePatch.section_id sec))]
           (map change_view (ParsePatch.changes sec))
           (map (change_rel_view (ParsePatch.section_id sec)) (ParsePatch.changes sec)));
    [exact G1|].
  apply (change_steps_grow pid s (patch_sections pid st)); try assumption.
  - apply G1.
  - unfold st1, attach. cbn [nodes]. apply in_or_app. right. now left.
  - reflexivity.
  - apply Forall_forall. intros s0 Hs0. cbn [s new_node nid].
    now apply (patch_sections_below pid st s0 (proj1 Hs)).
  - intros ch Hch. unfold st1. rewrite attach_match_other by discriminate.
    now apply Hchanges.
Qed.

Lemma sections_loop_grows pid q secs : forall st a b,
  sound st -> match_nodes Patch pid st = [q] ->
  (forall sid, In sid (map ParsePatch.section_id secs) ->
               match_nodes Section sid st = []) ->
  (forall cid, In cid (UpsertFacts.change_ids secs) ->
               match_nodes Change cid st = []) ->
  NoDup (map ParsePatch.section_id secs) ->
  NoDup (UpsertFacts.change_ids secs) ->
  grows pid st (fst (fold_left (upsert_section pid) secs (st, (a, b))))
    (doc_node_views pid secs) (doc_rel_views pid secs).
Proof.
  induction secs as [|sec secs IH]; intros st a b Hs Hq Hsecs Hchs Hnds Hndc;
    cbn [fold_left]; [now apply grows_refl|].
  cbn [map] in Hnds. inversion_clear Hnds as [|? ? Hfresh Hnds'].
  unfold UpsertFacts.change_ids in Hndc, Hchs. cbn [flat_map] in Hndc, Hchs.
  apply UpsertFacts.distinct_parts in Hndc as [Hnd0 [Hndc' Hdisj]].
  assert (G1 : grows pid st (fst (upsert_section pid (st, (a, b)) sec))
                 (section_views pid sec) (section_rel_views pid sec)).
  { apply (upsert_section_grows pid q); try assumption.
    - apply Hsecs. now left.
    - intros ch Hch. apply Hchs, in_or_app. left. now apply in_map. }
  destruct (upsert_section pid (st, (a, b)) sec) as [st1 [a1 b1]].
  cbn [fst] in G1.
  apply (grows_trans pid st st1 _ (section_views pid sec) (section_rel_views pid sec));
    [exact G1|].
  apply IH; try assumption.
  - apply G1.
  - rewrite (grows_match pid st st1 _ _ Patch pid G1); [assumption|].
    intros v [<- | Hv]; [discriminate|].
    apply in_map_iff in Hv as [ch [<- _]]. discriminate.
  - intros sid Hsid. rewrite (grows_match pid st st1 _ _ Section sid G1).
    + apply Hsecs. now right.
    + intros v [<- | Hv].
      * cbn [fst]. intros H. injection H as H. apply Hfresh. now rewrite H.
      * apply in_map_iff in Hv as [ch [<- _]]. discriminate.
  - intros cid Hcid. rewrite (grows_match pid st st1 _ _ Change cid G1).
    + apply Hchs, in_or_app. now right.
    + intros v [<- | Hv]; [discriminate|].
      apply in_map_iff in Hv as [ch [<- Hch]]. cbn [fst change_view].
      intros H. injection H as H. apply (Hdisj cid); [|assumption].
      rewrite <- H. now apply in_map.
Qed.

(** *** The document as the loop writes it *)

Definition view_label (v : NodeView) : Label := fst (fst v).
Definition view_key (v : NodeView) : string := snd (fst v).

Definition text_of_props (p : Props) : string :=
  match p with
  | ChangeProps text _ _ _ => text
  | _ => ""
  end.

Definition key_text (ch : ParsePatch.Change) : string * string :=
  (ParsePatch.change_id ch, ParsePatch.change_text ch).

(** The ids and texts of the changes of the document, in its order. *)
Definition doc_key_texts (secs : list ParsePatch.Section)
  : list (string * string) :=
  flat_map (fun sec => map key_text (ParsePatch.changes sec)) secs.

Lemma filter_all {X : Type} (f : X -> bool) (xs : list X) :
  (forall x, In x xs -> f x = true) -> filter f xs = xs.
Proof.
  induction xs as [|x xs IH]; intros H; cbn [filter]; [reflexivity|].
  rewrite (H x) by now left. f_equal. apply IH. intros y Hy. apply H. now right.
Qed.

Lemma filter_app_split {X : Type} (f : X -> bool) (front back : list X) :
  (forall x, In x front -> f x = true) ->
  (forall x, In x back -> f x = false) ->
  filter f (front ++ back) = front.
Proof.
  intros Hf Hb. now rewrite filter_app, filter_all, filter_nothing, app_nil_r.
Qed.

Lemma views_filter {Y : Type} (keep : NodeView -> bool) (f : NodeView -> Y)
    (ns : list Node) :
  map f (filter keep (map node_view ns))
  = map (fun n => f (node_view n)) (filter (fun n => keep (node_view n)) ns).
Proof.
  induction ns as [|n ns IH]; cbn [map filter]; [reflexivity|].
  destruct (keep (node_view n)); cbn [map]; now rewrite IH.
Qed.

Lemma doc_section_keys pid secs :
  map view_key
      (filter (fun v => label_eqb (view_label v) Section) (doc_node_views pid secs))
  = map ParsePatch.section_id secs.
Proof.
  unfold doc_node_views. induction secs as [|sec secs IH]; cbn [flat_map map];
    [reflexivity|].
  rewrite filter_app, map_app, IH. unfold section_views at 1.
  cbn [filter view_label fst label_eqb map view_key snd app].
  rewrite filter_nothing; [reflexivity|].
  intros v Hv. apply in_map_iff in Hv as [ch [<- _]]. reflexivity.
Qed.

Lemma doc_change_key_texts pid secs :
  map (fun v => (view_key v, text_of_props (snd v)))
      (filter (fun v => label_eqb (view_label v) Change) (doc_node_views pid secs))
  = doc_key_texts secs.
Proof.
  unfold doc_node_views, doc_key_texts.
  induction secs as [|sec secs IH]; cbn [flat_map map]; [reflexivity|].
  rewrite filter_app, map_app, IH. f_equal. unfold section_views.
  cbn [filter view_label fst label_eqb].
  rewrite filter_all.
  - rewrite map_map. apply map_ext. reflexivity.
  - intros v Hv. apply in_map_iff in Hv as [ch [<- _]]. reflexivity.
Qed.

Lemma doc_view_labels pid secs v :
  In v (doc_node_views pid secs) -> view_label v = Section \/ view_label v = Change.
Proof.
  unfold doc_node_views. intros H. apply in_flat_map in H as [sec [_ H]].
  destruct H as [<- | H]; [now left|].
  apply in_map_iff in H as [ch [<- _]]. now right.
Qed.

(** *** A load whose loop starts on a store that holds none of the sections *)

Record ready (pid : string) (secs : list ParsePatch.Section) (st : Store)
    (q : Node) : Prop := {
  r_sound : sound st;
  r_patch : match_nodes Patch pid st = [q];
  r_sections : forall sid, In sid (map ParsePatch.section_id secs) ->
                           match_nodes Section sid st = [];
  r_changes : forall cid, In cid (UpsertFacts.change_ids secs) ->
                          match_nodes Change cid st = [];
  r_empty : patch_sections pid st = [];
  r_sids : NoDup (map ParsePatch.section_id secs);
  r_cids : NoDup (UpsertFacts.change_ids secs)
}.

Lemma ready_grows pid secs st q :
  ready pid secs st q ->
  grows pid st (sections_loop pid secs st)
    (doc_node_views pid secs) (doc_rel_views pid secs).
Proof.
  intros [H1 H2 H3 H4 H5 H6 H7]. unfold sections_loop.
  now apply (sections_loop_grows pid q).
Qed.

(** What the loop adds to the store. *)
Lemma ready_delta pid secs st q :
  ready pid secs st q ->
  exists dN dX,
    nodes (sections_loop pid secs st) = nodes st ++ dN
    /\ rels (sections_loop pid secs st) = rels st ++ dX
    /\ map node_view dN = doc_node_views pid secs
    /\ Forall (fun n => next_id st <= nid n) dN
    /\ Forall (fun r => In (dst r) (map nid dN) /\ rel r <> MENTIONS_AGENT) dX
    /\ patch_sections pid (sections_loop pid secs st) = filter (labelled Section) dN
    /\ patch_changes pid (sections_loop pid secs st) = filter (labelled Change) dN.
Proof.
  intros Hr. destruct (ready_grows pid secs st q Hr)
    as [_ _ _ [dN [dX [H1 [H2 [H3 [H4 [H5 [H6 H7]]]]]]]]].
  exists dN, dX. repeat split; try assumption.
  - rewrite H6. now rewrite (r_empty _ _ _ _ Hr).
  - rewrite H7. unfold patch_changes at 1. now rewrite (r_empty _ _ _ _ Hr).
Qed.

Lemma ready_patch_keys pid secs st q :
  ready pid secs st q ->
  map key (patch_sections pid (sections_loop pid secs st))
  = map ParsePatch.section_id secs
  /\ map (fun c => (key c, text_of c)) (patch_changes pid (sections_loop pid secs st))
     = doc_key_texts secs.
Proof.
  intros Hr. destruct (ready_delta pid secs st q Hr)
    as [dN [dX [_ [_ [Hv [_ [_ [Hs Hc]]]]]]]].
  rewrite Hs, Hc. split.
  - rewrite <- (doc_section_keys pid secs), <- Hv, views_filter. reflexivity.
  - rewrite <- (doc_change_key_texts pid secs), <- Hv, views_filter. reflexivity.
Qed.

Lemma ready_changes_in pid secs st q c :
  ready pid secs st q ->
  In c (patch_changes pid (sections_loop pid secs st)) ->
  In c (nodes (sections_loop pid secs st)) /\ label c = Change
  /\ next_id st <= nid c.
Proof.
  intros Hr Hc. destruct (ready_delta pid secs st q Hr)
    as [dN [dX [HN [_ [_ [Hf [_ [_ Hpc]]]]]]]].
  rewrite Hpc in Hc. apply filter_In in Hc as [Hc Hl].
  split; [rewrite HN; apply in_or_app; now right|].
  split; [now apply label_eqb_spec|].
  rewrite Forall_forall in Hf. now apply Hf.
Qed.

Lemma ready_once pid secs st q :
  ready pid secs st q ->
  NoDup (map nid (patch_changes pid (sections_loop pid secs st))).
Proof.
  intros Hr. destruct (ready_delta pid secs st q Hr)
    as [dN [dX [HN [_ [_ [_ [_ [_ Hpc]]]]]]]].
  destruct (ready_grows pid secs st q Hr) as [[[Hids _ _ _] _] _ _ _].
  rewrite Hpc. apply NoDup_map_filter.
  rewrite HN, map_app in Hids. now apply NoDup_app_remove_l in Hids.
Qed.

Lemma ready_no_mentions pid secs st q r :
  ready pid secs st q ->
  In r (rels (sections_loop pid secs st)) ->
  mentions_from (patch_changes pid (sections_loop pid secs st))
    (sections_loop pid secs st) r = false.
Proof.
  intros Hr Hin. destruct (ready_delta pid secs st q Hr)
    as [dN [dX [_ [HX [_ [_ [Hx _]]]]]]].
  unfold mentions_from. rewrite HX in Hin. apply in_app_or in Hin as [Hin | Hin].
  - destruct (mem_id (src r) _) eqn:Hm;
      [|now rewrite andb_false_r].
    apply mem_id_spec, in_map_iff in Hm as [c [Hc Hpc]].
    destruct (ready_changes_in pid secs st q c Hr Hpc) as [_ [_ Hge]].
    destruct (r_sound _ _ _ _ Hr) as [_ Hg]. unfold grounded in Hg.
    rewrite Forall_forall in Hg. destruct (Hg r Hin) as [Hlt _]. lia.
  - rewrite Forall_forall in Hx. destruct (Hx r Hin) as [_ Hne].
    destruct (reltype_eqb (rel r) MENTIONS_AGENT) eqn:Ht; [|reflexivity].
    apply reltype_eqb_spec in Ht. contradiction.
Qed.

Lemma detect_nil text : detect_agent_mentions text [] = [].
Proof.
  unfold detect_agent_mentions. now destruct (PyStr.is_empty _).
Qed.

(** The relinking after the loop deletes nothing: it adds the mentions
    derived for the changes of the document. *)
Lemma ready_relink pid secs st q roster :
  ready pid secs st q ->
  let B := sections_loop pid secs st in
  fst (relink_patch_agent_mentions B pid roster)
  = with_rels B (rels B ++ flat_map (derived_for B roster) (patch_changes pid B))
  /\ snd (relink_patch_agent_mentions B pid roster)
     = list_sum (map (fun c => List.length (detect_agent_mentions (text_of c) roster))
                     (patch_changes pid B)).
Proof.
  intros Hr B. destruct roster as [|row rows] eqn:Hroster.
  - cbn [relink_patch_agent_mentions fst snd].
    assert (H : forall cs, flat_map (derived_for B []) cs = []
                           /\ list_sum (map (fun c => List.length
                                               (detect_agent_mentions (text_of c) []))
                                            cs) = 0).
    { induction cs as [|c cs [IH1 IH2]]; [now split|].
      cbn [flat_map map list_sum fold_right]. rewrite IH1.
      unfold derived_for, linked_agents. rewrite detect_nil. cbn.
      fold (list_sum (map (fun c0 => List.length (detect_agent_mentions (text_of c0) [])) cs)).
      now rewrite IH2. }
    destruct (H (patch_changes pid B)) as [-> ->].
    rewrite app_nil_r, with_rels_same. now split.
  - rewrite <- Hroster.
    assert (Hne : roster <> []) by (rewrite Hroster; discriminate).
    destruct (ready_grows pid secs st q Hr) as [[Hclean _] _ _ _].
    rewrite (relink_result B pid roster Hclean (ready_once pid secs st q Hr) Hne).
    cbn [fst snd]. split; [|reflexivity]. f_equal. f_equal.
    unfold delete_patch_mentions, delete_rels. cbn [rels].
    apply filter_all. intros r Hin.
    pose proof (ready_no_mentions pid secs st q r Hr Hin) as Hm.
    fold B in Hm. now rewrite Hm.
Qed.

(** *** Relinking changes [MENTIONS_AGENT] relationships only *)

Lemma same_structure_refl st : same_structure st st.
Proof. now split. Qed.

Lemma same_structure_trans st1 st2 st3 :
  same_structure st1 st2 -> same_structure st2 st3 -> same_structure st1 st3.
Proof.
  intros [N1 R1] [N2 R2]. split; [congruence|].
  intros t Ht. now rewrite R1, R2.
Qed.

Lemma same_structure_sections pid st st' :
  same_structure st st' -> patch_sections pid st = patch_sections pid st'.
Proof.
  intros [Hn Hr]. unfold patch_sections, match_nodes. rewrite Hn.
  apply flat_map_ext. intros p.
  apply out_nodes_ext; [assumption | apply Hr; discriminate].
Qed.

Lemma merge_mention_structure a b st :
  same_structure (merge_rel MENTIONS_AGENT a b st) st.
Proof.
  unfold merge_rel. destruct (has_rel _ st); [apply same_structure_refl|].
  split; [reflexivity|]. intros t Ht. cbn [rels]. rewrite filter_app.
  cbn [filter rel]. destruct (reltype_eqb MENTIONS_AGENT t) eqn:E.
  - apply reltype_eqb_spec in E. congruence.
  - apply app_nil_r.
Qed.

Lemma link_change_structure cid uuids st :
  same_structure (link_change cid uuids st) st.
Proof.
  unfold link_change.
  apply (fold_left_inv (fun s => same_structure s st)); [|apply same_structure_refl].
  intros s0 c H0.
  apply (fold_left_inv (fun s => same_structure s st)); [|exact H0].
  intros s1 u H1.
  apply (fold_left_inv (fun s => same_structure s st)); [|exact H1].
  intros s2 a H2. eapply same_structure_trans; [|exact H2].
  apply merge_mention_structure.
Qed.

Lemma relink_structure st pid roster :
  same_structure (fst (relink_patch_agent_mentions st pid roster)) st.
Proof.
  unfold relink_patch_agent_mentions.
  destruct roster as [|row rows]; [apply same_structure_refl|].
  apply (fold_left_inv (fun acc => same_structure (fst acc) st)).
  - intros [s n] [cid text] H. unfold relink_record. cbn [fst] in *.
    destruct (detect_agent_mentions text (row :: rows)); [exact H|].
    cbn [fst]. eapply same_structure_trans; [|exact H].
    apply link_change_structure.
  - cbn [fst]. apply delete_patch_mentions_structure.
Qed.

Lemma relink_patch_lists st pid roster :
  let st' := fst (relink_patch_agent_mentions st pid roster) in
  nodes st' = nodes st
  /\ patch_sections pid st' = patch_sections pid st
  /\ patch_changes pid st' = patch_changes pid st
  /\ forall s, out_nodes HAS_CHANGE Change s st' = out_nodes HAS_CHANGE Change s st.
Proof.
  intros st'. pose proof (relink_structure st pid roster) as H. fold st' in H.
  split; [apply H|]. split; [now apply same_structure_sections|].
  split; [now apply same_structure_changes|].
  intros s. apply out_nodes_ext; [apply H|]. apply H. discriminate.
Qed.

(** *** The store after such a load *)

(** The mentions derived for the change with the id and the text [kt], as a
    query sees them. *)
Definition mention_views (st : Store) (roster : list AgentEntry)
    (kt : string * string) : list RelView :=
  map (fun a => (MENTIONS_AGENT, Some (Change, fst kt), Some (Agent, key a)))
      (flat_map (fun u => match_nodes Agent u st)
         (detect_agent_mentions (snd kt) roster)).

Lemma derived_views st roster c :
  clean st -> In c (nodes st) -> label c = Change ->
  map (rel_view st) (derived_for st roster c)
  = mention_views st roster (key c, text_of c).
Proof.
  intros Hc Hin Hl. unfold derived_for, mention_views, linked_agents.
  cbn [fst snd]. rewrite map_map. apply map_ext_in. intros a Ha.
  apply in_flat_map in Ha as [u [_ Ha]].
  apply match_nodes_In in Ha as [Ha [Hla _]].
  unfold rel_view, mention. cbn [rel src dst].
  now rewrite (name_of_node st c Hc Hin), (name_of_node st a Hc Ha), Hl, Hla.
Qed.

Lemma derived_all_views st roster cs :
  clean st -> (forall c, In c cs -> In c (nodes st) /\ label c = Change) ->
  map (rel_view st) (flat_map (derived_for st roster) cs)
  = flat_map (mention_views st roster) (map (fun c => (key c, text_of c)) cs).
Proof.
  intros Hc. induction cs as [|c cs IH]; intros H; cbn [flat_map map];
    [reflexivity|].
  rewrite map_app, IH by (intros c' Hc'; apply H; now right).
  destruct (H c (or_introl eq_refl)) as [Hin Hl].
  now rewrite derived_views.
Qed.

Lemma mention_views_same st st' roster kt :
  (forall u, match_nodes Agent u st' = match_nodes Agent u st) ->
  mention_views st' roster kt = mention_views st roster kt.
Proof.
  intros H. unfold mention_views. f_equal. apply flat_map_ext. exact H.
Qed.

Lemma ready_agents pid secs st q u :
  ready pid secs st q ->
  match_nodes Agent u (sections_loop pid secs st) = match_nodes Agent u st.
Proof.
  intros Hr. apply (grows_match pid _ _ _ _ Agent u (ready_grows pid secs st q Hr)).
  intros v Hv H. apply doc_view_labels in Hv. unfold view_label in Hv.
  rewrite H in Hv. cbn in Hv. destruct Hv; discriminate.
Qed.

(** The store after the loop and the relinking. *)
Definition relinked (pid : string) (secs : list ParsePatch.Section)
    (roster : list AgentEntry) (st : Store) : Store :=
  fst (relink_patch_agent_mentions (sections_loop pid secs st) pid roster).

Lemma ready_views pid secs st q roster :
  ready pid secs st q ->
  node_views (relinked pid secs roster st)
  = node_views st ++ doc_node_views pid secs
  /\ rel_views (relinked pid secs roster st)
     = rel_views st ++ doc_rel_views pid secs
         ++ flat_map (mention_views st roster) (doc_key_texts secs).
Proof.
  intros Hr. unfold relinked.
  destruct (ready_relink pid secs st q roster Hr) as [HR _]. cbv zeta in HR.
  rewrite HR. set (B := sections_loop pid secs st).
  pose proof (ready_grows pid secs st q Hr) as G. fold B in G.
  destruct (ready_delta pid secs st q Hr) as [dN [dX [HN [_ [Hv _]]]]].
  fold B in HN. split.
  - unfold node_views. cbn [with_rels nodes]. now rewrite HN, map_app, Hv.
  - unfold rel_views at 1. cbn [with_rels rels].
    rewrite (map_ext _ (rel_view B)) by reflexivity.
    rewrite map_app. fold (rel_views B). rewrite (g_rel_views _ _ _ _ _ G).
    rewrite <- app_assoc. apply f_equal. apply f_equal.
    rewrite derived_all_views.
    + destruct (ready_patch_keys pid secs st q Hr) as [_ Hk]. fold B in Hk.
      rewrite Hk. apply flat_map_ext. intros kt. apply mention_views_same.
      intros u. apply (ready_agents pid secs st q u Hr).
    + apply G.
    + intros c Hc. destruct (ready_changes_in pid secs st q c Hr Hc) as [H1 [H2 _]].
      now split.
Qed.

Lemma ready_links pid secs st q roster :
  ready pid secs st q ->
  snd (relink_patch_agent_mentions (sections_loop pid secs st) pid roster)
  = list_sum (map (fun kt => List.length (detect_agent_mentions (snd kt) roster))
                  (doc_key_texts secs)).
Proof.
  intros Hr. destruct (ready_relink pid secs st q roster Hr) as [_ HR].
  cbv zeta in HR. rewrite HR.
  destruct (ready_patch_keys pid secs st q Hr) as [_ Hk]. rewrite <- Hk.
  now rewrite map_map.
Qed.

Lemma doc_key_texts_ids secs :
  map fst (doc_key_texts secs) = UpsertFacts.change_ids secs.
Proof.
  unfold doc_key_texts, UpsertFacts.change_ids.
  induction secs as [|sec secs IH]; cbn [flat_map map]; [reflexivity|].
  now rewrite map_app, map_map, IH.
Qed.

Lemma ready_keys pid secs st q roster :
  ready pid secs st q ->
  map key (patch_sections pid (relinked pid secs roster st))
  = map ParsePatch.section_id secs
  /\ map key (patch_changes pid (relinked pid secs roster st))
     = UpsertFacts.change_ids secs.
Proof.
  intros Hr. unfold relinked.
  destruct (relink_patch_lists (sections_loop pid secs st) pid roster)
    as [_ [Hs [Hc _]]].
  rewrite Hs, Hc. destruct (ready_patch_keys pid secs st q Hr) as [H1 H2].
  split; [exact H1|].
  rewrite <- doc_key_texts_ids, <- H2. now rewrite map_map.
Qed.

Lemma ready_fresh pid secs st q roster n :
  ready pid secs st q ->
  In n (nodes (relinked pid secs roster st)) ->
  In n (nodes st) \/ next_id st <= nid n.
Proof.
  intros Hr Hn. unfold relinked in Hn.
  destruct (relink_patch_lists (sections_loop pid secs st) pid roster) as [HN _].
  rewrite HN in Hn.
  destruct (ready_delta pid secs st q Hr) as [dN [dX [Hd [_ [_ [Hf _]]]]]].
  rewrite Hd in Hn. apply in_app_or in Hn as [Hn | Hn]; [now left|].
  right. rewrite Forall_forall in Hf. now apply Hf.
Qed.

Lemma mentions_from_same_nodes cs st st' r :
  nodes st = nodes st' -> mentions_from cs st r = mentions_from cs st' r.
Proof. unfold mentions_from, node_label_is. now intros ->. Qed.

(** Clearing the patch after such a load removes what the load has added
    and nothing else. *)
Lemma ready_clear pid secs st q roster :
  ready pid secs st q ->
  nodes (clear_patch_subgraph (relinked pid secs roster st) pid) = nodes st
  /\ rels (clear_patch_subgraph (relinked pid secs roster st) pid) = rels st.
Proof.
  intros Hr.
  destruct (ready_relink pid secs st q roster Hr) as [HR _]. cbv zeta in HR.
  destruct (relink_patch_lists (sections_loop pid secs st) pid roster)
    as [HN [HS [HC _]]].
  destruct (ready_delta pid secs st q Hr)
    as [dN [dX [Hd [HX [Hv [Hf [Hx [Hps Hpc]]]]]]]].
  fold (relinked pid secs roster st) in HR, HN, HS, HC.
  set (B := sections_loop pid secs st) in *.
  set (R := relinked pid secs roster st) in *.
  set (D := flat_map (derived_for B roster) (patch_changes pid B)) in *.
  assert (Hrels : rels R = (rels st ++ dX) ++ D).
  { rewrite HR. cbn [with_rels rels]. now rewrite HX. }
  unfold clear_patch_subgraph. rewrite HS, HC, Hps, Hpc.
  set (ids := map nid (filter (labelled Change) dN)
                ++ map nid (filter (labelled Section) dN)).
  assert (Hnew : forall n, In n dN -> mem_id (nid n) ids = true).
  { intros n Hn. apply mem_id_spec. unfold ids. apply in_or_app.
    assert (Hl : view_label (node_view n) = Section
                 \/ view_label (node_view n) = Change).
    { apply (doc_view_labels pid secs). rewrite <- Hv. now apply in_map. }
    cbn in Hl. destruct Hl as [Hl | Hl]; [right | left]; apply in_map;
      apply filter_In; (split; [assumption | now apply label_eqb_spec]). }
  assert (Hold : forall i, i < next_id st -> mem_id i ids = false).
  { intros i Hi. destruct (mem_id i ids) eqn:Hm; [|reflexivity].
    apply mem_id_spec in Hm. unfold ids in Hm.
    rewrite Forall_forall in Hf.
    apply in_app_or in Hm as [Hm | Hm]; apply in_map_iff in Hm as [n [Hn Hin]];
      apply filter_In in Hin as [Hin _]; specialize (Hf n Hin); lia. }
  destruct (r_sound _ _ _ _ Hr) as [[_ Hfresh _ _] Hg].
  rewrite Forall_forall in Hfresh. unfold grounded in Hg.
  rewrite Forall_forall in Hg. split.
  - cbn [detach_delete delete_rels nodes]. rewrite HN, Hd.
    apply filter_app_split.
    + intros n Hn. now rewrite (Hold (nid n) (Hfresh n Hn)).
    + intros n Hn. now rewrite (Hnew n Hn).
  - cbn [detach_delete delete_rels rels]. rewrite Hrels, (filter_app _ (rels st ++ dX)).
    rewrite (filter_all _ (rels st ++ dX)), (filter_nothing _ D), app_nil_r.
    + apply filter_app_split.
      * intros r Hin. destruct (Hg r Hin) as [H1 H2].
        now rewrite (Hold _ H1), (Hold _ H2).
      * intros r Hin. rewrite Forall_forall in Hx. destruct (Hx r Hin) as [Hdst _].
        apply in_map_iff in Hdst as [n [Hn Hin']]. rewrite <- Hn, (Hnew n Hin').
        now rewrite orb_true_r.
    + intros r Hin. apply negb_false_iff.
      rewrite (mentions_from_same_nodes _ R B r HN), <- Hpc.
      apply (LoaderFacts.derived_are_doomed B pid roster r Hin).
    + intros r Hin. apply negb_true_iff.
      rewrite (mentions_from_same_nodes _ R B r HN), <- Hpc.
      apply (ready_no_mentions pid secs st q r Hr). fold B. now rewrite HX.
Qed.

(** *** Writing the roster and the patch node again *)

Definition with_nodes (st : Store) (ns : list Node) : Store :=
  {| nodes := ns; rels := rels st; next_id := next_id st |}.

Lemma with_nodes_same st : with_nodes st (nodes st) = st.
Proof. now destruct st. Qed.

Lemma merge_node_present l k p st :
  match_nodes l k st <> [] ->
  fst (merge_node l k p st)
  = with_nodes st (map (fun n => if is_node l k n then set_props p n else n)
                       (nodes st)).
Proof.
  intros Hne. unfold merge_node.
  destruct (match_nodes l k st); [contradiction | reflexivity].
Qed.

Lemma set_props_same n : set_props (props n) n = n.
Proof. now destruct n. Qed.

(** A [MERGE ... SET] that finds its nodes with the properties it writes
    leaves the store as it is. *)
Lemma merge_node_again l k p st :
  match_nodes l k st <> [] ->
  (forall n, In n (match_nodes l k st) -> props n = p) ->
  fst (merge_node l k p st) = st.
Proof.
  intros Hne Hp. rewrite merge_node_present by assumption.
  transitivity (with_nodes st (nodes st)); [|apply with_nodes_same]. f_equal.
  transitivity (map (fun n => n) (nodes st)); [|apply map_id].
  apply map_ext_in. intros n Hn.
  destruct (is_node l k n) eqn:Hc; [|reflexivity].
  rewrite <- (Hp n); [apply set_props_same|].
  apply match_nodes_In. apply is_node_spec in Hc. tauto.
Qed.

(** The agent node [n] after the roster has been written on a store that
    holds every agent of the roster. *)
Definition settle (rows : list AgentEntry) (n : Node) : Node :=
  if LoaderFacts.is_agent n then
    match LoaderFacts.last_row (key n) rows with
    | Some row => set_props (LoaderFacts.props_of row) n
    | None => n
    end
  else n.

Lemma upsert_agents_step st row rows :
  upsert_agents st (row :: rows)
  = upsert_agents (LoaderFacts.upsert_row st row) rows.
Proof. now rewrite !LoaderFacts.upsert_agents_fold. Qed.

Lemma settle_step row rows n :
  settle rows
    (if is_node Agent (uuid row) n then set_props (LoaderFacts.props_of row) n else n)
  = settle (row :: rows) n.
Proof.
  unfold settle, LoaderFacts.last_row. cbn [rev].
  rewrite LoaderFacts.find_first_part.
  assert (Hsame : LoaderFacts.is_agent
                    (if is_node Agent (uuid row) n
                     then set_props (LoaderFacts.props_of row) n else n)
                  = LoaderFacts.is_agent n
                  /\ key (if is_node Agent (uuid row) n
                          then set_props (LoaderFacts.props_of row) n else n)
                     = key n).
  { now destruct (is_node Agent (uuid row) n). }
  destruct Hsame as [-> ->].
  unfold is_node, LoaderFacts.is_agent.
  destruct (label_eqb (label n) Agent); cbn [andb]; [|reflexivity].
  destruct (find _ (rev rows)) as [last|].
  - now destruct (String.eqb (key n) (uuid row)).
  - cbn [find]. rewrite (String.eqb_sym (uuid row) (key n)).
    now destruct (String.eqb (key n) (uuid row)).
Qed.

Lemma upsert_agents_present rows : forall st,
  (forall row, In row rows -> match_nodes Agent (uuid row) st <> []) ->
  upsert_agents st rows = with_nodes st (map (settle rows) (nodes st)).
Proof.
  induction rows as [|row rows IH]; intros st Hpresent.
  - cbn [upsert_agents].
    transitivity (with_nodes st (nodes st)); [symmetry; apply with_nodes_same|].
    f_equal. transitivity (map (fun n => n) (nodes st)); [symmetry; apply map_id|].
    apply map_ext. intros n.
    unfold settle. now destruct (LoaderFacts.is_agent n).
  - rewrite upsert_agents_step. unfold LoaderFacts.upsert_row.
    rewrite merge_node_present by (apply Hpresent; now left).
    rewrite IH.
    + unfold with_nodes. cbn [nodes rels next_id]. f_equal.
      rewrite map_map. apply map_ext. intros n. apply settle_step.
    + intros row' Hin. specialize (Hpresent row' (or_intror Hin)).
      destruct (match_nodes Agent (uuid row') st) as [|n ns] eqn:Hm;
        [contradiction|].
      assert (Hn : In n (match_nodes Agent (uuid row') st)) by (rewrite Hm; now left).
      apply match_nodes_In in Hn as [Hn [Hl Hk]].
      intros Hnone.
      assert (Hin' : In (if is_node Agent (uuid row) n
                         then set_props (LoaderFacts.props_of row) n else n)
                        (match_nodes Agent (uuid row')
                           (with_nodes st
                              (map (fun n => if is_node Agent (uuid row) n
                                             then set_props (LoaderFacts.props_of row) n
                                             else n)
                                   (nodes st))))).
      { apply match_nodes_In. cbn [with_nodes nodes]. split.
        - now apply (in_map (fun n => if is_node Agent (uuid row) n
                                      then set_props (LoaderFacts.props_of row) n
                                      else n)).
        - now destruct (is_node Agent (uuid row) n). }
      rewrite Hnone in Hin'. destruct Hin'.
Qed.

(** Writing the roster on a store that holds the agents as the roster left
    them changes nothing. *)
Lemma upsert_agents_again st rows st' :
  LoaderFacts.agents_of st' = LoaderFacts.agents_of (upsert_agents st rows) ->
  upsert_agents st' rows = st'.
Proof.
  intros Hsame.
  assert (Hmatch : forall u, match_nodes Agent u st'
                             = match_nodes Agent u (upsert_agents st rows)).
  { intros u. now rewrite !LoaderFacts.match_nodes_agents, Hsame. }
  rewrite upsert_agents_present.
  - transitivity (with_nodes st' (nodes st')); [|apply with_nodes_same]. f_equal.
    transitivity (map (fun n => n) (nodes st')); [|apply map_id].
    apply map_ext_in. intros n Hn.
    unfold settle. destruct (LoaderFacts.is_agent n) eqn:Ha; [|reflexivity].
    pose proof (LoaderFacts.upsert_agents_match (key n) rows st) as Hm.
    destruct (LoaderFacts.last_row (key n) rows) as [row|]; [|reflexivity].
    destruct Hm as [_ Hprops]. rewrite <- Hmatch in Hprops.
    rewrite Forall_forall in Hprops. rewrite <- (Hprops n); [apply set_props_same|].
    apply match_nodes_In. split; [assumption|]. split; [|reflexivity].
    now apply label_eqb_spec.
  - intros row Hin. rewrite Hmatch.
    destruct (LoaderFacts.last_row_some (uuid row) rows) as [last [Hlast _]];
      [now apply in_map|].
    pose proof (LoaderFacts.upsert_agents_match (uuid row) rows st) as Hm.
    rewrite Hlast in Hm. apply Hm.
Qed.

(** *** Stores in which the ids of the document belong to the patch *)

(** Every section node and every change node that carries an id of the
    document is reached from the patch. *)
Definition owned (pid : string) (secs : list ParsePatch.Section) (st : Store)
  : Prop :=
  (forall n, In n (nodes st) -> label n = Section ->
             In (key n) (map ParsePatch.section_id secs) ->
             In n (patch_sections pid st))
  /\ (forall n, In n (nodes st) -> label n = Change ->
                In (key n) (UpsertFacts.change_ids secs) ->
                In n (patch_changes pid st)).

Lemma merge_node_node l k p st n :
  In n (nodes st) ->
  exists n', In n' (nodes (fst (merge_node l k p st)))
             /\ nid n' = nid n /\ label n' = label n /\ key n' = key n
             /\ (label n <> l -> n' = n).
Proof.
  intros Hn. unfold merge_node.
  destruct (match_nodes l k st); cbn [fst nodes].
  - exists n. split; [apply in_or_app; now left | tauto].
  - exists (if is_node l k n then set_props p n else n). split.
    + now apply (in_map (fun n => if is_node l k n then set_props p n else n)).
    + destruct (is_node l k n) eqn:Hc; [|tauto].
      apply is_node_spec in Hc as [Hl _]. cbn. tauto.
Qed.

Lemma merge_node_back l k p st n :
  In n (nodes (fst (merge_node l k p st))) -> label n <> l -> In n (nodes st).
Proof.
  intros Hn Hl.
  pose proof (LoaderFacts.merge_node_filter
                (fun l' _ => negb (label_eqb l' l)) l k p st) as H.
  cbn beta in H.
  assert (Hq : negb (label_eqb (label n) l) = true).
  { apply negb_true_iff. destruct (label_eqb (label n) l) eqn:E; [|reflexivity].
    apply label_eqb_spec in E. contradiction. }
  assert (Hin : In n (filter (fun n => negb (label_eqb (label n) l))
                             (nodes (fst (merge_node l k p st)))))
    by (apply filter_In; now split).
  rewrite H in Hin.
  - now apply filter_In in Hin as [Hin _].
  - apply negb_false_iff. now apply label_eqb_spec.
Qed.

Lemma merge_node_out t l' a b l k p st :
  l' <> l -> In b (out_nodes t l' a st) ->
  In b (out_nodes t l' a (fst (merge_node l k p st))).
Proof.
  intros Hl Hb. apply out_nodes_In in Hb as [r [Hr [Ht [Hs [Hn [Hd Hlb]]]]]].
  apply out_nodes_In. exists r. rewrite LoaderFacts.merge_node_rels.
  repeat split; try assumption.
  destruct (merge_node_node l k p st b Hn) as [b' [Hb' [_ [_ [_ Hsame]]]]].
  rewrite <- (Hsame ltac:(congruence)). exact Hb'.
Qed.

Lemma merge_node_sections_incl pid l k p st s :
  l <> Section -> In s (patch_sections pid st) ->
  In s (patch_sections pid (fst (merge_node l k p st))).
Proof.
  intros Hl Hs. apply patch_sections_In in Hs as [q [Hq [Hql [Hqk Hout]]]].
  destruct (merge_node_node l k p st q Hq) as [q' [Hq' [Hid [Hl' [Hk' _]]]]].
  apply patch_sections_In. exists q'.
  split; [assumption|]. split; [congruence|]. split; [congruence|].
  rewrite Hid. apply merge_node_out; [congruence | assumption].
Qed.

Lemma merge_node_changes_incl pid l k p st c :
  l <> Section -> l <> Change -> In c (patch_changes pid st) ->
  In c (patch_changes pid (fst (merge_node l k p st))).
Proof.
  intros Hs Hc Hin. apply patch_changes_In in Hin as [s [Hsec Hout]].
  apply patch_changes_In. exists s.
  split; [now apply merge_node_sections_incl|].
  apply merge_node_out; [congruence | assumption].
Qed.

Lemma merge_node_owned pid secs l k p st :
  l <> Section -> l <> Change ->
  owned pid secs st -> owned pid secs (fst (merge_node l k p st)).
Proof.
  intros Hs Hc [H1 H2]. split.
  - intros n Hn Hl Hk. apply merge_node_sections_incl; [assumption|].
    apply H1; try assumption. apply (merge_node_back l k p); [assumption | congruence].
  - intros n Hn Hl Hk. apply merge_node_changes_incl; try assumption.
    apply H2; try assumption. apply (merge_node_back l k p); [assumption | congruence].
Qed.

Lemma upsert_agents_owned pid secs st rows :
  owned pid secs st -> owned pid secs (upsert_agents st rows).
Proof.
  intros H. rewrite LoaderFacts.upsert_agents_fold.
  apply fold_left_inv; [|assumption]. intros s row Hs.
  apply merge_node_owned; (discriminate || assumption).
Qed.

(** Clearing the patch in such a store leaves none of the sections and
    changes of the document behind. *)
Lemma clear_ready pid secs st q :
  sound st -> match_nodes Patch pid st = [q] -> owned pid secs st ->
  NoDup (map ParsePatch.section_id secs) ->
  NoDup (UpsertFacts.change_ids secs) ->
  ready pid secs (clear_patch_subgraph st pid) q.
Proof.
  intros Hs Hq [Ho1 Ho2] Hn1 Hn2.
  destruct (clear_patch_subgraph_spec st pid) as [Hgone [_ [Hempty _]]].
  cbv zeta in Hgone, Hempty.
  assert (Hqin : In q (match_nodes Patch pid st)) by (rewrite Hq; now left).
  apply match_nodes_In in Hqin as [Hqn [Hql Hqk]].
  assert (Hsub : forall n, In n (nodes (clear_patch_subgraph st pid)) ->
                           In n (nodes st)).
  { intros n Hn. now apply (clear_patch_subgraph_sub st pid). }
  constructor; try assumption.
  - now apply clear_patch_subgraph_sound.
  - pose proof (UpsertFacts.clear_patch_subgraph_keeps_patch st pid q
                  (proj1 Hs) Hqn Hql) as Hkept.
    pose proof (match_nodes_unique _ q
                  (clear_patch_subgraph_clean st pid (proj1 Hs)) Hkept) as Hu.
    now rewrite Hql, Hqk in Hu.
  - intros sid Hsid. apply empty_list. intros n Hn.
    apply match_nodes_In in Hn as [Hn [Hl Hk]].
    apply (Hgone n) with (m := n); [|assumption | reflexivity].
    apply in_or_app. right. apply Ho1; [now apply Hsub | assumption |].
    now rewrite Hk.
  - intros cid Hcid. apply empty_list. intros n Hn.
    apply match_nodes_In in Hn as [Hn [Hl Hk]].
    apply (Hgone n) with (m := n); [|assumption | reflexivity].
    apply in_or_app. left. apply Ho2; [now apply Hsub | assumption |].
    now rewrite Hk.
Qed.

(** After any load the ids of the document belong to the patch. *)
Lemma loaded_owned st patch_doc :
  clean st ->
  NoDup (map ParsePatch.section_id (ParsePatch.sections patch_doc)) ->
  NoDup (UpsertFacts.change_ids (ParsePatch.sections patch_doc)) ->
  owned (ParsePatch.patch_id (ParsePatch.patch patch_doc))
    (ParsePatch.sections patch_doc) (fst (upsert_patch st patch_doc)).
Proof.
  intros Hc Hn1 Hn2.
  destruct (UpsertFacts.upsert_patch_loads st patch_doc Hc Hn1 Hn2) as [_ Hall].
  cbv zeta in Hall.
  pose proof (upsert_patch_clean st patch_doc Hc) as Hclean.
  set (pid := ParsePatch.patch_id (ParsePatch.patch patch_doc)) in *.
  set (B := fst (upsert_patch st patch_doc)) in *.
  split.
  - intros n Hn Hl Hk. apply in_map_iff in Hk as [sec [Hid Hsec]].
    destruct (Hall sec Hsec) as [s [Hs [Hks _]]].
    assert (Heq : s = n).
    { pose proof Hs as Hs'. apply patch_sections_In in Hs' as [q [_ [_ [_ Hout]]]].
      apply out_nodes_In in Hout as [r [_ [_ [_ [Hsn [_ Hsl]]]]]].
      apply (UpsertFacts.same_key_same_node B); try assumption; congruence. }
    now rewrite <- Heq.
  - intros n Hn Hl Hk. unfold UpsertFacts.change_ids in Hk.
    apply in_flat_map in Hk as [sec [Hsec Hk]].
    apply in_map_iff in Hk as [ch [Hid Hch]].
    destruct (Hall sec Hsec) as [s [_ [_ [_ Hchanges]]]].
    destruct (Hchanges ch Hch) as [c [Hout [Hpc [Hkc _]]]].
    assert (Heq : c = n).
    { apply out_nodes_In in Hout as [r [_ [_ [_ [Hcn [_ Hcl]]]]]].
      apply (UpsertFacts.same_key_same_node B); try assumption; congruence. }
    now rewrite <- Heq.
Qed.

(** *** The document in the store *)

(** The store holds the patch node of the document and, reached from it,
    every section and change of the document with its properties. *)
Definition holds_document (st : Store) (patch_doc : ParsePatch.PatchDocument)
  : Prop :=
  let pid := ParsePatch.patch_id (ParsePatch.patch patch_doc) in
  (exists p, match_nodes Patch pid st = [p] /\ props p = patch_props patch_doc)
  /\ forall sec,
       In sec (ParsePatch.sections patch_doc) ->
       exists s,
         In s (patch_sections pid st)
         /\ key s = ParsePatch.section_id sec
         /\ props s = section_props pid sec
         /\ forall ch,
              In ch (ParsePatch.changes sec) ->
              exists c,
                In c (out_nodes HAS_CHANGE Change (nid s) st)
                /\ In c (patch_changes pid st)
                /\ key c = ParsePatch.change_id ch
                /\ props c = change_props ch.

Lemma upsert_patch_holds st patch_doc :
  clean st ->
  NoDup (map ParsePatch.section_id (ParsePatch.sections patch_doc)) ->
  NoDup (UpsertFacts.change_ids (ParsePatch.sections patch_doc)) ->
  holds_document (fst (upsert_patch st patch_doc)) patch_doc.
Proof. intros Hc H1 H2. exact (UpsertFacts.upsert_patch_loads st patch_doc Hc H1 H2). Qed.

Lemma relink_holds st patch_doc roster :
  holds_document st patch_doc ->
  holds_document
    (fst (relink_patch_agent_mentions st
            (ParsePatch.patch_id (ParsePatch.patch patch_doc)) roster))
    patch_doc.
Proof.
  unfold holds_document.
  set (pid := ParsePatch.patch_id (ParsePatch.patch patch_doc)).
  destruct (relink_patch_lists st pid roster) as [HN [HS [HC HO]]].
  intros [Hp Hall]. rewrite HS, HC. split.
  - now rewrite (match_nodes_nodes Patch pid _ st HN).
  - intros sec Hsec. destruct (Hall sec Hsec) as [s [H1 [H2 [H3 H4]]]].
    exists s. repeat split; try assumption.
    intros ch Hch. rewrite HO. now apply H4.
Qed.

Lemma relink_owned pid secs st roster :
  owned pid secs st ->
  owned pid secs (fst (relink_patch_agent_mentions st pid roster)).
Proof.
  destruct (relink_patch_lists st pid roster) as [HN [HS [HC _]]].
  intros [H1 H2]. unfold owned. now rewrite HN, HS, HC.
Qed.

(** *** The two loads *)

Section TwoLoads.

Variable st : Store.
Variable patch_doc : ParsePatch.PatchDocument.
Variable agents_doc : option (list AgentEntry).
Variable wipe : bool.

Hypothesis st_clean : clean st.
Hypothesis st_grounded : grounded st.
Hypothesis section_ids_distinct :
  NoDup (map ParsePatch.section_id (ParsePatch.sections patch_doc)).
Hypothesis change_ids_distinct :
  NoDup (UpsertFacts.change_ids (ParsePatch.sections patch_doc)).

Definition doc_pid : string := ParsePatch.patch_id (ParsePatch.patch patch_doc).
Definition doc_sections : list ParsePatch.Section := ParsePatch.sections patch_doc.
Definition doc_roster : list AgentEntry := LoaderFacts.roster_of agents_doc.

(** The store after the roster has been written by the first load. *)
Definition written : Store := upsert_agents (start_of wipe st) doc_roster.

Definition first_store : Store :=
  fst (load_to_neo4j st patch_doc agents_doc wipe).

Lemma start_sound : sound (start_of wipe st).
Proof.
  unfold start_of. destruct wipe; [apply wipe_all_sound | now split].
Qed.

Lemma written_sound : sound written.
Proof. apply upsert_agents_sound, start_sound. Qed.

Lemma load_relinked s w :
  let W := upsert_agents (start_of w s) doc_roster in
  fst (load_to_neo4j s patch_doc agents_doc w)
  = relinked doc_pid doc_sections doc_roster (cleared W patch_doc)
  /\ agent_links (snd (load_to_neo4j s patch_doc agents_doc w))
     = snd (relink_patch_agent_mentions
              (sections_loop doc_pid doc_sections (cleared W patch_doc))
              doc_pid doc_roster)
  /\ agents (snd (load_to_neo4j s patch_doc agents_doc w))
     = List.length doc_roster.
Proof.
  intros W. destruct (load_store s patch_doc agents_doc w) as [H1 [H2 H3]].
  cbv zeta in H1, H2, H3. rewrite upsert_patch_store in H1, H2.
  now repeat split.
Qed.

Lemma first_sound : sound first_store.
Proof. apply load_sound. now split. Qed.

Lemma first_holds : holds_document first_store patch_doc.
Proof.
  unfold first_store. destruct (load_store st patch_doc agents_doc wipe) as [-> _].
  apply relink_holds, upsert_patch_holds; try assumption.
  apply written_sound.
Qed.

Lemma first_owned : owned doc_pid doc_sections first_store.
Proof.
  unfold first_store. destruct (load_store st patch_doc agents_doc wipe) as [-> _].
  apply relink_owned, loaded_owned; try assumption.
  apply written_sound.
Qed.

(** The second load starts on the first store as it is: the roster and
    the patch node are found as they were written. *)
Lemma second_start :
  upsert_agents (start_of false first_store) doc_roster = first_store
  /\ cleared first_store patch_doc = clear_patch_subgraph first_store doc_pid.
Proof.
  split.
  - cbn [start_of]. apply (upsert_agents_again (start_of wipe st)).
    unfold first_store, start_of, doc_roster.
    now apply LoaderFacts.load_to_neo4j_agents.
  - unfold cleared. fold doc_pid. f_equal.
    destruct first_holds as [[p [Hp Hprops]] _]. fold doc_pid in Hp.
    apply merge_node_again.
    + rewrite Hp. discriminate.
    + intros n Hn. rewrite Hp in Hn. destruct Hn as [<- | []]. exact Hprops.
Qed.

Definition second_start_store : Store :=
  clear_patch_subgraph first_store doc_pid.

Lemma second_ready : exists q, ready doc_pid doc_sections second_start_store q.
Proof.
  destruct first_holds as [[p [Hp _]] _]. fold doc_pid in Hp.
  exists p. apply clear_ready; try assumption.
  - apply first_sound.
  - apply first_owned.
Qed.

Definition second_store : Store :=
  fst (load_to_neo4j first_store patch_doc agents_doc false).

Lemma second_relinked :
  second_store = relinked doc_pid doc_sections doc_roster second_start_store
  /\ agent_links (snd (load_to_neo4j first_store patch_doc agents_doc false))
     = snd (relink_patch_agent_mentions
              (sections_loop doc_pid doc_sections second_start_store)
              doc_pid doc_roster).
Proof.
  destruct (load_relinked first_store false) as [H1 [H2 _]].
  cbv zeta in H1, H2. destruct second_start as [HU HM].
  rewrite HU, HM in H1, H2. now split.
Qed.

(** The second load removes every section and change node the first load
    left under the patch: the nodes it creates carry new identities. *)
Lemma second_replaces n :
  In n (patch_sections doc_pid first_store ++ patch_changes doc_pid first_store) ->
  ~ In (nid n) (map nid (nodes second_store)).
Proof.
  intros Hn Hin. apply in_map_iff in Hin as [m [Hid Hm]].
  destruct second_ready as [q Hr]. destruct second_relinked as [HS _].
  rewrite HS in Hm.
  assert (Hdoomed : In n (patch_changes doc_pid first_store
                          ++ patch_sections doc_pid first_store)).
  { apply in_or_app. apply in_app_or in Hn. tauto. }
  destruct (ready_fresh _ _ _ _ doc_roster m Hr Hm) as [Hold | Hnew].
  - destruct (clear_patch_subgraph_spec first_store doc_pid) as [Hgone _].
    cbv zeta in Hgone. exact (Hgone n Hdoomed m Hold Hid).
  - assert (Hlt : nid n < next_id first_store).
    { destruct (LoaderFacts.doomed_not_agent first_store doc_pid n Hdoomed) as [Hnn _].
      destruct first_sound as [[_ Hfresh _ _] _].
      rewrite Forall_forall in Hfresh. now apply Hfresh. }
    unfold second_start_store, clear_patch_subgraph in Hnew. cbn in Hnew. lia.
Qed.

Lemma second_keys :
  map key (patch_sections doc_pid second_store)
  = map ParsePatch.section_id doc_sections
  /\ map key (patch_changes doc_pid second_store)
     = UpsertFacts.change_ids doc_sections.
Proof.
  destruct second_ready as [q Hr]. destruct second_relinked as [-> _].
  now apply (ready_keys _ _ _ q).
Qed.

(** After the second load every mention from a change of the patch is one
    the roster accounts for. *)
Lemma second_mentions :
  doc_roster <> [] -> only_derived_mentions second_store doc_pid doc_roster.
Proof.
  intros Hne. destruct second_ready as [q Hr]. destruct second_relinked as [-> _].
  unfold relinked. apply relink_only_derived; [| |assumption].
  - apply (ready_grows _ _ _ _ Hr).
  - apply (ready_once _ _ _ _ Hr).
Qed.

(** *** A first load on a store in which the ids belong to the patch *)

Hypothesis start_owned : wipe = true \/ owned doc_pid doc_sections st.

Definition first_start_store : Store := cleared written patch_doc.

Lemma first_ready : exists q, ready doc_pid doc_sections first_start_store q.
Proof.
  unfold first_start_store, cleared. fold doc_pid.
  set (M := fst (merge_node Patch doc_pid (patch_props patch_doc) written)).
  assert (HM : sound M) by (apply merge_node_sound, written_sound).
  destruct (LoaderFacts.merge_node_same Patch doc_pid (patch_props patch_doc) written)
    as [Hne _].
  destruct (LoaderFacts.match_nodes_single M Patch doc_pid (proj1 HM) Hne) as [q Hq].
  exists q. apply clear_ready; try assumption.
  apply merge_node_owned; try discriminate. apply upsert_agents_owned.
  unfold start_of. destruct start_owned as [-> | H]; [|now destruct wipe].
  split; intros n [].
Qed.

Lemma first_relinked :
  first_store = relinked doc_pid doc_sections doc_roster first_start_store
  /\ agent_links (snd (load_to_neo4j st patch_doc agents_doc wipe))
     = snd (relink_patch_agent_mentions
              (sections_loop doc_pid doc_sections first_start_store)
              doc_pid doc_roster).
Proof.
  destruct (load_relinked st wipe) as [H1 [H2 _]]. now split.
Qed.

(** The second load starts from the nodes and relationships the first load
    started from. *)
Lemma same_start :
  nodes second_start_store = nodes first_start_store
  /\ rels second_start_store = rels first_start_store.
Proof.
  destruct first_ready as [q Hr]. unfold second_start_store.
  destruct first_relinked as [-> _]. now apply (ready_clear _ _ _ q).
Qed.

Lemma same_views :
  node_views second_store = node_views first_store
  /\ rel_views second_store = rel_views first_store.
Proof.
  destruct first_ready as [q1 Hr1]. destruct second_ready as [q2 Hr2].
  destruct first_relinked as [HF _]. destruct second_relinked as [HS _].
  destruct same_start as [HN HR].
  destruct (ready_views _ _ _ _ doc_roster Hr1) as [V1 W1].
  destruct (ready_views _ _ _ _ doc_roster Hr2) as [V2 W2].
  rewrite HF, HS, V1, V2, W1, W2. split.
  - unfold node_views. now rewrite HN.
  - f_equal.
    + unfold rel_views. rewrite HR. apply map_ext. intros r. unfold rel_view.
      now rewrite !(name_of_same_nodes _ _ _ HN).
    + f_equal. apply flat_map_ext. intros kt. apply mention_views_same.
      intros u. now apply match_nodes_nodes.
Qed.

Lemma same_links :
  agent_links (snd (load_to_neo4j first_store patch_doc agents_doc false))
  = agent_links (snd (load_to_neo4j st patch_doc agents_doc wipe)).
Proof.
  destruct first_ready as [q1 Hr1]. destruct second_ready as [q2 Hr2].
  destruct first_relinked as [_ ->]. destruct second_relinked as [_ ->].
  now rewrite (ready_links _ _ _ _ doc_roster Hr1), (ready_links _ _ _ _ doc_roster Hr2).
Qed.

End TwoLoads.

Lemma stats_eq (a b : Stats) :
  sections a = sections b -> changes a = changes b ->
  agents a = agents b -> agent_links a = agent_links b -> a = b.
Proof. destruct a, b. cbn. now intros -> -> -> ->. Qed.

(** C2. Loading a document with distinct section and change ids twice, with
    the same roster, into a store without duplicates in which no
    relationship refers to an identity not yet handed out: both loads
    return the number of sections and the number
    of changes of the document; after each load the store has no duplicate
    node or relationship and holds the patch node, every section and every
    change of the document, reached from the patch, with their properties.
    The second load deletes every section and change node the first one left
    under the patch and creates them anew: none of their identities is left
    in the store, the sections and changes under the patch are those of the
    document, once each and in its order, and every mention from a change of
    the patch is one the roster accounts for.  When the ids of the document
    belonged to the patch before the first load (or the first load wipes the
    store), the second load leaves the nodes and relationships the first one
    left, node identities aside, and returns the same statistics. *)
Theorem materialization_is_idempotent st patch_doc agents_doc wipe :
  clean st -> grounded st ->
  NoDup (map ParsePatch.section_id (ParsePatch.sections patch_doc)) ->
  NoDup (UpsertFacts.change_ids (ParsePatch.sections patch_doc)) ->
  let pid := ParsePatch.patch_id (ParsePatch.patch patch_doc) in
  let secs := ParsePatch.sections patch_doc in
  let roster := LoaderFacts.roster_of agents_doc in
  let first := load_to_neo4j st patch_doc agents_doc wipe in
  let second := load_to_neo4j (fst first) patch_doc agents_doc false in
  (sections (snd first) = List.length secs
   /\ changes (snd first) = count_changes secs
   /\ sections (snd second) = sections (snd first)
   /\ changes (snd second) = changes (snd first))
  /\ (clean (fst first) /\ clean (fst second))
  /\ (holds_document (fst first) patch_doc
      /\ holds_document (fst second) patch_doc)
  /\ (forall n,
         In n (patch_sections pid (fst first) ++ patch_changes pid (fst first)) ->
         ~ In (nid n) (map nid (nodes (fst second))))
  /\ (map key (patch_sections pid (fst second)) = map ParsePatch.section_id secs
      /\ map key (patch_changes pid (fst second)) = UpsertFacts.change_ids secs)
  /\ (roster <> [] -> only_derived_mentions (fst second) pid roster)
  /\ (wipe = true \/ owned pid secs st ->
      node_views (fst second) = node_views (fst first)
      /\ rel_views (fst second) = rel_views (fst first)
      /\ snd second = snd first).
Proof.
  intros Hc Hg Hn1 Hn2 pid secs roster first second.
  destruct (load_to_neo4j_counts st patch_doc agents_doc wipe) as [Hs1 Hc1].
  destruct (load_to_neo4j_counts (fst first) patch_doc agents_doc false)
    as [Hs2 Hc2].
  fold first in Hs1, Hc1. fold second in Hs2, Hc2.
  assert (Hclean1 : clean (fst first)) by now apply load_to_neo4j_clean.
  assert (Hground1 : grounded (fst first))
    by (apply (first_sound st patch_doc agents_doc wipe); assumption).
  split; [unfold secs; repeat split; congruence|].
  split; [split; [assumption | now apply load_to_neo4j_clean]|].
  split.
  { split; [now apply first_holds|].
    apply (first_holds (fst first) patch_doc agents_doc false); assumption. }
  split; [apply (second_replaces st patch_doc agents_doc wipe); assumption|].
  split; [apply (second_keys st patch_doc agents_doc wipe); assumption|].
  split; [apply (second_mentions st patch_doc agents_doc wipe); assumption|].
  intros Howned.
  destruct (same_views st patch_doc agents_doc wipe Hc Hg Hn1 Hn2 Howned)
    as [Hv Hr].
  split; [exact Hv|]. split; [exact Hr|].
  apply stats_eq; try congruence.
  - destruct (load_store st patch_doc agents_doc wipe) as [_ [_ Ha1]].
    destruct (load_store (fst first) patch_doc agents_doc false) as [_ [_ Ha2]].
    cbv zeta in Ha1, Ha2. fold first in Ha1. fold second in Ha2. congruence.
  - apply (same_links st patch_doc agents_doc wipe); assumption.
Qed.

Lemma materialization_is_idempotent_witness :
  let first :=
    load_to_neo4j Graph.empty IdFacts.small_doc (Some RosterFixture.roster) false in
  let second :=
    load_to_neo4j (fst first) IdFacts.small_doc (Some RosterFixture.roster) false in
  clean Graph.empty
  /\ grounded Graph.empty
  /\ NoDup (map ParsePatch.section_id (ParsePatch.sections IdFacts.small_doc))
  /\ NoDup (UpsertFacts.change_ids (ParsePatch.sections IdFacts.small_doc))
  /\ owned "12.02" (ParsePatch.sections IdFacts.small_doc) Graph.empty
  /\ holds_document (fst second) IdFacts.small_doc
  /\ node_views (fst second) = node_views (fst first)
  /\ rel_views (fst second) = rel_views (fst first)
  /\ snd second = snd first.
Proof.
  intros first second.
  assert (Hs : NoDup (map ParsePatch.section_id (ParsePatch.sections IdFacts.small_doc))).
  { vm_compute. constructor; [intros [] | constructor]. }
  assert (Hc : NoDup (UpsertFacts.change_ids (ParsePatch.sections IdFacts.small_doc))).
  { vm_compute. constructor; [|constructor; [intros [] | constructor]].
    intros [H | []]. discriminate H. }
  assert (Ho : owned "12.02" (ParsePatch.sections IdFacts.small_doc) Graph.empty)
    by (split; intros n []).
  pose proof (materialization_is_idempotent Graph.empty IdFacts.small_doc
                (Some RosterFixture.roster) false
                clean_empty (proj2 sound_empty) Hs Hc) as H.
  cbv zeta in H.
  destruct H as [_ [_ [[_ Hh] [_ [_ [_ Hsame]]]]]].
  destruct (Hsame (or_intror Ho)) as [Hv [Hr Hst]].
  split; [exact clean_empty|]. split; [exact (proj2 sound_empty)|].
  split; [exact Hs|]. split; [exact Hc|]. split; [exact Ho|].
  split; [exact Hh|]. split; [exact Hv|]. split; [exact Hr | exact Hst].
Defined.

End ReloadFacts.
